(** * Maze engine: a shallow embedding of the lattice grid, the generators,
      the post-processor, the solvers and the serializer, with the
      properties of the specification stated and settled over it.

    Python integers are modelled as [Z]; the byte array [Grid.cells]
    (an [array('B')]) as a [list Z] indexed through [getitem]/[setitem],
    which reproduce Python's negative-index wrap-around, its [IndexError]
    and the [OverflowError] of a byte array.  Exceptions are values of
    [result]; code that threads the grid through many calls is written in
    the [result] monad.  The optional [event_writer] only logs and is
    [None] throughout.  Python floats are IEEE 754 binary64 numbers, with
    the arithmetic of the standard library's [SpecFloat]. *)

From Stdlib Require Import ZArith QArith List Lia Bool String.
From Stdlib Require Floats.SpecFloat.
From stdpp Require Import base option list gmap.

Local Open Scope Z_scope.

(** ** Exceptions

    [OutOfFuel] is not a Python exception: unbounded [while] loops are
    modelled with a step budget, and [OutOfFuel] reports that the budget
    was too small for the loop to finish. *)

Inductive exn : Type :=
  | IndexError
  | ValueError
  | KeyError
  | OverflowError
  | ZeroDivisionError
  | StructError
  | ZlibError
  | OutOfFuel.

Inductive result (A : Type) : Type :=
  | Ok (a : A)
  | Raise (e : exn).
Arguments Ok {A} a.
Arguments Raise {A} e.

Definition bind {A B : Type} (m : result A) (f : A -> result B) : result B :=
  match m with
  | Ok a => f a
  | Raise e => Raise e
  end.

Notation "'let*' x ':=' m 'in' k" := (bind m (fun x => k))
  (at level 10, x name, m at level 200, k at level 200).
Notation "'let*' ' pat ':=' m 'in' k" :=
  (bind m (fun x => match x with pat => k end))
  (at level 10, pat pattern, m at level 200, k at level 200).

Definition is_ok {A} (r : result A) : bool :=
  match r with Ok _ => true | Raise _ => false end.

(** ** Python sequence indexing *)

(** [seq[i]] for a sequence of length [len]: [0 <= i < len] indexes from
    the front, [-len <= i < 0] from the back, anything else raises. *)
Definition py_index (len : nat) (i : Z) : result nat :=
  if (0 <=? i) && (i <? Z.of_nat len) then Ok (Z.to_nat i)
  else if (- Z.of_nat len <=? i) && (i <? 0) then Ok (Z.to_nat (Z.of_nat len + i))
  else Raise IndexError.

Definition getitem (l : list Z) (i : Z) : result Z :=
  let* n := py_index (length l) i in
  match l !! n with
  | Some v => Ok v
  | None => Raise IndexError
  end.

(** An [array('B')] only stores values in [0, 255], an [array('i')] signed
    32-bit values; storing anything else raises [OverflowError]. *)
Definition is_byte (v : Z) : bool := (0 <=? v) && (v <? 256).
Definition is_int32 (v : Z) : bool := (- 2 ^ 31 <=? v) && (v <? 2 ^ 31).

Definition array_set (fits : Z -> bool) (l : list Z) (i : Z) (v : Z)
  : result (list Z) :=
  let* n := py_index (length l) i in
  if fits v then Ok (<[n := v]> l) else Raise OverflowError.

Definition setitem : list Z -> Z -> Z -> result (list Z) := array_set is_byte.
Definition setitem_i : list Z -> Z -> Z -> result (list Z) := array_set is_int32.

(** A [for] loop whose body may raise. *)
Fixpoint foldM {A S : Type} (f : S -> A -> result S) (l : list A) (s : S)
  : result S :=
  match l with
  | [] => Ok s
  | a :: rest => let* s' := f s a in foldM f rest s'
  end.

(** ** Python floats

    A [float] is a binary64 number: 53 bits of precision, infinities at
    exponent 1024, rounding to nearest with ties to even. *)

Module PyFloat.
Import SpecFloat.

Definition prec : Z := 53.
Definition emax : Z := 1024.

Definition t : Type := spec_float.

(** The literals [0.0], [1.0] and [0.5]. *)
Definition zero : t := S754_zero false.
Definition one : t := S754_finite false 4503599627370496 (-52).
Definition half : t := S754_finite false 4503599627370496 (-53).

(** The conversion of an [int] operand that meets a [float]: the nearest
    float, or [OverflowError] when the integer is beyond the range. *)
Definition of_int (n : Z) : result t :=
  match binary_normalize prec emax n 0 false with
  | S754_infinity _ => Raise OverflowError
  | f => Ok f
  end.

Definition mul (x y : t) : t := SFmul prec emax x y.

(** [int(x)]: truncation toward zero; [OverflowError] on an infinity and
    [ValueError] on a NaN. *)
Definition to_int (x : t) : result Z :=
  match x with
  | S754_zero _ => Ok 0
  | S754_infinity _ => Raise OverflowError
  | S754_nan => Raise ValueError
  | S754_finite s m e => Ok (cond_Zopp s (Z.shiftl (Zpos m) e))
  end.

Definition ltb (x y : t) : bool := SFltb x y.
Definition leb (x y : t) : bool := SFleb x y.

(** [a / b] on two [int]s: the float nearest the quotient;
    [ZeroDivisionError] on a zero divisor, [OverflowError] when the
    quotient is beyond the range. *)
Definition truediv (a b : Z) : result t :=
  if b =? 0 then Raise ZeroDivisionError
  else if a =? 0 then Ok (S754_zero (b <? 0))
  else
    match SFdiv prec emax (S754_finite (a <? 0) (Z.to_pos (Z.abs a)) 0)
                          (S754_finite (b <? 0) (Z.to_pos (Z.abs b)) 0) with
    | S754_infinity _ => Raise OverflowError
    | q => Ok q
    end.

(** The literal [0.90]. *)
Definition ninety_hundredths : t := S754_finite false 8106479329266893 (-53).

(** A value a Python float can hold. *)
Definition valid (x : t) : bool := valid_binary prec emax x.

End PyFloat.

(** Equality of coordinate tuples. *)
Definition coord_eqb (a b : Z * Z) : bool :=
  (fst a =? fst b) && (snd a =? snd b).

(** ** core/grid.py *)

Module Grid.

Definition NORTH : Z := 1.
Definition EAST : Z := 2.
Definition SOUTH : Z := 4.
Definition WEST : Z := 8.

Definition VISITED : Z := 16.
Definition PATH : Z := 32.
Definition SOLVER_VISITED : Z := 64.
Definition SOLVER_AUX : Z := 128.

Definition ALL_WALLS : Z := Z.lor (Z.lor (Z.lor NORTH EAST) SOUTH) WEST.

(** The dictionaries [DX], [DY] and [OPPOSITE], keyed by direction bit. *)
Definition DX (d : Z) : result Z :=
  if d =? NORTH then Ok 0 else if d =? SOUTH then Ok 0
  else if d =? EAST then Ok 1 else if d =? WEST then Ok (-1)
  else Raise KeyError.

Definition DY (d : Z) : result Z :=
  if d =? NORTH then Ok (-1) else if d =? SOUTH then Ok 1
  else if d =? EAST then Ok 0 else if d =? WEST then Ok 0
  else Raise KeyError.

Definition OPPOSITE (d : Z) : result Z :=
  if d =? NORTH then Ok SOUTH else if d =? SOUTH then Ok NORTH
  else if d =? EAST then Ok WEST else if d =? WEST then Ok EAST
  else Raise KeyError.

Record t : Type := mk { width : Z; height : Z; cells : list Z }.

Definition set_cells (g : t) (cs : list Z) : t :=
  mk (width g) (height g) cs.

(** [Grid(width, height)]: [[ALL_WALLS] * (width * height)]; a product
    that is not positive gives the empty array. *)
Definition init (w h : Z) : t :=
  mk w h (replicate (Z.to_nat (w * h)) ALL_WALLS).

Definition in_bounds (g : t) (x y : Z) : bool :=
  (0 <=? x) && (x <? width g) && (0 <=? y) && (y <? height g).

Definition get_index (g : t) (x y : Z) : result Z :=
  if in_bounds g x y then Ok (y * width g + x) else Raise IndexError.

(** The neighbour cell and the paired bit chosen by the [if]/[elif]
    chain shared by [carve_path] and [add_wall]; a [dir_bit] that is none
    of the four leaves the coordinates alone and pairs with [0]. *)
Definition toward (x y dir_bit : Z) : Z * Z * Z :=
  if dir_bit =? NORTH then (x, y - 1, SOUTH)
  else if dir_bit =? SOUTH then (x, y + 1, NORTH)
  else if dir_bit =? EAST then (x + 1, y, WEST)
  else if dir_bit =? WEST then (x - 1, y, EAST)
  else (x, y, 0).

Definition carve_path (g : t) (x1 y1 dir_bit : Z) : result t :=
  let idx1 := y1 * width g + x1 in
  let '(x2, y2, opposite) := toward x1 y1 dir_bit in
  if negb (in_bounds g x2 y2) then Ok g
  else
    let idx2 := y2 * width g + x2 in
    let* c1 := getitem (cells g) idx1 in
    let* cs1 := setitem (cells g) idx1 (Z.land c1 (Z.lnot dir_bit)) in
    let* c2 := getitem cs1 idx2 in
    let* cs2 := setitem cs1 idx2 (Z.land c2 (Z.lnot opposite)) in
    Ok (set_cells g cs2).

Definition add_wall (g : t) (x y dir_bit : Z) : result t :=
  let idx := y * width g + x in
  let* c := getitem (cells g) idx in
  let* cs1 := setitem (cells g) idx (Z.lor c dir_bit) in
  let '(nx, ny, opposite) := toward x y dir_bit in
  if in_bounds g nx ny then
    let nidx := ny * width g + nx in
    let* c2 := getitem cs1 nidx in
    let* cs2 := setitem cs1 nidx (Z.lor c2 opposite) in
    Ok (set_cells g cs2)
  else Ok (set_cells g cs1).

Definition has_wall (g : t) (x y dir_bit : Z) : result bool :=
  let* c := getitem (cells g) (y * width g + x) in
  Ok (negb (Z.land c dir_bit =? 0)).

(** [set_visited(x, y)] with the default [visited=True], and the
    clearing branch. *)
Definition set_visited (g : t) (x y : Z) (visited : bool) : result t :=
  let idx := y * width g + x in
  let* c := getitem (cells g) idx in
  let* cs := setitem (cells g) idx
         (if visited then Z.lor c VISITED else Z.land c (Z.lnot VISITED)) in
  Ok (set_cells g cs).

Definition is_visited (g : t) (x y : Z) : result bool :=
  let* c := getitem (cells g) (y * width g + x) in
  Ok (negb (Z.land c VISITED =? 0)).

(** [get_neighbors]: the lattice neighbours in the order north, south,
    east, west, with the direction bit toward each. *)
Definition get_neighbors (g : t) (x y : Z) : list (Z * Z * Z) :=
  (if 0 <? y then [(x, y - 1, NORTH)] else []) ++
  (if y <? height g - 1 then [(x, y + 1, SOUTH)] else []) ++
  (if x <? width g - 1 then [(x + 1, y, EAST)] else []) ++
  (if 0 <? x then [(x - 1, y, WEST)] else []).

Definition get_open_neighbors (g : t) (x y : Z) : result (list (Z * Z)) :=
  let* val := getitem (cells g) (y * width g + x) in
  Ok ((if (Z.land val NORTH =? 0) && (0 <? y) then [(x, y - 1)] else []) ++
      (if (Z.land val SOUTH =? 0) && (y <? height g - 1) then [(x, y + 1)] else []) ++
      (if (Z.land val EAST =? 0) && (x <? width g - 1) then [(x + 1, y)] else []) ++
      (if (Z.land val WEST =? 0) && (0 <? x) then [(x - 1, y)] else [])).

End Grid.

(** ** Specification predicates *)

(** The cell byte at a flat index, and at a coordinate of the grid. *)
Definition look (l : list Z) (i : Z) : Z := default 0 (l !! Z.to_nat i).

Definition cell_at (g : Grid.t) (x y : Z) : Z :=
  look (Grid.cells g) (y * Grid.width g + x).

Definition has_bit (c bit : Z) : bool := negb (Z.land c bit =? 0).

(** What the constructor establishes and every operation keeps: one byte
    per cell of a [width] by [height] lattice. *)
Definition wf (g : Grid.t) : Prop :=
  0 <= Grid.width g /\ 0 <= Grid.height g /\
  length (Grid.cells g) = Z.to_nat (Grid.width g * Grid.height g) /\
  Forall (fun v => is_byte v = true) (Grid.cells g).

Definition directions : list Z := [Grid.NORTH; Grid.EAST; Grid.SOUTH; Grid.WEST].

(** Wall symmetry: for lattice-adjacent cells A and B, [has_wall] on A
    toward B equals [has_wall] on B toward A. *)
Definition wall_symmetric (g : Grid.t) : Prop :=
  forall x y d nx ny od,
    In d directions ->
    Grid.toward x y d = (nx, ny, od) ->
    Grid.in_bounds g x y = true ->
    Grid.in_bounds g nx ny = true ->
    exists b, Grid.has_wall g x y d = Ok b /\ Grid.has_wall g nx ny od = Ok b.

(** The two wall mutators, as operations of a sequence. *)
Inductive grid_op : Type :=
  | CarvePath (x y dir_bit : Z)
  | AddWall (x y dir_bit : Z).

Definition apply_op (g : Grid.t) (o : grid_op) : result Grid.t :=
  match o with
  | CarvePath x y d => Grid.carve_path g x y d
  | AddWall x y d => Grid.add_wall g x y d
  end.

Fixpoint run_ops (g : Grid.t) (ops : list grid_op) : result Grid.t :=
  match ops with
  | [] => Ok g
  | o :: rest => let* g' := apply_op g o in run_ops g' rest
  end.

(** An operation addressed to a cell of the [w] by [h] lattice with one of
    the four direction bits. *)
Definition op_on_lattice (w h : Z) (o : grid_op) : Prop :=
  match o with
  | CarvePath x y d | AddWall x y d =>
      0 <= x < w /\ 0 <= y < h /\ In d directions
  end.

(** ** io/serializer.py *)

(** Little-endian fixed-width integers, as [struct.pack]/[struct.unpack]
    lay them out on the platforms the engine runs on. *)
Fixpoint le_bytes (n : nat) (v : Z) : list Z :=
  match n with
  | O => []
  | S k => (v mod 256) :: le_bytes k (v / 256)
  end.

Fixpoint le_value (bs : list Z) : Z :=
  match bs with
  | [] => 0
  | b :: rest => b + 256 * le_value rest
  end.

(** [struct.pack] raises [struct.error] for a value outside the format's
    range; formats used: "B" (1 byte), "H" (2 bytes), "I" (4 bytes). *)
Definition pack_uint (n : nat) (v : Z) : result (list Z) :=
  if (0 <=? v) && (v <? 256 ^ Z.of_nat n) then Ok (le_bytes n v)
  else Raise StructError.

(** [struct.unpack] raises unless the buffer has exactly the format's size. *)
Definition unpack_uint (n : nat) (bs : list Z) : result Z :=
  if Nat.eqb (length bs) n then Ok (le_value bs) else Raise StructError.

Definition unpack_II (bs : list Z) : result (Z * Z) :=
  if Nat.eqb (length bs) 8 then Ok (le_value (take 4 bs), le_value (drop 4 bs))
  else Raise StructError.

(** [f.read(n)]: up to [n] bytes, fewer at the end of the file; a negative
    [n] cannot occur, the counts read are unpacked unsigned values. *)
Definition read (n : Z) (f : list Z) : list Z * list Z :=
  (take (Z.to_nat n) f, drop (Z.to_nat n) f).

Module MazeSerializer.
Section Serializer.

(** Metadata dictionaries and the two library codecs the serializer
    calls: [json.dumps(meta).encode('utf-8')] /
    [json.loads(bytes.decode('utf-8'))] and [zlib.compress] /
    [zlib.decompress]. *)
Variable Meta : Type.
Variable empty_dict : Meta.
Variable json_dumps : Meta -> list Z.
Variable json_loads : list Z -> result Meta.
Variable zlib_compress : list Z -> list Z.
Variable zlib_decompress : list Z -> result (list Z).

Definition MAGIC : list Z := [77; 65; 90; 69].
Definition VERSION : Z := 1.
Definition FLAG_COMPRESSED : Z := 1.
Definition FLAG_SEED_ONLY : Z := 2.

(** [save]: the bytes written to the file. *)
Definition save (grid : Grid.t) (meta : option Meta)
    (seed_only compress : bool) : result (list Z) :=
  let meta := default empty_dict meta in
  let flags := 0 in
  let flags := if compress then Z.lor flags FLAG_COMPRESSED else flags in
  let flags := if seed_only then Z.lor flags FLAG_SEED_ONLY else flags in
  let meta_bytes := json_dumps meta in
  let meta_len := Z.of_nat (length meta_bytes) in
  let* b_version := pack_uint 1 VERSION in
  let* b_flags := pack_uint 1 flags in
  let* b_width := pack_uint 4 (Grid.width grid) in
  let* b_height := pack_uint 4 (Grid.height grid) in
  let* b_meta_len := pack_uint 2 meta_len in
  let header :=
    MAGIC ++ b_version ++ b_flags ++ (b_width ++ b_height) ++
    b_meta_len ++ meta_bytes in
  if seed_only then
    let* b_zero := pack_uint 4 0 in
    Ok (header ++ b_zero)
  else
    let data := Grid.cells grid in
    let data := if compress then zlib_compress data else data in
    let* b_len := pack_uint 4 (Z.of_nat (length data)) in
    Ok (header ++ b_len ++ data).

(** [load]: the grid and metadata read back from the bytes of a file. *)
Definition load (file : list Z) : result (Grid.t * Meta) :=
  let '(magic, f) := read 4 file in
  if negb (bool_decide (magic = MAGIC)) then Raise ValueError
  else
    let '(b, f) := read 1 f in
    let* version := unpack_uint 1 b in
    let '(b, f) := read 1 f in
    let* flags := unpack_uint 1 b in
    let '(b, f) := read 8 f in
    let* '(width, height) := unpack_II b in
    let '(b, f) := read 2 f in
    let* meta_len := unpack_uint 2 b in
    let '(meta_bytes, f) := read meta_len f in
    let* meta := json_loads meta_bytes in
    let grid := Grid.init width height in
    let '(b, f) := read 4 f in
    let* data_len := unpack_uint 4 b in
    if negb (Z.land flags FLAG_SEED_ONLY =? 0) then Ok (grid, meta)
    else if 0 <? data_len then
      let '(data, f) := read data_len f in
      let* data := (if negb (Z.land flags FLAG_COMPRESSED =? 0)
              then zlib_decompress data else Ok data) in
      Ok (Grid.set_cells grid data, meta)
    else Ok (grid, meta).

(** The bytes of a file with the given fields, in the order of the format. *)
Definition file_layout (magic : list Z) (version flags w h : Z)
    (meta_bytes : list Z) (data_len : Z) (payload : list Z) : list Z :=
  magic ++ [version] ++ [flags] ++ (le_bytes 4 w ++ le_bytes 4 h) ++
  le_bytes 2 (Z.of_nat (length meta_bytes)) ++ meta_bytes ++
  le_bytes 4 data_len ++ payload.

(** What [load] does after the magic test, from the decoded fields. *)
Definition load_fields (flags w h : Z) (meta_bytes : list Z)
    (data_len : Z) (payload : list Z) : result (Grid.t * Meta) :=
  let* meta := json_loads meta_bytes in
  if negb (Z.land flags FLAG_SEED_ONLY =? 0)
  then Ok (Grid.init w h, meta)
  else if 0 <? data_len then
    let* data := (if negb (Z.land flags FLAG_COMPRESSED =? 0)
            then zlib_decompress (take (Z.to_nat data_len) payload)
            else Ok (take (Z.to_nat data_len) payload)) in
    Ok (Grid.set_cells (Grid.init w h) data, meta)
  else Ok (Grid.init w h, meta).

End Serializer.
End MazeSerializer.

(** ** The priority queue of [heapq]

    Entries are tuples of integers, compared lexicographically, so the
    entry [heappop] returns is determined by the entries present: the
    least one.  The heap is therefore modelled by the list of its entries;
    the arrangement of the underlying array is not observable. *)

Definition heappush {T : Type} (h : list T) (x : T) : list T := h ++ [x].

Fixpoint heap_least {T : Type} (leb : T -> T -> bool) (x : T) (h : list T) : T :=
  match h with
  | [] => x
  | y :: rest => heap_least leb (if leb x y then x else y) rest
  end.

Fixpoint remove_first {T : Type} (eqb : T -> T -> bool) (x : T) (h : list T)
  : list T :=
  match h with
  | [] => []
  | y :: rest => if eqb x y then rest else y :: remove_first eqb x rest
  end.

Definition heappop {T : Type} (leb : T -> T -> bool) (h : list T)
  : option (T * list T) :=
  match h with
  | [] => None
  | x :: rest =>
      let m := heap_least leb x rest in
      Some (m, remove_first (fun a b => leb a b && leb b a) m h)
  end.

(** Lexicographic order on [(f, x, y)] and on [(f, g, x, y)]. *)
Definition leb3 (a b : Z * Z * Z) : bool :=
  let '(f1, x1, y1) := a in
  let '(f2, x2, y2) := b in
  (f1 <? f2) || ((f1 =? f2) && ((x1 <? x2) || ((x1 =? x2) && (y1 <=? y2)))).

Definition leb4 (a b : Z * Z * Z * Z) : bool :=
  let '(f1, g1, x1, y1) := a in
  let '(f2, g2, x2, y2) := b in
  (f1 <? f2) || ((f1 =? f2) && ((g1 <? g2) || ((g1 =? g2) && leb3 (0, x1, y1) (0, x2, y2)))).

(** ** The [random] module

    A generator state and the primitive [_randbelow(n)], which returns an
    integer and the next state; [choice], [randrange] and [shuffle] are
    written over it as in the Python library. *)

Section Random.

Variable Rng : Type.
Variable randbelow : Rng -> Z -> Z * Rng.

(** [rng.choice(seq)] is [seq[rng._randbelow(len(seq))]]; an empty sequence
    raises [IndexError]. *)
Definition choice {A : Type} (rng : Rng) (seq : list A) : result (A * Rng) :=
  match seq with
  | [] => Raise IndexError
  | _ :: _ =>
      let '(i, rng') := randbelow rng (Z.of_nat (length seq)) in
      match seq !! Z.to_nat i with
      | Some a => if 0 <=? i then Ok (a, rng') else Raise IndexError
      | None => Raise IndexError
      end
  end.

(** [rng.randrange(n)] for a positive [n]. *)
Definition randrange (rng : Rng) (n : Z) : result (Z * Rng) :=
  if 0 <? n then Ok (randbelow rng n) else Raise ValueError.

(** [rng.shuffle(x)]:
    [for i in reversed(range(1, len(x))): j = randbelow(i + 1); x[i], x[j] = x[j], x[i]]. *)
Definition swap_items {A : Type} (x : list A) (i j : nat) : list A :=
  match x !! i, x !! j with
  | Some a, Some b => <[j := a]> (<[i := b]> x)
  | _, _ => x
  end.

Fixpoint shuffle_from {A : Type} (i : nat) (rng : Rng) (x : list A)
  : list A * Rng :=
  match i with
  | O => (x, rng)
  | S k =>
      let '(j, rng') := randbelow rng (Z.of_nat i + 1) in
      shuffle_from k rng' (swap_items x i (Z.to_nat j))
  end.

Definition shuffle {A : Type} (rng : Rng) (x : list A) : list A * Rng :=
  shuffle_from (length x - 1) rng x.

End Random.

(** The cells in the order of [for y in range(height): for x in range(width)]. *)
Definition scanline (g : Grid.t) : list (Z * Z) :=
  flat_map (fun y => map (fun x => (x, y)) (seqZ 0 (Grid.width g)))
    (seqZ 0 (Grid.height g)).

(** ** algo/solvers.py *)

Module Solver.

(** The last status a run yields. *)
Inductive status : Type := Solved | Stuck | NoPath | Reduced.

(** What a run to completion leaves behind: the grid with the scratch and
    path bits written, [self.path] and [self.visited_count]. *)
Record outcome : Type := mk_outcome {
  grid : Grid.t;
  path : list (Z * Z);
  visited_count : Z;
  last_status : status
}.

(** [self.grid.cells[idx] |= mask] *)
Definition or_cell (g : Grid.t) (idx mask : Z) : result Grid.t :=
  let* c := getitem (Grid.cells g) idx in
  let* cs := setitem (Grid.cells g) idx (Z.lor c mask) in
  Ok (Grid.set_cells g cs).

Definition zeros (g : Grid.t) : list Z :=
  replicate (Z.to_nat (Grid.width g * Grid.height g)) 0.

(** The loop [while curr != start] that every parent-array solver uses to
    walk from the end back to the start: append the cell, set its [PATH]
    bit, stop at a cell without parent, else step to the parent. *)
Fixpoint follow_parents (fuel : nat) (g : Grid.t) (parents : list Z)
    (start curr : Z * Z) (path : list (Z * Z))
  : result (Grid.t * list (Z * Z)) :=
  if coord_eqb curr start then Ok (g, path)
  else
    match fuel with
    | O => Raise OutOfFuel
    | S k =>
        let path := path ++ [curr] in
        let* idx := Grid.get_index g (fst curr) (snd curr) in
        let* g := or_cell g idx Grid.PATH in
        let* p_dir := getitem parents idx in
        if p_dir =? 0 then Ok (g, path)
        else
          let* dx := Grid.DX p_dir in
          let* dy := Grid.DY p_dir in
          follow_parents k g parents start (fst curr + dx, snd curr + dy) path
    end.

(** *** BFS *)

Record bfs_state : Type := mk_bfs {
  bfs_grid : Grid.t;
  bfs_queue : list (Z * Z);
  bfs_parents : list Z;
  bfs_visited : Z
}.

(** The body of [for nx, ny, direction in self.grid.get_neighbors(cx, cy)]. *)
Definition bfs_scan (cx cy : Z) (st : bfs_state) (n : Z * Z * Z)
  : result bfs_state :=
  let '(nx, ny, direction) := n in
  let* wall := Grid.has_wall (bfs_grid st) cx cy direction in
  if wall then Ok st
  else
    let* idx := Grid.get_index (bfs_grid st) nx ny in
    let* c := getitem (Grid.cells (bfs_grid st)) idx in
    if negb (Z.land c Grid.SOLVER_VISITED =? 0) then Ok st
    else
      let* g' := or_cell (bfs_grid st) idx Grid.SOLVER_VISITED in
      let* opp := Grid.OPPOSITE direction in
      let* ps := setitem (bfs_parents st) idx opp in
      Ok (mk_bfs g' (bfs_queue st ++ [(nx, ny)]) ps (bfs_visited st + 1)).

(** [while queue: current = queue.pop(0); if current == end: break; ...] *)
Fixpoint bfs_loop (fuel : nat) (end_ : Z * Z) (st : bfs_state)
  : result bfs_state :=
  match bfs_queue st with
  | [] => Ok st
  | current :: rest =>
      match fuel with
      | O => Raise OutOfFuel
      | S k =>
          let st := mk_bfs (bfs_grid st) rest (bfs_parents st) (bfs_visited st) in
          if coord_eqb current end_ then Ok st
          else
            let* st' := foldM (bfs_scan (fst current) (snd current))
                    (Grid.get_neighbors (bfs_grid st) (fst current) (snd current))
                    st in
            bfs_loop k end_ st'
      end
  end.

Definition BFS_reconstruct_path (fuel : nat) (g : Grid.t) (parents : list Z)
    (start end_ : Z * Z) : result (Grid.t * list (Z * Z)) :=
  let* end_idx := Grid.get_index g (fst end_) (snd end_) in
  let* c := getitem (Grid.cells g) end_idx in
  if (Z.land c Grid.SOLVER_VISITED =? 0) && negb (coord_eqb start end_)
  then Ok (g, [])
  else
    let* '(g, path) := follow_parents fuel g parents start end_ [] in
    Ok (g, rev (path ++ [start])).

Definition BFS_run (fuel : nat) (g : Grid.t) (start end_ : Z * Z)
  : result outcome :=
  let parents := zeros g in
  let* idx := Grid.get_index g (fst start) (snd start) in
  let* g := or_cell g idx Grid.SOLVER_VISITED in
  let* st := bfs_loop fuel end_ (mk_bfs g [start] parents 1) in
  let* '(g, path) := BFS_reconstruct_path fuel (bfs_grid st) (bfs_parents st) start end_ in
  Ok (mk_outcome g path (bfs_visited st) Solved).

(** *** AStar and Dijkstra *)

Definition manhattan (a b : Z * Z) : Z :=
  Z.abs (fst a - fst b) + Z.abs (snd a - snd b).

Definition zero_heuristic (a b : Z * Z) : Z := 0.

Record astar_state : Type := mk_astar {
  as_grid : Grid.t;
  as_open : list (Z * Z * Z);
  as_g : list Z;
  as_parents : list Z;
  as_visited : Z
}.

Definition astar_relax (heuristic : Z * Z -> Z * Z -> Z) (end_ : Z * Z)
    (cx cy curr_g : Z) (st : astar_state) (n : Z * Z * Z)
  : result astar_state :=
  let '(nx, ny, direction) := n in
  let* wall := Grid.has_wall (as_grid st) cx cy direction in
  if wall then Ok st
  else
    let* neighbor_idx := Grid.get_index (as_grid st) nx ny in
    let new_g := curr_g + 1 in
    let* old_g := getitem (as_g st) neighbor_idx in
    if (old_g =? -1) || (new_g <? old_g) then
      let* gs := setitem_i (as_g st) neighbor_idx new_g in
      let priority := new_g + heuristic (nx, ny) end_ in
      let open_set := heappush (as_open st) (priority, nx, ny) in
      let* opp := Grid.OPPOSITE direction in
      let* ps := setitem (as_parents st) neighbor_idx opp in
      let* c := getitem (Grid.cells (as_grid st)) neighbor_idx in
      if Z.land c Grid.SOLVER_VISITED =? 0 then
        let* g' := or_cell (as_grid st) neighbor_idx Grid.SOLVER_VISITED in
        Ok (mk_astar g' open_set gs ps (as_visited st + 1))
      else Ok (mk_astar (as_grid st) open_set gs ps (as_visited st))
    else Ok st.

Fixpoint astar_loop (fuel : nat) (heuristic : Z * Z -> Z * Z -> Z)
    (end_ : Z * Z) (st : astar_state) : result astar_state :=
  match heappop leb3 (as_open st) with
  | None => Ok st
  | Some ((_, cx, cy), rest) =>
      match fuel with
      | O => Raise OutOfFuel
      | S k =>
          let st := mk_astar (as_grid st) rest (as_g st) (as_parents st)
                      (as_visited st) in
          if coord_eqb (cx, cy) end_ then Ok st
          else
            let* curr_idx := Grid.get_index (as_grid st) cx cy in
            let* curr_g := getitem (as_g st) curr_idx in
            let* st' := foldM (astar_relax heuristic end_ cx cy curr_g)
                    (Grid.get_neighbors (as_grid st) cx cy) st in
            astar_loop k heuristic end_ st'
      end
  end.

Definition AStar_reconstruct_path (fuel : nat) (g : Grid.t)
    (g_score parents : list Z) (start end_ : Z * Z)
  : result (Grid.t * list (Z * Z)) :=
  let* end_idx := Grid.get_index g (fst end_) (snd end_) in
  let* ge := getitem g_score end_idx in
  if (ge =? -1) && negb (coord_eqb start end_) then Ok (g, [])
  else
    let* '(g, path) := follow_parents fuel g parents start end_ [] in
    Ok (g, rev (path ++ [start])).

(** [AStar.run], with the [heuristic] method as a parameter: [AStar]
    supplies [manhattan], the subclass [Dijkstra] overrides it with zero. *)
Definition astar_run (heuristic : Z * Z -> Z * Z -> Z) (fuel : nat)
    (g : Grid.t) (start end_ : Z * Z) : result outcome :=
  let open_set := heappush [] (0, fst start, snd start) in
  let g_score := replicate (Z.to_nat (Grid.width g * Grid.height g)) (-1) in
  let parents := zeros g in
  let* start_idx := Grid.get_index g (fst start) (snd start) in
  let* g_score := setitem_i g_score start_idx 0 in
  let* g := or_cell g start_idx Grid.SOLVER_VISITED in
  let* st := astar_loop fuel heuristic end_ (mk_astar g open_set g_score parents 1) in
  let* '(g, path) := AStar_reconstruct_path fuel (as_grid st) (as_g st)
                 (as_parents st) start end_ in
  Ok (mk_outcome g path (as_visited st) Solved).

Definition AStar_run := astar_run manhattan.
Definition Dijkstra_run := astar_run zero_heuristic.

(** *** WallFollower *)

Definition wf_dirs : list Z := [Grid.NORTH; Grid.EAST; Grid.SOUTH; Grid.WEST].
Definition wf_dx : list Z := [0; 1; 0; -1].
Definition wf_dy : list Z := [-1; 0; 1; 0].

Record wall_state : Type := mk_wall {
  wl_grid : Grid.t;
  wl_pos : Z * Z;
  wl_facing : Z;
  wl_path : list (Z * Z);
  wl_visited : Z
}.

(** [for d_idx in check_order: ...; break]: the state after the first
    direction that can be taken, [None] when no direction can. *)
Fixpoint wall_try (st : wall_state) (check_order : list Z)
  : result (option wall_state) :=
  match check_order with
  | [] => Ok None
  | d_idx :: rest =>
      let '(cx, cy) := wl_pos st in
      let* d_bit := getitem wf_dirs d_idx in
      let* wall := Grid.has_wall (wl_grid st) cx cy d_bit in
      if wall then wall_try st rest
      else
        let* ddx := getitem wf_dx d_idx in
        let* ddy := getitem wf_dy d_idx in
        let nx := cx + ddx in
        let ny := cy + ddy in
        if Grid.in_bounds (wl_grid st) nx ny then
          let* idx := Grid.get_index (wl_grid st) nx ny in
          let* c := getitem (Grid.cells (wl_grid st)) idx in
          let visited :=
            if Z.land c Grid.SOLVER_VISITED =? 0
            then wl_visited st + 1 else wl_visited st in
          let* g' := or_cell (wl_grid st) idx Grid.SOLVER_VISITED in
          Ok (Some (mk_wall g' (nx, ny) d_idx (wl_path st ++ [(nx, ny)]) visited))
        else wall_try st rest
  end.

(** [while (cx, cy) != end and steps < max_steps]: [budget] is
    [max_steps - steps]. *)
Fixpoint wall_loop (budget : nat) (rule : string) (end_ : Z * Z)
    (st : wall_state) : result wall_state :=
  if coord_eqb (wl_pos st) end_ then Ok st
  else
    match budget with
    | O => Ok st
    | S k =>
        let facing := wl_facing st in
        let check_order :=
          if String.eqb rule "left"
          then [(facing - 1) mod 4; facing; (facing + 1) mod 4; (facing + 2) mod 4]
          else [(facing + 1) mod 4; facing; (facing - 1) mod 4; (facing + 2) mod 4] in
        let* moved := wall_try st check_order in
        match moved with
        | None => Ok st
        | Some st' => wall_loop k rule end_ st'
        end
    end.

Definition mark_path (g : Grid.t) (p : Z * Z) : result Grid.t :=
  let* idx := Grid.get_index g (fst p) (snd p) in
  or_cell g idx Grid.PATH.

Definition WallFollower_run (rule : string) (g : Grid.t) (start end_ : Z * Z)
  : result outcome :=
  let facing := 1 in
  let '(cx, cy) := start in
  let path := [(cx, cy)] in
  let* idx := Grid.get_index g cx cy in
  let* g := or_cell g idx (Z.lor Grid.SOLVER_VISITED Grid.PATH) in
  let max_steps := Grid.width g * Grid.height g * 4 in
  let* st := wall_loop (Z.to_nat max_steps) rule end_
               (mk_wall g (cx, cy) facing path 1) in
  if coord_eqb (wl_pos st) end_ then
    let* g := foldM mark_path (wl_path st) (wl_grid st) in
    Ok (mk_outcome g (wl_path st) (wl_visited st) Solved)
  else Ok (mk_outcome (wl_grid st) (wl_path st) (wl_visited st) Stuck).

(** *** BiDirectionalAStar *)

(** One search direction: its frontier, distance array and parent array. *)
Record side : Type := mk_side {
  sd_pq : list (Z * Z * Z * Z);
  sd_g : list Z;
  sd_parents : list Z
}.

Record bidir_state : Type := mk_bidir {
  bd_grid : Grid.t;
  bd_side : side;
  bd_visited : Z;
  bd_meeting : option (Z * Z)
}.

(** The body of the neighbour loop of one expansion; [own] is the scratch
    bit this direction writes, [other] the bit of the opposite direction,
    [target] the cell the heuristic aims at.  Once a meeting node is set the
    loop has been left. *)
Definition bidir_relax (own other : Z) (target : Z * Z) (cx cy g_curr : Z)
    (st : bidir_state) (n : Z * Z * Z) : result bidir_state :=
  match bd_meeting st with
  | Some _ => Ok st
  | None =>
      let '(nx, ny, direction) := n in
      let* wall := Grid.has_wall (bd_grid st) cx cy direction in
      if wall then Ok st
      else
        let* neighbor_idx := Grid.get_index (bd_grid st) nx ny in
        let new_g := g_curr + 1 in
        let* old_g := getitem (sd_g (bd_side st)) neighbor_idx in
        if (old_g =? -1) || (new_g <? old_g) then
          let* gs := setitem_i (sd_g (bd_side st)) neighbor_idx new_g in
          let f := new_g + manhattan (nx, ny) target in
          let pq := heappush (sd_pq (bd_side st)) (f, new_g, nx, ny) in
          let* opp := Grid.OPPOSITE direction in
          let* ps := setitem (sd_parents (bd_side st)) neighbor_idx opp in
          let* c := getitem (Grid.cells (bd_grid st)) neighbor_idx in
          let* gv :=
            (if Z.land c own =? 0 then
               let* g' := or_cell (bd_grid st) neighbor_idx own in
               Ok (g', bd_visited st + 1)
             else Ok (bd_grid st, bd_visited st)) in
          let* c' := getitem (Grid.cells (fst gv)) neighbor_idx in
          Ok (mk_bidir (fst gv) (mk_side pq gs ps) (snd gv)
                (if Z.land c' other =? 0 then None else Some (nx, ny)))
        else Ok st
  end.

(** One expansion: pop, test the popped cell against the other direction's
    bit, relax the neighbours. *)
Definition bidir_expand (own other : Z) (target : Z * Z) (g : Grid.t)
    (sd : side) (visited : Z) : result bidir_state :=
  match heappop leb4 (sd_pq sd) with
  | None => Raise IndexError
  | Some ((_, g_curr, cx, cy), rest) =>
      let sd := mk_side rest (sd_g sd) (sd_parents sd) in
      let* curr_idx := Grid.get_index g cx cy in
      let* c := getitem (Grid.cells g) curr_idx in
      if negb (Z.land c other =? 0)
      then Ok (mk_bidir g sd visited (Some (cx, cy)))
      else foldM (bidir_relax own other target cx cy g_curr)
             (Grid.get_neighbors g cx cy) (mk_bidir g sd visited None)
  end.

Fixpoint bidir_loop (fuel : nat) (start end_ : Z * Z) (g : Grid.t)
    (fwd bwd : side) (visited : Z)
  : result (Grid.t * side * side * Z * option (Z * Z)) :=
  match sd_pq fwd, sd_pq bwd with
  | _ :: _, _ :: _ =>
      match fuel with
      | O => Raise OutOfFuel
      | S k =>
          let* f := bidir_expand Grid.SOLVER_VISITED Grid.SOLVER_AUX end_
                      g fwd visited in
          match bd_meeting f with
          | Some m => Ok (bd_grid f, bd_side f, bwd, bd_visited f, Some m)
          | None =>
              let* b := bidir_expand Grid.SOLVER_AUX Grid.SOLVER_VISITED start
                          (bd_grid f) bwd (bd_visited f) in
              match bd_meeting b with
              | Some m => Ok (bd_grid b, bd_side f, bd_side b, bd_visited b, Some m)
              | None =>
                  bidir_loop k start end_ (bd_grid b) (bd_side f) (bd_side b)
                    (bd_visited b)
              end
          end
      end
  | _, _ => Ok (g, fwd, bwd, visited, None)
  end.

(** The second half of [reconstruct_merged_path]: [while True] from the
    backward parent of the meeting node toward the end. *)
Fixpoint follow_to_end (fuel : nat) (g : Grid.t) (parents : list Z)
    (end_ curr : Z * Z) (path : list (Z * Z))
  : result (Grid.t * list (Z * Z)) :=
  match fuel with
  | O => Raise OutOfFuel
  | S k =>
      let path := path ++ [curr] in
      let* idx := Grid.get_index g (fst curr) (snd curr) in
      let* g := or_cell g idx Grid.PATH in
      if coord_eqb curr end_ then Ok (g, path)
      else
        let* p_dir := getitem parents idx in
        if p_dir =? 0 then Ok (g, path)
        else
          let* dx := Grid.DX p_dir in
          let* dy := Grid.DY p_dir in
          follow_to_end k g parents end_ (fst curr + dx, snd curr + dy) path
  end.

Definition reconstruct_merged_path (fuel : nat) (g : Grid.t)
    (parents_fwd parents_bwd : list Z) (meet start end_ : Z * Z)
  : result (Grid.t * list (Z * Z)) :=
  let* '(g, path) := follow_parents fuel g parents_fwd start meet [] in
  let path := rev (path ++ [start]) in
  let* idx := Grid.get_index g (fst meet) (snd meet) in
  let* p_dir := getitem parents_bwd idx in
  if p_dir =? 0 then Ok (g, path)
  else
    let* dx := Grid.DX p_dir in
    let* dy := Grid.DY p_dir in
    follow_to_end fuel g parents_bwd end_ (fst meet + dx, snd meet + dy) path.

Definition BiDirectionalAStar_run (fuel : nat) (g : Grid.t) (start end_ : Z * Z)
  : result outcome :=
  let pq_fwd := [(0, 0, fst start, snd start)] in
  let pq_bwd := [(0, 0, fst end_, snd end_)] in
  let minus_ones := replicate (Z.to_nat (Grid.width g * Grid.height g)) (-1) in
  let* start_idx := Grid.get_index g (fst start) (snd start) in
  let* end_idx := Grid.get_index g (fst end_) (snd end_) in
  let* g_fwd := setitem_i minus_ones start_idx 0 in
  let* g_bwd := setitem_i minus_ones end_idx 0 in
  let* g1 := or_cell g start_idx Grid.SOLVER_VISITED in
  let* g2 := or_cell g1 end_idx Grid.SOLVER_AUX in
  let* '(g3, fwd, bwd, visited, meeting) :=
    bidir_loop fuel start end_ g2
      (mk_side pq_fwd g_fwd (zeros g)) (mk_side pq_bwd g_bwd (zeros g)) 2 in
  match meeting with
  | Some meet =>
      let* '(g4, path) :=
        reconstruct_merged_path fuel g3 (sd_parents fwd) (sd_parents bwd)
          meet start end_ in
      Ok (mk_outcome g4 path visited Solved)
  | None => Ok (mk_outcome g3 [] visited NoPath)
  end.

(** *** Tremaux *)

(** [candidates.sort(key=lambda x: x[0])]: a stable sort on the visit
    count. *)
Fixpoint insert_by_key (x : Z * (Z * Z)) (l : list (Z * (Z * Z)))
  : list (Z * (Z * Z)) :=
  match l with
  | [] => [x]
  | y :: rest =>
      if fst x <=? fst y then x :: y :: rest else y :: insert_by_key x rest
  end.

Definition sort_by_key (l : list (Z * (Z * Z))) : list (Z * (Z * Z)) :=
  foldr insert_by_key [] l.

Record tremaux_state : Type := mk_tremaux {
  tr_grid : Grid.t;
  tr_curr : Z * Z;
  tr_stack : list (Z * Z);
  tr_path : list (Z * Z);
  tr_visited : Z
}.

(** The loop that collects [(v, n)] for the open neighbours visited fewer
    than twice. *)
Definition tremaux_candidate (g : Grid.t) (acc : list (Z * (Z * Z)))
    (n : Z * Z) : result (list (Z * (Z * Z))) :=
  let* n_idx := Grid.get_index g (fst n) (snd n) in
  let* cell := getitem (Grid.cells g) n_idx in
  let v := 0 in
  let v := if negb (Z.land cell Grid.SOLVER_VISITED =? 0) then 1 else v in
  let v := if negb (Z.land cell Grid.SOLVER_AUX =? 0) then 2 else v in
  if v <? 2 then Ok (acc ++ [(v, n)]) else Ok acc.

(** The move onto [move_target]. The stack is a Python list, its top is the
    last element. *)
Definition tremaux_move (st : tremaux_state) (stack : list (Z * Z))
    (move_target : Z * Z) : result tremaux_state :=
  let g := tr_grid st in
  let* t_idx := Grid.get_index g (fst move_target) (snd move_target) in
  let* c := getitem (Grid.cells g) t_idx in
  if Z.land c Grid.SOLVER_VISITED =? 0 then
    let* g' := or_cell g t_idx Grid.SOLVER_VISITED in
    Ok (mk_tremaux g' move_target (stack ++ [move_target])
          (tr_path st ++ [move_target]) (tr_visited st + 1))
  else
    let* g' := or_cell g t_idx Grid.SOLVER_AUX in
    let stack' :=
      match last stack with
      | Some top => if coord_eqb top move_target then removelast stack else stack
      | None => stack
      end in
    Ok (mk_tremaux g' move_target stack' (tr_path st) (tr_visited st)).

(** [while curr != end and steps < max_steps]; [budget] is
    [max_steps - steps]. *)
Fixpoint tremaux_loop (budget : nat) (end_ : Z * Z) (st : tremaux_state)
  : result tremaux_state :=
  if coord_eqb (tr_curr st) end_ then Ok st
  else
    match budget with
    | O => Ok st
    | S k =>
        let '(cx, cy) := tr_curr st in
        let* neighbors := Grid.get_open_neighbors (tr_grid st) cx cy in
        let* candidates := foldM (tremaux_candidate (tr_grid st)) neighbors [] in
        match sort_by_key candidates with
        | (_, target) :: _ =>
            let* st' := tremaux_move st (tr_stack st) target in
            tremaux_loop k end_ st'
        | [] =>
            match tr_stack st with
            | [] => Ok st
            | _ :: _ =>
                let stack := removelast (tr_stack st) in
                match last stack with
                | None =>
                    Ok (mk_tremaux (tr_grid st) (tr_curr st) stack (tr_path st)
                          (tr_visited st))
                | Some target =>
                    let* st' := tremaux_move st stack target in
                    tremaux_loop k end_ st'
                end
            end
        end
    end.

Definition Tremaux_run (g : Grid.t) (start end_ : Z * Z) : result outcome :=
  let* idx := Grid.get_index g (fst start) (snd start) in
  let* g := or_cell g idx Grid.SOLVER_VISITED in
  let max_steps := Grid.width g * Grid.height g * 20 in
  let* st := tremaux_loop (Z.to_nat max_steps) end_
               (mk_tremaux g start [start] [] 1) in
  Ok (mk_outcome (tr_grid st) (tr_stack st) (tr_visited st) Solved).

(** *** RecursiveDFS *)

Record dfs_state : Type := mk_dfs {
  df_grid : Grid.t;
  df_stack : list (Z * Z);
  df_parents : list Z;
  df_visited : Z
}.

Definition dfs_scan (cx cy : Z) (st : dfs_state) (n : Z * Z)
  : result dfs_state :=
  let* n_idx := Grid.get_index (df_grid st) (fst n) (snd n) in
  let* c := getitem (Grid.cells (df_grid st)) n_idx in
  if Z.land c Grid.SOLVER_VISITED =? 0 then
    let* g' := or_cell (df_grid st) n_idx Grid.SOLVER_VISITED in
    let dx := cx - fst n in
    let dy := cy - snd n in
    let p_bit :=
      if dy =? -1 then Grid.NORTH
      else if dy =? 1 then Grid.SOUTH
      else if dx =? -1 then Grid.WEST
      else if dx =? 1 then Grid.EAST
      else 0 in
    let* ps := setitem (df_parents st) n_idx p_bit in
    Ok (mk_dfs g' (df_stack st ++ [n]) ps (df_visited st + 1))
  else Ok st.

Fixpoint dfs_loop (fuel : nat) (end_ : Z * Z) (st : dfs_state)
  : result dfs_state :=
  match last (df_stack st) with
  | None => Ok st
  | Some curr =>
      match fuel with
      | O => Raise OutOfFuel
      | S k =>
          let st := mk_dfs (df_grid st) (removelast (df_stack st))
                      (df_parents st) (df_visited st) in
          if coord_eqb curr end_ then Ok st
          else
            let* neighbors :=
              Grid.get_open_neighbors (df_grid st) (fst curr) (snd curr) in
            let* st' := foldM (dfs_scan (fst curr) (snd curr)) neighbors st in
            dfs_loop k end_ st'
      end
  end.

Definition RecursiveDFS_run (fuel : nat) (g : Grid.t) (start end_ : Z * Z)
  : result outcome :=
  let* idx := Grid.get_index g (fst start) (snd start) in
  let* g := or_cell g idx Grid.SOLVER_VISITED in
  let* st := dfs_loop fuel end_ (mk_dfs g [start] (zeros g) 1) in
  let* end_idx := Grid.get_index (df_grid st) (fst end_) (snd end_) in
  let* c := getitem (Grid.cells (df_grid st)) end_idx in
  if negb (Z.land c Grid.SOLVER_VISITED =? 0) then
    let* '(g, path) :=
      follow_parents fuel (df_grid st) (df_parents st) start end_ [] in
    Ok (mk_outcome g (rev (path ++ [start])) (df_visited st) Solved)
  else Ok (mk_outcome (df_grid st) [] (df_visited st) Solved).

(** *** DeadEndFiller *)

Record filler_state : Type := mk_filler {
  fl_grid : Grid.t;
  fl_degrees : list Z;
  fl_leaves : list (Z * Z);
  fl_visited : Z
}.

(** The scan that fills [degrees] and collects the first leaves, one cell
    of [for y in range(height): for x in range(width)]. *)
Definition filler_degree (g : Grid.t) (start end_ : Z * Z)
    (acc : list Z * list (Z * Z)) (p : Z * Z)
  : result (list Z * list (Z * Z)) :=
  let '(x, y) := p in
  let* neighbors := Grid.get_open_neighbors g x y in
  let deg := Z.of_nat (length neighbors) in
  let idx := y * Grid.width g + x in
  let* degrees := setitem (fst acc) idx deg in
  if (deg =? 1) && negb (coord_eqb (x, y) start) && negb (coord_eqb (x, y) end_)
  then Ok (degrees, snd acc ++ [(x, y)])
  else Ok (degrees, snd acc).

Definition filler_neighbor (start end_ : Z * Z) (st : filler_state) (n : Z * Z)
  : result filler_state :=
  let* n_idx := Grid.get_index (fl_grid st) (fst n) (snd n) in
  let* c := getitem (Grid.cells (fl_grid st)) n_idx in
  if Z.land c Grid.SOLVER_AUX =? 0 then
    let* d := getitem (fl_degrees st) n_idx in
    let* degrees := setitem (fl_degrees st) n_idx (d - 1) in
    let* d' := getitem degrees n_idx in
    if (d' =? 1) && negb (coord_eqb n start) && negb (coord_eqb n end_)
    then Ok (mk_filler (fl_grid st) degrees (fl_leaves st ++ [n]) (fl_visited st))
    else Ok (mk_filler (fl_grid st) degrees (fl_leaves st) (fl_visited st))
  else Ok st.

(** One leaf of the current generation; [fl_leaves] collects [next_leaves]. *)
Definition filler_fill (start end_ : Z * Z) (st : filler_state) (p : Z * Z)
  : result filler_state :=
  let* idx := Grid.get_index (fl_grid st) (fst p) (snd p) in
  let* g' := or_cell (fl_grid st) idx Grid.SOLVER_AUX in
  let st := mk_filler g' (fl_degrees st) (fl_leaves st) (fl_visited st + 1) in
  let* neighbors := Grid.get_open_neighbors g' (fst p) (snd p) in
  foldM (filler_neighbor start end_) neighbors st.

Fixpoint filler_loop (fuel : nat) (start end_ : Z * Z) (st : filler_state)
  : result filler_state :=
  match fl_leaves st with
  | [] => Ok st
  | active_leaves =>
      match fuel with
      | O => Raise OutOfFuel
      | S k =>
          let* st' := foldM (filler_fill start end_) active_leaves
                        (mk_filler (fl_grid st) (fl_degrees st) [] (fl_visited st)) in
          filler_loop k start end_ st'
      end
  end.

(** The final scan [for i in range(width * height)]. *)
Definition filler_collect (acc : Grid.t * list (Z * Z)) (i : Z)
  : result (Grid.t * list (Z * Z)) :=
  let '(g, path) := acc in
  let* c := getitem (Grid.cells g) i in
  if Z.land c Grid.SOLVER_AUX =? 0 then
    if negb (Z.land c 15 =? 15) then
      let* g' := or_cell g i Grid.PATH in
      Ok (g', path ++ [(i mod Grid.width g, i / Grid.width g)])
    else Ok acc
  else Ok acc.

Definition DeadEndFiller_run (fuel : nat) (g : Grid.t) (start end_ : Z * Z)
  : result outcome :=
  let* '(degrees, leaves) :=
    foldM (filler_degree g start end_) (scanline g) (zeros g, []) in
  let* st := filler_loop fuel start end_ (mk_filler g degrees leaves 0) in
  let* '(g', path) :=
    foldM filler_collect (seqZ 0 (Grid.width g * Grid.height g)) (fl_grid st, []) in
  Ok (mk_outcome g' path (fl_visited st) Reduced).

(** *** SwarmSolver

    The walkers draw from the module-level generator of [random], whose
    state is threaded through the run. *)

Section Swarm.

Variable Rng : Type.
Variable randbelow : Rng -> Z -> Z * Rng.

Record swarm_state : Type := mk_swarm {
  sw_grid : Grid.t;
  sw_agents : list (list (Z * Z));
  sw_parents : list Z;
  sw_visited : Z;
  sw_rng : Rng;
  sw_finished : bool;
  sw_all_stuck : bool
}.

Definition swarm_unvisited (g : Grid.t) (acc : list (Z * Z)) (n : Z * Z)
  : result (list (Z * Z)) :=
  let* n_idx := Grid.get_index g (fst n) (snd n) in
  let* c := getitem (Grid.cells g) n_idx in
  if Z.land c Grid.SOLVER_VISITED =? 0 then Ok (acc ++ [n]) else Ok acc.

(** The turn of walker [i] in [for i in range(num_agents)]; after the
    [break] on reaching the end the remaining walkers do not move. *)
Definition swarm_agent (end_ : Z * Z) (st : swarm_state) (i : nat)
  : result swarm_state :=
  if sw_finished st then Ok st
  else
    match sw_agents st !! i with
    | None => Raise IndexError
    | Some stack =>
        match last stack with
        | None => Ok st
        | Some curr =>
            if coord_eqb curr end_ then
              Ok (mk_swarm (sw_grid st) (sw_agents st) (sw_parents st)
                    (sw_visited st) (sw_rng st) true false)
            else
              let '(cx, cy) := curr in
              let* open_neighbors := Grid.get_open_neighbors (sw_grid st) cx cy in
              let* neighbors := foldM (swarm_unvisited (sw_grid st)) open_neighbors [] in
              match neighbors with
              | [] =>
                  Ok (mk_swarm (sw_grid st) (<[i := removelast stack]> (sw_agents st))
                        (sw_parents st) (sw_visited st) (sw_rng st) false false)
              | _ :: _ =>
                  let* '(next_node, rng') := choice Rng randbelow (sw_rng st) neighbors in
                  let agents := <[i := stack ++ [next_node]]> (sw_agents st) in
                  let '(nx, ny) := next_node in
                  let* n_idx := Grid.get_index (sw_grid st) nx ny in
                  let* g' := or_cell (sw_grid st) n_idx Grid.SOLVER_VISITED in
                  let* p := getitem (sw_parents st) n_idx in
                  let* parents :=
                    (if p =? 0 then
                       let dx := nx - cx in
                       let dy := ny - cy in
                       if dy =? -1 then setitem (sw_parents st) n_idx Grid.SOUTH
                       else if dy =? 1 then setitem (sw_parents st) n_idx Grid.NORTH
                       else if dx =? -1 then setitem (sw_parents st) n_idx Grid.EAST
                       else if dx =? 1 then setitem (sw_parents st) n_idx Grid.WEST
                       else Ok (sw_parents st)
                     else Ok (sw_parents st)) in
                  Ok (mk_swarm g' agents parents (sw_visited st + 1) rng' false false)
              end
        end
    end.

Definition num_agents : nat := 10.

Fixpoint swarm_loop (fuel : nat) (end_ : Z * Z) (st : swarm_state)
  : result swarm_state :=
  if sw_finished st then Ok st
  else
    match fuel with
    | O => Raise OutOfFuel
    | S k =>
        let st := mk_swarm (sw_grid st) (sw_agents st) (sw_parents st)
                    (sw_visited st) (sw_rng st) false true in
        let* st' := foldM (swarm_agent end_) (seq 0 num_agents) st in
        if sw_finished st' || sw_all_stuck st' then Ok st'
        else swarm_loop k end_ st'
    end.

Definition SwarmSolver_run (fuel : nat) (rng : Rng) (g : Grid.t)
    (start end_ : Z * Z) : result (outcome * Rng) :=
  let agents := replicate num_agents [start] in
  let* idx := Grid.get_index g (fst start) (snd start) in
  let* g := or_cell g idx Grid.SOLVER_VISITED in
  let* st := swarm_loop fuel end_ (mk_swarm g agents (zeros g) 0 rng false true) in
  if sw_finished st then
    let* idx := Grid.get_index (sw_grid st) (fst end_) (snd end_) in
    let* p := getitem (sw_parents st) idx in
    if negb (p =? 0) then
      let* '(g', path) :=
        follow_parents fuel (sw_grid st) (sw_parents st) start end_ [] in
      Ok (mk_outcome g' (rev path) (sw_visited st) Solved, sw_rng st)
    else Ok (mk_outcome (sw_grid st) [] (sw_visited st) Solved, sw_rng st)
  else Ok (mk_outcome (sw_grid st) [] (sw_visited st) Solved, sw_rng st).

End Swarm.

End Solver.

(** ** algo/dfs.py, algo/prim.py *)

Module Generator.
Section Generators.

(** [random.Random(seed)] and its [_randbelow]. *)
Variable Rng : Type.
Variable Random : Z -> Rng.
Variable randbelow : Rng -> Z -> Z * Rng.

(** The list comprehension over [get_neighbors] that keeps the neighbours
    whose visited flag is [want]. *)
Definition neighbors_where (want : bool) (g : Grid.t) (cx cy : Z)
  : result (list (Z * Z * Z)) :=
  foldM (fun acc n =>
           let '(nx, ny, dir_bit) := n in
           let* v := Grid.is_visited g nx ny in
           if Bool.eqb v want then Ok (acc ++ [n]) else Ok acc)
        (Grid.get_neighbors g cx cy) [].

(** *** RecursiveBacktracker

    The stack is only pushed, popped and peeked; it is kept with its top at
    the head of the list. *)
Record backtracker_state : Type := mk_backtracker {
  bt_grid : Grid.t;
  bt_stack : list (Z * Z);
  bt_rng : Rng;
  bt_steps : Z
}.

Fixpoint backtracker_loop (fuel : nat) (st : backtracker_state)
  : result backtracker_state :=
  match bt_stack st with
  | [] => Ok st
  | (cx, cy) :: below =>
      match fuel with
      | O => Raise OutOfFuel
      | S k =>
          let* neighbors := neighbors_where false (bt_grid st) cx cy in
          match neighbors with
          | [] =>
              backtracker_loop k
                (mk_backtracker (bt_grid st) below (bt_rng st) (bt_steps st))
          | _ :: _ =>
              let* '((nx, ny, dir_bit), rng') :=
                choice Rng randbelow (bt_rng st) neighbors in
              let* g1 := Grid.carve_path (bt_grid st) cx cy dir_bit in
              let* g2 := Grid.set_visited g1 nx ny true in
              backtracker_loop k
                (mk_backtracker g2 ((nx, ny) :: bt_stack st) rng' (bt_steps st + 1))
          end
      end
  end.

Definition RecursiveBacktracker_run (fuel : nat) (seed : Z) (g : Grid.t)
  : result Grid.t :=
  let rng := Random seed in
  let* g := Grid.set_visited g 0 0 true in
  let* st := backtracker_loop fuel (mk_backtracker g [(0, 0)] rng 0) in
  Ok (bt_grid st).

(** *** PrimsAlgorithm

    [frontier_set] is a Python set of coordinate tuples; the order in which
    [list(frontier_set)] enumerates it belongs to the interpreter and is a
    parameter. *)
Variable list_of_set : gset (Z * Z) -> list (Z * Z).

Record prim_state : Type := mk_prim {
  pr_grid : Grid.t;
  pr_set : gset (Z * Z);
  pr_list : list (Z * Z);
  pr_rng : Rng;
  pr_steps : Z
}.

(** The loop that extends the frontier with the unvisited neighbours of
    the cell just carved. *)
Definition prim_extend (g : Grid.t) (acc : gset (Z * Z) * list (Z * Z))
    (n : Z * Z * Z) : result (gset (Z * Z) * list (Z * Z)) :=
  let '(nx2, ny2, _) := n in
  let* v := Grid.is_visited g nx2 ny2 in
  if v then Ok acc
  else if bool_decide ((nx2, ny2) ∈ fst acc) then Ok acc
  else Ok ({[ (nx2, ny2) ]} ∪ fst acc, snd acc ++ [(nx2, ny2)]).

Fixpoint prim_loop (fuel : nat) (st : prim_state) : result prim_state :=
  match pr_list st with
  | [] => Ok st
  | _ :: _ =>
      match fuel with
      | O => Raise OutOfFuel
      | S k =>
          let* '(idx, rng) :=
            randrange Rng randbelow (pr_rng st) (Z.of_nat (length (pr_list st))) in
          let* n := py_index (length (pr_list st)) idx in
          match pr_list st !! n, last (pr_list st) with
          | Some (cx, cy), Some final =>
              let frontier_list := removelast (<[n := final]> (pr_list st)) in
              if negb (bool_decide ((cx, cy) ∈ pr_set st)) then
                prim_loop k (mk_prim (pr_grid st) (pr_set st) frontier_list rng
                               (pr_steps st))
              else
                let frontier_set := pr_set st ∖ {[ (cx, cy) ]} in
                let* v := Grid.is_visited (pr_grid st) cx cy in
                if v then
                  prim_loop k (mk_prim (pr_grid st) frontier_set frontier_list rng
                                 (pr_steps st))
                else
                  let* possible := neighbors_where true (pr_grid st) cx cy in
                  match possible with
                  | [] =>
                      prim_loop k (mk_prim (pr_grid st) frontier_set frontier_list
                                     rng (pr_steps st))
                  | _ :: _ =>
                      let* '((nx, ny, dir_bit), rng') :=
                        choice Rng randbelow rng possible in
                      let* g1 := Grid.carve_path (pr_grid st) cx cy dir_bit in
                      let* g2 := Grid.set_visited g1 cx cy true in
                      let* '(frontier_set, frontier_list) :=
                        foldM (prim_extend g2) (Grid.get_neighbors g2 cx cy)
                          (frontier_set, frontier_list) in
                      prim_loop k (mk_prim g2 frontier_set frontier_list rng'
                                     (pr_steps st + 1))
                  end
          | _, _ => Raise IndexError
          end
      end
  end.

Definition PrimsAlgorithm_run (fuel : nat) (seed : Z) (g : Grid.t)
  : result Grid.t :=
  let rng := Random seed in
  let* g := Grid.set_visited g 0 0 true in
  let frontier_set : gset (Z * Z) :=
    foldl (fun s n => {[ (fst (fst n), snd (fst n)) ]} ∪ s) ∅
      (Grid.get_neighbors g 0 0) in
  let frontier_list := list_of_set frontier_set in
  let* st := prim_loop fuel (mk_prim g frontier_set frontier_list rng 0) in
  Ok (pr_grid st).

End Generators.
End Generator.

(** ** core/complexity.py *)

Module MazePostProcessor.
Section Braid.

Variable Rng : Type.
Variable Random : Z -> Rng.
Variable randbelow : Rng -> Z -> Z * Rng.

Definition popcount_walls (val : Z) : Z :=
  (if negb (Z.land val Grid.NORTH =? 0) then 1 else 0) +
  (if negb (Z.land val Grid.EAST =? 0) then 1 else 0) +
  (if negb (Z.land val Grid.SOUTH =? 0) then 1 else 0) +
  (if negb (Z.land val Grid.WEST =? 0) then 1 else 0).

(** The scan [for y in range(height): for x in range(width)] that collects
    the dead ends. *)
Definition collect_dead_end (g : Grid.t) (acc : list (Z * Z)) (p : Z * Z)
  : result (list (Z * Z)) :=
  let* idx := Grid.get_index g (fst p) (snd p) in
  let* c := getitem (Grid.cells g) idx in
  if popcount_walls c =? 3 then Ok (acc ++ [p]) else Ok acc.

Definition closed_neighbors (g : Grid.t) (x y : Z) : result (list Z) :=
  let* n := Grid.has_wall g x y Grid.NORTH in
  let* s := Grid.has_wall g x y Grid.SOUTH in
  let* e := Grid.has_wall g x y Grid.EAST in
  let* w := Grid.has_wall g x y Grid.WEST in
  Ok ((if n && (0 <? y) then [Grid.NORTH] else []) ++
      (if s && (y <? Grid.height g - 1) then [Grid.SOUTH] else []) ++
      (if e && (x <? Grid.width g - 1) then [Grid.EAST] else []) ++
      (if w && (0 <? x) then [Grid.WEST] else [])).

(** [for x, y in dead_ends], with its [break] and [continue]. *)
Fixpoint braid_loop (g : Grid.t) (rng : Rng) (target_remove removed_count : Z)
    (dead_ends : list (Z * Z)) : result (Grid.t * Z * Rng) :=
  match dead_ends with
  | [] => Ok (g, removed_count, rng)
  | (x, y) :: rest =>
      if target_remove <=? removed_count then Ok (g, removed_count, rng)
      else
        let* idx := Grid.get_index g x y in
        let* c := getitem (Grid.cells g) idx in
        if negb (popcount_walls c =? 3)
        then braid_loop g rng target_remove removed_count rest
        else
          let* closed := closed_neighbors g x y in
          match closed with
          | [] => braid_loop g rng target_remove removed_count rest
          | _ :: _ =>
              let* '(direction, rng') := choice Rng randbelow rng closed in
              let* g' := Grid.carve_path g x y direction in
              braid_loop g' rng' target_remove (removed_count + 1) rest
          end
  end.

(** [int(len(dead_ends) * factor)], with the [float] factor every caller
    passes: the length is converted to a float, the product is the
    binary64 product, and [int] truncates it toward zero or raises. *)
Definition int_times (n : Z) (factor : PyFloat.t) : result Z :=
  let* x := PyFloat.of_int n in
  PyFloat.to_int (PyFloat.mul x factor).

Definition braid (g : Grid.t) (factor : PyFloat.t) (seed : Z)
  : result (Grid.t * Z) :=
  let rng := Random seed in
  let* dead_ends := foldM (collect_dead_end g) (scanline g) [] in
  let '(dead_ends, rng) := shuffle Rng randbelow rng dead_ends in
  let* target_remove := int_times (Z.of_nat (length dead_ends)) factor in
  let* '(g', removed_count, _) := braid_loop g rng target_remove 0 dead_ends in
  Ok (g', removed_count).

(** [calculate_stats(grid)["dead_ends"]] *)
Definition count_dead_ends (g : Grid.t) : result Z :=
  foldM (fun dead_ends i =>
           let* c := getitem (Grid.cells g) i in
           if popcount_walls c =? 3 then Ok (dead_ends + 1) else Ok dead_ends)
        (seqZ 0 (Grid.width g * Grid.height g)) 0.

End Braid.
End MazePostProcessor.

(** ** algo/taichi_gen.py: the sequential phase

    [generate_macro_maze_cpu] draws from the module-level generator of
    [random]; the state of that generator is threaded through.  The numpy
    arrays [grid] and [visited], of shape [(w, h)], are flat lists in row
    order of the first index. *)

Module TaichiParallelGenerator.
Section Macro.

Variable Rng : Type.
Variable randbelow : Rng -> Z -> Z * Rng.

(** [random.randint(a, b)] *)
Definition randint (rng : Rng) (a b : Z) : result (Z * Rng) :=
  let* '(r, rng') := randrange Rng randbelow rng (b - a + 1) in
  Ok (a + r, rng').

Record macro_state : Type := mk_macro {
  mc_grid : list Z;
  mc_visited : list bool;
  mc_stack : list (Z * Z);
  mc_rng : Rng
}.

Definition macro_dirs : list (Z * Z * Z * Z) :=
  [(0, -1, 1, 4); (1, 0, 2, 8); (0, 1, 4, 1); (-1, 0, 8, 2)].

Definition macro_neighbors (w h : Z) (visited : list bool) (cx cy : Z)
  : list (Z * Z * Z * Z) :=
  flat_map (fun d =>
              let '(dx, dy, d_bit, opp_bit) := d in
              let nx := cx + dx in
              let ny := cy + dy in
              if (0 <=? nx) && (nx <? w) && (0 <=? ny) && (ny <? h) &&
                 negb (default true (visited !! Z.to_nat (nx * h + ny)))
              then [(nx, ny, d_bit, opp_bit)] else [])
           macro_dirs.

Definition or_at (l : list Z) (i : Z) (bit : Z) : list Z :=
  <[Z.to_nat i := Z.lor (default 0 (l !! Z.to_nat i)) bit]> l.

Fixpoint macro_loop (fuel : nat) (w h : Z) (st : macro_state)
  : result macro_state :=
  match last (mc_stack st) with
  | None => Ok st
  | Some (cx, cy) =>
      match fuel with
      | O => Raise OutOfFuel
      | S k =>
          match macro_neighbors w h (mc_visited st) cx cy with
          | [] =>
              macro_loop k w h
                (mk_macro (mc_grid st) (mc_visited st)
                   (removelast (mc_stack st)) (mc_rng st))
          | neighbors =>
              let* '((nx, ny, d_bit, opp_bit), rng') :=
                choice Rng randbelow (mc_rng st) neighbors in
              let grid := or_at (mc_grid st) (cx * h + cy) d_bit in
              let grid := or_at grid (nx * h + ny) opp_bit in
              let visited := <[Z.to_nat (nx * h + ny) := true]> (mc_visited st) in
              macro_loop k w h
                (mk_macro grid visited (mc_stack st ++ [(nx, ny)]) rng')
          end
      end
  end.

(** [generate_macro_maze_cpu] on [blocks_x] by [blocks_y] blocks. The
    generator's [seed] attribute is not read. *)
Definition generate_macro_maze_cpu (fuel : nat) (blocks_x blocks_y : Z)
    (seed : Z) (rng : Rng) : result (list Z * Rng) :=
  let w := blocks_x in
  let h := blocks_y in
  let grid := replicate (Z.to_nat (w * h)) 0 in
  let visited := replicate (Z.to_nat (w * h)) false in
  let* '(start_x, rng) := randint rng 0 (w - 1) in
  let* '(start_y, rng) := randint rng 0 (h - 1) in
  let visited := <[Z.to_nat (start_x * h + start_y) := true]> visited in
  let* st := macro_loop fuel w h (mk_macro grid visited [(start_x, start_y)] rng) in
  Ok (mc_grid st, mc_rng st).

End Macro.
End TaichiParallelGenerator.

(** A scripted generator for running the models: the state is the list of
    numbers still to be drawn, each reduced modulo the bound asked for. *)
Definition scripted_randbelow (script : list Z) (n : Z) : Z * list Z :=
  match script with
  | [] => (0, [])
  | r :: rest => (r mod n, rest)
  end.

(** ** algo/taichi_organic.py

    [TaichiOrganicGenerator.run_all] as the host runs it.  The fields live
    on the device: [cells] has shape (width, height) and is kept here by
    columns, [cells[x, y]] at [x * height + y]; the candidate fields are
    only touched by kernels that [run_all] never launches.  The kernels
    [init_grid] and [init_walkers] write each location from one thread and
    are functions of the fields.  The kernels launched inside the loop,
    [walk_step], [hunt_and_respawn] and [auto_complete_step], run one
    thread per walker or per cell; the threads read and write neighbouring
    cells without synchronisation and draw from the device generator, so a
    launch is not a function of the fields: the three are parameters of
    the loop, and nothing is assumed of them. *)

Module TaichiOrganicGenerator.

Record fields : Type := mk_fields {
  cells : list Z;
  walkers : list (Z * Z * Z);
  visited_count : Z
}.

(** [__init__]: the fields are allocated, filled with zeros. *)
Definition init (g : Grid.t) (num_walkers : Z) : fields :=
  mk_fields (replicate (Z.to_nat (Grid.width g * Grid.height g)) 0)
            (replicate (Z.to_nat num_walkers) (0, 0, 0)) 0.

Definition setup (f : fields) : fields :=
  mk_fields (cells f) (walkers f) 1.

Definition init_grid (f : fields) : fields :=
  mk_fields (map (fun _ => 15) (cells f)) (walkers f) (visited_count f).

(** The middle cell is marked and counted, the first walker starts there,
    the others are inactive. *)
Definition init_walkers (w h : Z) (f : fields) : fields :=
  let cx := w / 2 in
  let cy := h / 2 in
  let old := look (cells f) (cx * h + cy) in
  mk_fields (<[Z.to_nat (cx * h + cy) := Z.lor old 16]> (cells f))
            (<[0%nat := (cx, cy, 1)]> (map (fun _ => (0, 0, 0)) (walkers f)))
            (if Z.land old 16 =? 0 then visited_count f + 1 else visited_count f).

Section Loop.

Variable walk_step : Z -> fields -> fields.
Variable hunt_and_respawn : Z -> fields -> fields.
Variable auto_complete_step : fields -> fields.

(** [for _ in range(n): self.auto_complete_step()] *)
Fixpoint auto_complete (n : nat) (f : fields) : fields :=
  match n with
  | O => f
  | S k => auto_complete k (auto_complete_step f)
  end.

(** [while self.visited_count[None] < total_cells], with its two [break]s. *)
Fixpoint loop (fuel : nat) (total_cells iter_count last_visited stuck_frames : Z)
    (f : fields) : result fields :=
  if visited_count f <? total_cells then
    match fuel with
    | O => Raise OutOfFuel
    | S fuel' =>
        let current_v := visited_count f in
        let* fill_ratio := PyFloat.truediv current_v total_cells in
        let f1 :=
          if PyFloat.ltb PyFloat.ninety_hundredths fill_ratio || (20 <? stuck_frames)
          then auto_complete 9 (auto_complete_step f)
          else
            let f' := walk_step 50 f in
            if iter_count mod 10 =? 0 then hunt_and_respawn 100 f' else f' in
        let new_v := visited_count f1 in
        let stuck_frames :=
          if new_v =? last_visited then stuck_frames + 1 else 0 in
        if total_cells - new_v <? 100 then Ok (auto_complete 100 f1)
        else if 2000 <? stuck_frames then Ok f1
        else loop fuel' total_cells (iter_count + 1) new_v stuck_frames f1
    end
  else Ok f.

(** The download: [array('B', self.cells.to_numpy().T.tobytes())]. *)
Definition download (g : Grid.t) (f : fields) : Grid.t :=
  Grid.set_cells g
    (map (fun p => look (cells f) (fst p * Grid.height g + snd p)) (scanline g)).

Definition run_all (fuel : nat) (num_walkers : Z) (g : Grid.t) : result Grid.t :=
  let f := setup (init g num_walkers) in
  let f := init_grid f in
  let f := init_walkers (Grid.width g) (Grid.height g) f in
  let total_cells := Grid.width g * Grid.height g in
  let* f := loop fuel total_cells 0 0 0 f in
  Ok (download g f).

(** [TaichiOrganicAdapter.run]: the generator with its default of 4096
    walkers. *)
Definition TaichiOrganicAdapter_run (fuel : nat) (g : Grid.t) : result Grid.t :=
  run_all fuel 4096 g.

End Loop.
End TaichiOrganicGenerator.

(** ** Auxiliary definitions of the proofs *)

(** Writing one cell of a well-formed grid. *)
Definition write_cell (g : Grid.t) (x y v : Z) : Grid.t :=
  Grid.set_cells g (<[Z.to_nat (y * Grid.width g + x) := v]> (Grid.cells g)).

Definition carved (g : Grid.t) (x y d : Z) : Grid.t :=
  let '(nx, ny, od) := Grid.toward x y d in
  if Grid.in_bounds g nx ny then
    let g1 := write_cell g x y (Z.land (cell_at g x y) (Z.lnot d)) in
    write_cell g1 nx ny (Z.land (cell_at g1 nx ny) (Z.lnot od))
  else g.

Definition walled (g : Grid.t) (x y d : Z) : Grid.t :=
  let '(nx, ny, od) := Grid.toward x y d in
  let g1 := write_cell g x y (Z.lor (cell_at g x y) d) in
  if Grid.in_bounds g nx ny then
    write_cell g1 nx ny (Z.lor (cell_at g1 nx ny) od)
  else g1.

(** Wall symmetry on cell bytes. *)
Definition symmetric_cells (g : Grid.t) : Prop :=
  forall x y d nx ny od,
    In d directions ->
    Grid.toward x y d = (nx, ny, od) ->
    Grid.in_bounds g x y = true ->
    Grid.in_bounds g nx ny = true ->
    has_bit (cell_at g x y) d = has_bit (cell_at g nx ny) od.

(** A toy codec pair, enough to run [save] and [load]: metadata is its own
    byte string, compression prefixes one byte. *)
Definition toy_compress (d : list Z) : list Z := 120 :: d.

Definition toy_decompress (d : list Z) : result (list Z) :=
  match d with
  | 120 :: rest => Ok rest
  | _ => Raise ZlibError
  end.

(** A dead end: a cell with exactly three wall bits set. *)
Definition dead_end (g : Grid.t) (p : Z * Z) : bool :=
  MazePostProcessor.popcount_walls (cell_at g (fst p) (snd p)) =? 3.

(** No cell of the lattice has all four walls. *)
Definition no_solid_cell (g : Grid.t) : Prop :=
  forall x y, Grid.in_bounds g x y = true ->
              MazePostProcessor.popcount_walls (cell_at g x y) <> 4.

(** *** The maze as a graph *)

Definition visited (g : Grid.t) (p : Z * Z) : bool :=
  has_bit (cell_at g (fst p) (snd p)) Grid.VISITED.

(** One move through an open wall: [q] is the lattice neighbour of [p] in a
    direction in which [p] has no wall. *)
Definition step (g : Grid.t) (p q : Z * Z) : Prop :=
  Grid.in_bounds g (fst p) (snd p) = true /\
  Grid.in_bounds g (fst q) (snd q) = true /\
  exists d od, In d directions /\
               Grid.toward (fst p) (snd p) d = (fst q, snd q, od) /\
               has_bit (cell_at g (fst p) (snd p)) d = false.

Inductive reach (g : Grid.t) (s : Z * Z) : Z * Z -> Prop :=
  | reach_refl : reach g s s
  | reach_step (p q : Z * Z) : reach g s p -> step g p q -> reach g s q.



(** Open wall pairs, each counted at its western or northern cell. *)
Definition east_open (g : Grid.t) (p : Z * Z) : bool :=
  (fst p <? Grid.width g - 1) && negb (has_bit (cell_at g (fst p) (snd p)) Grid.EAST).

Definition south_open (g : Grid.t) (p : Z * Z) : bool :=
  (snd p <? Grid.height g - 1) && negb (has_bit (cell_at g (fst p) (snd p)) Grid.SOUTH).

Definition count_where (f : Z * Z -> bool) (l : list (Z * Z)) : nat :=
  length (List.filter f l).

Definition open_wall_pairs (g : Grid.t) : nat :=
  (count_where (east_open g) (scanline g) + count_where (south_open g) (scanline g))%nat.


(** The invariant of a growing tree: [n] cells carved, ranked by the order
    in which they joined; every carved cell but the first has exactly one
    open neighbour that joined before it. *)
Record tree_inv (w h : Z) (g : Grid.t) (rank : Z * Z -> nat) (n : nat) : Prop := {
  ti_wf : wf g;
  ti_width : Grid.width g = w;
  ti_height : Grid.height g = h;
  ti_sym : symmetric_cells g;
  ti_fresh : forall p, Grid.in_bounds g (fst p) (snd p) = true ->
                       visited g p = false ->
                       cell_at g (fst p) (snd p) = Grid.ALL_WALLS;
  ti_root : visited g (0, 0) = true;
  ti_count : count_where (visited g) (scanline g) = n;
  ti_edges : S (open_wall_pairs g) = n;
  ti_reach : forall p, Grid.in_bounds g (fst p) (snd p) = true ->
                       visited g p = true -> reach g (0, 0) p;
  ti_rank_lt : forall p, Grid.in_bounds g (fst p) (snd p) = true ->
                         visited g p = true -> (rank p < n)%nat;
  ti_rank_inj : forall p q,
      Grid.in_bounds g (fst p) (snd p) = true ->
      Grid.in_bounds g (fst q) (snd q) = true ->
      visited g p = true -> visited g q = true -> rank p = rank q -> p = q;
  ti_parent : forall p q1 q2,
      step g p q1 -> step g p q2 ->
      (rank q1 < rank p)%nat -> (rank q2 < rank p)%nat -> q1 = q2
}.

(** The grid after a new cell [u] is joined to a carved neighbour [v] across
    direction [d] (seen from [u]): both wall bits cleared, [u] marked. *)
Definition attached (g g' : Grid.t) (u v : Z * Z) (d od : Z) : Prop :=
  wf g' /\ Grid.width g' = Grid.width g /\ Grid.height g' = Grid.height g /\
  forall p, Grid.in_bounds g (fst p) (snd p) = true ->
    cell_at g' (fst p) (snd p) =
    if coord_eqb p u then Z.lor (Z.land (cell_at g (fst p) (snd p)) (Z.lnot d)) Grid.VISITED
    else if coord_eqb p v then Z.land (cell_at g (fst p) (snd p)) (Z.lnot od)
    else cell_at g (fst p) (snd p).

(** *** Shortest paths *)

(** A walk through open walls from one cell to another, as the list of its
    cells, both ends included. *)
Inductive walk (g : Grid.t) : Z * Z -> Z * Z -> list (Z * Z) -> Prop :=
  | walk_one (p : Z * Z) :
      Grid.in_bounds g (fst p) (snd p) = true -> walk g p p [p]
  | walk_cons (p q e : Z * Z) (l : list (Z * Z)) :
      step g p q -> walk g q e l -> walk g p e (p :: l).

(** The solver's mark on a cell. *)
Definition seen (g : Grid.t) (p : Z * Z) : bool :=
  has_bit (cell_at g (fst p) (snd p)) Grid.SOLVER_VISITED.

(** A grid that differs from [g0] in scratch and path bits at most. *)
Definition same_walls (g0 g : Grid.t) : Prop :=
  wf g /\ Grid.width g = Grid.width g0 /\ Grid.height g = Grid.height g0 /\
  forall x y d, Grid.in_bounds g0 x y = true -> In d directions ->
    has_bit (cell_at g x y) d = has_bit (cell_at g0 x y) d.

(** The flat index of a cell. *)
Definition flat (g : Grid.t) (p : Z * Z) : Z := snd p * Grid.width g + fst p.

(** The parent array of a search: every reached cell but the start records
    the direction of an open move that leads to it from a reached cell of
    smaller cost. *)
Definition parent_links (g0 : Grid.t) (start : Z * Z) (parents : list Z)
    (reached : Z * Z -> Prop) (cost : Z * Z -> Z) : Prop :=
  forall p, Grid.in_bounds g0 (fst p) (snd p) = true -> reached p -> p <> start ->
    exists dir od q,
      In dir directions /\ look parents (flat g0 p) = dir /\
      Grid.toward (fst p) (snd p) dir = (fst q, snd q, od) /\
      step g0 q p /\ reached q /\ 0 <= cost q /\ cost q + 1 <= cost p.

(** The invariant of the breadth-first search.  [dist] is the level at
    which each marked cell was found, [level] the level of the head of the
    queue, [busy] the cell being expanded if any. *)
Record bfs_inv (g0 : Grid.t) (start : Z * Z) (st : Solver.bfs_state)
    (dist : Z * Z -> Z) (level : Z) (busy : list (Z * Z)) : Prop := {
  bi_walls : same_walls g0 (Solver.bfs_grid st);
  bi_plen : length (Solver.bfs_parents st) =
            Z.to_nat (Grid.width g0 * Grid.height g0);
  bi_start_in : Grid.in_bounds g0 (fst start) (snd start) = true;
  bi_start : seen (Solver.bfs_grid st) start = true;
  bi_zero : dist start = 0;
  bi_level : 0 <= level;
  bi_range : forall p, Grid.in_bounds g0 (fst p) (snd p) = true ->
                       seen (Solver.bfs_grid st) p = true ->
                       0 <= dist p <= level + 1;
  bi_queue : exists q1 q2, Solver.bfs_queue st = q1 ++ q2 /\
                           (forall p, In p q1 -> dist p = level) /\
                           (forall p, In p q2 -> dist p = level + 1);
  bi_queued : forall p, In p (Solver.bfs_queue st) ->
                        Grid.in_bounds g0 (fst p) (snd p) = true /\
                        seen (Solver.bfs_grid st) p = true;
  bi_busy : forall p, In p busy ->
                      Grid.in_bounds g0 (fst p) (snd p) = true /\
                      seen (Solver.bfs_grid st) p = true /\ dist p = level;
  bi_done : forall p, Grid.in_bounds g0 (fst p) (snd p) = true ->
                      seen (Solver.bfs_grid st) p = true ->
                      In p (Solver.bfs_queue st) \/ In p busy \/
                      forall q, step g0 p q ->
                                seen (Solver.bfs_grid st) q = true /\
                                dist q <= dist p + 1;
  bi_links : parent_links g0 start (Solver.bfs_parents st)
               (fun p => seen (Solver.bfs_grid st) p = true) dist;
  bi_bound : forall p, Grid.in_bounds g0 (fst p) (snd p) = true ->
                       seen (Solver.bfs_grid st) p = true ->
                       dist p < Z.of_nat (count_where (seen (Solver.bfs_grid st))
                                            (scanline g0))
}.

(** What is left to do: the queue, and the cells not yet marked. *)
Definition bfs_measure (g0 : Grid.t) (st : Solver.bfs_state) : nat :=
  (length (Solver.bfs_queue st) +
   (length (scanline g0) - count_where (seen (Solver.bfs_grid st)) (scanline g0)))%nat.

(** No cell carries the solver's mark: the grid as a generator leaves it,
    or after the scratch bits have been cleared. *)
Definition no_solver_marks (g : Grid.t) : Prop :=
  forall p, Grid.in_bounds g (fst p) (snd p) = true -> seen g p = false.

(** A shortest walk from [start] to [end_]. *)
Definition shortest_path (g : Grid.t) (start end_ : Z * Z)
    (path : list (Z * Z)) : Prop :=
  walk g start end_ path /\
  forall l, walk g start end_ l -> (length path <= length l)%nat.

(** The cost array of the best-first searches, read at a cell; [-1] stands
    for a cell not reached yet. *)
Definition cost_at (g0 : Grid.t) (gs : list Z) (p : Z * Z) : Z :=
  look gs (flat g0 p).

Definition reached (g0 : Grid.t) (gs : list Z) (p : Z * Z) : bool :=
  negb (cost_at g0 gs p =? -1).

Definition sum_over (f : Z * Z -> Z) (l : list (Z * Z)) : Z :=
  fold_right (fun p acc => f p + acc) 0 l.

(** What the costs can still lose: a cell not reached counts for the number
    of cells. *)
Definition cost_weight (g0 : Grid.t) (gs : list Z) (p : Z * Z) : Z :=
  if cost_at g0 gs p =? -1 then Z.of_nat (length (scanline g0))
  else cost_at g0 gs p.

Definition astar_measure (g0 : Grid.t) (st : Solver.astar_state) : Z :=
  Z.of_nat (length (Solver.as_open st)) +
  2 * sum_over (cost_weight g0 (Solver.as_g st)) (scanline g0).

(** The invariant of the best-first search with heuristic [h]: every entry
    of the open set is a reached cell with a priority no less than its
    cost; every reached cell has an entry of priority at most its cost plus
    its heuristic, or is being expanded, or has all the cells one open move
    away reached at a cost at most one more than its own. *)
Record astar_inv (g0 : Grid.t) (start end_ : Z * Z) (h : Z * Z -> Z * Z -> Z)
    (st : Solver.astar_state) (busy : list (Z * Z)) : Prop := {
  ai_walls : same_walls g0 (Solver.as_grid st);
  ai_glen : length (Solver.as_g st) = Z.to_nat (Grid.width g0 * Grid.height g0);
  ai_plen : length (Solver.as_parents st) =
            Z.to_nat (Grid.width g0 * Grid.height g0);
  ai_start_in : Grid.in_bounds g0 (fst start) (snd start) = true;
  ai_start : cost_at g0 (Solver.as_g st) start = 0;
  ai_range : forall p, Grid.in_bounds g0 (fst p) (snd p) = true ->
               reached g0 (Solver.as_g st) p = true ->
               0 <= cost_at g0 (Solver.as_g st) p <
               Z.of_nat (count_where (reached g0 (Solver.as_g st)) (scanline g0));
  ai_zero : forall p, Grid.in_bounds g0 (fst p) (snd p) = true ->
              cost_at g0 (Solver.as_g st) p = 0 -> p = start;
  ai_heap : forall f x y, In (f, x, y) (Solver.as_open st) ->
              Grid.in_bounds g0 x y = true /\
              reached g0 (Solver.as_g st) (x, y) = true /\
              cost_at g0 (Solver.as_g st) (x, y) <= f;
  ai_busy : forall p, In p busy ->
              Grid.in_bounds g0 (fst p) (snd p) = true /\
              reached g0 (Solver.as_g st) p = true;
  ai_front : forall p, Grid.in_bounds g0 (fst p) (snd p) = true ->
               reached g0 (Solver.as_g st) p = true ->
               (exists f, In (f, fst p, snd p) (Solver.as_open st) /\
                          f <= cost_at g0 (Solver.as_g st) p + h p end_) \/
               In p busy \/
               forall q, step g0 p q ->
                         reached g0 (Solver.as_g st) q = true /\
                         cost_at g0 (Solver.as_g st) q <=
                         cost_at g0 (Solver.as_g st) p + 1;
  ai_links : parent_links g0 start (Solver.as_parents st)
               (fun p => reached g0 (Solver.as_g st) p = true)
               (cost_at g0 (Solver.as_g st))
}.

(** The path and the last status of a run. *)
Definition path_of {A : Type} (proj : A -> Solver.outcome) (r : result A)
  : result (list (Z * Z) * Solver.status) :=
  let* o := r in Ok (Solver.path (proj o), Solver.last_status (proj o)).

(** Lattice neighbours, as [get_neighbors] enumerates them. *)
Definition lattice_neighbor (g : Grid.t) (p q : Z * Z) : Prop :=
  exists d, In (fst q, snd q, d) (Grid.get_neighbors g (fst p) (snd p)).

(** The situation in which a cell joins the tree. *)
Record joins (w h : Z) (g g' : Grid.t) (rank : Z * Z -> nat) (n : nat)
    (u v : Z * Z) (d od : Z) : Prop := {
  jn_inv : tree_inv w h g rank n;
  jn_root : Grid.in_bounds g 0 0 = true;
  jn_u : Grid.in_bounds g (fst u) (snd u) = true;
  jn_v : Grid.in_bounds g (fst v) (snd v) = true;
  jn_fresh : visited g u = false;
  jn_seen : visited g v = true;
  jn_dir : In d directions;
  jn_toward : Grid.toward (fst u) (snd u) d = (fst v, snd v, od);
  jn_att : attached g g' u v d od
}.

(** The invariant of the backtracking generator: the carved cells form a
    tree, the stack holds carved cells, and every carved cell off the stack
    has all its lattice neighbours carved. *)
Record dfs_inv {Rng : Type} (w h : Z) (st : Generator.backtracker_state Rng)
    (rank : Z * Z -> nat) (n : nat) : Prop := {
  di_tree : tree_inv w h (Generator.bt_grid Rng st) rank n;
  di_root : Grid.in_bounds (Generator.bt_grid Rng st) 0 0 = true;
  di_stack : forall p, In p (Generator.bt_stack Rng st) ->
      Grid.in_bounds (Generator.bt_grid Rng st) (fst p) (snd p) = true /\
      visited (Generator.bt_grid Rng st) p = true;
  di_closed : forall p q,
      Grid.in_bounds (Generator.bt_grid Rng st) (fst p) (snd p) = true ->
      visited (Generator.bt_grid Rng st) p = true ->
      ~ In p (Generator.bt_stack Rng st) ->
      lattice_neighbor (Generator.bt_grid Rng st) p q ->
      visited (Generator.bt_grid Rng st) q = true
}.

(** The invariant of the frontier generator: the carved cells form a tree,
    the frontier list and set hold the same cells without repetition, each
    next to a carved cell, and every lattice neighbour of a carved cell is
    carved or in the frontier. *)
Record prim_inv {Rng : Type} (w h : Z) (st : Generator.prim_state Rng)
    (rank : Z * Z -> nat) (n : nat) : Prop := {
  pi_tree : tree_inv w h (Generator.pr_grid Rng st) rank n;
  pi_root : Grid.in_bounds (Generator.pr_grid Rng st) 0 0 = true;
  pi_nodup : List.NoDup (Generator.pr_list Rng st);
  pi_set : forall q, q ∈ Generator.pr_set Rng st <-> In q (Generator.pr_list Rng st);
  pi_front : forall q, In q (Generator.pr_list Rng st) ->
      Grid.in_bounds (Generator.pr_grid Rng st) (fst q) (snd q) = true /\
      exists p, Grid.in_bounds (Generator.pr_grid Rng st) (fst p) (snd p) = true /\
                visited (Generator.pr_grid Rng st) p = true /\
                lattice_neighbor (Generator.pr_grid Rng st) q p;
  pi_closed : forall p q,
      Grid.in_bounds (Generator.pr_grid Rng st) (fst p) (snd p) = true ->
      visited (Generator.pr_grid Rng st) p = true ->
      lattice_neighbor (Generator.pr_grid Rng st) p q ->
      visited (Generator.pr_grid Rng st) q = true \/ In q (Generator.pr_list Rng st)
}.

(** ** core/events.py

    The event log is the byte string written to the writer's file; a
    reader is the string of bytes it has not consumed yet.  The formats
    start with [">"]: fields are big-endian and unpadded. *)

Module Events.

Definition EVT_INIT : Z := 1.
Definition EVT_VISIT : Z := 2.
Definition EVT_CARVE : Z := 3.
Definition EVT_PATH_ADD : Z := 4.
Definition EVT_PATH_REM : Z := 5.
Definition EVT_SOLVER_SCAN : Z := 6.
Definition EVT_SOLVER_SCAN_AUX : Z := 7.

(** [b"MAZELOG"] *)
Definition MAGIC : list Z := [77; 65; 90; 69; 76; 79; 71].

(** One unsigned big-endian field of [n] bytes; [struct.pack] raises
    [struct.error] for a value outside its range. *)
Definition pack_be (n : nat) (v : Z) : result (list Z) :=
  if (0 <=? v) && (v <? 256 ^ Z.of_nat n) then Ok (rev (le_bytes n v))
  else Raise StructError.

Definition be_value (bs : list Z) : Z := le_value (rev bs).

(** [struct.pack(">II", a, b)], [struct.pack(">BHH", t, x, y)] and
    [struct.pack(">BHHB", t, x, y, d)]. *)
Definition pack_II (a b : Z) : result (list Z) :=
  let* ba := pack_be 4 a in
  let* bb := pack_be 4 b in
  Ok (ba ++ bb).

Definition pack_BHH (t x y : Z) : result (list Z) :=
  let* bt := pack_be 1 t in
  let* bx := pack_be 2 x in
  let* by_ := pack_be 2 y in
  Ok (bt ++ bx ++ by_).

Definition pack_BHHB (t x y d : Z) : result (list Z) :=
  let* bt := pack_be 1 t in
  let* bx := pack_be 2 x in
  let* by_ := pack_be 2 y in
  let* bd := pack_be 1 d in
  Ok (bt ++ bx ++ by_ ++ bd).

(** [struct.unpack(">II", data)], [struct.unpack(">HH", data)] and
    [struct.unpack(">HHB", data)]: the buffer must have the exact size. *)
Definition unpack_II (data : list Z) : result (Z * Z) :=
  if Nat.eqb (length data) 8
  then Ok (be_value (take 4 data), be_value (drop 4 data))
  else Raise StructError.

Definition unpack_HH (data : list Z) : result (Z * Z) :=
  if Nat.eqb (length data) 4
  then Ok (be_value (take 2 data), be_value (drop 2 data))
  else Raise StructError.

Definition unpack_HHB (data : list Z) : result (Z * Z * Z) :=
  if Nat.eqb (length data) 5
  then Ok (be_value (take 2 data), be_value (take 2 (drop 2 data)),
           be_value (drop 4 data))
  else Raise StructError.

(** *** EventWriter: each method appends to the file. *)

Definition write_header (file : list Z) (width height : Z) : result (list Z) :=
  let file := file ++ MAGIC in
  let* b := pack_II width height in
  Ok (file ++ b).

Definition log_visit (file : list Z) (x y : Z) : result (list Z) :=
  let* data := pack_BHH EVT_VISIT x y in Ok (file ++ data).

Definition log_solver_scan (file : list Z) (x y : Z) : result (list Z) :=
  let* data := pack_BHH EVT_SOLVER_SCAN x y in Ok (file ++ data).

Definition log_solver_scan_aux (file : list Z) (x y : Z) : result (list Z) :=
  let* data := pack_BHH EVT_SOLVER_SCAN_AUX x y in Ok (file ++ data).

Definition log_carve (file : list Z) (x y direction : Z) : result (list Z) :=
  let* data := pack_BHHB EVT_CARVE x y direction in Ok (file ++ data).

Definition log_path_add (file : list Z) (x y : Z) : result (list Z) :=
  let* data := pack_BHH EVT_PATH_ADD x y in Ok (file ++ data).

Definition log_path_rem (file : list Z) (x y : Z) : result (list Z) :=
  let* data := pack_BHH EVT_PATH_REM x y in Ok (file ++ data).

(** *** EventReader *)

(** [read_header]: the dimensions, and the rest of the file. *)
Definition read_header (f : list Z) : result (Z * Z * list Z) :=
  let '(magic, f) := read 7 f in
  if negb (bool_decide (magic = MAGIC)) then Raise ValueError
  else
    let '(data, f) := read 8 f in
    let* '(width, height) := unpack_II data in
    Ok (width, height, f).

(** What [stream_events] yields: the type code with a pair or a triple. *)
Inductive event : Type :=
  | Event2 (type_code x y : Z)
  | Event3 (type_code x y d : Z).

(** [stream_events]: the events yielded, and the exception that ended the
    stream if one did.  A type byte that is none of the six handled codes
    is passed over. *)
Fixpoint stream_events (fuel : nat) (f : list Z) : list event * option exn :=
  match f with
  | [] => ([], None)
  | type_code :: f =>
      match fuel with
      | O => ([], Some OutOfFuel)
      | S k =>
          if type_code =? EVT_VISIT then
            let '(data, f) := read 4 f in
            match unpack_HH data with
            | Ok (x, y) =>
                let '(evs, e) := stream_events k f in
                (Event2 type_code x y :: evs, e)
            | Raise e => ([], Some e)
            end
          else if type_code =? EVT_CARVE then
            let '(data, f) := read 5 f in
            match unpack_HHB data with
            | Ok (x, y, d) =>
                let '(evs, e) := stream_events k f in
                (Event3 type_code x y d :: evs, e)
            | Raise e => ([], Some e)
            end
          else if type_code =? EVT_PATH_ADD then
            let '(data, f) := read 4 f in
            match unpack_HH data with
            | Ok (x, y) =>
                let '(evs, e) := stream_events k f in
                (Event2 type_code x y :: evs, e)
            | Raise e => ([], Some e)
            end
          else if type_code =? EVT_PATH_REM then
            let '(data, f) := read 4 f in
            match unpack_HH data with
            | Ok (x, y) =>
                let '(evs, e) := stream_events k f in
                (Event2 type_code x y :: evs, e)
            | Raise e => ([], Some e)
            end
          else if type_code =? EVT_SOLVER_SCAN then
            let '(data, f) := read 4 f in
            match unpack_HH data with
            | Ok (x, y) =>
                let '(evs, e) := stream_events k f in
                (Event2 type_code x y :: evs, e)
            | Raise e => ([], Some e)
            end
          else if type_code =? EVT_SOLVER_SCAN_AUX then
            let '(data, f) := read 4 f in
            match unpack_HH data with
            | Ok (x, y) =>
                let '(evs, e) := stream_events k f in
                (Event2 type_code x y :: evs, e)
            | Raise e => ([], Some e)
            end
          else stream_events k f
      end
  end.

End Events.

(** ** viz/replay.py *)

Module EventAdapter.





End EventAdapter.

(** ** core/grid.py with an event writer

    The grid methods that log when [event_writer] is set; the state is the
    grid and the writer's file. *)

Module LoggedGrid.

(** [Grid(width, height, event_writer)] *)
Definition init (w h : Z) (file : list Z) : result (Grid.t * list Z) :=
  let g := Grid.init w h in
  let* file := Events.write_header file w h in
  Ok (g, file).

Definition carve_path (g : Grid.t) (file : list Z) (x1 y1 dir_bit : Z)
  : result (Grid.t * list Z) :=
  let idx1 := y1 * Grid.width g + x1 in
  let '(x2, y2, opposite) := Grid.toward x1 y1 dir_bit in
  if negb (Grid.in_bounds g x2 y2) then Ok (g, file)
  else
    let* file := Events.log_carve file x1 y1 dir_bit in
    let idx2 := y2 * Grid.width g + x2 in
    let* c1 := getitem (Grid.cells g) idx1 in
    let* cs1 := setitem (Grid.cells g) idx1 (Z.land c1 (Z.lnot dir_bit)) in
    let* c2 := getitem cs1 idx2 in
    let* cs2 := setitem cs1 idx2 (Z.land c2 (Z.lnot opposite)) in
    Ok (Grid.set_cells g cs2, file).

Definition set_visited (g : Grid.t) (file : list Z) (x y : Z) (visited : bool)
  : result (Grid.t * list Z) :=
  let idx := y * Grid.width g + x in
  let* c := getitem (Grid.cells g) idx in
  if visited then
    let* cs := setitem (Grid.cells g) idx (Z.lor c Grid.VISITED) in
    let* file := Events.log_visit file x y in
    Ok (Grid.set_cells g cs, file)
  else
    let* cs := setitem (Grid.cells g) idx (Z.land c (Z.lnot Grid.VISITED)) in
    Ok (Grid.set_cells g cs, file).

End LoggedGrid.

(** *** Sequences of calls, for the statements about the log *)

(** A call of one of the six logging methods of the writer, and the event
    the reader yields for it. *)
Inductive writer_call : Type :=
  | LogVisit (x y : Z)
  | LogCarve (x y direction : Z)
  | LogPathAdd (x y : Z)
  | LogPathRem (x y : Z)
  | LogSolverScan (x y : Z)
  | LogSolverScanAux (x y : Z).

Definition do_call (file : list Z) (c : writer_call) : result (list Z) :=
  match c with
  | LogVisit x y => Events.log_visit file x y
  | LogCarve x y d => Events.log_carve file x y d
  | LogPathAdd x y => Events.log_path_add file x y
  | LogPathRem x y => Events.log_path_rem file x y
  | LogSolverScan x y => Events.log_solver_scan file x y
  | LogSolverScanAux x y => Events.log_solver_scan_aux file x y
  end.

Definition event_of_call (c : writer_call) : Events.event :=
  match c with
  | LogVisit x y => Events.Event2 Events.EVT_VISIT x y
  | LogCarve x y d => Events.Event3 Events.EVT_CARVE x y d
  | LogPathAdd x y => Events.Event2 Events.EVT_PATH_ADD x y
  | LogPathRem x y => Events.Event2 Events.EVT_PATH_REM x y
  | LogSolverScan x y => Events.Event2 Events.EVT_SOLVER_SCAN x y
  | LogSolverScanAux x y => Events.Event2 Events.EVT_SOLVER_SCAN_AUX x y
  end.

(** The fields of a call fit their formats: coordinates in two bytes, the
    direction in one. *)
Definition call_fits (c : writer_call) : Prop :=
  match c with
  | LogCarve x y d => 0 <= x < 65536 /\ 0 <= y < 65536 /\ 0 <= d < 256
  | LogVisit x y | LogPathAdd x y | LogPathRem x y
  | LogSolverScan x y | LogSolverScanAux x y =>
      0 <= x < 65536 /\ 0 <= y < 65536
  end.




(** The record the writer appends for a call: the type tag, the two
    coordinates on two bytes each, most significant byte first, and for a
    carve the direction. *)
Definition call_bytes (c : writer_call) : list Z :=
  match c with
  | LogVisit x y =>
      [Events.EVT_VISIT] ++ rev (le_bytes 2 x) ++ rev (le_bytes 2 y)
  | LogCarve x y d =>
      [Events.EVT_CARVE] ++ rev (le_bytes 2 x) ++ rev (le_bytes 2 y) ++ [d]
  | LogPathAdd x y =>
      [Events.EVT_PATH_ADD] ++ rev (le_bytes 2 x) ++ rev (le_bytes 2 y)
  | LogPathRem x y =>
      [Events.EVT_PATH_REM] ++ rev (le_bytes 2 x) ++ rev (le_bytes 2 y)
  | LogSolverScan x y =>
      [Events.EVT_SOLVER_SCAN] ++ rev (le_bytes 2 x) ++ rev (le_bytes 2 y)
  | LogSolverScanAux x y =>
      [Events.EVT_SOLVER_SCAN_AUX] ++ rev (le_bytes 2 x) ++ rev (le_bytes 2 y)
  end.


(** ** core/complexity.py: [calculate_stats]

    The returned dictionary, as a record.  [dead_end_percent] is the exact
    quotient; the float the code returns is its rounding. *)

Module MazeStats.

Record stats : Type := mk_stats {
  dead_ends : Z;
  corridors : Z;
  intersections : Z;
  dead_end_percent : Q
}.

(** The body of [for i in range(grid.width * grid.height)]. *)
Definition classify (g : Grid.t) (acc : Z * Z * Z) (i : Z) : result (Z * Z * Z) :=
  let '(dead_ends, corridors, intersections) := acc in
  let* c := getitem (Grid.cells g) i in
  let walls := MazePostProcessor.popcount_walls c in
  if walls =? 3 then Ok (dead_ends + 1, corridors, intersections)
  else if walls =? 2 then Ok (dead_ends, corridors + 1, intersections)
  else if walls <=? 1 then Ok (dead_ends, corridors, intersections + 1)
  else Ok (dead_ends, corridors, intersections).

Definition calculate_stats (g : Grid.t) : result stats :=
  let* '(dead_ends, corridors, intersections) :=
    foldM (classify g) (seqZ 0 (Grid.width g * Grid.height g)) (0, 0, 0) in
  let total := Grid.width g * Grid.height g in
  Ok (mk_stats dead_ends corridors intersections
        (if 0 <? total
         then (inject_Z dead_ends / inject_Z total) * inject_Z 100
         else inject_Z 0)%Q).

End MazeStats.

(** The number of cells with a given count of walls. *)
Definition cells_with_walls (g : Grid.t) (k : Z) : Z :=
  Z.of_nat (length (List.filter
                      (fun c => MazePostProcessor.popcount_walls c =? k)
                      (Grid.cells g))).

(** The four flag bits of a cell byte. *)
Definition flag_bits : list Z :=
  [Grid.VISITED; Grid.PATH; Grid.SOLVER_VISITED; Grid.SOLVER_AUX].

(** [g'] is [g] with some walls opened: no wall of [g'] is missing in [g],
    and the flags are the same. *)
Definition only_opened (g g' : Grid.t) : Prop :=
  wf g' /\ Grid.width g' = Grid.width g /\ Grid.height g' = Grid.height g /\
  forall x y, Grid.in_bounds g x y = true ->
    (forall d, In d directions ->
               has_bit (cell_at g' x y) d = true ->
               has_bit (cell_at g x y) d = true) /\
    (forall f, In f flag_bits ->
               has_bit (cell_at g' x y) f = has_bit (cell_at g x y) f).

(** What a search returns for an end cell of the lattice: the walls as they
    were, and a shortest walk, or no path when there is none. *)
Definition search_answer (g : Grid.t) (start end_ : Z * Z)
    (r : result Solver.outcome) : Prop :=
  exists o, r = Ok o /\ same_walls g (Solver.grid o) /\
    ((Solver.path o = [] /\ ~ reach g start end_) \/
     shortest_path g start end_ (Solver.path o)).

(** ** scripts/solver_benchmark.py: clearing the solver bits

    [grid.cells = array.array('B', [b & 0x1F for b in grid.cells])]: every
    masked value fits a byte, so the constructor cannot raise. *)
Definition clear_solver_bits (g : Grid.t) : Grid.t :=
  Grid.set_cells g (map (fun b => Z.land b 31) (Grid.cells g)).

(** The invariant of the wall follower: the walls are those of [g0], the
    facing is an index into the direction tables, and the path so far is a
    walk from the start to the current cell. *)
Definition wall_inv (g0 : Grid.t) (start : Z * Z) (st : Solver.wall_state) : Prop :=
  same_walls g0 (Solver.wl_grid st) /\
  0 <= Solver.wl_facing st < 4 /\
  walk g0 start (Solver.wl_pos st) (Solver.wl_path st).

(** The invariant of the depth-first solver.  [depth] is the length of the
    chain of parents of each marked cell, [busy] the cell being expanded if
    any: a marked cell is on the stack, or being expanded, or has every
    cell one open move away marked. *)
Record rdfs_inv (g0 : Grid.t) (start : Z * Z) (st : Solver.dfs_state)
    (depth : Z * Z -> Z) (busy : list (Z * Z)) : Prop := {
  ri_walls : same_walls g0 (Solver.df_grid st);
  ri_plen : length (Solver.df_parents st) =
            Z.to_nat (Grid.width g0 * Grid.height g0);
  ri_start_in : Grid.in_bounds g0 (fst start) (snd start) = true;
  ri_start : seen (Solver.df_grid st) start = true;
  ri_stacked : forall p, In p (Solver.df_stack st) ->
                         Grid.in_bounds g0 (fst p) (snd p) = true /\
                         seen (Solver.df_grid st) p = true;
  ri_busy : forall p, In p busy ->
                      Grid.in_bounds g0 (fst p) (snd p) = true /\
                      seen (Solver.df_grid st) p = true;
  ri_done : forall p, Grid.in_bounds g0 (fst p) (snd p) = true ->
                      seen (Solver.df_grid st) p = true ->
                      In p (Solver.df_stack st) \/ In p busy \/
                      forall q, step g0 p q -> seen (Solver.df_grid st) q = true;
  ri_links : parent_links g0 start (Solver.df_parents st)
               (fun p => seen (Solver.df_grid st) p = true) depth;
  ri_bound : forall p, Grid.in_bounds g0 (fst p) (snd p) = true ->
                       seen (Solver.df_grid st) p = true ->
                       0 <= depth p <
                       Z.of_nat (count_where (seen (Solver.df_grid st))
                                   (scanline g0))
}.

(** What is left to do: the stack, and twice the cells not yet marked. *)
Definition rdfs_measure (g0 : Grid.t) (st : Solver.dfs_state) : nat :=
  (length (Solver.df_stack st) +
   2 * (length (scanline g0) -
        count_where (seen (Solver.df_grid st)) (scanline g0)))%nat.

(** What the depth-first solver returns for an end cell of the lattice:
    the walls as they were, and a walk, or no path when there is none. *)
Definition path_answer (g : Grid.t) (start end_ : Z * Z)
    (r : result Solver.outcome) : Prop :=
  exists o, r = Ok o /\ same_walls g (Solver.grid o) /\
    ((Solver.path o = [] /\ ~ reach g start end_) \/
     walk g start end_ (Solver.path o)).

(** ** scripts/solver_benchmark.py: the maze of the race

    [run_benchmark] up to its race loop, for a maze of at most 7000 * 7000
    cells, which takes the CPU generator: the recursive backtracker on a
    new grid, then the braid when the factor is positive, with the same
    seed. *)
Definition benchmark_maze (Rng : Type) (Random : Z -> Rng)
    (randbelow : Rng -> Z -> Z * Rng) (fuel : nat) (w h : Z)
    (factor : PyFloat.t) (seed : Z) : result Grid.t :=
  let* g := Generator.RecursiveBacktracker_run Rng Random randbelow fuel seed
              (Grid.init w h) in
  if PyFloat.ltb PyFloat.zero factor then
    let* '(g', _) := MazePostProcessor.braid Rng Random randbelow g factor seed in
    Ok g'
  else Ok g.

(** A run that returns a shortest walk and leaves the walls of [g]. *)
Definition solved_by (g : Grid.t) (start end_ : Z * Z)
    (r : result Solver.outcome) : Prop :=
  exists o, r = Ok o /\ same_walls g (Solver.grid o) /\
            shortest_path g start end_ (Solver.path o).

(** No cell byte has one of the bits the solvers write. *)
Definition solver_bits_clear (g : Grid.t) : Prop :=
  Forall (fun c => Z.land c (Z.lor Grid.PATH
                               (Z.lor Grid.SOLVER_VISITED Grid.SOLVER_AUX)) = 0)
         (Grid.cells g).

(** A maze on which the three searches can be run as it is: between any
    two cells of the lattice each returns a shortest walk. *)
Definition ready_to_solve (fuel : nat) (g : Grid.t) : Prop :=
  wf g /\ solver_bits_clear g /\
  forall start end_,
    Grid.in_bounds g (fst start) (snd start) = true ->
    Grid.in_bounds g (fst end_) (snd end_) = true ->
    solved_by g start end_ (Solver.BFS_run fuel g start end_) /\
    solved_by g start end_ (Solver.Dijkstra_run fuel g start end_) /\
    solved_by g start end_ (Solver.AStar_run fuel g start end_).

(** ** The macro maze of the block generator

    [grid[x, y]] and [visited[x, y]] of the arrays of shape [(w, h)]. *)
Definition block_at (h : Z) (grid : list Z) (p : Z * Z) : Z :=
  default 0 (grid !! Z.to_nat (fst p * h + snd p)).

Definition block_seen (h : Z) (visited : list bool) (p : Z * Z) : bool :=
  default true (visited !! Z.to_nat (fst p * h + snd p)).

Definition block_in (w h : Z) (p : Z * Z) : bool :=
  (0 <=? fst p) && (fst p <? w) && (0 <=? snd p) && (snd p <? h).

(** A connection from block [p] to block [q]: [q] lies next to [p] in a
    direction whose bit [p] carries. *)
Definition linked (w h : Z) (grid : list Z) (p q : Z * Z) : Prop :=
  block_in w h p = true /\ block_in w h q = true /\
  exists dx dy d od,
    In (dx, dy, d, od) TaichiParallelGenerator.macro_dirs /\
    q = (fst p + dx, snd p + dy) /\ has_bit (block_at h grid p) d = true.

Inductive joined (w h : Z) (grid : list Z) (s : Z * Z) : Z * Z -> Prop :=
  | joined_refl : joined w h grid s s
  | joined_step (p q : Z * Z) :
      joined w h grid s p -> linked w h grid p q -> joined w h grid s q.

(** The number of direction bits over all blocks: two for each connection. *)
Definition link_ends (grid : list Z) : Z :=
  fold_right (fun c acc => MazePostProcessor.popcount_walls c + acc) 0 grid.

Definition unseen_blocks (visited : list bool) : Z :=
  fold_right (fun (b : bool) acc => (if b then 0 else 1) + acc) 0 visited.

(** The block graph is a spanning tree: connections are recorded on both
    sides and stay inside the grid, every block is joined to every other,
    and there are [w * h - 1] connections. *)
Definition spanning_tree (w h : Z) (grid : list Z) : Prop :=
  length grid = Z.to_nat (w * h) /\
  (forall p dx dy d od,
     block_in w h p = true ->
     In (dx, dy, d, od) TaichiParallelGenerator.macro_dirs ->
     has_bit (block_at h grid p) d = true ->
     block_in w h (fst p + dx, snd p + dy) = true /\
     has_bit (block_at h grid (fst p + dx, snd p + dy)) od = true) /\
  (forall p q, block_in w h p = true -> block_in w h q = true ->
               joined w h grid p q) /\
  link_ends grid = 2 * (w * h - 1).

(** The invariant of the loop of [generate_macro_maze_cpu]. *)
Record macro_inv {Rng : Type} (w h : Z) (start : Z * Z)
    (st : TaichiParallelGenerator.macro_state Rng) : Prop := {
  mi_glen : length (TaichiParallelGenerator.mc_grid Rng st) = Z.to_nat (w * h);
  mi_vlen : length (TaichiParallelGenerator.mc_visited Rng st) = Z.to_nat (w * h);
  mi_start : block_in w h start = true;
  mi_start_seen :
    block_seen h (TaichiParallelGenerator.mc_visited Rng st) start = true;
  mi_stack : forall p, In p (TaichiParallelGenerator.mc_stack Rng st) ->
      block_in w h p = true /\
      block_seen h (TaichiParallelGenerator.mc_visited Rng st) p = true;
  mi_joined : forall p, block_in w h p = true ->
      block_seen h (TaichiParallelGenerator.mc_visited Rng st) p = true ->
      joined w h (TaichiParallelGenerator.mc_grid Rng st) start p;
  mi_fresh : forall p, block_in w h p = true ->
      block_seen h (TaichiParallelGenerator.mc_visited Rng st) p = false ->
      block_at h (TaichiParallelGenerator.mc_grid Rng st) p = 0;
  mi_sym : forall p dx dy d od,
      block_in w h p = true ->
      In (dx, dy, d, od) TaichiParallelGenerator.macro_dirs ->
      has_bit (block_at h (TaichiParallelGenerator.mc_grid Rng st) p) d = true ->
      block_in w h (fst p + dx, snd p + dy) = true /\
      has_bit (block_at h (TaichiParallelGenerator.mc_grid Rng st)
                 (fst p + dx, snd p + dy)) od = true;
  mi_count : link_ends (TaichiParallelGenerator.mc_grid Rng st) =
             2 * (w * h - unseen_blocks (TaichiParallelGenerator.mc_visited Rng st) - 1);
  mi_closed : forall p dx dy d od,
      block_in w h p = true ->
      block_seen h (TaichiParallelGenerator.mc_visited Rng st) p = true ->
      ~ In p (TaichiParallelGenerator.mc_stack Rng st) ->
      In (dx, dy, d, od) TaichiParallelGenerator.macro_dirs ->
      block_in w h (fst p + dx, snd p + dy) = true ->
      block_seen h (TaichiParallelGenerator.mc_visited Rng st)
        (fst p + dx, snd p + dy) = true
}.

(** The invariant of the swarm.  Every cell on a walker's stack is marked;
    a marked cell is on some stack or has every cell one open move away
    marked; the parent array links every marked cell but the start to a
    marked cell of smaller depth, and is zero elsewhere; once the end is
    marked it is the top of some stack. *)
Record swarm_inv {Rng : Type} (g0 : Grid.t) (start end_ : Z * Z)
    (st : Solver.swarm_state Rng) (depth : Z * Z -> Z) : Prop := {
  si_walls : same_walls g0 (Solver.sw_grid Rng st);
  si_plen : length (Solver.sw_parents Rng st) =
            Z.to_nat (Grid.width g0 * Grid.height g0);
  si_start_in : Grid.in_bounds g0 (fst start) (snd start) = true;
  si_start : seen (Solver.sw_grid Rng st) start = true;
  si_root : look (Solver.sw_parents Rng st) (flat g0 start) = 0;
  si_agents : length (Solver.sw_agents Rng st) = Solver.num_agents;
  si_stack : forall i stack p,
      Solver.sw_agents Rng st !! i = Some stack -> In p stack ->
      Grid.in_bounds g0 (fst p) (snd p) = true /\
      seen (Solver.sw_grid Rng st) p = true;
  si_done : forall p, Grid.in_bounds g0 (fst p) (snd p) = true ->
      seen (Solver.sw_grid Rng st) p = true ->
      (exists i stack, Solver.sw_agents Rng st !! i = Some stack /\ In p stack) \/
      forall q, step g0 p q -> seen (Solver.sw_grid Rng st) q = true;
  si_links : parent_links g0 start (Solver.sw_parents Rng st)
               (fun p => seen (Solver.sw_grid Rng st) p = true) depth;
  si_bound : forall p, Grid.in_bounds g0 (fst p) (snd p) = true ->
      seen (Solver.sw_grid Rng st) p = true ->
      0 <= depth p <
      Z.of_nat (count_where (seen (Solver.sw_grid Rng st)) (scanline g0));
  si_unset : forall p, Grid.in_bounds g0 (fst p) (snd p) = true ->
      seen (Solver.sw_grid Rng st) p = false ->
      look (Solver.sw_parents Rng st) (flat g0 p) = 0;
  si_end : end_ <> start ->
      Grid.in_bounds g0 (fst end_) (snd end_) = true ->
      seen (Solver.sw_grid Rng st) end_ = true ->
      exists i stack, Solver.sw_agents Rng st !! i = Some stack /\
                      last stack = Some end_;
  si_fin : Solver.sw_finished Rng st = true ->
      Grid.in_bounds g0 (fst end_) (snd end_) = true /\
      seen (Solver.sw_grid Rng st) end_ = true
}.

(** What is left to do: the cells on the stacks, and twice the cells not
    yet marked. *)
Definition swarm_measure {Rng : Type} (g0 : Grid.t)
    (st : Solver.swarm_state Rng) : Z :=
  fold_right (fun (s : list (Z * Z)) acc => Z.of_nat (length s) + acc) 0
    (Solver.sw_agents Rng st) +
  2 * (Z.of_nat (length (scanline g0)) -
       Z.of_nat (count_where (seen (Solver.sw_grid Rng st)) (scanline g0))).

(** What the swarm returns for two cells of the lattice: the walls as they
    were, and the cells of a walk after its first, or no path. *)
Definition swarm_answer (g : Grid.t) (start end_ : Z * Z)
    (o : Solver.outcome) : Prop :=
  same_walls g (Solver.grid o) /\
  ((Solver.path o = [] /\ (start = end_ \/ ~ reach g start end_)) \/
   (start <> end_ /\ walk g start end_ (start :: Solver.path o))).

(** The dead-end filler's mark on a cell. *)
Definition filled (g : Grid.t) (p : Z * Z) : bool :=
  has_bit (cell_at g (fst p) (snd p)) Grid.SOLVER_AUX.

(** The cells [get_open_neighbors] yields at a cell, in its order. *)
Definition open_list (g : Grid.t) (p : Z * Z) : list (Z * Z) :=
  map (fun n => (fst (fst n), snd (fst n)))
    (List.filter (fun n => negb (has_bit (cell_at g (fst p) (snd p)) (snd n)))
       (Grid.get_neighbors g (fst p) (snd p))).

(** The number of cells one open move away that are not filled. *)
Definition free_degree (g0 g : Grid.t) (p : Z * Z) : Z :=
  Z.of_nat (count_where (fun q => negb (filled g q)) (open_list g0 p)).

(** The cells the filler has not marked. *)
Definition unfilled_count (g0 g : Grid.t) : nat :=
  count_where (fun p => negb (filled g p)) (scanline g0).

(** What the dead-end filler keeps, with [pending] the leaves still to be
    filled and [extra] the open neighbours of the cell being filled whose
    degree has not been lowered yet. *)
Record filler_inv (g0 : Grid.t) (start end_ : Z * Z) (extra pending : list (Z * Z))
    (g : Grid.t) (degrees : list Z) : Prop := {
  fi_walls : same_walls g0 g;
  fi_len : length degrees = Z.to_nat (Grid.width g0 * Grid.height g0);
  fi_deg : forall p, Grid.in_bounds g0 (fst p) (snd p) = true -> filled g p = false ->
      (In p extra -> look degrees (flat g0 p) = free_degree g0 g p + 1) /\
      (~ In p extra -> look degrees (flat g0 p) = free_degree g0 g p);
  fi_nodup : List.NoDup pending;
  fi_pending : forall p, In p pending ->
      Grid.in_bounds g0 (fst p) (snd p) = true /\ filled g p = false /\
      p <> start /\ p <> end_ /\ look degrees (flat g0 p) <= 1;
  fi_complete : forall p, Grid.in_bounds g0 (fst p) (snd p) = true ->
      filled g p = false -> p <> start -> p <> end_ ->
      look degrees (flat g0 p) = 1 -> In p pending;
  fi_start : filled g start = false;
  fi_end : filled g end_ = false;
  fi_safe : forall l, walk g0 start end_ l -> List.NoDup l ->
      forall p, In p l -> filled g p = false
}.

(** Whether a cell is in the path the filler returns. *)
Definition kept (path : list (Z * Z)) (q : Z * Z) : bool :=
  existsb (coord_eqb q) path.

(** What the dead-end filler answers: the walls are as they were, every
    walk from [start] to [end_] that visits no cell twice lies in the
    path, and no cell of the path but [start] and [end_] is a dead end of
    the path. *)
Definition filler_answer (g : Grid.t) (start end_ : Z * Z) (o : Solver.outcome)
  : Prop :=
  Solver.last_status o = Solver.Reduced /\ same_walls g (Solver.grid o) /\
  (forall l, walk g start end_ l -> List.NoDup l ->
     forall p, In p l -> In p (Solver.path o)) /\
  (forall p, In p (Solver.path o) -> Grid.in_bounds g (fst p) (snd p) = true) /\
  (forall p, In p (Solver.path o) -> p <> start -> p <> end_ ->
     count_where (kept (Solver.path o)) (open_list g p) <> 1%nat).

(* ================================================================= *)
(** * Properties *)

Example get_index_5x5 : Grid.get_index (Grid.init 5 5) 2 2 = Ok 12.
Proof. reflexivity. Qed.

Lemma bind_Ok {A B} (a : A) (f : A -> result B) : bind (Ok a) f = f a.
Proof. reflexivity. Qed.

Lemma bind_Raise {A B} (e : exn) (f : A -> result B) : bind (Raise e) f = Raise e.
Proof. reflexivity. Qed.

(** ** Python indexing *)

Lemma py_index_inrange (n : nat) (i : Z) :
  0 <= i < Z.of_nat n -> py_index n i = Ok (Z.to_nat i).
Proof.
  intros H. unfold py_index.
  destruct (Z.leb_spec 0 i); [|lia].
  destruct (Z.ltb_spec i (Z.of_nat n)); [|lia]. reflexivity.
Qed.

Lemma getitem_inrange (l : list Z) (i : Z) :
  0 <= i < Z.of_nat (length l) -> getitem l i = Ok (look l i).
Proof.
  intros H. unfold getitem, look. rewrite py_index_inrange by exact H. simpl.
  destruct (l !! Z.to_nat i) eqn:E; [reflexivity|].
  apply lookup_ge_None in E. lia.
Qed.

Lemma setitem_inrange (l : list Z) (i v : Z) :
  0 <= i < Z.of_nat (length l) -> is_byte v = true ->
  setitem l i v = Ok (<[Z.to_nat i := v]> l).
Proof.
  intros H Hv. unfold setitem, array_set. rewrite py_index_inrange by exact H. simpl.
  rewrite Hv. reflexivity.
Qed.

Lemma look_insert (l : list Z) (i j v : Z) :
  0 <= i < Z.of_nat (length l) -> 0 <= j ->
  look (<[Z.to_nat i := v]> l) j = if i =? j then v else look l j.
Proof.
  intros Hi Hj. unfold look. destruct (Z.eqb_spec i j) as [->|Hne].
  - rewrite list_lookup_insert_eq by lia. reflexivity.
  - rewrite list_lookup_insert_ne by lia. reflexivity.
Qed.

Lemma look_byte (l : list Z) (i : Z) :
  Forall (fun v => is_byte v = true) l -> is_byte (look l i) = true.
Proof.
  intros H. unfold look. destruct (l !! Z.to_nat i) eqn:E; [|reflexivity].
  simpl. rewrite Forall_forall in H. apply H.
  eapply list_elem_of_lookup_2. exact E.
Qed.

Lemma Forall_byte_insert (l : list Z) (n : nat) (v : Z) :
  Forall (fun v => is_byte v = true) l -> is_byte v = true ->
  Forall (fun v => is_byte v = true) (<[n := v]> l).
Proof. intros H Hv. apply Forall_insert; assumption. Qed.

(** ** Flat indices of lattice coordinates *)

Lemma in_bounds_iff (g : Grid.t) (x y : Z) :
  Grid.in_bounds g x y = true <->
  0 <= x < Grid.width g /\ 0 <= y < Grid.height g.
Proof. unfold Grid.in_bounds. rewrite !andb_true_iff. lia. Qed.

Lemma in_bounds_false_iff (g : Grid.t) (x y : Z) :
  Grid.in_bounds g x y = false <->
  ~ (0 <= x < Grid.width g /\ 0 <= y < Grid.height g).
Proof. rewrite <- in_bounds_iff, not_true_iff_false. reflexivity. Qed.

Lemma flat_index_range (w h x y : Z) :
  0 <= x < w -> 0 <= y < h -> 0 <= y * w + x < w * h.
Proof. intros Hx Hy. nia. Qed.

Lemma flat_index_inj (w x y a b : Z) :
  0 <= x < w -> 0 <= a < w -> 0 <= y -> 0 <= b ->
  y * w + x = b * w + a -> x = a /\ y = b.
Proof.
  intros Hx Ha Hy Hb H.
  assert (y = b) as ->.
  { destruct (Z.lt_trichotomy y b) as [Hlt|[Heq|Hgt]]; [|exact Heq|].
    - assert (y + 1 <= b) by lia. nia.
    - assert (b + 1 <= y) by lia. nia. }
  split; [lia | reflexivity].
Qed.

Lemma flat_index_eqb (w x y a b : Z) :
  0 <= x < w -> 0 <= a < w -> 0 <= y -> 0 <= b ->
  (y * w + x =? b * w + a) = (x =? a) && (y =? b).
Proof.
  intros Hx Ha Hy Hb.
  destruct (Z.eqb_spec (y * w + x) (b * w + a)) as [E|E].
  - destruct (flat_index_inj w x y a b Hx Ha Hy Hb E) as [Hxa Hyb].
    subst a b. rewrite !Z.eqb_refl. reflexivity.
  - destruct (Z.eqb_spec x a) as [->|]; [|reflexivity].
    destruct (Z.eqb_spec y b) as [->|]; [|reflexivity].
    exfalso. apply E. reflexivity.
Qed.

Lemma wf_index (g : Grid.t) (x y : Z) :
  wf g -> Grid.in_bounds g x y = true ->
  0 <= y * Grid.width g + x < Z.of_nat (length (Grid.cells g)).
Proof.
  intros (Hw & Hh & Hlen & _) Hb. apply in_bounds_iff in Hb.
  rewrite Hlen. pose proof (flat_index_range _ _ _ _ (proj1 Hb) (proj2 Hb)). lia.
Qed.

Lemma getitem_cell (g : Grid.t) (x y : Z) :
  wf g -> Grid.in_bounds g x y = true ->
  getitem (Grid.cells g) (y * Grid.width g + x) = Ok (cell_at g x y).
Proof. intros Hwf Hb. apply getitem_inrange, wf_index; assumption. Qed.

Lemma has_wall_cell (g : Grid.t) (x y d : Z) :
  wf g -> Grid.in_bounds g x y = true ->
  Grid.has_wall g x y d = Ok (has_bit (cell_at g x y) d).
Proof.
  intros Hwf Hb. unfold Grid.has_wall. rewrite getitem_cell by assumption.
  reflexivity.
Qed.

Lemma is_visited_cell (g : Grid.t) (x y : Z) :
  wf g -> Grid.in_bounds g x y = true ->
  Grid.is_visited g x y = Ok (has_bit (cell_at g x y) Grid.VISITED).
Proof.
  intros Hwf Hb. unfold Grid.is_visited. rewrite getitem_cell by assumption.
  reflexivity.
Qed.

Lemma cell_at_byte (g : Grid.t) (x y : Z) :
  wf g -> is_byte (cell_at g x y) = true.
Proof. intros (_ & _ & _ & H). apply look_byte, H. Qed.

Lemma write_cell_wf (g : Grid.t) (x y v : Z) :
  wf g -> is_byte v = true -> wf (write_cell g x y v).
Proof.
  intros (Hw & Hh & Hlen & Hby) Hv. unfold write_cell, wf; simpl.
  rewrite length_insert. repeat split; try assumption.
  apply Forall_byte_insert; assumption.
Qed.

Lemma write_cell_in_bounds (g : Grid.t) (x y v a b : Z) :
  Grid.in_bounds (write_cell g x y v) a b = Grid.in_bounds g a b.
Proof. reflexivity. Qed.

Lemma cell_at_write (g : Grid.t) (x y v a b : Z) :
  wf g -> Grid.in_bounds g x y = true -> Grid.in_bounds g a b = true ->
  cell_at (write_cell g x y v) a b =
  if (x =? a) && (y =? b) then v else cell_at g a b.
Proof.
  intros Hwf Hxy Hab. unfold cell_at, write_cell; simpl.
  pose proof (wf_index g x y Hwf Hxy) as Hi.
  pose proof (wf_index g a b Hwf Hab) as Hj.
  rewrite look_insert by lia.
  apply in_bounds_iff in Hxy, Hab.
  rewrite flat_index_eqb by lia. reflexivity.
Qed.

Lemma setitem_cell (g : Grid.t) (x y v : Z) :
  wf g -> Grid.in_bounds g x y = true -> is_byte v = true ->
  setitem (Grid.cells g) (y * Grid.width g + x) v =
  Ok (Grid.cells (write_cell g x y v)).
Proof.
  intros Hwf Hb Hv. unfold write_cell; simpl.
  apply setitem_inrange; [apply wf_index; assumption | assumption].
Qed.

(** ** Bits of a cell byte *)

Lemma is_byte_iff (v : Z) : is_byte v = true <-> Z.land v 255 = v.
Proof.
  unfold is_byte. rewrite andb_true_iff, Z.leb_le, Z.ltb_lt.
  change 255 with (Z.ones 8). rewrite Z.land_ones by lia.
  change (2 ^ 8) with 256. split.
  - intros H. apply Z.mod_small. exact H.
  - intros H. rewrite <- H. apply Z.mod_pos_bound. lia.
Qed.

Lemma byte_land (c m : Z) : is_byte c = true -> is_byte (Z.land c m) = true.
Proof.
  rewrite !is_byte_iff. intros H.
  rewrite <- Z.land_assoc, (Z.land_comm m 255), Z.land_assoc, H. reflexivity.
Qed.

Lemma byte_lor (c m : Z) :
  is_byte c = true -> is_byte m = true -> is_byte (Z.lor c m) = true.
Proof.
  rewrite !is_byte_iff. intros Hc Hm.
  rewrite Z.land_lor_distr_l, Hc, Hm. reflexivity.
Qed.

Lemma has_bit_clear_same (c d : Z) : has_bit (Z.land c (Z.lnot d)) d = false.
Proof.
  unfold has_bit. rewrite <- Z.land_assoc, (Z.land_comm (Z.lnot d) d).
  rewrite Z.land_lnot_diag, Z.land_0_r. reflexivity.
Qed.

Lemma has_bit_clear_other (c d e : Z) :
  Z.land d e = 0 -> has_bit (Z.land c (Z.lnot d)) e = has_bit c e.
Proof.
  intros H. unfold has_bit. f_equal. f_equal.
  apply Z.bits_inj'. intros n Hn.
  rewrite !Z.land_spec, Z.lnot_spec by exact Hn.
  assert (Hb : Z.testbit (Z.land d e) n = false) by (rewrite H; apply Z.bits_0).
  rewrite Z.land_spec in Hb.
  destruct (Z.testbit c n), (Z.testbit d n), (Z.testbit e n);
    simpl in *; congruence.
Qed.

Lemma has_bit_set_same (c d : Z) : d <> 0 -> has_bit (Z.lor c d) d = true.
Proof.
  intros H. unfold has_bit.
  rewrite Z.land_lor_distr_l, Z.land_diag.
  destruct (Z.eqb_spec (Z.lor (Z.land c d) d) 0) as [E|E]; [|reflexivity].
  apply Z.lor_eq_0_iff in E. tauto.
Qed.

Lemma has_bit_set_other (c d e : Z) :
  Z.land d e = 0 -> has_bit (Z.lor c d) e = has_bit c e.
Proof.
  intros H. unfold has_bit.
  rewrite Z.land_lor_distr_l, H, Z.lor_0_r. reflexivity.
Qed.

(** ** The wall mutators on cells of the lattice *)

Lemma directions_cases (d : Z) :
  In d directions ->
  d = Grid.NORTH \/ d = Grid.EAST \/ d = Grid.SOUTH \/ d = Grid.WEST.
Proof. simpl. intuition. Qed.

Lemma carve_path_carved (g : Grid.t) (x y d : Z) :
  wf g -> Grid.in_bounds g x y = true ->
  Grid.carve_path g x y d = Ok (carved g x y d).
Proof.
  intros Hwf Hb. unfold Grid.carve_path, carved.
  destruct (Grid.toward x y d) as [[nx ny] od].
  destruct (Grid.in_bounds g nx ny) eqn:Hn; cbn [negb]; [|reflexivity].
  rewrite getitem_cell, bind_Ok by assumption.
  pose proof (byte_land _ (Z.lnot d) (cell_at_byte g x y Hwf)) as Hv1.
  rewrite setitem_cell, bind_Ok by assumption.
  set (g1 := write_cell g x y _) in *.
  assert (Hwf1 : wf g1) by (apply write_cell_wf; assumption).
  change (Grid.width g) with (Grid.width g1).
  rewrite getitem_cell, bind_Ok by assumption.
  rewrite setitem_cell; [reflexivity | assumption | assumption |].
  apply byte_land, cell_at_byte, Hwf1.
Qed.

Lemma carved_wf (g : Grid.t) (x y d : Z) : wf g -> wf (carved g x y d).
Proof.
  intros Hwf. unfold carved. destruct (Grid.toward x y d) as [[nx ny] od].
  destruct (Grid.in_bounds g nx ny); [|assumption].
  assert (wf (write_cell g x y (Z.land (cell_at g x y) (Z.lnot d)))).
  { apply write_cell_wf; [assumption|]. apply byte_land, cell_at_byte, Hwf. }
  apply write_cell_wf; [assumption|]. apply byte_land, cell_at_byte. assumption.
Qed.

Lemma carved_dims (g : Grid.t) (x y d : Z) :
  Grid.width (carved g x y d) = Grid.width g /\
  Grid.height (carved g x y d) = Grid.height g.
Proof.
  unfold carved. destruct (Grid.toward x y d) as [[nx ny] od].
  destruct (Grid.in_bounds g nx ny); split; reflexivity.
Qed.

Lemma direction_byte (d : Z) : In d directions -> is_byte d = true.
Proof. intros H. apply directions_cases in H. intuition; subst; reflexivity. Qed.

Lemma toward_opposite_byte (x y d nx ny od : Z) :
  Grid.toward x y d = (nx, ny, od) -> is_byte od = true.
Proof.
  unfold Grid.toward. intros H.
  repeat match type of H with
         | (if ?c then _ else _) = _ => destruct c
         end; inversion H; reflexivity.
Qed.

Lemma add_wall_walled (g : Grid.t) (x y d : Z) :
  wf g -> Grid.in_bounds g x y = true -> is_byte d = true ->
  Grid.add_wall g x y d = Ok (walled g x y d).
Proof.
  intros Hwf Hb Hd. unfold Grid.add_wall, walled.
  rewrite getitem_cell, bind_Ok by assumption.
  pose proof (byte_lor _ d (cell_at_byte g x y Hwf) Hd) as Hv1.
  rewrite setitem_cell, bind_Ok by assumption.
  destruct (Grid.toward x y d) as [[nx ny] od] eqn:Ht.
  set (g1 := write_cell g x y _) in *.
  assert (Hwf1 : wf g1) by (apply write_cell_wf; assumption).
  destruct (Grid.in_bounds g nx ny) eqn:Hn; [|reflexivity].
  change (Grid.width g) with (Grid.width g1).
  rewrite getitem_cell, bind_Ok by assumption.
  rewrite setitem_cell; [reflexivity | assumption | assumption |].
  apply byte_lor; [apply cell_at_byte, Hwf1 | eapply toward_opposite_byte, Ht].
Qed.

Lemma walled_wf (g : Grid.t) (x y d : Z) :
  wf g -> is_byte d = true -> wf (walled g x y d).
Proof.
  intros Hwf Hd. unfold walled. destruct (Grid.toward x y d) as [[nx ny] od] eqn:Ht.
  assert (wf (write_cell g x y (Z.lor (cell_at g x y) d))).
  { apply write_cell_wf; [assumption|]. apply byte_lor; [apply cell_at_byte, Hwf|assumption]. }
  destruct (Grid.in_bounds g nx ny); [|assumption].
  apply write_cell_wf; [assumption|].
  apply byte_lor; [apply cell_at_byte; assumption | eapply toward_opposite_byte, Ht].
Qed.

Lemma walled_dims (g : Grid.t) (x y d : Z) :
  Grid.width (walled g x y d) = Grid.width g /\
  Grid.height (walled g x y d) = Grid.height g.
Proof.
  unfold walled. destruct (Grid.toward x y d) as [[nx ny] od].
  destruct (Grid.in_bounds g nx ny); split; reflexivity.
Qed.

Lemma symmetric_cells_has_wall (g : Grid.t) :
  wf g -> symmetric_cells g -> wall_symmetric g.
Proof.
  intros Hwf Hs x y d nx ny od Hd Ht Hb Hn.
  exists (has_bit (cell_at g x y) d). split.
  - apply has_wall_cell; assumption.
  - rewrite has_wall_cell by assumption. f_equal. symmetry.
    eapply Hs; eassumption.
Qed.

Lemma cell_at_carved (g : Grid.t) (x y d nx ny od a b : Z) :
  wf g -> Grid.in_bounds g x y = true -> Grid.in_bounds g a b = true ->
  Grid.toward x y d = (nx, ny, od) ->
  cell_at (carved g x y d) a b =
  if Grid.in_bounds g nx ny then
    if (nx =? a) && (ny =? b) then
      Z.land (if (x =? nx) && (y =? ny)
              then Z.land (cell_at g x y) (Z.lnot d) else cell_at g nx ny)
             (Z.lnot od)
    else if (x =? a) && (y =? b) then Z.land (cell_at g x y) (Z.lnot d)
    else cell_at g a b
  else cell_at g a b.
Proof.
  intros Hwf Hxy Hab Ht. unfold carved. rewrite Ht.
  destruct (Grid.in_bounds g nx ny) eqn:Hn; [|reflexivity].
  assert (Hv : is_byte (Z.land (cell_at g x y) (Z.lnot d)) = true)
    by (apply byte_land, cell_at_byte, Hwf).
  rewrite cell_at_write;
    [| apply write_cell_wf; assumption | exact Hn | exact Hab].
  rewrite !cell_at_write by assumption. reflexivity.
Qed.

Lemma cell_at_walled (g : Grid.t) (x y d nx ny od a b : Z) :
  wf g -> Grid.in_bounds g x y = true -> Grid.in_bounds g a b = true ->
  is_byte d = true ->
  Grid.toward x y d = (nx, ny, od) ->
  cell_at (walled g x y d) a b =
  if Grid.in_bounds g nx ny then
    if (nx =? a) && (ny =? b) then
      Z.lor (if (x =? nx) && (y =? ny)
             then Z.lor (cell_at g x y) d else cell_at g nx ny) od
    else if (x =? a) && (y =? b) then Z.lor (cell_at g x y) d
    else cell_at g a b
  else if (x =? a) && (y =? b) then Z.lor (cell_at g x y) d
  else cell_at g a b.
Proof.
  intros Hwf Hxy Hab Hd Ht. unfold walled. rewrite Ht.
  assert (Hv : is_byte (Z.lor (cell_at g x y) d) = true)
    by (apply byte_lor; [apply cell_at_byte, Hwf | exact Hd]).
  destruct (Grid.in_bounds g nx ny) eqn:Hn.
  - rewrite cell_at_write;
      [| apply write_cell_wf; assumption | exact Hn | exact Hab].
    rewrite !cell_at_write by assumption. reflexivity.
  - rewrite cell_at_write by assumption. reflexivity.
Qed.

(** Case analysis on coordinate tests, closing the impossible cases by
    linear arithmetic. *)
Ltac split_coords :=
  repeat match goal with
         | |- context [?a =? ?b] =>
             destruct (Z.eqb_spec a b); try lia; cbn [andb]
         end.

Lemma toward_cases (x y d nx ny od : Z) :
  In d directions -> Grid.toward x y d = (nx, ny, od) ->
  (d = Grid.NORTH /\ nx = x /\ ny = y - 1 /\ od = Grid.SOUTH) \/
  (d = Grid.EAST /\ nx = x + 1 /\ ny = y /\ od = Grid.WEST) \/
  (d = Grid.SOUTH /\ nx = x /\ ny = y + 1 /\ od = Grid.NORTH) \/
  (d = Grid.WEST /\ nx = x - 1 /\ ny = y /\ od = Grid.EAST).
Proof.
  intros Hd Ht. apply directions_cases in Hd.
  destruct Hd as [ -> | [ -> | [ -> | -> ] ] ]; unfold Grid.toward in Ht;
    cbn [Z.eqb Grid.NORTH Grid.EAST Grid.SOUTH Grid.WEST Pos.eqb] in Ht;
    inversion Ht; subst; tauto.
Qed.

Ltac four_dirs Hd Ht :=
  destruct (toward_cases _ _ _ _ _ _ Hd Ht)
    as [ (? & ? & ? & ?) | [ (? & ? & ? & ?) | [ (? & ? & ? & ?) | (? & ? & ? & ?) ] ] ];
  clear Hd Ht; subst.

Lemma carved_symmetric (g : Grid.t) (x y d : Z) :
  wf g -> symmetric_cells g ->
  Grid.in_bounds g x y = true -> In d directions ->
  symmetric_cells (carved g x y d).
Proof.
  intros Hwf Hs Hxy Hd a b e na nb oe He Hte Hab Hnab.
  destruct (carved_dims g x y d) as [Hw Hh].
  assert (Hab' : Grid.in_bounds g a b = true).
  { rewrite in_bounds_iff in *. rewrite Hw, Hh in Hab. exact Hab. }
  assert (Hnab' : Grid.in_bounds g na nb = true).
  { rewrite in_bounds_iff in *. rewrite Hw, Hh in Hnab. exact Hnab. }
  pose proof (Hs a b e na nb oe He Hte Hab' Hnab') as Hg.
  destruct (Grid.toward x y d) as [[nx ny] od] eqn:Ht.
  rewrite (cell_at_carved g x y d nx ny od a b) by assumption.
  rewrite (cell_at_carved g x y d nx ny od na nb) by assumption.
  destruct (Grid.in_bounds g nx ny) eqn:Hn; [|exact Hg].
  four_dirs Hd Ht; four_dirs He Hte;
    split_coords; subst;
    rewrite ?has_bit_clear_same, ?has_bit_clear_other by reflexivity;
    try reflexivity; try exact Hg;
    rewrite Hg; unfold cell_at; do 3 f_equal; lia.
Qed.

Lemma has_bit_set_same_dir (c d : Z) :
  In d directions -> has_bit (Z.lor c d) d = true.
Proof.
  intros H. apply has_bit_set_same. apply directions_cases in H.
  intuition; subst; discriminate.
Qed.

Lemma walled_symmetric (g : Grid.t) (x y d : Z) :
  wf g -> symmetric_cells g ->
  Grid.in_bounds g x y = true -> In d directions ->
  symmetric_cells (walled g x y d).
Proof.
  intros Hwf Hs Hxy Hd a b e na nb oe He Hte Hab Hnab.
  destruct (walled_dims g x y d) as [Hw Hh].
  assert (Hab' : Grid.in_bounds g a b = true).
  { rewrite in_bounds_iff in *. rewrite Hw, Hh in Hab. exact Hab. }
  assert (Hnab' : Grid.in_bounds g na nb = true).
  { rewrite in_bounds_iff in *. rewrite Hw, Hh in Hnab. exact Hnab. }
  pose proof (Hs a b e na nb oe He Hte Hab' Hnab') as Hg.
  pose proof (direction_byte d Hd) as Hdb.
  destruct (Grid.toward x y d) as [[nx ny] od] eqn:Ht.
  rewrite (cell_at_walled g x y d nx ny od a b) by assumption.
  rewrite (cell_at_walled g x y d nx ny od na nb) by assumption.
  rewrite in_bounds_iff in Hxy, Hab', Hnab'.
  destruct (Grid.in_bounds g nx ny) eqn:Hn;
    [apply in_bounds_iff in Hn | apply in_bounds_false_iff in Hn];
    four_dirs Hd Ht; four_dirs He Hte;
    split_coords; subst;
    rewrite ?has_bit_set_same, ?has_bit_set_other by (reflexivity || discriminate);
    try reflexivity; try exact Hg; try lia;
    rewrite Hg; unfold cell_at; do 3 f_equal; lia.
Qed.

Lemma init_wf (w h : Z) : 0 <= w -> 0 <= h -> wf (Grid.init w h).
Proof.
  intros Hw Hh. unfold wf, Grid.init; simpl. repeat split; try assumption.
  - apply length_replicate.
  - apply Forall_replicate. reflexivity.
Qed.

Lemma cell_at_init (w h x y : Z) :
  0 <= x < w -> 0 <= y < h -> cell_at (Grid.init w h) x y = Grid.ALL_WALLS.
Proof.
  intros Hx Hy. unfold cell_at, look, Grid.init; simpl.
  rewrite lookup_replicate_2; [reflexivity|].
  pose proof (flat_index_range w h x y Hx Hy). lia.
Qed.

Lemma init_symmetric (w h : Z) : symmetric_cells (Grid.init w h).
Proof.
  intros x y d nx ny od Hd Ht Hb Hn.
  apply in_bounds_iff in Hb, Hn. simpl in Hb, Hn.
  rewrite !cell_at_init by lia.
  four_dirs Hd Ht; reflexivity.
Qed.

Lemma run_ops_symmetric (w h : Z) (ops : list grid_op) (g : Grid.t) :
  Forall (op_on_lattice w h) ops ->
  wf g -> Grid.width g = w -> Grid.height g = h -> symmetric_cells g ->
  exists g', run_ops g ops = Ok g' /\ wf g' /\
             Grid.width g' = w /\ Grid.height g' = h /\ symmetric_cells g'.
Proof.
  intros Hops. revert g. induction Hops as [|o ops Ho Hops IH];
    intros g Hwf Hw Hh Hs.
  - exists g. exact (conj eq_refl (conj Hwf (conj Hw (conj Hh Hs)))).
  - assert (Hb : forall x y, 0 <= x < w -> 0 <= y < h ->
                             Grid.in_bounds g x y = true).
    { intros x y Hx Hy. apply in_bounds_iff. lia. }
    destruct o as [x y d|x y d]; destruct Ho as (Hx & Hy & Hd); cbn [run_ops apply_op].
    + rewrite carve_path_carved, bind_Ok by auto.
      destruct (carved_dims g x y d) as [Hw' Hh'].
      apply IH; [apply carved_wf; assumption | lia | lia |].
      apply carved_symmetric; auto.
    + rewrite add_wall_walled, bind_Ok by auto using direction_byte.
      destruct (walled_dims g x y d) as [Hw' Hh'].
      apply IH; [apply walled_wf; auto using direction_byte | lia | lia |].
      apply walled_symmetric; auto.
Qed.

(** C1 as the code has it.  Wall symmetry is kept by the wall mutators
    when they are addressed to cells of the lattice with one of the four
    direction bits: after any sequence of such [carve_path] and [add_wall]
    operations, starting from the all-walls grid, the sequence runs without
    an exception and [has_wall] on A toward B equals [has_wall] on B toward
    A for every pair of lattice-adjacent cells. *)
Theorem wall_symmetry_invariant (w h : Z) (ops : list grid_op) :
  0 <= w -> 0 <= h ->
  Forall (op_on_lattice w h) ops ->
  exists g, run_ops (Grid.init w h) ops = Ok g /\ wall_symmetric g.
Proof.
  intros Hw Hh Hops.
  destruct (run_ops_symmetric w h ops (Grid.init w h) Hops)
    as (g & Hrun & Hwf & _ & _ & Hs);
    auto using init_wf, init_symmetric.
  exists g. split; [exact Hrun | apply symmetric_cells_has_wall; assumption].
Qed.

Lemma wall_symmetry_invariant_witness :
  exists g,
    run_ops (Grid.init 3 2)
      [CarvePath 0 0 Grid.EAST; CarvePath 1 0 Grid.SOUTH;
       AddWall 1 0 Grid.WEST; CarvePath 2 1 Grid.EAST] = Ok g /\
    wall_symmetric g.
Proof.
  apply (wall_symmetry_invariant 3 2); [lia | lia |].
  repeat constructor; simpl; tauto || lia.
Defined.

(** C1, counterexample: an operation addressed outside the lattice breaks
    the symmetry.  On the 2 by 2 grid [carve_path(0, 0, SOUTH)] opens the
    wall between (0,0) and (0,1).  [add_wall(2, 0, NORTH)] then raises
    nothing: its flat index 2 is the cell (0,1), whose north wall it sets
    again, and its neighbour (2,-1) is outside the lattice and skipped, so
    the south wall of (0,0) stays open. *)
Lemma off_lattice_wall_breaks_symmetry :
  exists g,
    run_ops (Grid.init 2 2) [CarvePath 0 0 Grid.SOUTH; AddWall 2 0 Grid.NORTH]
      = Ok g /\
    Grid.has_wall g 0 0 Grid.SOUTH = Ok false /\
    Grid.has_wall g 0 1 Grid.NORTH = Ok true /\
    ~ wall_symmetric g.
Proof.
  exists (Grid.mk 2 2 [11; 15; 15; 15]).
  split; [reflexivity|]. split; [reflexivity|]. split; [reflexivity|].
  intros Hsym.
  destruct (Hsym 0 0 Grid.SOUTH 0 1 Grid.NORTH) as (b & E1 & E2);
    try reflexivity; [cbn; auto|].
  vm_compute in E1, E2. congruence.
Qed.

(** ** Serializer: packing and reading *)

Lemma le_bytes_length (n : nat) (v : Z) : length (le_bytes n v) = n.
Proof. revert v. induction n as [|n IH]; intros v; simpl; [reflexivity|]. rewrite IH. reflexivity. Qed.

Lemma le_value_bytes (n : nat) (v : Z) :
  0 <= v < 256 ^ Z.of_nat n -> le_value (le_bytes n v) = v.
Proof.
  revert v. induction n as [|n IH]; intros v Hv.
  - simpl in *. lia.
  - cbn [le_bytes le_value]. rewrite IH.
    + pose proof (Z.div_mod v 256). lia.
    + rewrite Nat2Z.inj_succ, Z.pow_succ_r in Hv by lia.
      split; [apply Z.div_pos; lia|]. apply Z.div_lt_upper_bound; lia.
Qed.

Lemma pack_uint_ok (n : nat) (v : Z) :
  0 <= v < 256 ^ Z.of_nat n -> pack_uint n v = Ok (le_bytes n v).
Proof.
  intros Hv. unfold pack_uint.
  destruct (Z.leb_spec 0 v); [|lia].
  destruct (Z.ltb_spec v (256 ^ Z.of_nat n)); [|lia]. reflexivity.
Qed.

Lemma unpack_pack (n : nat) (v : Z) :
  0 <= v < 256 ^ Z.of_nat n -> unpack_uint n (le_bytes n v) = Ok v.
Proof.
  intros Hv. unfold unpack_uint.
  rewrite le_bytes_length, Nat.eqb_refl, le_value_bytes by exact Hv.
  reflexivity.
Qed.

Lemma unpack_II_pack (a b : Z) :
  0 <= a < 256 ^ 4 -> 0 <= b < 256 ^ 4 ->
  unpack_II (le_bytes 4 a ++ le_bytes 4 b) = Ok (a, b).
Proof.
  intros Ha Hb. unfold unpack_II.
  rewrite length_app, !le_bytes_length. cbn [Nat.add Nat.eqb].
  rewrite take_app_length' by (symmetry; apply le_bytes_length).
  rewrite drop_app_length' by (symmetry; apply le_bytes_length).
  rewrite !le_value_bytes by assumption. reflexivity.
Qed.

Lemma read_app (n : Z) (a b : list Z) :
  Z.to_nat n = length a -> read n (a ++ b) = (a, b).
Proof.
  intros H. unfold read. rewrite H.
  rewrite take_app_length, drop_app_length. reflexivity.
Qed.

Lemma read_le_bytes (k : nat) (v : Z) (rest : list Z) :
  read (Z.of_nat k) (le_bytes k v ++ rest) = (le_bytes k v, rest).
Proof. apply read_app. rewrite le_bytes_length. lia. Qed.

(** ** Serializer: what [load] reads from a file laid out as [save] writes it *)

Section SerializerProperties.

Variable Meta : Type.
Variable empty_dict : Meta.
Variable json_dumps : Meta -> list Z.
Variable json_loads : list Z -> result Meta.
Variable zlib_compress : list Z -> list Z.
Variable zlib_decompress : list Z -> result (list Z).

#[local] Abbreviation save :=
  (MazeSerializer.save Meta empty_dict json_dumps zlib_compress).
#[local] Abbreviation load :=
  (MazeSerializer.load Meta json_loads zlib_decompress).
#[local] Abbreviation load_fields :=
  (MazeSerializer.load_fields Meta json_loads zlib_decompress).
#[local] Abbreviation file_layout := MazeSerializer.file_layout.

Lemma load_layout (version flags w h data_len : Z) (meta_bytes payload : list Z) :
  0 <= w < 256 ^ 4 -> 0 <= h < 256 ^ 4 ->
  Z.of_nat (length meta_bytes) < 256 ^ 2 ->
  0 <= data_len < 256 ^ 4 ->
  load (file_layout MazeSerializer.MAGIC version flags w h meta_bytes data_len payload)
  = load_fields (version * 0 + flags) w h meta_bytes data_len payload.
Proof.
  intros Hw Hh Hm Hd. unfold MazeSerializer.load, file_layout, load_fields.
  rewrite (read_app 4 MazeSerializer.MAGIC) by reflexivity.
  rewrite bool_decide_eq_true_2 by reflexivity. cbn [negb].
  rewrite (read_app 1 [version]) by reflexivity.
  change (unpack_uint 1 [version]) with (Ok (version + 256 * 0)).
  rewrite bind_Ok.
  rewrite (read_app 1 [flags]) by reflexivity.
  change (unpack_uint 1 [flags]) with (Ok (flags + 256 * 0)).
  rewrite bind_Ok.
  rewrite (read_app 8 (le_bytes 4 w ++ le_bytes 4 h))
    by (rewrite length_app, !le_bytes_length; reflexivity).
  rewrite unpack_II_pack, bind_Ok by assumption.
  rewrite (read_le_bytes 2).
  rewrite unpack_pack, bind_Ok by lia.
  rewrite read_app by lia.
  replace (flags + 256 * 0) with (version * 0 + flags) by lia.
  destruct (json_loads meta_bytes) as [meta|e]; [|reflexivity].
  rewrite !bind_Ok.
  rewrite (read_le_bytes 4).
  rewrite unpack_pack, bind_Ok by lia.
  reflexivity.
Qed.

Lemma save_layout (g : Grid.t) (meta : option Meta) (seed_only compress : bool) :
  0 <= Grid.width g < 256 ^ 4 -> 0 <= Grid.height g < 256 ^ 4 ->
  Z.of_nat (length (json_dumps (default empty_dict meta))) < 256 ^ 2 ->
  (seed_only = false ->
   Z.of_nat (length (if compress then zlib_compress (Grid.cells g)
                     else Grid.cells g)) < 256 ^ 4) ->
  save g meta seed_only compress =
  Ok (file_layout MazeSerializer.MAGIC MazeSerializer.VERSION
        ((if compress then 1 else 0) + (if seed_only then 2 else 0))
        (Grid.width g) (Grid.height g)
        (json_dumps (default empty_dict meta))
        (if seed_only then 0
         else Z.of_nat (length (if compress then zlib_compress (Grid.cells g)
                                else Grid.cells g)))
        (if seed_only then []
         else if compress then zlib_compress (Grid.cells g) else Grid.cells g)).
Proof.
  intros Hw Hh Hm Hd. unfold MazeSerializer.save, file_layout.
  rewrite (pack_uint_ok 1 MazeSerializer.VERSION), bind_Ok by (cbv; split; congruence).
  rewrite (pack_uint_ok 1), bind_Ok
    by (destruct compress, seed_only; cbv; split; congruence).
  rewrite (pack_uint_ok 4 (Grid.width g)), bind_Ok by assumption.
  rewrite (pack_uint_ok 4 (Grid.height g)), bind_Ok by assumption.
  rewrite (pack_uint_ok 2), bind_Ok by lia.
  destruct seed_only.
  - rewrite (pack_uint_ok 4 0), bind_Ok by (cbv; split; congruence).
    f_equal. destruct compress; cbn; rewrite <- ?app_assoc; reflexivity.
  - specialize (Hd eq_refl).
    rewrite (pack_uint_ok 4), bind_Ok by lia.
    f_equal. destruct compress; cbn; rewrite <- ?app_assoc; reflexivity.
Qed.

Ltac field_range :=
  intros; unfold from_option, id in *; cbv beta iota in *;
  change (256 ^ 4) with 4294967296 in *; change (2 ^ 32) with 4294967296 in *;
  change (256 ^ 2) with 65536 in *; change (2 ^ 16) with 65536 in *;
  lia.

Lemma load_rejects_bad_magic (file : list Z) :
  take 4 file <> MazeSerializer.MAGIC -> load file = Raise ValueError.
Proof.
  intros H. unfold MazeSerializer.load, read.
  change (Z.to_nat 4) with 4%nat.
  rewrite bool_decide_eq_false_2 by exact H. reflexivity.
Qed.

(** C9. [load] tests the magic bytes only: the version byte is unpacked and
    never compared, so a file that differs from a valid one in nothing but
    its version byte loads exactly as the valid file does. *)
Theorem load_accepts_any_version (version : Z) (rest : list Z) :
  load (MazeSerializer.MAGIC ++ [version] ++ rest) =
  load (MazeSerializer.MAGIC ++ [MazeSerializer.VERSION] ++ rest).
Proof.
  unfold MazeSerializer.load.
  rewrite !(read_app 4 MazeSerializer.MAGIC) by reflexivity.
  rewrite bool_decide_eq_true_2 by reflexivity. cbn [negb].
  rewrite !(read_app 1 [_]) by reflexivity.
  reflexivity.
Qed.

Hypothesis json_roundtrip : forall m, json_loads (json_dumps m) = Ok m.

(** C10. A file saved in seed-only mode loads as the stored metadata and a
    freshly constructed grid of the stored width and height, every cell
    byte of which is the all-walls value 15. *)
Theorem load_seed_only (g : Grid.t) (meta : Meta) (compress : bool) :
  0 <= Grid.width g < 2 ^ 32 -> 0 <= Grid.height g < 2 ^ 32 ->
  Z.of_nat (length (json_dumps meta)) < 2 ^ 16 ->
  exists file g',
    save g (Some meta) true compress = Ok file /\
    load file = Ok (g', meta) /\
    g' = Grid.init (Grid.width g) (Grid.height g) /\
    length (Grid.cells g') = Z.to_nat (Grid.width g * Grid.height g) /\
    Forall (fun c => c = 15) (Grid.cells g').
Proof.
  intros Hw Hh Hm.
  eexists. exists (Grid.init (Grid.width g) (Grid.height g)).
  split; [apply save_layout; simpl; first [field_range | intros; discriminate]|].
  split.
  - rewrite load_layout by field_range.
    unfold MazeSerializer.load_fields. cbn [default].
    rewrite json_roundtrip, bind_Ok.
    destruct compress; reflexivity.
  - split; [reflexivity|]. cbn [Grid.init Grid.cells]. split.
    + apply length_replicate.
    + apply Forall_replicate. reflexivity.
Qed.

Hypothesis zlib_roundtrip : forall d, zlib_decompress (zlib_compress d) = Ok d.
Hypothesis zlib_nonempty : forall d, zlib_compress d <> [].

(** C8. Save followed by load gives back the cell bytes, the width and the
    height, with the payload stored raw and with it stored compressed. *)
Theorem save_load_roundtrip (g : Grid.t) (meta : option Meta) (compress : bool) :
  wf g ->
  Grid.width g < 2 ^ 32 -> Grid.height g < 2 ^ 32 ->
  Z.of_nat (length (json_dumps (default empty_dict meta))) < 2 ^ 16 ->
  Z.of_nat (length (if compress then zlib_compress (Grid.cells g)
                    else Grid.cells g)) < 2 ^ 32 ->
  exists file g' meta',
    save g meta false compress = Ok file /\
    load file = Ok (g', meta') /\
    Grid.cells g' = Grid.cells g /\
    Grid.width g' = Grid.width g /\ Grid.height g' = Grid.height g.
Proof.
  intros (Hw0 & Hh0 & Hlen & _) Hw Hh Hm Hd.
  eexists.
  exists (Grid.mk (Grid.width g) (Grid.height g) (Grid.cells g)),
         (default empty_dict meta).
  split; [apply save_layout; field_range|].
  split; [|repeat split; reflexivity].
  rewrite load_layout by field_range.
  unfold MazeSerializer.load_fields.
  rewrite json_roundtrip, bind_Ok.
  destruct compress.
  - change (negb (Z.land (MazeSerializer.VERSION * 0 + (1 + 0))
                    MazeSerializer.FLAG_SEED_ONLY =? 0)) with false.
    change (negb (Z.land (MazeSerializer.VERSION * 0 + (1 + 0))
                    MazeSerializer.FLAG_COMPRESSED =? 0)) with true.
    cbv beta iota.
    destruct (Z.ltb_spec 0 (Z.of_nat (length (zlib_compress (Grid.cells g)))))
      as [Hpos|Hz].
    + rewrite Nat2Z.id, firstn_all, zlib_roundtrip, bind_Ok. reflexivity.
    + exfalso. apply (zlib_nonempty (Grid.cells g)).
      apply length_zero_iff_nil. lia.
  - change (negb (Z.land (MazeSerializer.VERSION * 0 + (0 + 0))
                    MazeSerializer.FLAG_SEED_ONLY =? 0)) with false.
    change (negb (Z.land (MazeSerializer.VERSION * 0 + (0 + 0))
                    MazeSerializer.FLAG_COMPRESSED =? 0)) with false.
    cbv beta iota.
    destruct (Z.ltb_spec 0 (Z.of_nat (length (Grid.cells g)))) as [Hpos|Hz].
    + rewrite Nat2Z.id, firstn_all, bind_Ok. reflexivity.
    + assert (Hnil : Grid.cells g = []) by (apply length_zero_iff_nil; lia).
      unfold Grid.init. rewrite Hnil in *. simpl in Hlen. rewrite <- Hlen.
      reflexivity.
Qed.

End SerializerProperties.

Lemma load_seed_only_witness :
  exists file g',
    MazeSerializer.save (list Z) [] id toy_compress
      (Grid.init 3 2) (Some [123; 125]) true false = Ok file /\
    MazeSerializer.load (list Z) Ok toy_decompress file = Ok (g', [123; 125]) /\
    g' = Grid.init 3 2 /\
    length (Grid.cells g') = Z.to_nat (3 * 2) /\
    Forall (fun c => c = 15) (Grid.cells g').
Proof.
  apply (load_seed_only (list Z) [] id Ok toy_compress toy_decompress
           (fun m => eq_refl) (Grid.init 3 2) [123; 125] false);
    simpl; lia.
Defined.

Lemma save_load_roundtrip_witness :
  exists file g' meta',
    MazeSerializer.save (list Z) [] id toy_compress
      (Grid.mk 2 1 [13; 23]) None false true = Ok file /\
    MazeSerializer.load (list Z) Ok toy_decompress file = Ok (g', meta') /\
    Grid.cells g' = [13; 23] /\ Grid.width g' = 2 /\ Grid.height g' = 1.
Proof.
  apply (save_load_roundtrip (list Z) [] id Ok toy_compress toy_decompress
           (fun m => eq_refl) (fun d => eq_refl)
           (fun d H => eq_ind (toy_compress d)
                         (fun l => match l with [] => False | _ => True end)
                         I [] H)
           (Grid.mk 2 1 [13; 23]) None true).
  - unfold wf; simpl. repeat split; try lia. repeat constructor.
  - simpl; lia.
  - simpl; lia.
  - simpl; lia.
  - simpl; lia.
Defined.

(** ** Coordinates outside the lattice *)

Lemma getitem_wraps (l : list Z) (i : Z) :
  - Z.of_nat (length l) <= i < Z.of_nat (length l) ->
  getitem l i = Ok (look l (i mod Z.of_nat (length l))).
Proof.
  intros H. destruct (Z.le_gt_cases 0 i) as [Hpos|Hneg].
  - rewrite Z.mod_small by lia. apply getitem_inrange. lia.
  - unfold getitem, py_index, look.
    destruct (Z.leb_spec 0 i); [lia|]. cbn [andb].
    destruct (Z.leb_spec (- Z.of_nat (length l)) i); [|lia].
    destruct (Z.ltb_spec i 0); [|lia]. cbn [andb]. rewrite bind_Ok.
    replace (i mod Z.of_nat (length l)) with (Z.of_nat (length l) + i).
    + destruct (l !! Z.to_nat (Z.of_nat (length l) + i)) eqn:E; [reflexivity|].
      apply lookup_ge_None in E. lia.
    + apply Z.mod_unique with (q := -1); lia.
Qed.

Lemma py_index_raises (n : nat) (i : Z) :
  i < - Z.of_nat n \/ Z.of_nat n <= i -> py_index n i = Raise IndexError.
Proof.
  intros H. unfold py_index.
  destruct (Z.leb_spec 0 i); destruct (Z.ltb_spec i (Z.of_nat n));
    destruct (Z.leb_spec (- Z.of_nat n) i); destruct (Z.ltb_spec i 0);
    cbn [andb]; try reflexivity; lia.
Qed.

Lemma getitem_raises (l : list Z) (i : Z) :
  i < - Z.of_nat (length l) \/ Z.of_nat (length l) <= i ->
  getitem l i = Raise IndexError.
Proof. intros H. unfold getitem. rewrite py_index_raises by exact H. reflexivity. Qed.

Lemma get_neighbors_in_bounds (g : Grid.t) (x y nx ny d : Z) :
  Grid.in_bounds g x y = true ->
  In (nx, ny, d) (Grid.get_neighbors g x y) ->
  Grid.in_bounds g nx ny = true /\ In d directions /\
  Grid.toward x y d = (nx, ny, match Grid.OPPOSITE d with Ok o => o | Raise _ => 0 end).
Proof.
  intros Hb Hin. apply in_bounds_iff in Hb. rewrite in_bounds_iff.
  unfold Grid.get_neighbors in Hin.
  rewrite !in_app_iff in Hin.
  destruct (Z.ltb_spec 0 y); destruct (Z.ltb_spec y (Grid.height g - 1));
    destruct (Z.ltb_spec x (Grid.width g - 1)); destruct (Z.ltb_spec 0 x);
    simpl in Hin; intuition; try congruence;
    match goal with H : (_, _, _) = (_, _, _) |- _ => inversion H; subst end;
    simpl; try lia; try tauto; reflexivity.
Qed.

Lemma setitem_wraps (l : list Z) (i v : Z) :
  - Z.of_nat (length l) <= i < Z.of_nat (length l) -> is_byte v = true ->
  setitem l i v = Ok (<[Z.to_nat (i mod Z.of_nat (length l)) := v]> l).
Proof.
  intros H Hv. destruct (Z.le_gt_cases 0 i) as [Hpos|Hneg].
  - rewrite Z.mod_small by lia. apply setitem_inrange; [lia | exact Hv].
  - unfold setitem, array_set, py_index.
    destruct (Z.leb_spec 0 i); [lia|]. cbn [andb].
    destruct (Z.leb_spec (- Z.of_nat (length l)) i); [|lia].
    destruct (Z.ltb_spec i 0); [|lia]. cbn [andb]. rewrite bind_Ok, Hv.
    replace (i mod Z.of_nat (length l)) with (Z.of_nat (length l) + i);
      [reflexivity|].
    apply Z.mod_unique with (q := -1); lia.
Qed.

(** C7 as the code has it.  [get_index] is the one operation that tests the
    coordinate: it raises [IndexError] on every coordinate outside the
    lattice.  No other cell operation tests the coordinate it is given;
    each indexes the array with [y * width + x].  [has_wall], [is_visited],
    [set_visited], [add_wall] and [get_open_neighbors] raise [IndexError]
    when that flat index lies outside [-len, len), and otherwise act on the
    cell the flat index denotes, counting from the end when it is negative:
    [has_wall] and [is_visited] read it, [get_open_neighbors] reads its
    wall bits and tests the coordinate against the edges only, and on a
    well-formed grid [set_visited] sets or clears its [VISITED] bit and
    [add_wall] sets the direction bit on it and the opposite bit on the
    neighbour of (x, y) when that neighbour is in the lattice.
    [carve_path] tests the neighbour alone: it leaves the grid as it is
    when the neighbour is outside the lattice, and otherwise raises
    [IndexError] or clears the two bits by the same rule on the flat
    index.  Called at a cell of the lattice, neighbour enumeration yields
    cells of the lattice only. *)
Theorem bounds_checking (g : Grid.t) (x y : Z) :
  let i := y * Grid.width g + x in
  let n := Z.of_nat (length (Grid.cells g)) in
  let k := Z.to_nat (i mod n) in
  let c := look (Grid.cells g) (i mod n) in
  (Grid.in_bounds g x y = false -> Grid.get_index g x y = Raise IndexError) /\
  (Grid.in_bounds g x y = true -> Grid.get_index g x y = Ok i) /\
  (i < - n \/ n <= i ->
   forall d v,
     Grid.has_wall g x y d = Raise IndexError /\
     Grid.is_visited g x y = Raise IndexError /\
     Grid.set_visited g x y v = Raise IndexError /\
     Grid.add_wall g x y d = Raise IndexError /\
     Grid.get_open_neighbors g x y = Raise IndexError) /\
  (- n <= i < n ->
   forall d,
     Grid.has_wall g x y d = Ok (has_bit c d) /\
     Grid.is_visited g x y = Ok (has_bit c Grid.VISITED) /\
     Grid.get_open_neighbors g x y =
       Ok ((if negb (has_bit c Grid.NORTH) && (0 <? y) then [(x, y - 1)] else []) ++
           (if negb (has_bit c Grid.SOUTH) && (y <? Grid.height g - 1)
            then [(x, y + 1)] else []) ++
           (if negb (has_bit c Grid.EAST) && (x <? Grid.width g - 1)
            then [(x + 1, y)] else []) ++
           (if negb (has_bit c Grid.WEST) && (0 <? x) then [(x - 1, y)] else []))) /\
  (- n <= i < n -> wf g ->
   forall v,
     Grid.set_visited g x y v =
       Ok (Grid.set_cells g
             (<[k := if v then Z.lor c Grid.VISITED
                     else Z.land c (Z.lnot Grid.VISITED)]> (Grid.cells g)))) /\
  (- n <= i < n -> wf g ->
   forall d nx ny od,
     In d directions -> Grid.toward x y d = (nx, ny, od) ->
     let j := ny * Grid.width g + nx in
     Grid.add_wall g x y d =
       Ok (Grid.set_cells g
             (let cs := <[k := Z.lor c d]> (Grid.cells g) in
              if Grid.in_bounds g nx ny
              then <[Z.to_nat j := Z.lor (look cs j) od]> cs
              else cs)) /\
     (Grid.in_bounds g nx ny = true ->
      Grid.carve_path g x y d =
        Ok (Grid.set_cells g
              (let cs := <[k := Z.land c (Z.lnot d)]> (Grid.cells g) in
               <[Z.to_nat j := Z.land (look cs j) (Z.lnot od)]> cs)))) /\
  (i < - n \/ n <= i ->
   forall d nx ny od,
     Grid.toward x y d = (nx, ny, od) -> Grid.in_bounds g nx ny = true ->
     Grid.carve_path g x y d = Raise IndexError) /\
  (forall d nx ny od,
     Grid.toward x y d = (nx, ny, od) -> Grid.in_bounds g nx ny = false ->
     Grid.carve_path g x y d = Ok g) /\
  (Grid.in_bounds g x y = true ->
   forall nx ny d, In (nx, ny, d) (Grid.get_neighbors g x y) ->
                   Grid.in_bounds g nx ny = true).
Proof.
  intros i n k c.
  assert (Hz : forall b, (Z.land c b =? 0) = negb (has_bit c b))
    by (intros b; unfold has_bit; rewrite negb_involutive; reflexivity).
  split; [|split; [|split; [|split; [|split; [|split; [|split; [|split]]]]]]].
  - intros H. unfold Grid.get_index. rewrite H. reflexivity.
  - intros H. unfold Grid.get_index. rewrite H. reflexivity.
  - intros H d v. repeat split.
    + unfold Grid.has_wall. fold i. rewrite getitem_raises by assumption. reflexivity.
    + unfold Grid.is_visited. fold i. rewrite getitem_raises by assumption. reflexivity.
    + unfold Grid.set_visited. fold i. rewrite getitem_raises by assumption. reflexivity.
    + unfold Grid.add_wall. fold i. rewrite getitem_raises by assumption. reflexivity.
    + unfold Grid.get_open_neighbors. fold i.
      rewrite getitem_raises by assumption. reflexivity.
  - intros H d. repeat split.
    + unfold Grid.has_wall. fold i. rewrite getitem_wraps by assumption. reflexivity.
    + unfold Grid.is_visited. fold i. rewrite getitem_wraps by assumption. reflexivity.
    + unfold Grid.get_open_neighbors. fold i.
      rewrite getitem_wraps, bind_Ok by assumption. fold n c.
      rewrite !Hz. reflexivity.
  - intros H Hwf v.
    pose proof Hwf as (Hw & Hh & Hlen & Hbytes).
    assert (Hc : is_byte c = true) by (apply look_byte, Hbytes).
    unfold Grid.set_visited. fold i.
    rewrite getitem_wraps, bind_Ok by assumption. fold n c.
    rewrite setitem_wraps; [reflexivity | assumption |].
    destruct v; [apply byte_lor; [exact Hc | reflexivity] | apply byte_land, Hc].
  - intros H Hwf d nx ny od Hd Ht j.
    pose proof Hwf as (Hw & Hh & Hlen & Hbytes).
    assert (Hc : is_byte c = true) by (apply look_byte, Hbytes).
    split.
    + unfold Grid.add_wall. fold i.
      rewrite getitem_wraps, bind_Ok by assumption. fold n c.
      rewrite setitem_wraps, bind_Ok;
        [| assumption | apply byte_lor; [exact Hc | apply direction_byte, Hd]].
      fold n k. rewrite Ht. cbn zeta.
      destruct (Grid.in_bounds g nx ny) eqn:Hn; [|reflexivity].
      pose proof (wf_index g nx ny Hwf Hn) as Rj. fold j in Rj |- *.
      rewrite getitem_inrange, bind_Ok by (rewrite length_insert; exact Rj).
      rewrite setitem_inrange; [reflexivity | rewrite length_insert; exact Rj |].
      apply byte_lor.
      * apply look_byte, Forall_insert; [exact Hbytes|].
        apply byte_lor; [exact Hc | apply direction_byte, Hd].
      * apply (toward_opposite_byte x y d nx ny od Ht).
    + intros Hn. unfold Grid.carve_path. fold i. rewrite Ht, Hn. cbn [negb].
      rewrite getitem_wraps, bind_Ok by assumption. fold n c.
      rewrite setitem_wraps, bind_Ok; [| assumption | apply byte_land, Hc].
      fold n k. cbn zeta.
      pose proof (wf_index g nx ny Hwf Hn) as Rj. fold j in Rj |- *.
      rewrite getitem_inrange, bind_Ok by (rewrite length_insert; exact Rj).
      rewrite setitem_inrange; [reflexivity | rewrite length_insert; exact Rj |].
      apply byte_land, look_byte, Forall_insert; [exact Hbytes|].
      apply byte_land, Hc.
  - intros H d nx ny od Ht Hn. unfold Grid.carve_path. fold i. rewrite Ht, Hn.
    cbn [negb]. rewrite getitem_raises by assumption. reflexivity.
  - intros d nx ny od Ht Hn. unfold Grid.carve_path. rewrite Ht, Hn. reflexivity.
  - intros Hb nx ny d Hin.
    apply (get_neighbors_in_bounds g x y nx ny d Hb Hin).
Qed.

(** At (2, 0) on a 2 by 2 grid, whose flat index is that of (0, 1). *)
Lemma bounds_checking_witness :
  Grid.set_visited (Grid.init 2 2) 2 0 true = Ok (Grid.mk 2 2 [15; 15; 31; 15]) /\
  Grid.add_wall (Grid.mk 2 2 [11; 13; 14; 15]) 2 0 Grid.WEST
    = Ok (Grid.mk 2 2 [11; 15; 14; 15]).
Proof.
  assert (Hwf1 : wf (Grid.init 2 2)).
  { unfold wf; cbn. repeat split; try lia. repeat constructor. }
  assert (Hwf2 : wf (Grid.mk 2 2 [11; 13; 14; 15])).
  { unfold wf; cbn. repeat split; try lia. repeat constructor. }
  assert (Hin : forall a b : Z, (a <=? 2) = true -> (2 <? b) = true -> a <= 2 < b).
  { intros a b Ha Hb. apply Z.leb_le in Ha. apply Z.ltb_lt in Hb. lia. }
  split.
  - destruct (bounds_checking (Grid.init 2 2) 2 0)
      as (_ & _ & _ & _ & Hset & _).
    apply (Hset (Hin (-4) 4 eq_refl eq_refl) Hwf1 true).
  - destruct (bounds_checking (Grid.mk 2 2 [11; 13; 14; 15]) 2 0)
      as (_ & _ & _ & _ & _ & Hadd & _).
    apply (Hadd (Hin (-4) 4 eq_refl eq_refl) Hwf2
                Grid.WEST 1 0 Grid.EAST ltac:(cbn; auto) eq_refl).
Defined.

(** C7, counterexample: on the 2 by 2 all-walls grid the coordinate (2, 0)
    is outside the lattice, yet [has_wall] answers for it and [set_visited]
    marks cell (0, 1), whose flat index it shares; (-1, 0) reads the last
    cell through Python's negative indexing. *)
Lemma unchecked_coordinates_counterexample :
  Grid.in_bounds (Grid.init 2 2) 2 0 = false /\
  Grid.in_bounds (Grid.init 2 2) (-1) 0 = false /\
  Grid.has_wall (Grid.init 2 2) 2 0 Grid.NORTH = Ok true /\
  Grid.is_visited (Grid.init 2 2) (-1) 0 = Ok false /\
  Grid.set_visited (Grid.init 2 2) 2 0 true = Ok (Grid.mk 2 2 [15; 15; 31; 15]) /\
  Grid.add_wall (Grid.mk 2 2 [11; 15; 14; 15]) 2 0 Grid.NORTH
    = Ok (Grid.mk 2 2 [11; 15; 15; 15]).
Proof. repeat split; reflexivity. Qed.

(** ** The all-walls scenario *)

(** C6 as the code has it: on the 5 by 5 all-walls grid, from (0,0) to
    (4,4), every solver but the wall follower ends with an empty path; the
    wall follower, under either rule, reports Stuck and keeps the trail it
    walked, which holds the start cell. *)
Theorem all_walls_paths (k : nat) (Rng : Type)
    (randbelow : Rng -> Z -> Z * Rng) (rng : Rng) :
  let fuel := S (S k) in
  let g := Grid.init 5 5 in
  path_of id (Solver.BFS_run fuel g (0, 0) (4, 4)) = Ok ([], Solver.Solved) /\
  path_of id (Solver.Dijkstra_run fuel g (0, 0) (4, 4)) = Ok ([], Solver.Solved) /\
  path_of id (Solver.AStar_run fuel g (0, 0) (4, 4)) = Ok ([], Solver.Solved) /\
  path_of id (Solver.BiDirectionalAStar_run fuel g (0, 0) (4, 4))
    = Ok ([], Solver.NoPath) /\
  path_of id (Solver.Tremaux_run g (0, 0) (4, 4)) = Ok ([], Solver.Solved) /\
  path_of id (Solver.RecursiveDFS_run fuel g (0, 0) (4, 4)) = Ok ([], Solver.Solved) /\
  path_of id (Solver.DeadEndFiller_run fuel g (0, 0) (4, 4))
    = Ok ([], Solver.Reduced) /\
  path_of fst (Solver.SwarmSolver_run Rng randbelow fuel rng g (0, 0) (4, 4))
    = Ok ([], Solver.Solved) /\
  path_of id (Solver.WallFollower_run "left" g (0, 0) (4, 4))
    = Ok ([(0, 0)], Solver.Stuck) /\
  path_of id (Solver.WallFollower_run "right" g (0, 0) (4, 4))
    = Ok ([(0, 0)], Solver.Stuck).
Proof.
  intros fuel g. subst fuel g. repeat split; vm_compute; reflexivity.
Qed.

(** C6, counterexample: the wall follower does not yield an empty path on
    the all-walls grid. *)
Lemma wall_follower_path_not_empty :
  exists o, Solver.WallFollower_run "left" (Grid.init 5 5) (0, 0) (4, 4) = Ok o /\
            Solver.path o = [(0, 0)] /\ Solver.path o <> [].
Proof. eexists. split; [vm_compute; reflexivity|]. split; [reflexivity|discriminate]. Qed.

(** ** Loops that collect, and the scan order *)

Lemma foldM_collect {A : Type} (f : list A -> A -> result (list A))
    (P : A -> bool) (l : list A) (acc : list A) :
  (forall acc a, In a l -> f acc a = Ok (if P a then acc ++ [a] else acc)) ->
  foldM f l acc = Ok (acc ++ List.filter P l).
Proof.
  revert acc. induction l as [|a l IH]; intros acc H.
  - simpl. rewrite app_nil_r. reflexivity.
  - cbn [foldM List.filter]. rewrite H by (left; reflexivity). rewrite bind_Ok.
    rewrite IH by (intros; apply H; right; assumption).
    destruct (P a); [rewrite <- app_assoc|]; reflexivity.
Qed.

Lemma foldM_invariant {A S : Type} (I : S -> Prop) (f : S -> A -> result S)
    (l : list A) (s : S) :
  I s ->
  (forall s a, In a l -> I s -> exists s', f s a = Ok s' /\ I s') ->
  exists s', foldM f l s = Ok s' /\ I s'.
Proof.
  revert s. induction l as [|a l IH]; intros s Hs H.
  - exists s. split; [reflexivity | assumption].
  - destruct (H s a (or_introl eq_refl) Hs) as (s1 & E1 & H1).
    cbn [foldM]. rewrite E1, bind_Ok.
    apply IH; [assumption|]. intros; apply H; [right|]; assumption.
Qed.

Lemma in_scanline (g : Grid.t) (x y : Z) :
  In (x, y) (scanline g) <-> Grid.in_bounds g x y = true.
Proof.
  unfold scanline. rewrite in_flat_map, in_bounds_iff. split.
  - intros (y' & Hy & Hx). apply in_map_iff in Hx. destruct Hx as (x' & E & Hx).
    inversion E; subst. apply list_elem_of_In, elem_of_seqZ in Hy, Hx. lia.
  - intros [Hx Hy]. exists y. split.
    + apply list_elem_of_In, elem_of_seqZ. lia.
    + apply in_map_iff. exists x. split; [reflexivity|].
      apply list_elem_of_In, elem_of_seqZ. lia.
Qed.

Lemma NoDup_flat_map_rows (w : Z) (ys : list Z) :
  List.NoDup ys ->
  List.NoDup (flat_map (fun y => map (fun x => (x, y)) (seqZ 0 w)) ys).
Proof.
  induction 1 as [|y ys Hy Hnd IH]; simpl; [constructor|].
  apply NoDup_ListNoDup, NoDup_app. repeat split.
  - apply NoDup_fmap_2; [|apply NoDup_seqZ]. intros a b E. congruence.
  - intros p Hp Hq. apply list_elem_of_In in Hp, Hq.
    apply in_map_iff in Hp. destruct Hp as (x & <- & _).
    apply in_flat_map in Hq. destruct Hq as (y' & Hy' & Hq).
    apply in_map_iff in Hq. destruct Hq as (x' & E & _). inversion E; subst.
    contradiction.
  - apply NoDup_ListNoDup, IH.
Qed.

Lemma NoDup_scanline (g : Grid.t) : List.NoDup (scanline g).
Proof. apply NoDup_flat_map_rows, NoDup_ListNoDup, NoDup_seqZ. Qed.

(** ** The random module: what the draws guarantee *)

Section RandomProperties.

Variable Rng : Type.
Variable randbelow : Rng -> Z -> Z * Rng.

(** [_randbelow(n)] returns a number in [0, n). *)
Hypothesis randbelow_range :
  forall rng n, 0 < n -> 0 <= fst (randbelow rng n) < n.

Lemma choice_in {A : Type} (rng : Rng) (seq : list A) :
  seq <> [] ->
  exists a rng', choice Rng randbelow rng seq = Ok (a, rng') /\ In a seq.
Proof using randbelow_range.
  intros Hne. unfold choice. destruct seq as [|a0 rest]; [congruence|].
  set (l := a0 :: rest) in *.
  pose proof (randbelow_range rng (Z.of_nat (length l))) as Hr.
  destruct (randbelow rng (Z.of_nat (length l))) as [i rng'] eqn:E.
  cbn [fst] in Hr.
  assert (Hlen : 0 < Z.of_nat (length l)) by (subst l; cbn [length]; lia).
  specialize (Hr Hlen).
  destruct (l !! Z.to_nat i) as [a|] eqn:El.
  - destruct (Z.leb_spec 0 i); [|lia].
    exists a, rng'. split; [reflexivity|].
    apply list_elem_of_In. eapply list_elem_of_lookup_2, El.
  - apply lookup_ge_None in El. lia.
Qed.

Lemma swap_items_length {A : Type} (x : list A) (i j : nat) :
  length (swap_items x i j) = length x.
Proof.
  unfold swap_items. destruct (x !! i), (x !! j); try reflexivity.
  rewrite !length_insert. reflexivity.
Qed.

Lemma swap_items_In {A : Type} (x : list A) (i j : nat) (p : A) :
  In p (swap_items x i j) <-> In p x.
Proof.
  unfold swap_items.
  destruct (x !! i) as [a|] eqn:Ei; [|reflexivity].
  destruct (x !! j) as [b|] eqn:Ej; [|reflexivity].
  pose proof (lookup_lt_Some _ _ _ Ei) as Hi.
  pose proof (lookup_lt_Some _ _ _ Ej) as Hj.
  rewrite <- !list_elem_of_In, !list_elem_of_lookup. split.
  - intros [k Hk]. destruct (decide (k = j)) as [->|Hkj].
    + rewrite list_lookup_insert_eq in Hk by (rewrite length_insert; lia).
      inversion Hk; subst. exists i. exact Ei.
    + rewrite list_lookup_insert_ne in Hk by congruence.
      destruct (decide (k = i)) as [->|Hki].
      * rewrite list_lookup_insert_eq in Hk by lia.
        inversion Hk; subst. exists j. exact Ej.
      * rewrite list_lookup_insert_ne in Hk by congruence. exists k. exact Hk.
  - intros [k Hk]. destruct (decide (k = i)) as [->|Hki].
    + exists j. rewrite list_lookup_insert_eq by (rewrite length_insert; lia).
      congruence.
    + destruct (decide (k = j)) as [->|Hkj].
      * exists i. destruct (decide (i = j)) as [->|Hij]; [congruence|].
        rewrite list_lookup_insert_ne by congruence.
        rewrite list_lookup_insert_eq by lia. congruence.
      * exists k. rewrite !list_lookup_insert_ne by congruence. exact Hk.
Qed.

Lemma shuffle_from_spec {A : Type} (i : nat) (rng : Rng) (x : list A) :
  length (fst (shuffle_from Rng randbelow i rng x)) = length x /\
  forall p, In p (fst (shuffle_from Rng randbelow i rng x)) <-> In p x.
Proof.
  revert rng x. induction i as [|k IH]; intros rng x.
  - simpl. split; [reflexivity | intros; reflexivity].
  - cbn [shuffle_from]. destruct (randbelow rng (Z.of_nat (S k) + 1)) as [j rng'].
    destruct (IH rng' (swap_items x (S k) (Z.to_nat j))) as [Hl Hin].
    split.
    + rewrite Hl. apply swap_items_length.
    + intros p. rewrite Hin. apply swap_items_In.
Qed.

Lemma shuffle_spec {A : Type} (rng : Rng) (x : list A) :
  length (fst (shuffle Rng randbelow rng x)) = length x /\
  forall p, In p (fst (shuffle Rng randbelow rng x)) <-> In p x.
Proof. apply shuffle_from_spec. Qed.

End RandomProperties.

(** ** Braiding *)

Lemma popcount_walls_bits (c : Z) :
  MazePostProcessor.popcount_walls c =
  (if has_bit c Grid.NORTH then 1 else 0) + (if has_bit c Grid.EAST then 1 else 0) +
  (if has_bit c Grid.SOUTH then 1 else 0) + (if has_bit c Grid.WEST then 1 else 0).
Proof. reflexivity. Qed.

Lemma popcount_walls_range (c : Z) : 0 <= MazePostProcessor.popcount_walls c <= 4.
Proof.
  rewrite popcount_walls_bits.
  destruct (has_bit c Grid.NORTH), (has_bit c Grid.EAST),
    (has_bit c Grid.SOUTH), (has_bit c Grid.WEST); lia.
Qed.

Lemma popcount_walls_clear (c d : Z) :
  In d directions ->
  MazePostProcessor.popcount_walls (Z.land c (Z.lnot d)) =
  MazePostProcessor.popcount_walls c - (if has_bit c d then 1 else 0).
Proof.
  intros Hd. rewrite !popcount_walls_bits.
  apply directions_cases in Hd.
  destruct Hd as [ -> | [ -> | [ -> | -> ] ] ];
    rewrite has_bit_clear_same, !has_bit_clear_other by reflexivity;
    destruct (has_bit c Grid.NORTH), (has_bit c Grid.EAST),
      (has_bit c Grid.SOUTH), (has_bit c Grid.WEST); lia.
Qed.

Lemma cell_at_carved_dir (g : Grid.t) (x y d nx ny od a b : Z) :
  wf g -> Grid.in_bounds g x y = true -> Grid.in_bounds g a b = true ->
  In d directions -> Grid.toward x y d = (nx, ny, od) ->
  Grid.in_bounds g nx ny = true ->
  cell_at (carved g x y d) a b =
  if (x =? a) && (y =? b) then Z.land (cell_at g a b) (Z.lnot d)
  else if (nx =? a) && (ny =? b) then Z.land (cell_at g a b) (Z.lnot od)
  else cell_at g a b.
Proof.
  intros Hwf Hxy Hab Hd Ht Hn.
  rewrite (cell_at_carved g x y d nx ny od a b) by assumption. rewrite Hn.
  four_dirs Hd Ht; split_coords; subst; reflexivity.
Qed.

Lemma toward_opposite_direction (x y d nx ny od : Z) :
  In d directions -> Grid.toward x y d = (nx, ny, od) -> In od directions.
Proof. intros Hd Ht. four_dirs Hd Ht; simpl; tauto. Qed.

Lemma carved_popcount (g : Grid.t) (x y d nx ny od a b : Z) :
  wf g -> Grid.in_bounds g x y = true -> Grid.in_bounds g a b = true ->
  In d directions -> Grid.toward x y d = (nx, ny, od) ->
  Grid.in_bounds g nx ny = true ->
  MazePostProcessor.popcount_walls (cell_at (carved g x y d) a b) =
  MazePostProcessor.popcount_walls (cell_at g a b) -
  (if (x =? a) && (y =? b) then if has_bit (cell_at g a b) d then 1 else 0
   else if (nx =? a) && (ny =? b) then if has_bit (cell_at g a b) od then 1 else 0
   else 0).
Proof.
  intros Hwf Hxy Hab Hd Ht Hn.
  rewrite (cell_at_carved_dir g x y d nx ny od a b) by assumption.
  pose proof (toward_opposite_direction _ _ _ _ _ _ Hd Ht) as Hod.
  destruct ((x =? a) && (y =? b)); [apply popcount_walls_clear, Hd|].
  destruct ((nx =? a) && (ny =? b)); [apply popcount_walls_clear, Hod|].
  lia.
Qed.

Lemma closed_neighbors_spec (g : Grid.t) (x y : Z) :
  wf g -> Grid.in_bounds g x y = true ->
  exists l, MazePostProcessor.closed_neighbors g x y = Ok l /\
    (forall d, In d l ->
       In d directions /\ has_bit (cell_at g x y) d = true /\
       exists nx ny od, Grid.toward x y d = (nx, ny, od) /\
                        Grid.in_bounds g nx ny = true) /\
    (2 <= Grid.width g -> 2 <= Grid.height g ->
     dead_end g (x, y) = true -> l <> []).
Proof.
  intros Hwf Hb. unfold MazePostProcessor.closed_neighbors.
  rewrite !has_wall_cell, !bind_Ok by assumption.
  eexists. split; [reflexivity|].
  apply in_bounds_iff in Hb. split.
  - intros d Hd. rewrite !in_app_iff in Hd.
    destruct Hd as [Hd|[Hd|[Hd|Hd]]];
      match type of Hd with
      | In _ (if ?c then _ else _) => destruct c eqn:Ec; [|contradiction]
      end;
      destruct Hd as [<-|[]]; apply andb_true_iff in Ec; destruct Ec as [Ew Ec];
      (split; [simpl; tauto|]); (split; [exact Ew|]);
      eexists _, _, _; (split; [reflexivity|]); apply in_bounds_iff; lia.
  - intros Hw Hh Hde. unfold dead_end in Hde. cbn [fst snd] in Hde.
    apply Z.eqb_eq in Hde. rewrite popcount_walls_bits in Hde.
    destruct (has_bit (cell_at g x y) Grid.NORTH),
      (has_bit (cell_at g x y) Grid.EAST),
      (has_bit (cell_at g x y) Grid.SOUTH),
      (has_bit (cell_at g x y) Grid.WEST); try lia;
      destruct (Z.ltb_spec 0 y); destruct (Z.ltb_spec y (Grid.height g - 1));
      destruct (Z.ltb_spec x (Grid.width g - 1)); destruct (Z.ltb_spec 0 x);
      cbn [andb app]; try discriminate; lia.
Qed.

Lemma index_coords (g : Grid.t) (i : Z) :
  wf g -> 0 <= i < Grid.width g * Grid.height g ->
  Grid.in_bounds g (i mod Grid.width g) (i / Grid.width g) = true /\
  (i / Grid.width g) * Grid.width g + i mod Grid.width g = i.
Proof.
  intros (Hw & Hh & _) Hi.
  assert (0 < Grid.width g) by nia.
  pose proof (Z.mod_pos_bound i (Grid.width g) ltac:(lia)).
  pose proof (Z.div_mod i (Grid.width g) ltac:(lia)).
  split; [|lia]. apply in_bounds_iff. split; [lia|]. split.
  - apply Z.div_pos; lia.
  - apply Z.div_lt_upper_bound; lia.
Qed.

Lemma getitem_index (g : Grid.t) (i : Z) :
  wf g -> 0 <= i < Grid.width g * Grid.height g ->
  getitem (Grid.cells g) i = Ok (cell_at g (i mod Grid.width g) (i / Grid.width g)).
Proof.
  intros Hwf Hi. destruct (index_coords g i Hwf Hi) as [Hb E].
  rewrite <- (getitem_cell g _ _ Hwf Hb). rewrite E. reflexivity.
Qed.

Lemma count_dead_ends_zero (g : Grid.t) :
  wf g ->
  (forall x y, Grid.in_bounds g x y = true -> dead_end g (x, y) = false) ->
  MazePostProcessor.count_dead_ends g = Ok 0.
Proof.
  intros Hwf Hnone. unfold MazePostProcessor.count_dead_ends.
  destruct (foldM_invariant (fun n => n = 0)
              (fun dead_ends i =>
                 let* c := getitem (Grid.cells g) i in
                 if MazePostProcessor.popcount_walls c =? 3
                 then Ok (dead_ends + 1) else Ok dead_ends)
              (seqZ 0 (Grid.width g * Grid.height g)) 0 eq_refl)
    as (n & E & ->); [|exact E].
  intros s i Hi ->. apply list_elem_of_In, elem_of_seqZ in Hi.
  rewrite getitem_index, bind_Ok by (assumption || lia).
  destruct (index_coords g i Hwf ltac:(lia)) as [Hb _].
  specialize (Hnone _ _ Hb). unfold dead_end in Hnone. cbn [fst snd] in Hnone.
  rewrite Hnone. exists 0. split; reflexivity.
Qed.

Lemma collect_dead_ends (g : Grid.t) :
  wf g ->
  foldM (MazePostProcessor.collect_dead_end g) (scanline g) [] =
  Ok (List.filter (dead_end g) (scanline g)).
Proof.
  intros Hwf. rewrite (foldM_collect _ (dead_end g)); [reflexivity|].
  intros acc [x y] Hin. apply in_scanline in Hin.
  unfold MazePostProcessor.collect_dead_end, Grid.get_index. cbn [fst snd].
  rewrite Hin, bind_Ok, getitem_cell, bind_Ok by assumption.
  unfold dead_end. cbn [fst snd].
  destruct (MazePostProcessor.popcount_walls (cell_at g x y) =? 3); reflexivity.
Qed.

(** ** Floats: the products the braid forms *)

Module FloatFacts.
Import SpecFloat.


Lemma digits2_bounds (p : positive) :
  2 ^ (Zpos (digits2_pos p) - 1) <= Zpos p < 2 ^ Zpos (digits2_pos p).
Proof.
  induction p as [p IH | p IH |].
  - cbn [digits2_pos]. rewrite Pos2Z.inj_succ.
    replace (Z.succ (Zpos (digits2_pos p)) - 1) with (Z.succ (Zpos (digits2_pos p) - 1))
      by lia.
    rewrite !Z.pow_succ_r by lia. lia.
  - cbn [digits2_pos]. rewrite Pos2Z.inj_succ.
    replace (Z.succ (Zpos (digits2_pos p)) - 1) with (Z.succ (Zpos (digits2_pos p) - 1))
      by lia.
    rewrite !Z.pow_succ_r by lia. lia.
  - cbn. lia.
Qed.

(** The digit count of a positive number is fixed by the powers of two
    around it. *)
Lemma digits2_unique (p : positive) (d : Z) :
  2 ^ (d - 1) <= Zpos p < 2 ^ d -> 0 < d -> Zpos (digits2_pos p) = d.
Proof.
  intros [Hlo Hhi] Hd. pose proof (digits2_bounds p) as [Blo Bhi].
  destruct (Z.lt_trichotomy (Zpos (digits2_pos p)) d) as [H | [H | H]]; [|exact H|].
  - assert (2 ^ Zpos (digits2_pos p) <= 2 ^ (d - 1))
      by (apply Z.pow_le_mono_r; lia). lia.
  - assert (2 ^ d <= 2 ^ (Zpos (digits2_pos p) - 1))
      by (apply Z.pow_le_mono_r; lia). lia.
Qed.

Lemma digits2_le (p : positive) (d : Z) :
  Zpos p < 2 ^ d -> 0 <= d -> Zpos (digits2_pos p) <= d.
Proof.
  intros Hhi Hd. pose proof (digits2_bounds p) as [Blo _].
  destruct (Z.le_gt_cases (Zpos (digits2_pos p)) d) as [H | H]; [exact H|].
  assert (2 ^ d <= 2 ^ (Zpos (digits2_pos p) - 1))
    by (apply Z.pow_le_mono_r; lia). lia.
Qed.

Lemma iter_xO_value (p k : positive) :
  Zpos (Pos.iter xO p k) = Zpos p * 2 ^ Zpos k.
Proof.
  revert p. induction k as [| k IH] using Pos.peano_ind; intros p.
  - cbn. lia.
  - rewrite Pos.iter_succ, Pos2Z.inj_succ, Z.pow_succ_r by lia.
    rewrite Pos2Z.inj_xO, IH. lia.
Qed.

Lemma fexp_normal (e : Z) :
  -1074 <= e -> fexp PyFloat.prec PyFloat.emax (53 + e) = e.
Proof. intros H. unfold fexp, emin, PyFloat.prec, PyFloat.emax. lia. Qed.

(** A mantissa of 53 digits with an exponent in range is already rounded. *)
Lemma round_aux_canonical (s : bool) (m : positive) (e : Z) :
  Zpos (digits2_pos m) = 53 -> -1074 <= e <= 971 ->
  binary_round_aux PyFloat.prec PyFloat.emax s (Zpos m) e loc_Exact = S754_finite s m e.
Proof.
  intros Hd He. unfold binary_round_aux, shr_fexp. cbn [Zdigits2].
  rewrite Hd, fexp_normal, Z.sub_diag by lia.
  cbn [shr shr_record_of_loc shr_m loc_of_shr_record round_nearest_even Zdigits2].
  rewrite Hd, fexp_normal, Z.sub_diag by lia.
  cbn [shr shr_record_of_loc shr_m].
  unfold PyFloat.emax, PyFloat.prec.
  destruct (Z.leb_spec e (1024 - 53)); [reflexivity | lia].
Qed.

(** [float(n)] is exact below 2^53: a mantissa of 53 digits and the
    exponent that scales it back to [n]. *)
Lemma of_int_exact (n : Z) :
  0 < n < 2 ^ 53 ->
  exists m e, PyFloat.of_int n = Ok (S754_finite false m e) /\
              Zpos (digits2_pos m) = 53 /\ -52 <= e <= 0 /\
              Zpos m = n * 2 ^ (- e).
Proof.
  intros Hn. destruct n as [|p|p]; try lia.
  pose proof (digits2_bounds p) as [Blo Bhi].
  assert (Hd : 1 <= Zpos (digits2_pos p) <= 53).
  { split; [lia|]. apply digits2_le; lia. }
  unfold PyFloat.of_int, binary_normalize, binary_round.
  assert (Hf : fexp PyFloat.prec PyFloat.emax (Zpos (digits2_pos p) + 0)
               = Zpos (digits2_pos p) - 53)
    by (unfold fexp, emin, PyFloat.prec, PyFloat.emax; lia).
  rewrite Hf. unfold shl_align.
  destruct (Zpos (digits2_pos p) - 53 - 0) as [|k|k] eqn:Ek; try lia.
  - rewrite round_aux_canonical by lia.
    exists p, 0. split; [reflexivity|].
    split; [lia|]. split; [lia|]. cbn. lia.
  - assert (Hmz : Zpos (digits2_pos (Pos.iter xO p k)) = 53).
    { apply digits2_unique; [|lia]. rewrite iter_xO_value.
      replace 53 with (Zpos (digits2_pos p) + Zpos k) at 2 by lia.
      replace (53 - 1) with (Zpos (digits2_pos p) - 1 + Zpos k) by lia.
      rewrite !Z.pow_add_r by lia.
      pose proof (Z.pow_pos_nonneg 2 (Zpos k) ltac:(lia) ltac:(lia)). nia. }
    rewrite round_aux_canonical by lia.
    exists (Pos.iter xO p k), (Zpos (digits2_pos p) - 53). split; [reflexivity|].
    split; [exact Hmz|]. split; [lia|].
    rewrite iter_xO_value. f_equal. f_equal. lia.
Qed.

(** Multiplying by 1.0 changes nothing. *)
Lemma mul_one (m : positive) (e : Z) :
  Zpos (digits2_pos m) = 53 -> -1022 <= e <= 971 ->
  PyFloat.mul (S754_finite false m e) PyFloat.one = S754_finite false m e.
Proof.
  intros Hd He. unfold PyFloat.mul, PyFloat.one, SFmul. cbn [xorb].
  assert (Hdig : Zpos (digits2_pos (m * 4503599627370496)) = 105).
  { apply digits2_unique; [|lia]. pose proof (digits2_bounds m) as Bm.
    rewrite Hd in Bm. rewrite Pos2Z.inj_mul.
    change (Zpos 4503599627370496) with (2 ^ 52).
    change (2 ^ (105 - 1)) with (2 ^ (53 - 1) * 2 ^ 52).
    change (2 ^ 105) with (2 ^ 53 * 2 ^ 52). lia. }
  unfold binary_round_aux, shr_fexp. cbn [Zdigits2]. rewrite Hdig.
  assert (Hf : fexp PyFloat.prec PyFloat.emax (105 + (e + -52)) = e)
    by (unfold fexp, emin, PyFloat.prec, PyFloat.emax; lia).
  rewrite Hf. replace (e - (e + -52)) with 52 by lia.
  unfold shr at 1.
  assert (Hshr : iter_pos shr_1 52
                   (shr_record_of_loc (Zpos (m * 4503599627370496)) loc_Exact) =
                 {| shr_m := Zpos m; shr_r := false; shr_s := false |}).
  { rewrite Pos.mul_comm. reflexivity. }
  rewrite Hshr.
  cbn [shr_m loc_of_shr_record round_nearest_even Zdigits2].
  rewrite Hd. replace (e + -52 + 52) with e by lia.
  rewrite fexp_normal, Z.sub_diag by lia.
  cbn [shr shr_record_of_loc shr_m].
  unfold PyFloat.emax, PyFloat.prec.
  destruct (Z.leb_spec e (1024 - 53)); [reflexivity | lia].
Qed.

Lemma to_int_exact (m : positive) (e n : Z) :
  -52 <= e <= 0 -> Zpos m = n * 2 ^ (- e) ->
  PyFloat.to_int (S754_finite false m e) = Ok n.
Proof.
  intros He Hm. unfold PyFloat.to_int. cbn [cond_Zopp]. f_equal.
  rewrite Hm. destruct (Z.eq_dec e 0) as [-> | Hne].
  - rewrite Z.shiftl_0_r. change (- 0) with 0. rewrite Z.pow_0_r. lia.
  - replace e with (- (- e)) at 2 by lia.
    rewrite Z.shiftl_opp_r, Z.shiftr_div_pow2 by lia.
    apply Z.div_mul. apply Z.pow_nonzero; lia.
Qed.

Lemma iter_pos_invariant {A : Type} (P : A -> Prop) (f : A -> A) :
  (forall x, P x -> P (f x)) -> forall n x, P x -> P (iter_pos f n x).
Proof.
  intros Hf. induction n as [n IH | n IH |]; intros x Hx; cbn [iter_pos]; auto.
Qed.

Lemma shr_1_bounds (b : Z) (r : shr_record) :
  0 <= shr_m r <= b -> 0 <= shr_m (shr_1 r) <= b.
Proof.
  destruct r as [m r s]. cbn [shr_m]. intros H. unfold shr_1.
  destruct m as [|[p|p|]|[p|p|]]; cbn [shr_m]; lia.
Qed.

Lemma shr_fexp_bounds (m e : Z) (l : location) :
  0 <= m ->
  0 <= shr_m (fst (shr_fexp PyFloat.prec PyFloat.emax m e l)) <= m /\
  snd (shr_fexp PyFloat.prec PyFloat.emax m e l)
    <= Z.max e (fexp PyFloat.prec PyFloat.emax (Zdigits2 m + e)).
Proof.
  intros Hm. unfold shr_fexp, shr.
  assert (Hloc : shr_m (shr_record_of_loc m l) = m) by (destruct l as [|[]]; reflexivity).
  destruct (fexp PyFloat.prec PyFloat.emax (Zdigits2 m + e) - e) as [|k|k] eqn:Ek;
    cbn [fst snd]; rewrite ?Hloc; try lia.
  split; [|lia].
  apply (iter_pos_invariant (fun r => 0 <= shr_m r <= m)).
  - intros x. apply shr_1_bounds.
  - rewrite Hloc. lia.
Qed.

Lemma Zdigits2_le (a d : Z) : 0 <= a < 2 ^ d -> 0 <= d -> Zdigits2 a <= d.
Proof.
  intros Ha Hd. destruct a as [|p|p]; cbn [Zdigits2]; try lia.
  apply digits2_le; lia.
Qed.

Lemma round_nearest_even_bounds (m : Z) (l : location) :
  m <= round_nearest_even m l <= m + 1.
Proof.
  unfold round_nearest_even. destruct l as [|[]]; try lia.
  destruct (Z.even m); lia.
Qed.

(** A product with at most 106 digits and no positive exponent rounds to a
    zero or a finite number. *)
Lemma round_aux_finite (s : bool) (M : positive) (E : Z) :
  Zpos M < 2 ^ 106 -> E <= 0 ->
  match binary_round_aux PyFloat.prec PyFloat.emax s (Zpos M) E loc_Exact with
  | S754_zero s' | S754_finite s' _ _ => s' = s
  | _ => False
  end.
Proof.
  intros HM HE. unfold binary_round_aux.
  pose proof (shr_fexp_bounds (Zpos M) E loc_Exact ltac:(lia)) as [Hm1 He1].
  destruct (shr_fexp PyFloat.prec PyFloat.emax (Zpos M) E loc_Exact) as [r1 e1].
  cbn [fst snd] in Hm1, He1.
  pose proof (Zdigits2_le (Zpos M) 106 ltac:(lia) ltac:(lia)) as Hd1.
  assert (He1' : e1 <= 53)
    by (unfold fexp, emin, PyFloat.prec, PyFloat.emax in He1; lia).
  pose proof (round_nearest_even_bounds (shr_m r1) (loc_of_shr_record r1)) as Hr.
  set (m' := round_nearest_even (shr_m r1) (loc_of_shr_record r1)) in *.
  pose proof (shr_fexp_bounds m' e1 loc_Exact ltac:(lia)) as [Hm2 He2].
  destruct (shr_fexp PyFloat.prec PyFloat.emax m' e1 loc_Exact) as [r2 e2].
  cbn [fst snd] in Hm2, He2.
  assert (Hd2 : Zdigits2 m' <= 107).
  { apply Zdigits2_le; [|lia]. change (2 ^ 107) with (2 * 2 ^ 106). lia. }
  assert (He2' : e2 <= 971)
    by (unfold fexp, emin, PyFloat.prec, PyFloat.emax in He2; lia).
  destruct (shr_m r2) as [|p|p]; [reflexivity| |lia].
  unfold PyFloat.emax, PyFloat.prec.
  destruct (Z.leb_spec e2 (1024 - 53)); [reflexivity | lia].
Qed.

Lemma int_times_one (n : Z) :
  0 <= n < 2 ^ 53 -> MazePostProcessor.int_times n PyFloat.one = Ok n.
Proof.
  intros Hn. destruct (Z.eq_dec n 0) as [-> | Hne]; [reflexivity|].
  destruct (of_int_exact n ltac:(lia)) as (m & e & E & Hd & He & Hm).
  unfold MazePostProcessor.int_times. rewrite E, bind_Ok, mul_one by lia.
  apply to_int_exact; assumption.
Qed.

Lemma int_times_zero (n : Z) :
  0 <= n < 2 ^ 53 -> MazePostProcessor.int_times n PyFloat.zero = Ok 0.
Proof.
  intros Hn. destruct (Z.eq_dec n 0) as [-> | Hne]; [reflexivity|].
  destruct (of_int_exact n ltac:(lia)) as (m & e & E & _).
  unfold MazePostProcessor.int_times. rewrite E, bind_Ok. reflexivity.
Qed.

(** With a factor between 0.0 and 1.0 the product is finite and not
    negative, so [int] returns. *)
Lemma int_times_unit (n : Z) (factor : PyFloat.t) :
  0 <= n < 2 ^ 53 ->
  PyFloat.valid factor = true ->
  PyFloat.leb PyFloat.zero factor = true ->
  PyFloat.leb factor PyFloat.one = true ->
  exists t, MazePostProcessor.int_times n factor = Ok t /\ 0 <= t.
Proof.
  intros Hn Hvalid H0 H1.
  destruct factor as [sy | sy | | sy my ey].
  - exists 0. split; [|lia]. unfold MazePostProcessor.int_times.
    destruct (Z.eq_dec n 0) as [-> | Hne]; [reflexivity|].
    destruct (of_int_exact n ltac:(lia)) as (m & e & E & _). rewrite E. reflexivity.
  - destruct sy; discriminate.
  - discriminate.
  - destruct sy; [discriminate|].
    destruct (Z.eq_dec n 0) as [-> | Hne]; [exists 0; split; [reflexivity | lia]|].
    destruct (of_int_exact n ltac:(lia)) as (m & e & E & Hd & He & Hm).
    unfold MazePostProcessor.int_times. rewrite E, bind_Ok.
    unfold PyFloat.mul, SFmul. cbn [xorb].
    assert (Hey : ey <= -52).
    { unfold PyFloat.leb, SFleb, SFcompare, PyFloat.one in H1.
      destruct (Z.compare_spec ey (-52)); [lia | lia | discriminate]. }
    assert (Hdy : Zpos (digits2_pos my) <= 53).
    { unfold PyFloat.valid in Hvalid. cbn [valid_binary] in Hvalid.
      unfold bounded in Hvalid.
      apply andb_true_iff in Hvalid. destruct Hvalid as [Hc _].
      unfold canonical_mantissa in Hc. apply Z.eqb_eq in Hc.
      unfold fexp, emin, PyFloat.prec, PyFloat.emax in Hc. lia. }
    pose proof (round_aux_finite false (m * my) (e + ey)) as Hfin.
    assert (HM : Zpos (m * my) < 2 ^ 106).
    { pose proof (digits2_bounds m) as [_ Bm]. pose proof (digits2_bounds my) as [_ By].
      rewrite Hd in Bm.
      assert (2 ^ Zpos (digits2_pos my) <= 2 ^ 53) by (apply Z.pow_le_mono_r; lia).
      rewrite Pos2Z.inj_mul. change (2 ^ 106) with (2 ^ 53 * 2 ^ 53). nia. }
    specialize (Hfin HM ltac:(lia)).
    destruct (binary_round_aux PyFloat.prec PyFloat.emax false (Zpos (m * my)) (e + ey)
                loc_Exact) as [s' | s' | | s' m' e'] eqn:Er; try contradiction.
    + exists 0. split; [reflexivity | lia].
    + subst s'. eexists. split; [reflexivity|]. cbn [cond_Zopp].
      apply Z.shiftl_nonneg. lia.
Qed.

(** The truncated products as Python computes them: [int(5 * 0.6)] is 3,
    the product rounding up to 3.0, and [int(50 * 0.58)] is 28; an
    infinite factor makes [int] raise, and so does a NaN product; with
    2^53 + 1 dead ends the factor 1.0 already loses one. *)
Example int_times_examples :
  MazePostProcessor.int_times 5 (S754_finite false 5404319552844595 (-53)) = Ok 3 /\
  MazePostProcessor.int_times 50 (S754_finite false 5224175567749775 (-53)) = Ok 28 /\
  MazePostProcessor.int_times 5 (S754_infinity false) = Raise OverflowError /\
  MazePostProcessor.int_times 0 (S754_infinity false) = Raise ValueError /\
  MazePostProcessor.int_times (2 ^ 53 + 1) PyFloat.one = Ok (2 ^ 53).
Proof. repeat split; vm_compute; reflexivity. Qed.

End FloatFacts.

Lemma scanline_length (g : Grid.t) :
  0 <= Grid.width g -> 0 <= Grid.height g ->
  length (scanline g) = Z.to_nat (Grid.width g * Grid.height g).
Proof.
  intros Hw Hh. unfold scanline.
  assert (forall ys : list Z,
             length (flat_map (fun y : Z => map (fun x : Z => (x, y))
                                              (seqZ 0 (Grid.width g))) ys)
             = (length ys * Z.to_nat (Grid.width g))%nat) as E.
  { induction ys as [|y ys IH]; [reflexivity|].
    cbn [flat_map]. rewrite length_app, length_map, length_seqZ, IH.
    cbn [length]. lia. }
  rewrite E, length_seqZ. nia.
Qed.

(** There are no more dead ends than cells. *)
Lemma dead_ends_few (g : Grid.t) :
  wf g ->
  Z.of_nat (length (List.filter (dead_end g) (scanline g)))
    <= Grid.width g * Grid.height g.
Proof.
  intros (Hw & Hh & _).
  pose proof (List.filter_length_le (dead_end g) (scanline g)) as H.
  rewrite (scanline_length g Hw Hh) in H. nia.
Qed.

Section BraidProperties.

Variable Rng : Type.
Variable Random : Z -> Rng.
Variable randbelow : Rng -> Z -> Z * Rng.
Hypothesis randbelow_range :
  forall rng n, 0 < n -> 0 <= fst (randbelow rng n) < n.

#[local] Abbreviation braid_loop := (MazePostProcessor.braid_loop Rng randbelow).
#[local] Abbreviation braid := (MazePostProcessor.braid Rng Random randbelow).

Lemma braid_loop_clears (l : list (Z * Z)) :
  forall (g : Grid.t) (rng : Rng) (target removed : Z),
    wf g -> 2 <= Grid.width g -> 2 <= Grid.height g -> no_solid_cell g ->
    (forall x y, In (x, y) l -> Grid.in_bounds g x y = true) ->
    (forall x y, Grid.in_bounds g x y = true -> dead_end g (x, y) = true ->
                 In (x, y) l) ->
    removed + Z.of_nat (length l) <= target ->
    exists g' r rng',
      braid_loop g rng target removed l = Ok (g', r, rng') /\ wf g' /\
      (forall x y, Grid.in_bounds g' x y = true -> dead_end g' (x, y) = false).
Proof using randbelow_range.
  induction l as [|[x y] l IH]; intros g rng target removed Hwf Hw Hh Hns Hin Hall Hcnt.
  - exists g, removed, rng. split; [reflexivity|]. split; [assumption|].
    intros a b Hab. destruct (dead_end g (a, b)) eqn:E; [|reflexivity].
    destruct (Hall a b Hab E).
  - cbn [MazePostProcessor.braid_loop].
    destruct (Z.leb_spec target removed) as [Hle|_].
    { cbn [length] in Hcnt. lia. }
    assert (Hxy : Grid.in_bounds g x y = true) by (apply Hin; left; reflexivity).
    unfold Grid.get_index. rewrite Hxy, bind_Ok, getitem_cell, bind_Ok by assumption.
    assert (Hrest : removed + Z.of_nat (length l) <= target)
      by (cbn [length] in Hcnt; lia).
    destruct (MazePostProcessor.popcount_walls (cell_at g x y) =? 3) eqn:Hde;
      cbn [negb].
    + destruct (closed_neighbors_spec g x y Hwf Hxy) as (cl & Ecl & Hcl & Hne).
      rewrite Ecl, bind_Ok.
      specialize (Hne Hw Hh Hde).
      destruct cl as [|d0 cl']; [congruence|].
      destruct (choice_in Rng randbelow randbelow_range rng (d0 :: cl') Hne)
        as (d & rng' & Ech & Hd).
      rewrite Ech, bind_Ok. cbv beta iota.
      destruct (Hcl d Hd) as (Hdir & Hbit & nx & ny & od & Ht & Hn).
      rewrite carve_path_carved, bind_Ok by assumption.
      destruct (carved_dims g x y d) as [Ew Eh].
      assert (Hbnd : forall a b, Grid.in_bounds (carved g x y d) a b =
                                 Grid.in_bounds g a b).
      { intros a b. unfold Grid.in_bounds. rewrite Ew, Eh. reflexivity. }
      apply IH.
      * apply carved_wf, Hwf.
      * lia.
      * lia.
      * intros a b Hab. rewrite Hbnd in Hab.
        rewrite (carved_popcount g x y d nx ny od a b) by assumption.
        specialize (Hns a b Hab).
        pose proof (popcount_walls_range (cell_at g a b)).
        repeat match goal with
               | |- context [if ?c then _ else _] => destruct c
               end; lia.
      * intros a b Hab. rewrite Hbnd. apply Hin. right. exact Hab.
      * intros a b Hab Hdab. rewrite Hbnd in Hab.
        unfold dead_end in Hdab. cbn [fst snd] in Hdab. apply Z.eqb_eq in Hdab.
        rewrite (carved_popcount g x y d nx ny od a b) in Hdab by assumption.
        specialize (Hns a b Hab).
        pose proof (popcount_walls_range (cell_at g a b)).
        assert (Hold : dead_end g (a, b) = true /\ (a, b) <> (x, y)).
        { unfold dead_end. cbn [fst snd]. rewrite Z.eqb_eq.
          destruct (Z.eqb_spec x a); destruct (Z.eqb_spec y b); cbn [andb] in Hdab;
            subst; try rewrite Hbit in Hdab;
            try apply Z.eqb_eq in Hde;
            repeat match type of Hdab with
                   | context [if ?c then _ else _] => destruct c
                   end; split; try lia; congruence. }
        destruct Hold as [Hold Hneq].
        destruct (Hall a b Hab Hold) as [E|Hl]; [congruence | exact Hl].
      * cbn [length] in Hcnt. lia.
    + apply IH; try assumption.
      * intros a b Hab. apply Hin. right. exact Hab.
      * intros a b Hab Hdab.
        destruct (Hall a b Hab Hdab) as [E|Hl]; [|exact Hl].
        inversion E; subst. unfold dead_end in Hdab. cbn [fst snd] in Hdab.
        congruence.
Qed.

(** C5 as the code has it, on a grid of fewer than 2^53 cells, where the
    float product of the number of dead ends and the factor is exact.
    Braiding with factor 0.0 leaves every cell byte unchanged.  Braiding
    with factor 1.0 leaves no dead end on a grid at least two cells wide
    and high in which no cell has all four walls, as in any perfect maze of
    that size: every candidate is tested again when its turn comes, and
    opening a wall there cannot make a new dead end. *)
Theorem braid_extremes (g : Grid.t) (seed : Z) :
  wf g -> Grid.width g * Grid.height g < 2 ^ 53 ->
  (exists removed, braid g PyFloat.zero seed = Ok (g, removed)) /\
  (2 <= Grid.width g -> 2 <= Grid.height g -> no_solid_cell g ->
   exists g' removed,
     braid g PyFloat.one seed = Ok (g', removed) /\
     MazePostProcessor.count_dead_ends g' = Ok 0).
Proof using randbelow_range.
  intros Hwf Hsize.
  assert (Hrun : forall factor,
    braid g factor seed =
    let '(l, rng) := shuffle Rng randbelow (Random seed)
                       (List.filter (dead_end g) (scanline g)) in
    let* target := MazePostProcessor.int_times (Z.of_nat (length l)) factor in
    let* '(g', removed_count, _) := braid_loop g rng target 0 l in
    Ok (g', removed_count)).
  { intros factor. unfold MazePostProcessor.braid.
    rewrite collect_dead_ends, bind_Ok by assumption. reflexivity. }
  rewrite !Hrun. clear Hrun.
  destruct (shuffle_spec Rng randbelow (Random seed)
              (List.filter (dead_end g) (scanline g))) as [Hlen Hmem].
  destruct (shuffle Rng randbelow (Random seed)
              (List.filter (dead_end g) (scanline g))) as [l rng] eqn:Esh.
  cbn [fst] in Hlen, Hmem.
  assert (Hfew : 0 <= Z.of_nat (length l) < 2 ^ 53).
  { pose proof (dead_ends_few g Hwf). lia. }
  split.
  - exists 0. rewrite FloatFacts.int_times_zero, bind_Ok by exact Hfew.
    destruct l as [|[x y] l']; reflexivity.
  - intros Hw Hh Hns.
    rewrite FloatFacts.int_times_one, bind_Ok by exact Hfew.
    destruct (braid_loop_clears l g rng (Z.of_nat (length l)) 0)
      as (g' & r & rng' & E & Hwf' & Hnone); try assumption.
    + intros x y Hin. apply Hmem, filter_In in Hin. apply in_scanline, Hin.
    + intros x y Hb Hde. apply Hmem, filter_In. split; [apply in_scanline|]; assumption.
    + lia.
    + exists g', r. rewrite E, bind_Ok. split; [reflexivity|].
      apply count_dead_ends_zero; assumption.
Qed.

End BraidProperties.

Lemma scripted_randbelow_range (script : list Z) (n : Z) :
  0 < n -> 0 <= fst (scripted_randbelow script n) < n.
Proof.
  intros Hn. destruct script as [|r rest]; simpl; [lia|].
  apply Z.mod_pos_bound. exact Hn.
Qed.

Lemma braid_extremes_witness :
  wf (Grid.mk 2 2 [29; 19; 29; 22]) /\
  no_solid_cell (Grid.mk 2 2 [29; 19; 29; 22]) /\
  (exists removed,
     MazePostProcessor.braid (list Z) (fun _ => [3; 1; 4; 1; 5]) scripted_randbelow
       (Grid.mk 2 2 [29; 19; 29; 22]) PyFloat.zero 7
     = Ok (Grid.mk 2 2 [29; 19; 29; 22], removed)) /\
  (exists g' removed,
     MazePostProcessor.braid (list Z) (fun _ => [3; 1; 4; 1; 5]) scripted_randbelow
       (Grid.mk 2 2 [29; 19; 29; 22]) PyFloat.one 7 = Ok (g', removed) /\
     MazePostProcessor.count_dead_ends g' = Ok 0).
Proof.
  assert (Hwf : wf (Grid.mk 2 2 [29; 19; 29; 22])).
  { unfold wf; simpl. repeat split; try lia. repeat constructor. }
  assert (Hns : no_solid_cell (Grid.mk 2 2 [29; 19; 29; 22])).
  { intros x y Hb. apply in_bounds_iff in Hb. cbn in Hb.
    assert (Hx : x = 0 \/ x = 1) by lia. assert (Hy : y = 0 \/ y = 1) by lia.
    destruct Hx as [-> | ->], Hy as [-> | ->]; discriminate. }
  split; [exact Hwf|]. split; [exact Hns|].
  destruct (braid_extremes (list Z) (fun _ => [3; 1; 4; 1; 5]) scripted_randbelow
              scripted_randbelow_range (Grid.mk 2 2 [29; 19; 29; 22]) 7 Hwf
              ltac:(cbn; lia))
    as [Hzero Hone].
  split; [exact Hzero|]. apply Hone; [cbn; lia | cbn; lia | exact Hns].
Defined.

(** C5, counterexamples: factor 1.0 leaves dead ends on the one-column
    perfect maze of two cells, whose dead ends have no closed wall toward
    a cell of the lattice, and on a 2 by 2 grid with two uncarved cells,
    where opening a wall into an uncarved cell makes a new dead end. *)
Lemma braid_leaves_dead_ends :
  (exists g' removed,
     MazePostProcessor.braid (list Z) (fun _ => []) scripted_randbelow
       (Grid.mk 1 2 [27; 30]) PyFloat.one 0 = Ok (g', removed) /\
     MazePostProcessor.count_dead_ends g' = Ok 2) /\
  (exists g' removed,
     MazePostProcessor.braid (list Z) (fun _ => []) scripted_randbelow
       (Grid.mk 2 2 [13; 7; 15; 15]) PyFloat.one 0 = Ok (g', removed) /\
     MazePostProcessor.count_dead_ends g' = Ok 2).
Proof.
  split; eexists _, _; (split; [vm_compute; reflexivity | reflexivity]).
Qed.

(** ** Seeds *)

(** C4. The sequential phase of the block-parallel carver never reads the
    seed it was constructed with: its draws come from the module-level
    generator, so the macro maze depends on the state that generator
    happens to be in.  With the same seed 42, two states of the generator
    give two different macro mazes over 2 by 2 blocks. *)
Theorem taichi_macro_maze_not_seeded :
  (forall (Rng : Type) (randbelow : Rng -> Z -> Z * Rng) (fuel : nat)
          (blocks_x blocks_y seed1 seed2 : Z) (rng : Rng),
     TaichiParallelGenerator.generate_macro_maze_cpu Rng randbelow fuel
       blocks_x blocks_y seed1 rng =
     TaichiParallelGenerator.generate_macro_maze_cpu Rng randbelow fuel
       blocks_x blocks_y seed2 rng) /\
  TaichiParallelGenerator.generate_macro_maze_cpu (list Z) scripted_randbelow
    100 2 2 42 [0; 0; 0; 0] = Ok ([2; 2; 12; 9], []) /\
  TaichiParallelGenerator.generate_macro_maze_cpu (list Z) scripted_randbelow
    100 2 2 42 [1; 1; 1; 1] = Ok ([6; 3; 8; 8], []).
Proof.
  split; [intros; reflexivity|]. split; vm_compute; reflexivity.
Qed.

(** ** Growing a spanning tree *)

Lemma coord_eqb_eq (p q : Z * Z) : coord_eqb p q = true <-> p = q.
Proof.
  unfold coord_eqb. destruct p as [a b], q as [c d]; cbn [fst snd].
  rewrite andb_true_iff, !Z.eqb_eq. split; [intros [-> ->]; reflexivity|].
  intros E; inversion E; auto.
Qed.

Lemma coord_eqb_refl (p : Z * Z) : coord_eqb p p = true.
Proof. apply coord_eqb_eq. reflexivity. Qed.

Lemma coord_eqb_neq (p q : Z * Z) : coord_eqb p q = false <-> p <> q.
Proof. rewrite <- coord_eqb_eq. destruct (coord_eqb p q); split; congruence. Qed.

Lemma count_where_same (f f' : Z * Z -> bool) (l : list (Z * Z)) :
  (forall p, In p l -> f' p = f p) -> count_where f' l = count_where f l.
Proof.
  unfold count_where. induction l as [|a l IH]; intros H; [reflexivity|].
  cbn [List.filter]. rewrite (H a) by (left; reflexivity).
  destruct (f a); cbn [length]; rewrite IH by (intros; apply H; right; assumption);
    reflexivity.
Qed.

Lemma count_where_update (f f' : Z * Z -> bool) (l : list (Z * Z)) (p0 : Z * Z) :
  List.NoDup l -> In p0 l -> f p0 = false -> f' p0 = true ->
  (forall p, In p l -> p <> p0 -> f' p = f p) ->
  count_where f' l = S (count_where f l).
Proof.
  unfold count_where. induction 1 as [|a l Ha Hnd IH]; intros Hin H0 H1 Hsame.
  - destruct Hin.
  - cbn [List.filter]. destruct Hin as [->|Hin].
    + rewrite H0, H1. cbn [length]. f_equal.
      apply count_where_same. intros p Hp. apply Hsame; [right; assumption|].
      intros ->. contradiction.
    + rewrite (Hsame a); [| left; reflexivity | intros ->; contradiction].
      destruct (f a); cbn [length]; rewrite IH; auto;
        intros; apply Hsame; try (right; assumption); assumption.
Qed.

Lemma count_where_le (f : Z * Z -> bool) (l : list (Z * Z)) :
  (count_where f l <= length l)%nat.
Proof.
  unfold count_where. induction l as [|a l IH]; [reflexivity|].
  cbn [List.filter]. destruct (f a); cbn [length]; lia.
Qed.

Lemma count_where_all (f : Z * Z -> bool) (l : list (Z * Z)) :
  (forall p, In p l -> f p = true) -> count_where f l = length l.
Proof.
  unfold count_where. induction l as [|a l IH]; intros H; [reflexivity|].
  cbn [List.filter]. rewrite (H a) by (left; reflexivity). cbn [length].
  rewrite IH by (intros; apply H; right; assumption). reflexivity.
Qed.

Lemma count_where_lt (f : Z * Z -> bool) (l : list (Z * Z)) (p : Z * Z) :
  In p l -> f p = false -> (count_where f l < length l)%nat.
Proof.
  unfold count_where. induction l as [|a l IH]; intros Hin Hp; [destruct Hin|].
  cbn [List.filter length]. destruct Hin as [->|Hin].
  - rewrite Hp. pose proof (count_where_le f l). unfold count_where in *. lia.
  - specialize (IH Hin Hp). destruct (f a); cbn [length]; lia.
Qed.

Lemma has_bit_all_walls (d : Z) :
  In d directions -> has_bit Grid.ALL_WALLS d = true.
Proof. intros H. apply directions_cases in H. intuition; subst; reflexivity. Qed.

Lemma has_bit_visited_clear (c d : Z) :
  In d directions ->
  has_bit (Z.land c (Z.lnot d)) Grid.VISITED = has_bit c Grid.VISITED.
Proof.
  intros H. apply has_bit_clear_other. apply directions_cases in H.
  intuition; subst; reflexivity.
Qed.

Lemma has_bit_dir_mark (c e : Z) :
  In e directions -> has_bit (Z.lor c Grid.VISITED) e = has_bit c e.
Proof.
  intros H. apply has_bit_set_other. apply directions_cases in H.
  intuition; subst; reflexivity.
Qed.

Section Attach.

Context {w h : Z} {g g' : Grid.t} {rank : Z * Z -> nat} {n : nat}.
Context {u v : Z * Z} {d od : Z}.

Lemma attach_od : joins w h g g' rank n u v d od -> In od directions.
Proof. intros J. eapply toward_opposite_direction; [apply J | apply J]. Qed.

Lemma attach_back :
  joins w h g g' rank n u v d od ->
  Grid.toward (fst v) (snd v) od = (fst u, snd u, d).
Proof.
  intros J. pose proof (jn_toward _ _ _ _ _ _ _ _ _ _ J) as Ht.
  pose proof (jn_dir _ _ _ _ _ _ _ _ _ _ J) as Hd.
  destruct u as [ux uy], v as [vx vy]; cbn [fst snd] in *.
  four_dirs Hd Ht; unfold Grid.toward; simpl; repeat f_equal; lia.
Qed.

Lemma attach_neq : joins w h g g' rank n u v d od -> u <> v.
Proof.
  intros J E. pose proof (jn_fresh _ _ _ _ _ _ _ _ _ _ J) as Hf.
  pose proof (jn_seen _ _ _ _ _ _ _ _ _ _ J) as Hs. rewrite E in Hf. congruence.
Qed.

Lemma attach_bounds (p : Z * Z) :
  joins w h g g' rank n u v d od ->
  Grid.in_bounds g' (fst p) (snd p) = Grid.in_bounds g (fst p) (snd p).
Proof.
  intros J. destruct (jn_att _ _ _ _ _ _ _ _ _ _ J) as (_ & Ew & Eh & _).
  unfold Grid.in_bounds. rewrite Ew, Eh. reflexivity.
Qed.

Lemma attach_u_walls :
  joins w h g g' rank n u v d od -> cell_at g (fst u) (snd u) = Grid.ALL_WALLS.
Proof. intros J. apply (ti_fresh _ _ _ _ _ (jn_inv _ _ _ _ _ _ _ _ _ _ J)); apply J. Qed.

Lemma attach_wall (p : Z * Z) (e : Z) :
  joins w h g g' rank n u v d od ->
  Grid.in_bounds g (fst p) (snd p) = true -> In e directions ->
  has_bit (cell_at g' (fst p) (snd p)) e =
  if (coord_eqb p u && (e =? d)) || (coord_eqb p v && (e =? od))
  then false else has_bit (cell_at g (fst p) (snd p)) e.
Proof.
  intros J Hp He. destruct (jn_att _ _ _ _ _ _ _ _ _ _ J) as (_ & _ & _ & Hc).
  rewrite (Hc p Hp).
  pose proof (attach_od J) as Hod. pose proof (attach_neq J) as Hne.
  pose proof (jn_dir _ _ _ _ _ _ _ _ _ _ J) as Hd.
  destruct (coord_eqb p u) eqn:Epu; cbn [andb orb].
  - apply coord_eqb_eq in Epu. subst p.
    assert (coord_eqb u v = false) as -> by (apply coord_eqb_neq; exact Hne).
    cbn [andb orb]. rewrite has_bit_dir_mark by exact He.
    destruct (Z.eqb_spec e d) as [->|Hed].
    + apply has_bit_clear_same.
    + apply has_bit_clear_other.
      apply directions_cases in He, Hd.
      destruct He as [ -> | [ -> | [ -> | -> ] ] ];
        destruct Hd as [ -> | [ -> | [ -> | -> ] ] ]; try reflexivity; congruence.
  - destruct (coord_eqb p v) eqn:Epv; cbn [andb]; [|reflexivity].
    destruct (Z.eqb_spec e od) as [->|Hed].
    + apply has_bit_clear_same.
    + apply has_bit_clear_other.
      apply directions_cases in He, Hod.
      destruct He as [ -> | [ -> | [ -> | -> ] ] ];
        destruct Hod as [ -> | [ -> | [ -> | -> ] ] ]; try reflexivity; congruence.
Qed.

Lemma attach_visited (p : Z * Z) :
  joins w h g g' rank n u v d od ->
  Grid.in_bounds g (fst p) (snd p) = true ->
  visited g' p = coord_eqb p u || visited g p.
Proof.
  intros J Hp. destruct (jn_att _ _ _ _ _ _ _ _ _ _ J) as (_ & _ & _ & Hc).
  unfold visited. rewrite (Hc p Hp).
  pose proof (attach_od J) as Hod.
  destruct (coord_eqb p u) eqn:Epu; cbn [orb].
  - apply has_bit_set_same. discriminate.
  - destruct (coord_eqb p v);
      [apply has_bit_visited_clear, Hod | reflexivity].
Qed.

Lemma attach_v_wall :
  joins w h g g' rank n u v d od ->
  has_bit (cell_at g (fst v) (snd v)) od = true.
Proof.
  intros J.
  rewrite <- (ti_sym _ _ _ _ _ (jn_inv _ _ _ _ _ _ _ _ _ _ J)
                (fst u) (snd u) d (fst v) (snd v) od); try apply J.
  rewrite (attach_u_walls J). apply has_bit_all_walls, J.
Qed.

End Attach.

Lemma toward_back (x y d nx ny od : Z) :
  In d directions -> Grid.toward x y d = (nx, ny, od) ->
  Grid.toward nx ny od = (x, y, d).
Proof.
  intros Hd Ht. four_dirs Hd Ht; unfold Grid.toward; simpl; repeat f_equal; lia.
Qed.

Lemma step_visited (w h : Z) (g : Grid.t) (rank : Z * Z -> nat) (n : nat)
    (p q : Z * Z) :
  tree_inv w h g rank n -> step g p q ->
  visited g p = true /\ visited g q = true.
Proof.
  intros I (Hp & Hq & d & od & Hd & Ht & Hbit).
  pose proof (toward_opposite_direction _ _ _ _ _ _ Hd Ht) as Hod.
  pose proof (ti_sym _ _ _ _ _ I _ _ _ _ _ _ Hd Ht Hp Hq) as Hs.
  split.
  - destruct (visited g p) eqn:E; [reflexivity|].
    rewrite (ti_fresh _ _ _ _ _ I p Hp E), has_bit_all_walls in Hbit by exact Hd.
    discriminate.
  - destruct (visited g q) eqn:E; [reflexivity|].
    rewrite Hbit in Hs.
    rewrite (ti_fresh _ _ _ _ _ I q Hq E), has_bit_all_walls in Hs by exact Hod.
    discriminate.
Qed.

Lemma step_sym (g : Grid.t) (p q : Z * Z) :
  symmetric_cells g -> step g p q -> step g q p.
Proof.
  intros Hs (Hp & Hq & d & od & Hd & Ht & Hbit).
  split; [exact Hq|]. split; [exact Hp|]. exists od, d.
  split; [eapply toward_opposite_direction; eassumption|].
  split; [eapply toward_back; eassumption|].
  rewrite <- (Hs _ _ _ _ _ _ Hd Ht Hp Hq). exact Hbit.
Qed.

Section AttachTree.

Context {w h : Z} {g g' : Grid.t} {rank : Z * Z -> nat} {n : nat}.
Context {u v : Z * Z} {d od : Z}.

Lemma attach_step (p q : Z * Z) :
  joins w h g g' rank n u v d od ->
  step g' p q <-> step g p q \/ (p = u /\ q = v) \/ (p = v /\ q = u).
Proof.
  intros J. split.
  - intros (Hp & Hq & d0 & od0 & Hd0 & Ht0 & Hbit).
    rewrite (attach_bounds p J) in Hp. rewrite (attach_bounds q J) in Hq.
    rewrite (attach_wall p d0 J Hp Hd0) in Hbit.
    destruct (coord_eqb p u) eqn:Epu; cbn [andb orb] in Hbit.
    + apply coord_eqb_eq in Epu. subst p.
      assert (coord_eqb u v = false) as Euv by (apply coord_eqb_neq, (attach_neq J)).
      rewrite Euv in Hbit. cbn [andb orb] in Hbit.
      destruct (Z.eqb_spec d0 d) as [->|Hne].
      * right; left. split; [reflexivity|].
        rewrite (jn_toward _ _ _ _ _ _ _ _ _ _ J) in Ht0.
        inversion Ht0. destruct q, v; cbn [fst snd] in *; congruence.
      * rewrite (attach_u_walls J), has_bit_all_walls in Hbit by exact Hd0.
        discriminate.
    + destruct (coord_eqb p v) eqn:Epv; cbn [andb] in Hbit.
      * apply coord_eqb_eq in Epv. subst p.
        destruct (Z.eqb_spec d0 od) as [->|Hne].
        -- right; right. split; [reflexivity|].
           rewrite (attach_back J) in Ht0.
           inversion Ht0. destruct q, u; cbn [fst snd] in *; congruence.
        -- left. split; [exact Hp|]. split; [exact Hq|]. exists d0, od0. auto.
      * left. split; [exact Hp|]. split; [exact Hq|]. exists d0, od0. auto.
  - intros [(Hp & Hq & d0 & od0 & Hd0 & Ht0 & Hbit)|[[-> ->]|[-> ->]]].
    + split; [rewrite (attach_bounds _ J); exact Hp|].
      split; [rewrite (attach_bounds _ J); exact Hq|].
      exists d0, od0. split; [exact Hd0|]. split; [exact Ht0|].
      rewrite (attach_wall p d0 J Hp Hd0), Hbit.
      destruct (_ || _); reflexivity.
    + split; [rewrite (attach_bounds _ J); apply J|].
      split; [rewrite (attach_bounds _ J); apply J|].
      exists d, od. split; [apply J|]. split; [apply J|].
      rewrite (attach_wall u d J (jn_u _ _ _ _ _ _ _ _ _ _ J) (jn_dir _ _ _ _ _ _ _ _ _ _ J)).
      rewrite coord_eqb_refl, Z.eqb_refl. reflexivity.
    + split; [rewrite (attach_bounds _ J); apply J|].
      split; [rewrite (attach_bounds _ J); apply J|].
      exists od, d. split; [apply (attach_od J)|]. split; [apply (attach_back J)|].
      rewrite (attach_wall v od J (jn_v _ _ _ _ _ _ _ _ _ _ J) (attach_od J)).
      rewrite coord_eqb_refl, Z.eqb_refl, orb_true_r. reflexivity.
Qed.

Lemma attach_reach (p : Z * Z) :
  joins w h g g' rank n u v d od -> reach g (0, 0) p -> reach g' (0, 0) p.
Proof.
  intros J. induction 1 as [|p q Hr IH Hs]; [constructor|].
  eapply reach_step; [exact IH|]. apply (attach_step _ _ J). left. exact Hs.
Qed.

End AttachTree.

Section AttachInvariant.

Context {w h : Z} {g g' : Grid.t} {rank : Z * Z -> nat} {n : nat}.
Context {u v : Z * Z} {d od : Z}.

Lemma attach_sym :
  joins w h g g' rank n u v d od -> symmetric_cells g'.
Proof.
  intros J x y e nx ny oe He Hte Hb Hn.
  pose proof (attach_bounds (x, y) J) as Eb. cbn [fst snd] in Eb. rewrite Eb in Hb.
  pose proof (attach_bounds (nx, ny) J) as En. cbn [fst snd] in En. rewrite En in Hn.
  pose proof (toward_opposite_direction _ _ _ _ _ _ He Hte) as Hoe.
  pose proof (toward_back _ _ _ _ _ _ He Hte) as Hback.
  pose proof (attach_wall (x, y) e J Hb He) as E1.
  pose proof (attach_wall (nx, ny) oe J Hn Hoe) as E2.
  cbn [fst snd] in E1, E2. rewrite E1, E2.
  pose proof (ti_sym _ _ _ _ _ (jn_inv _ _ _ _ _ _ _ _ _ _ J)
                x y e nx ny oe He Hte Hb Hn) as Hg.
  pose proof (jn_toward _ _ _ _ _ _ _ _ _ _ J) as Ht.
  pose proof (attach_back J) as Htb.
  assert (Hiff : (coord_eqb (x, y) u && (e =? d)) || (coord_eqb (x, y) v && (e =? od))
                 = (coord_eqb (nx, ny) u && (oe =? d)) || (coord_eqb (nx, ny) v && (oe =? od))).
  { apply eq_true_iff_eq. rewrite !orb_true_iff, !andb_true_iff, !coord_eqb_eq, !Z.eqb_eq.
    split.
    - intros [[<- ->]|[<- ->]]; cbn [fst snd] in *.
      + right. rewrite Hte in Ht. inversion Ht. destruct v; cbn [fst snd] in *.
        split; congruence.
      + left. rewrite Hte in Htb. inversion Htb. destruct u; cbn [fst snd] in *.
        split; congruence.
    - intros [[<- ->]|[<- ->]]; cbn [fst snd] in *.
      + right. rewrite Hback in Ht. inversion Ht. destruct v; cbn [fst snd] in *.
        split; congruence.
      + left. rewrite Hback in Htb. inversion Htb. destruct u; cbn [fst snd] in *.
        split; congruence. }
  rewrite <- Hiff. destruct (_ || _); [reflexivity | exact Hg].
Qed.

Lemma attach_count :
  joins w h g g' rank n u v d od ->
  count_where (visited g') (scanline g') = S (count_where (visited g) (scanline g)).
Proof.
  intros J. destruct (jn_att _ _ _ _ _ _ _ _ _ _ J) as (_ & Ew & Eh & _).
  replace (scanline g') with (scanline g) by (unfold scanline; rewrite Ew, Eh; reflexivity).
  apply (count_where_update _ _ _ u).
  - apply NoDup_scanline.
  - destruct u. apply in_scanline, J.
  - apply J.
  - rewrite (attach_visited u J (jn_u _ _ _ _ _ _ _ _ _ _ J)), coord_eqb_refl.
    reflexivity.
  - intros p Hp Hne. destruct p as [a b]. apply in_scanline in Hp.
    rewrite (attach_visited (a, b) J Hp).
    apply coord_eqb_neq in Hne. rewrite Hne. reflexivity.
Qed.

Lemma attach_edges :
  joins w h g g' rank n u v d od ->
  open_wall_pairs g' = S (open_wall_pairs g).
Proof.
  intros J. destruct (jn_att _ _ _ _ _ _ _ _ _ _ J) as (_ & Ew & Eh & _).
  unfold open_wall_pairs.
  replace (scanline g') with (scanline g) by (unfold scanline; rewrite Ew, Eh; reflexivity).
  pose proof (jn_dir _ _ _ _ _ _ _ _ _ _ J) as Hd.
  pose proof (jn_toward _ _ _ _ _ _ _ _ _ _ J) as Ht.
  pose proof (attach_u_walls J) as Hwalls.
  pose proof (attach_v_wall J) as Hvw.
  pose proof (jn_u _ _ _ _ _ _ _ _ _ _ J) as Hu.
  pose proof (jn_v _ _ _ _ _ _ _ _ _ _ J) as Hv.
  pose proof (attach_neq J) as Hne.
  assert (Hin : forall p, In p (scanline g) -> Grid.in_bounds g (fst p) (snd p) = true).
  { intros [a b] Hp. apply in_scanline, Hp. }
  assert (HE : forall p, In p (scanline g) ->
             east_open g' p =
             (fst p <? Grid.width g - 1) &&
             negb (if (coord_eqb p u && (Grid.EAST =? d)) || (coord_eqb p v && (Grid.EAST =? od))
                   then false else has_bit (cell_at g (fst p) (snd p)) Grid.EAST)).
  { intros p Hp. unfold east_open. rewrite Ew.
    rewrite (attach_wall p Grid.EAST J (Hin p Hp)) by (simpl; tauto). reflexivity. }
  assert (HS : forall p, In p (scanline g) ->
             south_open g' p =
             (snd p <? Grid.height g - 1) &&
             negb (if (coord_eqb p u && (Grid.SOUTH =? d)) || (coord_eqb p v && (Grid.SOUTH =? od))
                   then false else has_bit (cell_at g (fst p) (snd p)) Grid.SOUTH)).
  { intros p Hp. unfold south_open. rewrite Eh.
    rewrite (attach_wall p Grid.SOUTH J (Hin p Hp)) by (simpl; tauto). reflexivity. }
  assert (Huin : In u (scanline g)) by (destruct u; apply in_scanline, Hu).
  assert (Hvin : In v (scanline g)) by (destruct v; apply in_scanline, Hv).
  apply in_bounds_iff in Hu, Hv.
  destruct (toward_cases _ _ _ _ _ _ Hd Ht)
    as [ (? & ? & ? & ?) | [ (? & ? & ? & ?) | [ (? & ? & ? & ?) | (? & ? & ? & ?) ] ] ];
    subst d od.
  - (* north: the pair is counted at v, below which u lies *)
    rewrite (count_where_same (east_open g) (east_open g')).
    2:{ intros p Hp. rewrite (HE p Hp). cbn [Z.eqb Grid.EAST Grid.NORTH Grid.SOUTH Pos.eqb].
        rewrite !andb_false_r. reflexivity. }
    rewrite (count_where_update (south_open g) (south_open g') _ v); try assumption.
    + lia.
    + apply NoDup_scanline.
    + unfold south_open. rewrite Hvw, andb_false_r. reflexivity.
    + rewrite (HS v Hvin), coord_eqb_refl. cbn. rewrite orb_true_r. cbn.
      rewrite andb_true_r. apply Z.ltb_lt. lia.
    + intros p Hp Hpv. rewrite (HS p Hp). apply coord_eqb_neq in Hpv. rewrite Hpv.
      cbn. rewrite andb_false_r. reflexivity.
  - (* east: counted at u *)
    rewrite (count_where_same (south_open g) (south_open g')).
    2:{ intros p Hp. rewrite (HS p Hp). cbn [Z.eqb Grid.EAST Grid.WEST Grid.SOUTH Pos.eqb].
        rewrite !andb_false_r. reflexivity. }
    rewrite (count_where_update (east_open g) (east_open g') _ u); try assumption.
    + lia.
    + apply NoDup_scanline.
    + unfold east_open. rewrite Hwalls. cbn. apply andb_false_r.
    + rewrite (HE u Huin), coord_eqb_refl. cbn.
      rewrite andb_true_r. apply Z.ltb_lt. lia.
    + intros p Hp Hpu. rewrite (HE p Hp). apply coord_eqb_neq in Hpu. rewrite Hpu.
      cbn. rewrite andb_false_r. reflexivity.
  - (* south: counted at u *)
    rewrite (count_where_same (east_open g) (east_open g')).
    2:{ intros p Hp. rewrite (HE p Hp). cbn [Z.eqb Grid.EAST Grid.NORTH Grid.SOUTH Pos.eqb].
        rewrite !andb_false_r. reflexivity. }
    rewrite (count_where_update (south_open g) (south_open g') _ u); try assumption.
    + lia.
    + apply NoDup_scanline.
    + unfold south_open. rewrite Hwalls. cbn. apply andb_false_r.
    + rewrite (HS u Huin), coord_eqb_refl. cbn.
      rewrite andb_true_r. apply Z.ltb_lt. lia.
    + intros p Hp Hpu. rewrite (HS p Hp). apply coord_eqb_neq in Hpu. rewrite Hpu.
      cbn. rewrite andb_false_r. reflexivity.
  - (* west: counted at v *)
    rewrite (count_where_same (south_open g) (south_open g')).
    2:{ intros p Hp. rewrite (HS p Hp). cbn [Z.eqb Grid.EAST Grid.WEST Grid.SOUTH Pos.eqb].
        rewrite !andb_false_r. reflexivity. }
    rewrite (count_where_update (east_open g) (east_open g') _ v); try assumption.
    + lia.
    + apply NoDup_scanline.
    + unfold east_open. rewrite Hvw, andb_false_r. reflexivity.
    + rewrite (HE v Hvin), coord_eqb_refl. cbn. rewrite orb_true_r. cbn.
      rewrite andb_true_r. apply Z.ltb_lt. lia.
    + intros p Hp Hpv. rewrite (HE p Hp). apply coord_eqb_neq in Hpv. rewrite Hpv.
      cbn. rewrite andb_false_r. reflexivity.
Qed.

End AttachInvariant.

Lemma attach_tree_inv (w h : Z) (g g' : Grid.t) (rank : Z * Z -> nat) (n : nat)
    (u v : Z * Z) (d od : Z) :
  joins w h g g' rank n u v d od ->
  tree_inv w h g' (fun p => if coord_eqb p u then n else rank p) (S n).
Proof.
  intros J. pose proof (jn_inv _ _ _ _ _ _ _ _ _ _ J) as I.
  destruct (jn_att _ _ _ _ _ _ _ _ _ _ J) as (Hwf' & Ew & Eh & Hc).
  assert (Hvis : forall p, Grid.in_bounds g' (fst p) (snd p) = true ->
                           visited g' p = coord_eqb p u || visited g p).
  { intros p Hp. rewrite (attach_bounds p J) in Hp. apply (attach_visited p J Hp). }
  constructor.
  - exact Hwf'.
  - rewrite Ew. apply I.
  - rewrite Eh. apply I.
  - apply (attach_sym J).
  - intros p Hp Hun. rewrite (Hvis p Hp) in Hun. apply orb_false_iff in Hun.
    destruct Hun as [Hpu Hun]. rewrite (attach_bounds p J) in Hp.
    rewrite (Hc p Hp), Hpu.
    destruct (coord_eqb p v) eqn:Epv.
    + apply coord_eqb_eq in Epv. subst p.
      rewrite (jn_seen _ _ _ _ _ _ _ _ _ _ J) in Hun. discriminate.
    + apply (ti_fresh _ _ _ _ _ I p Hp Hun).
  - rewrite Hvis by (rewrite (attach_bounds (0, 0) J); apply J).
    rewrite (ti_root _ _ _ _ _ I). apply orb_true_r.
  - rewrite (attach_count J). f_equal. apply I.
  - rewrite (attach_edges J). f_equal. apply I.
  - intros p Hp Hv. rewrite (Hvis p Hp) in Hv. rewrite (attach_bounds p J) in Hp.
    destruct (coord_eqb p u) eqn:Epu.
    + apply coord_eqb_eq in Epu. subst p.
      eapply reach_step.
      * apply (attach_reach v J). apply (ti_reach _ _ _ _ _ I); apply J.
      * apply (attach_step v u J). right; right. split; reflexivity.
    + apply (attach_reach p J). apply (ti_reach _ _ _ _ _ I); assumption.
  - intros p Hp Hv. rewrite (Hvis p Hp) in Hv. rewrite (attach_bounds p J) in Hp.
    destruct (coord_eqb p u); [lia|].
    pose proof (ti_rank_lt _ _ _ _ _ I p Hp Hv). lia.
  - intros p q Hp Hq Hvp Hvq E.
    rewrite (Hvis p Hp) in Hvp. rewrite (Hvis q Hq) in Hvq.
    rewrite (attach_bounds p J) in Hp. rewrite (attach_bounds q J) in Hq.
    destruct (coord_eqb p u) eqn:Epu; destruct (coord_eqb q u) eqn:Equ;
      cbn [orb] in Hvp, Hvq.
    + apply coord_eqb_eq in Epu, Equ. congruence.
    + pose proof (ti_rank_lt _ _ _ _ _ I q Hq Hvq). lia.
    + pose proof (ti_rank_lt _ _ _ _ _ I p Hp Hvp). lia.
    + apply (ti_rank_inj _ _ _ _ _ I); assumption.
  - intros p q1 q2 H1 H2 R1 R2.
    apply (attach_step p q1 J) in H1. apply (attach_step p q2 J) in H2.
    assert (Hnot : forall q, ~ step g u q).
    { intros q Hs. destruct (step_visited _ _ _ _ _ _ _ I Hs) as [Hvu _].
      rewrite (jn_fresh _ _ _ _ _ _ _ _ _ _ J) in Hvu. discriminate. }
    assert (Hnot' : forall q, ~ step g q u).
    { intros q Hs. destruct (step_visited _ _ _ _ _ _ _ I Hs) as [_ Hvu].
      rewrite (jn_fresh _ _ _ _ _ _ _ _ _ _ J) in Hvu. discriminate. }
    pose proof (attach_neq J) as Hne.
    pose proof (ti_rank_lt _ _ _ _ _ I v (jn_v _ _ _ _ _ _ _ _ _ _ J)
                  (jn_seen _ _ _ _ _ _ _ _ _ _ J)) as Hrv.
    destruct (coord_eqb p u) eqn:Epu.
    + apply coord_eqb_eq in Epu. subst p.
      destruct H1 as [H1|[[_ ->]|[E _]]]; [destruct (Hnot _ H1)| |congruence].
      destruct H2 as [H2|[[_ ->]|[E _]]]; [destruct (Hnot _ H2)| |congruence].
      reflexivity.
    + assert (Hpu : p <> u) by (apply coord_eqb_neq; exact Epu).
      destruct H1 as [H1|[[E _]|[-> ->]]]; [|congruence|].
      2:{ rewrite coord_eqb_refl in R1. lia. }
      destruct H2 as [H2|[[E _]|[-> ->]]]; [|congruence|].
      2:{ rewrite coord_eqb_refl in R2. lia. }
      assert (coord_eqb q1 u = false) as E1.
      { apply coord_eqb_neq. intros ->. destruct (Hnot' _ H1). }
      assert (coord_eqb q2 u = false) as E2.
      { apply coord_eqb_neq. intros ->. destruct (Hnot' _ H2). }
      rewrite E1 in R1. rewrite E2 in R2.
      apply (ti_parent _ _ _ _ _ I p q1 q2); assumption.
Qed.

(** *** A full tree is a perfect maze *)





(** ** The generators *)

Lemma set_visited_mark (g : Grid.t) (x y : Z) :
  wf g -> Grid.in_bounds g x y = true ->
  Grid.set_visited g x y true =
  Ok (write_cell g x y (Z.lor (cell_at g x y) Grid.VISITED)).
Proof.
  intros Hwf Hb. unfold Grid.set_visited.
  rewrite getitem_cell, bind_Ok by assumption.
  rewrite setitem_cell, bind_Ok; [reflexivity | assumption | assumption |].
  apply byte_lor; [apply cell_at_byte, Hwf | reflexivity].
Qed.

Lemma mark_wf (g : Grid.t) (x y : Z) :
  wf g -> wf (write_cell g x y (Z.lor (cell_at g x y) Grid.VISITED)).
Proof.
  intros Hwf. apply write_cell_wf; [assumption|].
  apply byte_lor; [apply cell_at_byte, Hwf | reflexivity].
Qed.

Lemma neighbors_where_filter (want : bool) (g : Grid.t) (cx cy : Z) :
  wf g -> Grid.in_bounds g cx cy = true ->
  Generator.neighbors_where want g cx cy =
  Ok (List.filter (fun n => Bool.eqb (visited g (fst (fst n), snd (fst n))) want)
        (Grid.get_neighbors g cx cy)).
Proof.
  intros Hwf Hb. unfold Generator.neighbors_where.
  rewrite (foldM_collect _
             (fun n => Bool.eqb (visited g (fst (fst n), snd (fst n))) want));
    [reflexivity|].
  intros acc [[nx ny] d] Hin.
  destruct (get_neighbors_in_bounds g cx cy nx ny d Hb Hin) as (Hn & _).
  rewrite is_visited_cell, bind_Ok by assumption. cbn [fst snd].
  unfold visited. cbn [fst snd].
  destruct (Bool.eqb _ want); reflexivity.
Qed.

Lemma opposite_of_toward (x y d nx ny od : Z) :
  In d directions -> Grid.toward x y d = (nx, ny, od) -> Grid.OPPOSITE d = Ok od.
Proof. intros Hd Ht. four_dirs Hd Ht; reflexivity. Qed.

Lemma get_neighbors_toward (g : Grid.t) (x y nx ny d : Z) :
  Grid.in_bounds g x y = true ->
  In (nx, ny, d) (Grid.get_neighbors g x y) ->
  Grid.in_bounds g nx ny = true /\ In d directions /\
  exists od, Grid.toward x y d = (nx, ny, od).
Proof.
  intros Hb Hin. destruct (get_neighbors_in_bounds g x y nx ny d Hb Hin) as (H1 & H2 & H3).
  split; [exact H1|]. split; [exact H2|]. eexists. exact H3.
Qed.

(** Carving from [a] toward [b] and then marking [m], one of the two. *)
Lemma carve_then_mark (g : Grid.t) (a b m : Z * Z) (d od : Z) :
  wf g -> Grid.in_bounds g (fst a) (snd a) = true ->
  Grid.in_bounds g (fst b) (snd b) = true ->
  Grid.in_bounds g (fst m) (snd m) = true ->
  In d directions -> Grid.toward (fst a) (snd a) d = (fst b, snd b, od) ->
  exists g2,
    (let* g1 := Grid.carve_path g (fst a) (snd a) d in
     Grid.set_visited g1 (fst m) (snd m) true) = Ok g2 /\
    wf g2 /\ Grid.width g2 = Grid.width g /\ Grid.height g2 = Grid.height g /\
    forall p, Grid.in_bounds g (fst p) (snd p) = true ->
      cell_at g2 (fst p) (snd p) =
      let c := if coord_eqb a p then Z.land (cell_at g (fst p) (snd p)) (Z.lnot d)
               else if coord_eqb b p then Z.land (cell_at g (fst p) (snd p)) (Z.lnot od)
               else cell_at g (fst p) (snd p) in
      if coord_eqb m p then Z.lor c Grid.VISITED else c.
Proof.
  intros Hwf Ha Hb Hm Hd Ht.
  rewrite carve_path_carved, bind_Ok by assumption.
  destruct (carved_dims g (fst a) (snd a) d) as [Ew Eh].
  pose proof (carved_wf g (fst a) (snd a) d Hwf) as Hwf1.
  assert (Hbnd : forall x y, Grid.in_bounds (carved g (fst a) (snd a) d) x y =
                             Grid.in_bounds g x y).
  { intros x y. unfold Grid.in_bounds. rewrite Ew, Eh. reflexivity. }
  rewrite set_visited_mark by (rewrite ?Hbnd; assumption).
  eexists. split; [reflexivity|]. split; [apply mark_wf, Hwf1|].
  split; [exact Ew|]. split; [exact Eh|].
  intros p Hp.
  rewrite cell_at_write by (rewrite ?Hbnd; assumption).
  rewrite !(cell_at_carved_dir g (fst a) (snd a) d (fst b) (snd b) od) by assumption.
  unfold coord_eqb.
  destruct ((fst m =? fst p) && (snd m =? snd p)) eqn:Emp; cbv zeta.
  - apply andb_true_iff in Emp. destruct Emp as [E1 E2].
    apply Z.eqb_eq in E1, E2. rewrite <- E1, <- E2. reflexivity.
  - reflexivity.
Qed.

Lemma count_where_none (l : list (Z * Z)) : count_where (fun _ => false) l = O.
Proof. unfold count_where. induction l; simpl; auto. Qed.

Lemma initial_tree (w h : Z) :
  1 <= w -> 1 <= h ->
  tree_inv w h
    (write_cell (Grid.init w h) 0 0
       (Z.lor (cell_at (Grid.init w h) 0 0) Grid.VISITED))
    (fun _ => O) 1.
Proof.
  intros Hw Hh.
  set (g0 := Grid.init w h).
  assert (Hwf0 : wf g0) by (apply init_wf; lia).
  assert (H00 : Grid.in_bounds g0 0 0 = true) by (apply in_bounds_iff; simpl; lia).
  set (g1 := write_cell g0 0 0 _).
  assert (Hwf1 : wf g1) by (apply mark_wf, Hwf0).
  assert (Hcell : forall p, Grid.in_bounds g0 (fst p) (snd p) = true ->
                            cell_at g1 (fst p) (snd p) =
                            if coord_eqb (0, 0) p then 31 else 15).
  { intros p Hp. subst g1. rewrite cell_at_write by assumption.
    pose proof Hp as Hp'. apply in_bounds_iff in Hp'. simpl in Hp'.
    unfold coord_eqb. cbn [fst snd].
    destruct ((0 =? fst p) && (0 =? snd p)).
    - subst g0. rewrite cell_at_init by lia. reflexivity.
    - subst g0. rewrite cell_at_init by lia. reflexivity. }
  assert (Hvis : forall p, Grid.in_bounds g0 (fst p) (snd p) = true ->
                           visited g1 p = coord_eqb (0, 0) p).
  { intros p Hp. unfold visited. rewrite (Hcell p Hp).
    destruct (coord_eqb (0, 0) p); reflexivity. }
  assert (Hwall : forall x y d, Grid.in_bounds g0 x y = true ->
                                In d directions ->
                                has_bit (cell_at g1 x y) d = true).
  { intros x y d Hp Hd. pose proof (Hcell (x, y) Hp) as E. cbn [fst snd] in E.
    rewrite E. apply directions_cases in Hd.
    destruct (coord_eqb (0, 0) (x, y)); intuition; subst; reflexivity. }
  assert (Hnostep : forall p q, ~ step g1 p q).
  { intros p q (Hp & _ & d & od & Hd & _ & Hbit).
    rewrite (Hwall _ _ d Hp Hd) in Hbit. discriminate. }
  assert (Hscan : scanline g1 = scanline g0) by reflexivity.
  constructor.
  - exact Hwf1.
  - reflexivity.
  - reflexivity.
  - intros x y d nx ny od Hd Ht Hb Hn.
    rewrite (Hwall x y d Hb Hd).
    rewrite (Hwall nx ny od Hn (toward_opposite_direction _ _ _ _ _ _ Hd Ht)).
    reflexivity.
  - intros p Hp Hun. rewrite (Hvis p Hp) in Hun. rewrite (Hcell p Hp), Hun. reflexivity.
  - rewrite (Hvis (0, 0) H00). reflexivity.
  - rewrite <- (count_where_none (scanline g1)).
    apply (count_where_update _ _ _ (0, 0)).
    + apply NoDup_scanline.
    + apply in_scanline, H00.
    + reflexivity.
    + apply (Hvis (0, 0) H00).
    + intros [a b] Hp Hne. apply in_scanline in Hp. rewrite (Hvis (a, b) Hp).
      apply coord_eqb_neq. congruence.
  - unfold open_wall_pairs.
    rewrite (count_where_same (fun _ => false) (east_open g1)).
    rewrite (count_where_same (fun _ => false) (south_open g1)).
    + rewrite count_where_none. reflexivity.
    + intros [a b] Hp. apply in_scanline in Hp. unfold south_open.
      cbn [fst snd]. rewrite (Hwall a b Grid.SOUTH Hp) by (simpl; tauto). apply andb_false_r.
    + intros [a b] Hp. apply in_scanline in Hp. unfold east_open.
      cbn [fst snd]. rewrite (Hwall a b Grid.EAST Hp) by (simpl; tauto). apply andb_false_r.
  - intros p Hp Hv. rewrite (Hvis p Hp) in Hv. apply coord_eqb_eq in Hv. subst p.
    constructor.
  - intros; lia.
  - intros p q Hp Hq Hvp Hvq _. rewrite (Hvis p Hp) in Hvp. rewrite (Hvis q Hq) in Hvq.
    apply coord_eqb_eq in Hvp, Hvq. congruence.
  - intros p q1 q2 H1. destruct (Hnostep _ _ H1).
Qed.

Lemma coord_eqb_sym (p q : Z * Z) : coord_eqb p q = coord_eqb q p.
Proof. unfold coord_eqb. rewrite (Z.eqb_sym (fst p)), (Z.eqb_sym (snd p)). reflexivity. Qed.

Lemma get_neighbors_dims (g g' : Grid.t) (x y : Z) :
  Grid.width g' = Grid.width g -> Grid.height g' = Grid.height g ->
  Grid.get_neighbors g' x y = Grid.get_neighbors g x y.
Proof. intros Ew Eh. unfold Grid.get_neighbors. rewrite Ew, Eh. reflexivity. Qed.

Lemma in_bounds_dims (g g' : Grid.t) (x y : Z) :
  Grid.width g' = Grid.width g -> Grid.height g' = Grid.height g ->
  Grid.in_bounds g' x y = Grid.in_bounds g x y.
Proof. intros Ew Eh. unfold Grid.in_bounds. rewrite Ew, Eh. reflexivity. Qed.

(** When every carved cell has all its lattice neighbours carved, every
    cell is carved: the lattice is connected. *)
Lemma closed_all_visited (w h : Z) (g : Grid.t) (rank : Z * Z -> nat) (n : nat) :
  tree_inv w h g rank n ->
  (forall p q, Grid.in_bounds g (fst p) (snd p) = true -> visited g p = true ->
               lattice_neighbor g p q -> visited g q = true) ->
  forall p, Grid.in_bounds g (fst p) (snd p) = true -> visited g p = true.
Proof.
  intros I Hclosed.
  assert (H : forall k x y, Z.to_nat (x + y) = k ->
                            Grid.in_bounds g x y = true -> visited g (x, y) = true).
  { induction k as [|k IH]; intros x y Ek Hb; pose proof Hb as Hb';
      apply in_bounds_iff in Hb'.
    - assert (x = 0 /\ y = 0) as [-> ->] by lia. apply I.
    - destruct (Z.ltb_spec 0 x) as [Hx|Hx].
      + assert (Hprev : Grid.in_bounds g (x - 1) y = true) by (apply in_bounds_iff; lia).
        apply (Hclosed (x - 1, y) (x, y) Hprev); [apply IH; [lia | exact Hprev]|].
        exists Grid.EAST. unfold Grid.get_neighbors. cbn [fst snd].
        rewrite !in_app_iff. right; right; left.
        destruct (Z.ltb_spec (x - 1) (Grid.width g - 1)); [|lia].
        left. repeat f_equal. lia.
      + assert (Hprev : Grid.in_bounds g x (y - 1) = true) by (apply in_bounds_iff; lia).
        apply (Hclosed (x, y - 1) (x, y) Hprev); [apply IH; [lia | exact Hprev]|].
        exists Grid.SOUTH. unfold Grid.get_neighbors. cbn [fst snd].
        rewrite !in_app_iff. right; left.
        destruct (Z.ltb_spec (y - 1) (Grid.height g - 1)); [|lia].
        left. repeat f_equal. lia. }
  intros [x y] Hb. apply (H (Z.to_nat (x + y)) x y eq_refl Hb).
Qed.

Lemma tree_count_le (w h : Z) (g : Grid.t) (rank : Z * Z -> nat) (n : nat) :
  tree_inv w h g rank n -> (n <= Z.to_nat (w * h))%nat.
Proof.
  intros I. rewrite <- (ti_count _ _ _ _ _ I).
  pose proof (count_where_le (visited g) (scanline g)) as H.
  destruct (ti_wf _ _ _ _ _ I) as (Hw & Hh & _).
  rewrite scanline_length in H by assumption.
  rewrite (ti_width _ _ _ _ _ I), (ti_height _ _ _ _ _ I) in H. exact H.
Qed.

Lemma tree_count_lt (w h : Z) (g : Grid.t) (rank : Z * Z -> nat) (n : nat)
    (p : Z * Z) :
  tree_inv w h g rank n -> Grid.in_bounds g (fst p) (snd p) = true ->
  visited g p = false -> (n < Z.to_nat (w * h))%nat.
Proof.
  intros I Hp Hun. rewrite <- (ti_count _ _ _ _ _ I).
  assert (Hin : In p (scanline g)) by (destruct p; apply in_scanline, Hp).
  pose proof (count_where_lt (visited g) (scanline g) p Hin Hun) as H.
  destruct (ti_wf _ _ _ _ _ I) as (Hw & Hh & _).
  rewrite scanline_length in H by assumption.
  rewrite (ti_width _ _ _ _ _ I), (ti_height _ _ _ _ _ I) in H. exact H.
Qed.

Section BacktrackerProperties.

Variable Rng : Type.
Variable Random : Z -> Rng.
Variable randbelow : Rng -> Z -> Z * Rng.
Hypothesis randbelow_range :
  forall rng n, 0 < n -> 0 <= fst (randbelow rng n) < n.

#[local] Abbreviation backtracker_loop := (Generator.backtracker_loop Rng randbelow).

Lemma backtracker_loop_finishes (w h : Z) (fuel : nat) :
  forall (st : Generator.backtracker_state Rng) (rank : Z * Z -> nat) (n : nat),
    dfs_inv w h st rank n ->
    (2 * (Z.to_nat (w * h) - n) + length (Generator.bt_stack Rng st) < fuel)%nat ->
    exists st' rank' n',
      backtracker_loop fuel st = Ok st' /\ dfs_inv w h st' rank' n' /\
      Generator.bt_stack Rng st' = [].
Proof using randbelow_range.
  induction fuel as [|fuel IH]; intros st rank n Hinv Hfuel; [lia|].
  destruct st as [g stack rng steps]. cbn [Generator.bt_grid Generator.bt_stack] in *.
  pose proof (di_tree _ _ _ _ _ Hinv) as I. cbn [Generator.bt_grid] in I.
  pose proof (ti_wf _ _ _ _ _ I) as Hwf.
  destruct stack as [|[cx cy] below].
  { exists (Generator.mk_backtracker Rng g [] rng steps), rank, n.
    split; [reflexivity|]. split; [exact Hinv | reflexivity]. }
  cbn [Generator.backtracker_loop Generator.bt_stack Generator.bt_grid
       Generator.bt_rng Generator.bt_steps].
  destruct (di_stack _ _ _ _ _ Hinv (cx, cy) (or_introl eq_refl)) as [Hc Hcv].
  cbn [Generator.bt_grid fst snd] in Hc, Hcv.
  rewrite neighbors_where_filter, bind_Ok by assumption.
  destruct (List.filter _ (Grid.get_neighbors g cx cy)) as [|n0 rest] eqn:Efilt.
  - (* backtrack *)
    apply (IH _ rank n).
    + constructor; cbn [Generator.bt_grid Generator.bt_stack].
      * exact I.
      * apply Hinv.
      * intros p Hp. apply (di_stack _ _ _ _ _ Hinv p). right. exact Hp.
      * intros p q Hp Hv Hnot Hnb.
        destruct (coord_eqb p (cx, cy)) eqn:Epc.
        -- apply coord_eqb_eq in Epc. subst p. destruct Hnb as [d Hd].
           cbn [fst snd] in Hd.
           destruct (visited g q) eqn:Evq; [reflexivity|].
           assert (Hin : In (fst q, snd q, d)
                           (List.filter
                              (fun n => Bool.eqb (visited g (fst (fst n), snd (fst n))) false)
                              (Grid.get_neighbors g cx cy))).
           { apply filter_In. split; [exact Hd|]. cbn [fst snd].
             destruct q; cbn [fst snd]. rewrite Evq. reflexivity. }
           rewrite Efilt in Hin. destruct Hin.
        -- apply (di_closed _ _ _ _ _ Hinv p q Hp Hv); [|exact Hnb].
           cbn [Generator.bt_stack]. intros [E|Hin]; [|contradiction].
           apply coord_eqb_neq in Epc. congruence.
    + cbn [Generator.bt_stack length] in *. lia.
  - (* carve toward a fresh neighbour *)
    destruct (choice_in Rng randbelow randbelow_range rng (n0 :: rest))
      as ([[nx ny] d] & rng' & Ech & Hin); [discriminate|].
    rewrite Ech, bind_Ok. cbv beta iota.
    rewrite <- Efilt in Hin. apply filter_In in Hin. destruct Hin as [Hnb Hun].
    cbn [fst snd] in Hun. apply eqb_prop in Hun.
    destruct (get_neighbors_toward g cx cy nx ny d Hc Hnb) as (Hn & Hd & od & Ht).
    destruct (carve_then_mark g (cx, cy) (nx, ny) (nx, ny) d od Hwf Hc Hn Hn Hd Ht)
      as (g2 & Erun & Hwf2 & Ew & Eh & Hcell).
    cbn [fst snd] in Erun.
    rewrite carve_path_carved, bind_Ok in Erun by assumption.
    rewrite carve_path_carved, bind_Ok by assumption.
    rewrite Erun, bind_Ok.
    assert (J : joins w h g g2 rank n (nx, ny) (cx, cy) od d).
    { constructor; try assumption.
      - apply Hinv.
      - eapply toward_opposite_direction; eassumption.
      - eapply toward_back; eassumption.
      - split; [exact Hwf2|]. split; [exact Ew|]. split; [exact Eh|].
        intros p Hp. rewrite (Hcell p Hp). cbv zeta.
        rewrite (coord_eqb_sym (nx, ny) p), (coord_eqb_sym (cx, cy) p).
        destruct (coord_eqb p (nx, ny)) eqn:Epn; [|reflexivity].
        destruct (coord_eqb p (cx, cy)) eqn:Epc; [|reflexivity].
        apply coord_eqb_eq in Epn, Epc. subst p. inversion Epc; subst.
        unfold visited in Hun, Hcv. cbn [fst snd] in *. congruence. }
    apply (IH _ (fun p => if coord_eqb p (nx, ny) then n else rank p) (S n)).
    + constructor; cbn [Generator.bt_grid Generator.bt_stack].
      * apply (attach_tree_inv _ _ _ _ _ _ _ _ _ _ J).
      * rewrite (in_bounds_dims g g2) by assumption. apply Hinv.
      * intros p [<-|Hp].
        -- split; [rewrite (in_bounds_dims g g2) by assumption; exact Hn|].
           rewrite (attach_visited (nx, ny) J Hn), coord_eqb_refl. reflexivity.
        -- destruct (di_stack _ _ _ _ _ Hinv p Hp) as [Hpb Hpv]
             ; cbn [Generator.bt_grid] in Hpb, Hpv.
           split; [rewrite (in_bounds_dims g g2) by assumption; exact Hpb|].
           rewrite (attach_visited p J Hpb), Hpv. apply orb_true_r.
      * intros p q Hp Hv Hnot Hnbq.
        rewrite (in_bounds_dims g g2) in Hp by assumption.
        rewrite (attach_visited p J Hp) in Hv.
        assert (Hpu : coord_eqb p (nx, ny) = false).
        { apply coord_eqb_neq. intros ->. apply Hnot. left. reflexivity. }
        rewrite Hpu in Hv. cbn [orb] in Hv.
        unfold lattice_neighbor in Hnbq.
        rewrite (get_neighbors_dims g g2) in Hnbq by assumption.
        assert (Hq : Grid.in_bounds g (fst q) (snd q) = true).
        { destruct Hnbq as [dq Hdq].
          apply (get_neighbors_toward g _ _ _ _ _ Hp Hdq). }
        rewrite (attach_visited q J Hq).
        assert (Hvq : visited g q = true).
        { apply (di_closed _ _ _ _ _ Hinv p q Hp Hv); [|exact Hnbq].
          cbn [Generator.bt_stack]. intros Hin. apply Hnot. right. exact Hin. }
        rewrite Hvq. apply orb_true_r.
    + pose proof (tree_count_lt _ _ _ _ _ (nx, ny) I Hn Hun).
      cbn [Generator.bt_stack length] in *. lia.
Qed.


End BacktrackerProperties.

Lemma toward_in_neighbors (g : Grid.t) (x y d nx ny od : Z) :
  Grid.in_bounds g x y = true -> In d directions ->
  Grid.toward x y d = (nx, ny, od) -> Grid.in_bounds g nx ny = true ->
  In (nx, ny, d) (Grid.get_neighbors g x y).
Proof.
  intros Hb Hd Ht Hn. apply in_bounds_iff in Hb, Hn.
  unfold Grid.get_neighbors. rewrite !in_app_iff.
  four_dirs Hd Ht.
  - left. destruct (Z.ltb_spec 0 y); [left; reflexivity | lia].
  - right; right; left.
    destruct (Z.ltb_spec x (Grid.width g - 1)); [left; reflexivity | lia].
  - right; left.
    destruct (Z.ltb_spec y (Grid.height g - 1)); [left; reflexivity | lia].
  - right; right; right. destruct (Z.ltb_spec 0 x); [left; reflexivity | lia].
Qed.

Lemma lattice_neighbor_sym (g : Grid.t) (p q : Z * Z) :
  Grid.in_bounds g (fst p) (snd p) = true ->
  lattice_neighbor g p q ->
  Grid.in_bounds g (fst q) (snd q) = true /\ lattice_neighbor g q p.
Proof.
  intros Hp [d Hd].
  destruct (get_neighbors_toward g _ _ _ _ _ Hp Hd) as (Hq & Hdir & od & Ht).
  split; [exact Hq|]. exists od.
  apply (toward_in_neighbors g _ _ od _ _ d); try assumption.
  - eapply toward_opposite_direction; eassumption.
  - eapply toward_back; eassumption.
Qed.

Lemma get_neighbors_length (g : Grid.t) (x y : Z) :
  (length (Grid.get_neighbors g x y) <= 4)%nat.
Proof.
  unfold Grid.get_neighbors. rewrite !length_app.
  destruct (0 <? y), (y <? Grid.height g - 1), (x <? Grid.width g - 1), (0 <? x);
    simpl; lia.
Qed.

(** [frontier_list[idx] = frontier_list[-1]; frontier_list.pop()] removes
    the element at [idx] from a list without repetition. *)
Lemma swap_remove (l : list (Z * Z)) (n : nat) (c final : Z * Z) :
  List.NoDup l -> l !! n = Some c -> last l = Some final ->
  List.NoDup (removelast (<[n := final]> l)) /\
  (forall q, In q (removelast (<[n := final]> l)) <-> In q l /\ q <> c) /\
  S (length (removelast (<[n := final]> l))) = length l.
Proof.
  intros Hnd Hn Hlast. apply last_Some in Hlast. destruct Hlast as [l0 ->].
  pose proof (lookup_lt_Some _ _ _ Hn) as Hlt. rewrite length_app in Hlt.
  cbn [length] in Hlt.
  apply NoDup_ListNoDup in Hnd. apply NoDup_app in Hnd.
  destruct Hnd as (Hnd0 & Hdisj & _).
  assert (Hfin : ~ In final l0).
  { intros Hin. apply list_elem_of_In in Hin. apply (Hdisj final Hin).
    apply list_elem_of_In. left. reflexivity. }
  destruct (Nat.eq_dec n (length l0)) as [->|Hne].
  - rewrite list_lookup_middle in Hn by reflexivity. inversion Hn; subst c.
    rewrite list_insert_id by (apply list_lookup_middle; reflexivity).
    rewrite removelast_last. split; [apply NoDup_ListNoDup, Hnd0|]. split.
    + intros q. rewrite in_app_iff. cbn [In]. split.
      * intros Hq. split; [left; exact Hq|]. intros ->. contradiction.
      * intros [[Hq|[<-|[]]] Hneq]; [exact Hq | congruence].
    + rewrite length_app. cbn [length]. lia.
  - assert (Hn0 : (n < length l0)%nat) by lia.
    rewrite lookup_app_l in Hn by exact Hn0.
    rewrite insert_app_l by exact Hn0. rewrite removelast_last.
    pose proof (take_drop_middle l0 n c Hn) as Hsplit.
    assert (Hins : <[n := final]> l0 = take n l0 ++ final :: drop (S n) l0).
    { apply insert_take_drop. exact Hn0. }
    rewrite Hins. clear Hins Hn Hn0 Hne Hlt Hdisj.
    set (a := take n l0) in *. set (b := drop (S n) l0) in *.
    clearbody a b. subst l0.
    apply NoDup_app in Hnd0. destruct Hnd0 as (Ha & Hab & Hb).
    apply NoDup_cons in Hb. destruct Hb as [Hcb Hb].
    rewrite in_app_iff in Hfin. cbn [In] in Hfin.
    split; [|split].
    + apply NoDup_ListNoDup, NoDup_app. split; [exact Ha|]. split.
      * intros q Hq Hq'. apply elem_of_cons in Hq'. destruct Hq' as [->|Hq'].
        -- apply Hfin. left. apply list_elem_of_In, Hq.
        -- apply (Hab q Hq). right. exact Hq'.
      * apply NoDup_cons. split; [|exact Hb].
        intros Hq. apply Hfin. right; right. apply list_elem_of_In, Hq.
    + intros q. rewrite !in_app_iff. cbn [In]. rewrite ?in_app_iff.
      cbn [In]. split.
      * intros [Hq|[<-|Hq]].
        -- split; [auto|]. intros ->. apply (Hab c); [apply list_elem_of_In, Hq|].
           left.
        -- split; [auto|]. intros ->. tauto.
        -- split; [auto|]. intros ->. apply Hcb, list_elem_of_In, Hq.
      * intros [[[Hq|[<-|Hq]]|[<-|[]]] Hneq]; auto; congruence.
    + rewrite !length_app. cbn [length]. rewrite ?length_app. cbn [length]. lia.
Qed.

Lemma prim_extend_fold (g : Grid.t) (nbrs : list (Z * Z * Z)) :
  wf g ->
  forall (fset : gset (Z * Z)) (flist : list (Z * Z)),
    (forall n, In n nbrs -> Grid.in_bounds g (fst (fst n)) (snd (fst n)) = true) ->
    List.NoDup flist -> (forall q, q ∈ fset <-> In q flist) ->
    exists fset' flist',
      foldM (Generator.prim_extend g) nbrs (fset, flist) = Ok (fset', flist') /\
      List.NoDup flist' /\ (forall q, q ∈ fset' <-> In q flist') /\
      (forall q, In q flist' <->
                 In q flist \/ (visited g q = false /\
                                exists d, In (fst q, snd q, d) nbrs)) /\
      (length flist' <= length flist + length nbrs)%nat.
Proof.
  intros Hwf. induction nbrs as [|[[nx ny] d] nbrs IH]; intros fset flist Hin Hnd Hset.
  - exists fset, flist. split; [reflexivity|]. split; [exact Hnd|].
    split; [exact Hset|]. split; [|simpl; lia].
    intros q. split; [auto|]. intros [H|(_ & d & [])]. exact H.
  - cbn [foldM]. unfold Generator.prim_extend at 1.
    assert (Hn : Grid.in_bounds g nx ny = true) by (apply (Hin (nx, ny, d)); left; reflexivity).
    rewrite is_visited_cell, bind_Ok by assumption.
    change (has_bit (cell_at g nx ny) Grid.VISITED) with (visited g (nx, ny)).
    assert (Hrest : forall n, In n nbrs ->
                      Grid.in_bounds g (fst (fst n)) (snd (fst n)) = true).
    { intros n Hn'. apply Hin. right. exact Hn'. }
    destruct (visited g (nx, ny)) eqn:Ev.
    + rewrite bind_Ok.
      destruct (IH fset flist Hrest Hnd Hset) as (s' & l' & E & Hnd' & Hset' & Hmem & Hlen).
      exists s', l'. split; [exact E|]. split; [exact Hnd'|]. split; [exact Hset'|].
      split; [|cbn [length]; lia].
      intros q. rewrite Hmem. split.
      * intros [H|(Hq & dq & Hdq)]; [left; exact H|].
        right. split; [exact Hq|]. exists dq. right. exact Hdq.
      * intros [H|(Hq & dq & [E'|Hdq])]; [left; exact H| |].
        -- inversion E'; subst. destruct q; cbn [fst snd] in *. congruence.
        -- right. split; [exact Hq|]. exists dq. exact Hdq.
    + cbn [fst snd]. destruct (bool_decide ((nx, ny) ∈ fset)) eqn:Eb.
      * rewrite bind_Ok. apply bool_decide_eq_true in Eb.
        destruct (IH fset flist Hrest Hnd Hset) as (s' & l' & E & Hnd' & Hset' & Hmem & Hlen).
        exists s', l'. split; [exact E|]. split; [exact Hnd'|]. split; [exact Hset'|].
        split; [|cbn [length]; lia].
        intros q. rewrite Hmem. split.
        -- intros [H|(Hq & dq & Hdq)]; [left; exact H|].
           right. split; [exact Hq|]. exists dq. right. exact Hdq.
        -- intros [H|(Hq & dq & [E'|Hdq])]; [left; exact H| |].
           ++ inversion E'; subst. left. apply Hset. destruct q; exact Eb.
           ++ right. split; [exact Hq|]. exists dq. exact Hdq.
      * rewrite bind_Ok. apply bool_decide_eq_false in Eb.
        assert (Hnotin : ~ In (nx, ny) flist) by (rewrite <- Hset; exact Eb).
        destruct (IH ({[ (nx, ny) ]} ∪ fset) (flist ++ [(nx, ny)]) Hrest)
          as (s' & l' & E & Hnd' & Hset' & Hmem & Hlen).
        -- apply NoDup_ListNoDup, NoDup_app. split; [apply NoDup_ListNoDup, Hnd|].
           split; [|apply NoDup_singleton].
           intros q Hq Hq'. apply list_elem_of_singleton in Hq'. subst q.
           apply Hnotin, list_elem_of_In, Hq.
        -- intros q. rewrite elem_of_union, elem_of_singleton, in_app_iff, Hset.
           cbn [In]. intuition congruence.
        -- exists s', l'. split; [exact E|]. split; [exact Hnd'|]. split; [exact Hset'|].
           split; [|rewrite length_app in Hlen; cbn [length] in *; lia].
           intros q. rewrite Hmem, in_app_iff. cbn [In]. split.
           ++ intros [[H|[<-|[]]]|(Hq & dq & Hdq)].
              ** left. exact H.
              ** right. split; [exact Ev|]. exists d. left. reflexivity.
              ** right. split; [exact Hq|]. exists dq. right. exact Hdq.
           ++ intros [H|(Hq & dq & [E'|Hdq])].
              ** left. left. exact H.
              ** inversion E'; subst. left. right. left. destruct q; reflexivity.
              ** right. split; [exact Hq|]. exists dq. exact Hdq.
Qed.

Lemma initial_visited (w h : Z) :
  1 <= w -> 1 <= h ->
  forall p,
    Grid.in_bounds (Grid.init w h) (fst p) (snd p) = true ->
    visited (write_cell (Grid.init w h) 0 0
               (Z.lor (cell_at (Grid.init w h) 0 0) Grid.VISITED)) p =
    coord_eqb (0, 0) p.
Proof.
  intros Hw Hh p Hp.
  assert (Hwf0 : wf (Grid.init w h)) by (apply init_wf; lia).
  assert (H00 : Grid.in_bounds (Grid.init w h) 0 0 = true)
    by (apply in_bounds_iff; simpl; lia).
  unfold visited. rewrite cell_at_write by assumption.
  pose proof Hp as Hp'. apply in_bounds_iff in Hp'. simpl in Hp'.
  unfold coord_eqb. cbn [fst snd].
  destruct ((0 =? fst p) && (0 =? snd p)); rewrite cell_at_init by lia; reflexivity.
Qed.

Section PrimProperties.

Variable Rng : Type.
Variable randbelow : Rng -> Z -> Z * Rng.
Hypothesis randbelow_range :
  forall rng n, 0 < n -> 0 <= fst (randbelow rng n) < n.

#[local] Abbreviation prim_loop := (Generator.prim_loop Rng randbelow).

Lemma prim_loop_finishes (w h : Z) (fuel : nat) :
  forall (st : Generator.prim_state Rng) (rank : Z * Z -> nat) (n : nat),
    prim_inv w h st rank n ->
    (4 * (Z.to_nat (w * h) - n) + length (Generator.pr_list Rng st) < fuel)%nat ->
    exists st' rank' n',
      prim_loop fuel st = Ok st' /\ prim_inv w h st' rank' n' /\
      Generator.pr_list Rng st' = [].
Proof using randbelow_range.
  induction fuel as [|fuel IH]; intros st rank n Hinv Hfuel; [lia|].
  destruct st as [g fset flist rng steps].
  cbn [Generator.pr_grid Generator.pr_list Generator.pr_set] in *.
  pose proof (pi_tree _ _ _ _ _ Hinv) as I. cbn [Generator.pr_grid] in I.
  pose proof (ti_wf _ _ _ _ _ I) as Hwf.
  pose proof (pi_nodup _ _ _ _ _ Hinv) as Hnd. cbn [Generator.pr_list] in Hnd.
  pose proof (pi_set _ _ _ _ _ Hinv) as Hset.
  cbn [Generator.pr_list Generator.pr_set] in Hset.
  destruct flist as [|f0 frest].
  { exists (Generator.mk_prim Rng g fset [] rng steps), rank, n.
    split; [reflexivity|]. split; [exact Hinv | reflexivity]. }
  cbn [Generator.prim_loop Generator.pr_list Generator.pr_grid Generator.pr_set
       Generator.pr_rng Generator.pr_steps].
  remember (f0 :: frest) as flist eqn:Eflist.
  assert (Hlenpos : 0 < Z.of_nat (length flist)) by (subst flist; cbn [length]; lia).
  unfold randrange. destruct (Z.ltb_spec 0 (Z.of_nat (length flist))); [|lia].
  rewrite bind_Ok.
  pose proof (randbelow_range rng _ Hlenpos) as Hidx.
  destruct (randbelow rng (Z.of_nat (length flist))) as [idx rng1]. cbn [fst] in Hidx.
  rewrite py_index_inrange, bind_Ok by exact Hidx.
  destruct (lookup_lt_is_Some_2 flist (Z.to_nat idx) ltac:(lia)) as [[cx cy] Hc].
  rewrite Hc.
  assert (Hlast : exists final, last flist = Some final).
  { destruct (last flist) eqn:E; [eauto|]. apply last_None in E. congruence. }
  destruct Hlast as [final Hlast]. rewrite Hlast.
  destruct (swap_remove flist _ _ _ Hnd Hc Hlast) as (Hnd1 & Hmem1 & Hlen1).
  set (flist1 := removelast (<[Z.to_nat idx := final]> flist)) in *.
  assert (Hcin : In (cx, cy) flist).
  { apply list_elem_of_In. eapply list_elem_of_lookup_2, Hc. }
  rewrite bool_decide_eq_true_2 by (apply Hset, Hcin). cbn [negb].
  destruct (pi_front _ _ _ _ _ Hinv (cx, cy) Hcin) as (Hcb & pv & Hpvb & Hpvv & Hpvn).
  cbn [Generator.pr_grid fst snd] in Hcb, Hpvb, Hpvv, Hpvn.
  rewrite is_visited_cell, bind_Ok by assumption.
  change (has_bit (cell_at g cx cy) Grid.VISITED) with (visited g (cx, cy)).
  assert (Hset1 : forall q, q ∈ fset ∖ {[ (cx, cy) ]} <-> In q flist1).
  { intros q. rewrite elem_of_difference, elem_of_singleton, Hmem1, Hset. tauto. }
  assert (Hskip : visited g (cx, cy) = true ->
            prim_inv w h (Generator.mk_prim Rng g (fset ∖ {[ (cx, cy) ]}) flist1 rng1 steps)
              rank n).
  { intros Hv. constructor;
      cbn [Generator.pr_grid Generator.pr_list Generator.pr_set].
    - exact I.
    - apply Hinv.
    - exact Hnd1.
    - exact Hset1.
    - intros q Hq. apply (pi_front _ _ _ _ _ Hinv q). apply Hmem1, Hq.
    - intros p q Hp Hvp Hnb.
      destruct (pi_closed _ _ _ _ _ Hinv p q Hp Hvp Hnb) as [Hvq|Hq]; [left; exact Hvq|].
      cbn [Generator.pr_list] in Hq.
      destruct (coord_eqb q (cx, cy)) eqn:E.
      + apply coord_eqb_eq in E. subst q. left. exact Hv.
      + right. apply Hmem1. split; [exact Hq|]. apply coord_eqb_neq, E. }
  destruct (visited g (cx, cy)) eqn:Ev.
  - apply (IH _ rank n (Hskip eq_refl)).
    cbn [Generator.pr_list]. lia.
  - rewrite neighbors_where_filter, bind_Ok by assumption.
    destruct (List.filter _ (Grid.get_neighbors g cx cy)) as [|n0 rest] eqn:Efilt.
    { exfalso. destruct Hpvn as [dv Hdv]. cbn [fst snd] in Hdv.
      assert (Hin : In (fst pv, snd pv, dv)
                      (List.filter
                         (fun n => Bool.eqb (visited g (fst (fst n), snd (fst n))) true)
                         (Grid.get_neighbors g cx cy))).
      { apply filter_In. split; [exact Hdv|]. cbn [fst snd].
        destruct pv; cbn [fst snd]. rewrite Hpvv. reflexivity. }
      rewrite Efilt in Hin. destruct Hin. }
    destruct (choice_in Rng randbelow randbelow_range rng1 (n0 :: rest))
      as ([[nx ny] d] & rng' & Ech & Hin); [discriminate|].
    rewrite Ech, bind_Ok. cbv beta iota.
    rewrite <- Efilt in Hin. apply filter_In in Hin. destruct Hin as [Hnb Hvn].
    cbn [fst snd] in Hvn. apply eqb_prop in Hvn.
    destruct (get_neighbors_toward g cx cy nx ny d Hcb Hnb) as (Hn & Hd & od & Ht).
    destruct (carve_then_mark g (cx, cy) (nx, ny) (cx, cy) d od Hwf Hcb Hn Hcb Hd Ht)
      as (g2 & Erun & Hwf2 & Ew & Eh & Hcell).
    cbn [fst snd] in Erun.
    rewrite carve_path_carved, bind_Ok in Erun by assumption.
    rewrite carve_path_carved, bind_Ok by assumption.
    rewrite Erun, bind_Ok.
    assert (J : joins w h g g2 rank n (cx, cy) (nx, ny) d od).
    { constructor; try assumption.
      - apply Hinv.
      - split; [exact Hwf2|]. split; [exact Ew|]. split; [exact Eh|].
        intros p Hp. rewrite (Hcell p Hp). cbv zeta.
        rewrite (coord_eqb_sym (nx, ny) p), (coord_eqb_sym (cx, cy) p).
        destruct (coord_eqb p (cx, cy)) eqn:Epc; reflexivity. }
    destruct (prim_extend_fold g2 (Grid.get_neighbors g2 cx cy) Hwf2
                (fset ∖ {[ (cx, cy) ]}) flist1)
      as (fset2 & flist2 & Efold & Hnd2 & Hset2 & Hmem2 & Hlen2);
      [|exact Hnd1|exact Hset1|].
    { intros [[ax ay] ad] Ha. cbn [fst snd].
      apply (get_neighbors_toward g2 cx cy ax ay ad); [|exact Ha].
      rewrite (in_bounds_dims g g2) by assumption. exact Hcb. }
    rewrite Efold, bind_Ok. cbv beta iota.
    apply (IH _ (fun p => if coord_eqb p (cx, cy) then n else rank p) (S n)).
    + constructor; cbn [Generator.pr_grid Generator.pr_list Generator.pr_set].
      * apply (attach_tree_inv _ _ _ _ _ _ _ _ _ _ J).
      * rewrite (in_bounds_dims g g2) by assumption. apply Hinv.
      * exact Hnd2.
      * exact Hset2.
      * intros q Hq. apply Hmem2 in Hq. destruct Hq as [Hq|(Hqv & dq & Hdq)].
        -- apply Hmem1 in Hq. destruct Hq as [Hq _].
           destruct (pi_front _ _ _ _ _ Hinv q Hq) as (Hqb & p & Hpb & Hpv & Hpn).
           cbn [Generator.pr_grid] in Hqb, Hpb, Hpv, Hpn.
           split; [rewrite (in_bounds_dims g g2) by assumption; exact Hqb|].
           exists p. split; [rewrite (in_bounds_dims g g2) by assumption; exact Hpb|].
           split; [rewrite (attach_visited p J Hpb), Hpv; apply orb_true_r|].
           unfold lattice_neighbor. rewrite (get_neighbors_dims g g2) by assumption.
           exact Hpn.
        -- assert (Hcb2 : Grid.in_bounds g2 cx cy = true)
             by (rewrite (in_bounds_dims g g2) by assumption; exact Hcb).
           destruct (lattice_neighbor_sym g2 (cx, cy) q Hcb2 (ex_intro _ dq Hdq))
             as [Hqb Hsym].
           split; [exact Hqb|]. exists (cx, cy). split; [exact Hcb2|].
           split; [|exact Hsym].
           rewrite (attach_visited (cx, cy) J Hcb), coord_eqb_refl. reflexivity.
      * intros p q Hp Hvp Hnbq.
        rewrite (in_bounds_dims g g2) in Hp by assumption.
        destruct (lattice_neighbor_sym g2 p q) as [Hqb _];
          [rewrite (in_bounds_dims g g2) by assumption; exact Hp | exact Hnbq |].
        destruct (visited g2 q) eqn:Evq; [left; reflexivity|]. right.
        apply Hmem2.
        rewrite (attach_visited p J Hp) in Hvp.
        destruct (coord_eqb p (cx, cy)) eqn:Epc.
        -- apply coord_eqb_eq in Epc. subst p. right. split; [exact Evq|].
           exact Hnbq.
        -- cbn [orb] in Hvp. left. apply Hmem1.
           unfold lattice_neighbor in Hnbq.
           rewrite (get_neighbors_dims g g2) in Hnbq by assumption.
           rewrite (in_bounds_dims g g2) in Hqb by assumption.
           rewrite (attach_visited q J Hqb) in Evq. apply orb_false_iff in Evq.
           destruct Evq as [Eqc Evq].
           destruct (pi_closed _ _ _ _ _ Hinv p q Hp Hvp Hnbq) as [Hvq|Hq].
           ++ cbn [Generator.pr_grid] in Hvq. congruence.
           ++ split; [exact Hq|]. apply coord_eqb_neq, Eqc.
    + pose proof (tree_count_lt _ _ _ _ _ (cx, cy) I Hcb Ev).
      pose proof (get_neighbors_length g2 cx cy).
      cbn [Generator.pr_list]. lia.
Qed.

Variable Random : Z -> Rng.

(** [list(frontier_set)] enumerates the set, each element once. *)
Variable list_of_set : gset (Z * Z) -> list (Z * Z).
Hypothesis list_of_set_spec :
  forall s, List.NoDup (list_of_set s) /\ forall q, In q (list_of_set s) <-> q ∈ s.

Lemma elem_of_frontier_start (nbrs : list (Z * Z * Z)) (s : gset (Z * Z)) (q : Z * Z) :
  q ∈ foldl (fun (s : gset (Z * Z)) (n : Z * Z * Z) =>
               {[ (fst (fst n), snd (fst n)) ]} ∪ s) s nbrs <->
  q ∈ s \/ exists d, In (fst q, snd q, d) nbrs.
Proof.
  revert s. induction nbrs as [|[[nx ny] d] nbrs IH]; intros s; cbn [foldl].
  - split; [auto|]. intros [H|[d []]]. exact H.
  - rewrite IH, elem_of_union, elem_of_singleton. cbn [fst snd In]. split.
    + intros [[->|H]|[dq Hq]]; [right; exists d; left; reflexivity | auto |].
      right. exists dq. right. exact Hq.
    + intros [H|[dq [E|Hq]]]; [auto | |].
      * inversion E; subst. left; left. destruct q; reflexivity.
      * right. exists dq. exact Hq.
Qed.


End PrimProperties.


Lemma elements_enumerates (s : gset (Z * Z)) :
  List.NoDup (elements s) /\ forall q, In q (elements s) <-> q ∈ s.
Proof.
  split; [apply NoDup_ListNoDup, NoDup_elements|].
  intros q. rewrite <- list_elem_of_In. apply elem_of_elements.
Qed.


(** On the 2 by 1 grid the loop of the organic generator is not entered:
    whatever its kernels would do and whatever the step budget, the grid
    comes back with the middle cell (1,0) carved and nothing else. *)
Lemma organic_loop_not_entered
    (walk_step hunt_and_respawn : Z -> TaichiOrganicGenerator.fields
                                  -> TaichiOrganicGenerator.fields)
    (auto_complete_step : TaichiOrganicGenerator.fields
                          -> TaichiOrganicGenerator.fields)
    (fuel : nat) :
  TaichiOrganicGenerator.TaichiOrganicAdapter_run walk_step hunt_and_respawn
    auto_complete_step fuel (Grid.init 2 1) = Ok (Grid.mk 2 1 [15; 31]).
Proof. destruct fuel; vm_compute; reflexivity. Qed.


(** ** Shortest paths *)

Lemma walk_snoc (g : Grid.t) (s p q : Z * Z) (l : list (Z * Z)) :
  walk g s p l -> step g p q -> walk g s q (l ++ [q]).
Proof.
  intros Hw Hs. induction Hw as [p Hp | p p' e l Hpp' Hw IH].
  - cbn. apply walk_cons with q; [exact Hs|]. apply walk_one. apply Hs.
  - cbn. apply walk_cons with p'; [exact Hpp'|]. apply IH, Hs.
Qed.

Lemma walk_length (g : Grid.t) (s e : Z * Z) (l : list (Z * Z)) :
  walk g s e l -> (1 <= length l)%nat.
Proof. intros Hw. destruct Hw; cbn; lia. Qed.

Lemma walk_start_in_bounds (g : Grid.t) (s e : Z * Z) (l : list (Z * Z)) :
  walk g s e l -> Grid.in_bounds g (fst s) (snd s) = true.
Proof. intros Hw. destruct Hw as [p Hp | p q e l Hs _]; [exact Hp | apply Hs]. Qed.

Lemma or_cell_mark (g : Grid.t) (x y mask : Z) :
  wf g -> Grid.in_bounds g x y = true -> is_byte mask = true ->
  Solver.or_cell g (y * Grid.width g + x) mask =
  Ok (write_cell g x y (Z.lor (cell_at g x y) mask)).
Proof.
  intros Hwf Hb Hm. unfold Solver.or_cell.
  rewrite getitem_cell, bind_Ok by assumption.
  rewrite setitem_cell, bind_Ok; try assumption; [reflexivity|].
  apply byte_lor; [apply cell_at_byte; assumption | exact Hm].
Qed.

Lemma same_walls_refl (g : Grid.t) : wf g -> same_walls g g.
Proof. intros Hwf. unfold same_walls. auto. Qed.

Lemma same_walls_mark (g0 g : Grid.t) (x y mask : Z) :
  same_walls g0 g -> Grid.in_bounds g0 x y = true -> is_byte mask = true ->
  (forall d, In d directions -> Z.land mask d = 0) ->
  same_walls g0 (write_cell g x y (Z.lor (cell_at g x y) mask)).
Proof.
  intros (Hwf & Hw & Hh & Hsame) Hb Hm Hd.
  assert (Hb' : Grid.in_bounds g x y = true)
    by (rewrite (in_bounds_dims g0 g) by assumption; exact Hb).
  split; [|split; [|split]].
  - apply write_cell_wf; [assumption|].
    apply byte_lor; [apply cell_at_byte; assumption | exact Hm].
  - exact Hw.
  - exact Hh.
  - intros a b d Hab Hdir.
    rewrite cell_at_write; try assumption.
    2: rewrite (in_bounds_dims g0 g) by assumption; exact Hab.
    destruct ((x =? a) && (y =? b)) eqn:E.
    + apply andb_true_iff in E. destruct E as [Ea Eb].
      apply Z.eqb_eq in Ea, Eb. subst a b.
      rewrite has_bit_set_other by (apply Hd; exact Hdir).
      apply Hsame; assumption.
    + apply Hsame; assumption.
Qed.

Lemma seen_mark (g : Grid.t) (x y : Z) (p : Z * Z) :
  wf g -> Grid.in_bounds g x y = true ->
  Grid.in_bounds g (fst p) (snd p) = true ->
  seen (write_cell g x y (Z.lor (cell_at g x y) Grid.SOLVER_VISITED)) p =
  if coord_eqb (x, y) p then true else seen g p.
Proof.
  intros Hwf Hb Hp. unfold seen. rewrite cell_at_write by assumption.
  unfold coord_eqb. cbn [fst snd].
  destruct ((x =? fst p) && (y =? snd p)) eqn:E; [|reflexivity].
  apply andb_true_iff in E. destruct E as [Ea Eb].
  apply Z.eqb_eq in Ea, Eb. subst x y.
  apply has_bit_set_same. discriminate.
Qed.

Lemma scratch_mask_walls (mask : Z) :
  mask = Grid.SOLVER_VISITED \/ mask = Grid.PATH ->
  is_byte mask = true /\ forall d, In d directions -> Z.land mask d = 0.
Proof.
  intros [-> | ->]; (split; [reflexivity|]);
    intros d Hd; apply directions_cases in Hd;
    destruct Hd as [ -> | [ -> | [ -> | -> ] ] ]; reflexivity.
Qed.

Lemma toward_deltas (x y d nx ny od : Z) :
  In d directions -> Grid.toward x y d = (nx, ny, od) ->
  d <> 0 /\ Grid.DX d = Ok (nx - x) /\ Grid.DY d = Ok (ny - y).
Proof.
  intros Hd Ht.
  destruct (toward_cases _ _ _ _ _ _ Hd Ht)
    as [ (-> & -> & -> & ->) | [ (-> & -> & -> & ->) | [ (-> & -> & -> & ->) | (-> & -> & -> & ->) ] ] ];
    (split; [discriminate|]); split; cbn; f_equal; lia.
Qed.

Lemma flat_in_range (g0 : Grid.t) (p : Z * Z) :
  Grid.in_bounds g0 (fst p) (snd p) = true ->
  0 <= flat g0 p < Grid.width g0 * Grid.height g0.
Proof.
  intros Hb. apply in_bounds_iff in Hb. unfold flat.
  apply flat_index_range; apply Hb.
Qed.

Lemma flat_inj (g0 : Grid.t) (p q : Z * Z) :
  Grid.in_bounds g0 (fst p) (snd p) = true ->
  Grid.in_bounds g0 (fst q) (snd q) = true ->
  flat g0 p = flat g0 q -> p = q.
Proof.
  intros Hp Hq E. apply in_bounds_iff in Hp, Hq. unfold flat in E.
  destruct (flat_index_inj (Grid.width g0) (fst p) (snd p) (fst q) (snd q))
    as [E1 E2]; try lia.
  destruct p, q; cbn in *; congruence.
Qed.

Lemma follow_parents_walk (g0 : Grid.t) (start : Z * Z) (parents : list Z)
    (reached : Z * Z -> Prop) (cost : Z * Z -> Z) :
  Grid.in_bounds g0 (fst start) (snd start) = true ->
  length parents = Z.to_nat (Grid.width g0 * Grid.height g0) ->
  parent_links g0 start parents reached cost ->
  forall (fuel : nat) (g : Grid.t) (curr : Z * Z) (acc : list (Z * Z)),
    same_walls g0 g ->
    Grid.in_bounds g0 (fst curr) (snd curr) = true ->
    reached curr -> 0 <= cost curr <= Z.of_nat fuel ->
    exists g' path,
      Solver.follow_parents fuel g parents start curr acc = Ok (g', acc ++ path) /\
      same_walls g0 g' /\
      walk g0 start curr (rev (path ++ [start])) /\
      Z.of_nat (length path) <= cost curr.
Proof.
  intros Hstart Hlen Hlinks fuel.
  induction fuel as [|k IH]; intros g curr acc Hsame Hb Hr Hcost.
  - destruct (coord_eqb curr start) eqn:E.
    + apply coord_eqb_eq in E. subst curr. exists g, [].
      cbn [Solver.follow_parents]. rewrite coord_eqb_refl, app_nil_r.
      split; [reflexivity|]. split; [assumption|].
      split; [apply walk_one, Hstart | cbn [length]; lia].
    + apply coord_eqb_neq in E.
      destruct (Hlinks curr Hb Hr E) as (dir & od & q & _ & _ & _ & _ & _ & H0 & H1).
      lia.
  - cbn [Solver.follow_parents].
    destruct (coord_eqb curr start) eqn:E.
    + apply coord_eqb_eq in E. subst curr. exists g, [].
      rewrite app_nil_r.
      split; [reflexivity|]. split; [assumption|].
      split; [apply walk_one, Hstart | cbn [length]; lia].
    + apply coord_eqb_neq in E.
      destruct (Hlinks curr Hb Hr E)
        as (dir & od & q & Hdir & Hlook & Ht & Hstep & Hrq & H0 & H1).
      destruct Hsame as (Hwf & Hw & Hh & Hwalls).
      assert (Hbg : Grid.in_bounds g (fst curr) (snd curr) = true)
        by (rewrite (in_bounds_dims g0 g) by assumption; exact Hb).
      unfold Grid.get_index. rewrite Hbg, bind_Ok.
      rewrite or_cell_mark, bind_Ok by (try assumption; reflexivity).
      rewrite Hw. fold (flat g0 curr).
      rewrite getitem_inrange, bind_Ok.
      2: { rewrite Hlen, Z2Nat.id; [apply flat_in_range, Hb|].
           pose proof (flat_in_range g0 curr Hb). lia. }
      rewrite Hlook.
      destruct (toward_deltas _ _ _ _ _ _ Hdir Ht) as (Hnz & HDX & HDY).
      apply Z.eqb_neq in Hnz. rewrite Hnz, HDX, HDY, !bind_Ok.
      replace (fst curr + (fst q - fst curr)) with (fst q) by lia.
      replace (snd curr + (snd q - snd curr)) with (snd q) by lia.
      rewrite <- surjective_pairing.
      destruct (IH (write_cell g (fst curr) (snd curr)
                      (Z.lor (cell_at g (fst curr) (snd curr)) Grid.PATH))
                   q (acc ++ [curr]))
        as (g' & path & Erun & Hsame' & Hwalk & Hlenp).
      * destruct (scratch_mask_walls Grid.PATH) as [Hm Hd]; [right; reflexivity|].
        apply same_walls_mark; try assumption. unfold same_walls. auto.
      * apply Hstep.
      * exact Hrq.
      * lia.
      * exists g', (curr :: path). rewrite Erun.
        rewrite <- app_assoc. cbn [app].
        split; [reflexivity|]. split; [assumption|]. split.
        -- cbn [app rev]. apply walk_snoc with q; assumption.
        -- cbn [length]. lia.
Qed.

(** ** Breadth-first search *)

Lemma look_insert_flat (g0 : Grid.t) (l : list Z) (p q : Z * Z) (v : Z) :
  length l = Z.to_nat (Grid.width g0 * Grid.height g0) ->
  Grid.in_bounds g0 (fst p) (snd p) = true ->
  Grid.in_bounds g0 (fst q) (snd q) = true ->
  look (<[Z.to_nat (flat g0 p) := v]> l) (flat g0 q) =
  if coord_eqb p q then v else look l (flat g0 q).
Proof.
  intros Hlen Hp Hq.
  pose proof (flat_in_range g0 p Hp) as Rp.
  pose proof (flat_in_range g0 q Hq) as Rq.
  rewrite look_insert by (rewrite ?Hlen, ?Z2Nat.id; lia).
  destruct (coord_eqb p q) eqn:E.
  - apply coord_eqb_eq in E. subst q. rewrite Z.eqb_refl. reflexivity.
  - apply coord_eqb_neq in E.
    destruct (flat g0 p =? flat g0 q) eqn:F; [|reflexivity].
    apply Z.eqb_eq in F. exfalso. apply E. eapply flat_inj; eassumption.
Qed.

Lemma in_scanline_cell (g : Grid.t) (p : Z * Z) :
  In p (scanline g) <-> Grid.in_bounds g (fst p) (snd p) = true.
Proof. destruct p as [x y]. apply in_scanline. Qed.

Lemma bfs_scan_step (g0 : Grid.t) (start u : Z * Z) (st : Solver.bfs_state)
    (dist : Z * Z -> Z) (level nx ny d : Z) :
  bfs_inv g0 start st dist level [u] ->
  In (nx, ny, d) (Grid.get_neighbors g0 (fst u) (snd u)) ->
  exists st' dist',
    Solver.bfs_scan (fst u) (snd u) st (nx, ny, d) = Ok st' /\
    bfs_inv g0 start st' dist' level [u] /\
    (has_bit (cell_at g0 (fst u) (snd u)) d = false ->
     seen (Solver.bfs_grid st') (nx, ny) = true) /\
    (forall p, Grid.in_bounds g0 (fst p) (snd p) = true ->
               seen (Solver.bfs_grid st) p = true ->
               seen (Solver.bfs_grid st') p = true) /\
    (bfs_measure g0 st' <= bfs_measure g0 st)%nat.
Proof.
  intros Hinv Hn.
  destruct (bi_busy _ _ _ _ _ _ Hinv u (or_introl eq_refl)) as (Hu & Hsu & Hdu).
  destruct (get_neighbors_toward g0 _ _ _ _ _ Hu Hn) as (Hnb & Hd & od & Ht).
  pose proof (bi_walls _ _ _ _ _ _ Hinv) as Hsame.
  destruct Hsame as (Hwf & Hw & Hh & Hwalls).
  assert (Hdims : forall x y, Grid.in_bounds (Solver.bfs_grid st) x y =
                              Grid.in_bounds g0 x y)
    by (intros; apply in_bounds_dims; assumption).
  unfold Solver.bfs_scan.
  rewrite has_wall_cell, bind_Ok by (rewrite ?Hdims; assumption).
  rewrite Hwalls by assumption.
  destruct (has_bit (cell_at g0 (fst u) (snd u)) d) eqn:Ewall.
  { exists st, dist. split; [reflexivity|]. split; [exact Hinv|].
    split; [discriminate|]. split; [auto|]. lia. }
  unfold Grid.get_index. rewrite Hdims, Hnb, bind_Ok.
  rewrite getitem_cell, bind_Ok by (rewrite ?Hdims; assumption).
  change (negb (Z.land (cell_at (Solver.bfs_grid st) nx ny) Grid.SOLVER_VISITED =? 0))
    with (seen (Solver.bfs_grid st) (nx, ny)).
  destruct (seen (Solver.bfs_grid st) (nx, ny)) eqn:Eseen.
  { exists st, dist. split; [reflexivity|]. split; [exact Hinv|].
    split; [auto|]. split; [auto|]. lia. }
  rewrite or_cell_mark, bind_Ok by (rewrite ?Hdims; try assumption; reflexivity).
  rewrite (opposite_of_toward _ _ _ _ _ _ Hd Ht), bind_Ok.
  rewrite Hw. change (ny * Grid.width g0 + nx) with (flat g0 (nx, ny)).
  pose proof (flat_in_range g0 (nx, ny) Hnb) as Rn.
  rewrite setitem_inrange, bind_Ok.
  2: rewrite (bi_plen _ _ _ _ _ _ Hinv), Z2Nat.id; lia.
  2: eapply toward_opposite_byte; exact Ht.
  set (g' := write_cell (Solver.bfs_grid st) nx ny
               (Z.lor (cell_at (Solver.bfs_grid st) nx ny) Grid.SOLVER_VISITED)).
  set (ps := <[Z.to_nat (flat g0 (nx, ny)) := od]> (Solver.bfs_parents st)).
  set (dist' := fun p => if coord_eqb p (nx, ny) then level + 1 else dist p).
  assert (Hseen' : forall p, Grid.in_bounds g0 (fst p) (snd p) = true ->
            seen g' p = if coord_eqb (nx, ny) p then true
                        else seen (Solver.bfs_grid st) p).
  { intros p Hp. apply seen_mark; rewrite ?Hdims; assumption. }
  assert (Hold : forall p, Grid.in_bounds g0 (fst p) (snd p) = true ->
            seen (Solver.bfs_grid st) p = true ->
            seen g' p = true /\ dist' p = dist p).
  { intros p Hp Hs. rewrite Hseen' by assumption. unfold dist'.
    destruct (coord_eqb p (nx, ny)) eqn:E.
    - apply coord_eqb_eq in E. subst p. congruence.
    - rewrite coord_eqb_sym, E. auto. }
  assert (Hnew : forall p, Grid.in_bounds g0 (fst p) (snd p) = true ->
            seen g' p = true ->
            p = (nx, ny) \/ (p <> (nx, ny) /\ seen (Solver.bfs_grid st) p = true)).
  { intros p Hp Hs. rewrite Hseen' in Hs by assumption.
    destruct (coord_eqb (nx, ny) p) eqn:E.
    - left. symmetry. apply coord_eqb_eq, E.
    - right. split; [|exact Hs]. apply coord_eqb_neq in E. congruence. }
  assert (Hdn : dist' (nx, ny) = level + 1)
    by (unfold dist'; rewrite coord_eqb_refl; reflexivity).
  exists (Solver.mk_bfs g' (Solver.bfs_queue st ++ [(nx, ny)]) ps
            (Solver.bfs_visited st + 1)), dist'.
  split; [reflexivity|].
  assert (Hcount : count_where (seen g') (scanline g0) =
                   S (count_where (seen (Solver.bfs_grid st)) (scanline g0))).
  { apply count_where_update with (p0 := (nx, ny)).
    - apply NoDup_scanline.
    - apply in_scanline, Hnb.
    - exact Eseen.
    - rewrite Hseen' by exact Hnb. rewrite coord_eqb_refl. reflexivity.
    - intros p Hp Hne. apply in_scanline_cell in Hp. rewrite Hseen' by exact Hp.
      destruct (coord_eqb (nx, ny) p) eqn:E; [|reflexivity].
      apply coord_eqb_eq in E. congruence. }
  split; [|split; [|split]].
  - constructor; cbn [Solver.bfs_grid Solver.bfs_queue Solver.bfs_parents].
    + destruct (scratch_mask_walls Grid.SOLVER_VISITED) as [Hm Hmd]; [left; reflexivity|].
      apply same_walls_mark; try assumption. unfold same_walls. auto.
    + unfold ps. rewrite length_insert. apply (bi_plen _ _ _ _ _ _ Hinv).
    + apply (bi_start_in _ _ _ _ _ _ Hinv).
    + apply Hold; [apply (bi_start_in _ _ _ _ _ _ Hinv) | apply (bi_start _ _ _ _ _ _ Hinv)].
    + rewrite (proj2 (Hold start (bi_start_in _ _ _ _ _ _ Hinv)
                        (bi_start _ _ _ _ _ _ Hinv))).
      apply (bi_zero _ _ _ _ _ _ Hinv).
    + apply (bi_level _ _ _ _ _ _ Hinv).
    + intros p Hp Hs. destruct (Hnew p Hp Hs) as [-> | [_ Hs0]].
      * rewrite Hdn. pose proof (bi_level _ _ _ _ _ _ Hinv). lia.
      * rewrite (proj2 (Hold p Hp Hs0)). apply (bi_range _ _ _ _ _ _ Hinv); assumption.
    + destruct (bi_queue _ _ _ _ _ _ Hinv) as (q1 & q2 & Eq & H1 & H2).
      exists q1, (q2 ++ [(nx, ny)]). rewrite Eq, app_assoc.
      split; [reflexivity|].
      assert (Hin : forall p, In p (q1 ++ q2) -> dist' p = dist p).
      { intros p Hp. rewrite <- Eq in Hp.
        destruct (bi_queued _ _ _ _ _ _ Hinv p Hp) as [Hpb Hps].
        apply Hold; assumption. }
      split.
      * intros p Hp. rewrite Hin by (apply in_or_app; left; exact Hp). auto.
      * intros p Hp. apply in_app_or in Hp. destruct Hp as [Hp | [<- | []]].
        -- rewrite Hin by (apply in_or_app; right; exact Hp). auto.
        -- exact Hdn.
    + intros p Hp. apply in_app_or in Hp. destruct Hp as [Hp | [<- | []]].
      * destruct (bi_queued _ _ _ _ _ _ Hinv p Hp) as [Hpb Hps].
        split; [exact Hpb|]. apply Hold; assumption.
      * split; [exact Hnb|]. cbn [fst snd].
        rewrite Hseen' by exact Hnb. rewrite coord_eqb_refl. reflexivity.
    + intros p Hp. destruct (bi_busy _ _ _ _ _ _ Hinv p Hp) as (Hpb & Hps & Hpd).
      destruct (Hold p Hpb Hps) as [Hs' Hd']. rewrite Hd'. auto.
    + intros p Hp Hs. destruct (Hnew p Hp Hs) as [-> | [Hne Hs0]].
      * left. apply in_or_app. right. left. reflexivity.
      * destruct (bi_done _ _ _ _ _ _ Hinv p Hp Hs0) as [Hq | [Hb | Hdone]].
        -- left. apply in_or_app. left. exact Hq.
        -- right. left. exact Hb.
        -- right. right. intros q Hstep.
           destruct (Hdone q Hstep) as [Hsq Hdq].
           assert (Hqb : Grid.in_bounds g0 (fst q) (snd q) = true) by apply Hstep.
           destruct (Hold q Hqb Hsq) as [Hsq' Hdq'].
           rewrite Hdq', (proj2 (Hold p Hp Hs0)). auto.
    + intros p Hp Hs Hne. destruct (Hnew p Hp Hs) as [-> | [Hnn Hs0]].
      * exists od, d, u. cbn [fst snd].
        split; [eapply toward_opposite_direction; eassumption|].
        split; [unfold ps; rewrite look_insert_flat, coord_eqb_refl;
                [reflexivity | apply (bi_plen _ _ _ _ _ _ Hinv) | exact Hnb | exact Hnb]|].
        split; [apply toward_back; assumption|].
        split; [split; [exact Hu|]; split; [exact Hnb|]; exists d, od; auto|].
        destruct (Hold u Hu Hsu) as [Hsu' Hdu'].
        split; [exact Hsu'|]. rewrite Hdu', Hdu, Hdn.
        pose proof (bi_level _ _ _ _ _ _ Hinv). lia.
      * destruct (bi_links _ _ _ _ _ _ Hinv p Hp Hs0 Hne)
          as (dir & od' & q & Hdir & Hlook & Htq & Hstep & Hsq & H0 & H1).
        assert (Hqb : Grid.in_bounds g0 (fst q) (snd q) = true) by apply Hstep.
        destruct (Hold q Hqb Hsq) as [Hsq' Hdq'].
        exists dir, od', q. split; [exact Hdir|].
        split; [unfold ps; rewrite look_insert_flat;
                [|apply (bi_plen _ _ _ _ _ _ Hinv) | exact Hnb | exact Hp];
                destruct (coord_eqb (nx, ny) p) eqn:E;
                [apply coord_eqb_eq in E; congruence | exact Hlook]|].
        split; [exact Htq|]. split; [exact Hstep|]. split; [exact Hsq'|].
        rewrite Hdq', (proj2 (Hold p Hp Hs0)). auto.
    + intros p Hp Hs. rewrite Hcount. destruct (Hnew p Hp Hs) as [-> | [Hnn Hs0]].
      * rewrite Hdn, <- Hdu.
        pose proof (bi_bound _ _ _ _ _ _ Hinv u Hu Hsu). lia.
      * rewrite (proj2 (Hold p Hp Hs0)).
        pose proof (bi_bound _ _ _ _ _ _ Hinv p Hp Hs0). lia.
  - intros _. rewrite Hseen' by exact Hnb. rewrite coord_eqb_refl. reflexivity.
  - intros p Hp Hs. apply Hold; assumption.
  - unfold bfs_measure. cbn [Solver.bfs_grid Solver.bfs_queue].
    rewrite Hcount, length_app. cbn [length].
    pose proof (count_where_lt (seen (Solver.bfs_grid st)) (scanline g0) (nx, ny)
                  (proj2 (in_scanline g0 nx ny) Hnb) Eseen).
    lia.
Qed.

Lemma foldM_prefix {A S : Type} (I : list A -> S -> Prop)
    (f : S -> A -> result S) (l : list A) :
  (forall pre s a, In a l -> I pre s -> exists s', f s a = Ok s' /\ I (pre ++ [a]) s') ->
  forall pre s, I pre s -> exists s', foldM f l s = Ok s' /\ I (pre ++ l) s'.
Proof.
  induction l as [|a l IH]; intros Hstep pre s Hs.
  - exists s. rewrite app_nil_r. split; [reflexivity | exact Hs].
  - destruct (Hstep pre s a (or_introl eq_refl) Hs) as (s1 & E1 & H1).
    destruct (IH (fun pre s a H => Hstep pre s a (or_intror H)) (pre ++ [a]) s1 H1)
      as (s' & E' & H').
    exists s'. cbn [foldM]. rewrite E1, bind_Ok, E'.
    rewrite <- app_assoc in H'. split; [reflexivity | exact H'].
Qed.

Lemma bfs_expand (g0 : Grid.t) (start u : Z * Z) (st : Solver.bfs_state)
    (dist : Z * Z -> Z) (level : Z) :
  bfs_inv g0 start st dist level [u] ->
  exists st' dist',
    foldM (Solver.bfs_scan (fst u) (snd u))
      (Grid.get_neighbors (Solver.bfs_grid st) (fst u) (snd u)) st = Ok st' /\
    bfs_inv g0 start st' dist' level [] /\
    (bfs_measure g0 st' <= bfs_measure g0 st)%nat.
Proof.
  intros Hinv.
  destruct (bi_walls _ _ _ _ _ _ Hinv) as (_ & Hw & Hh & _).
  rewrite (get_neighbors_dims g0) by assumption.
  destruct (foldM_prefix
    (fun pre s => exists dist',
       bfs_inv g0 start s dist' level [u] /\
       (forall nx ny d, In (nx, ny, d) pre ->
          Grid.in_bounds g0 nx ny = true /\
          (has_bit (cell_at g0 (fst u) (snd u)) d = false ->
           seen (Solver.bfs_grid s) (nx, ny) = true)) /\
       (bfs_measure g0 s <= bfs_measure g0 st)%nat)
    (Solver.bfs_scan (fst u) (snd u))
    (Grid.get_neighbors g0 (fst u) (snd u))) with (pre := @nil (Z * Z * Z)) (s := st)
    as (st' & Erun & dist' & Hinv' & Hproc & Hm).
  - intros pre s [[nx ny] d] Hin (dist1 & Hinv1 & Hproc1 & Hm1).
    destruct (bfs_scan_step g0 start u s dist1 level nx ny d Hinv1 Hin)
      as (s' & dist2 & E & Hinv2 & Hnew & Hkeep & Hm2).
    exists s'. split; [exact E|]. exists dist2. split; [exact Hinv2|].
    split; [|lia].
    intros a b c Hpre. apply in_app_or in Hpre.
    destruct Hpre as [Hpre | [Heq | []]].
    + destruct (Hproc1 a b c Hpre) as [Hab Hopen].
      split; [exact Hab|]. intros Ho. apply Hkeep; [exact Hab | apply Hopen, Ho].
    + inversion Heq; subst a b c.
      destruct (bi_busy _ _ _ _ _ _ Hinv1 u (or_introl eq_refl)) as (Hu & _ & _).
      split; [apply (get_neighbors_toward g0 _ _ _ _ _ Hu Hin) | exact Hnew].
  - exists dist. split; [exact Hinv|]. split; [intros ? ? ? []|lia].
  - cbn [app] in Hproc. exists st', dist'. split; [exact Erun|]. split; [|exact Hm].
    destruct (bi_busy _ _ _ _ _ _ Hinv' u (or_introl eq_refl)) as (Hu & Hsu & Hdu).
    constructor; try apply Hinv'.
    + intros p [].
    + intros p Hp Hs.
      destruct (bi_done _ _ _ _ _ _ Hinv' p Hp Hs) as [Hq | [[<- | []] | Hdone]].
      * left. exact Hq.
      * right. right. intros q (_ & Hqb & d & od & Hd & Ht & Hopen).
        assert (Hsq : seen (Solver.bfs_grid st') q = true).
        { rewrite (surjective_pairing q). apply (Hproc _ _ d); [|exact Hopen].
          eapply toward_in_neighbors; eassumption. }
        split; [exact Hsq|].
        pose proof (bi_range _ _ _ _ _ _ Hinv' q Hqb Hsq). lia.
      * right. right. exact Hdone.
Qed.

Lemma bfs_walk_bound (g0 : Grid.t) (start end_ : Z * Z) (st : Solver.bfs_state)
    (dist : Z * Z -> Z) (level : Z) :
  bfs_inv g0 start st dist level [] ->
  (forall p, In p (Solver.bfs_queue st) ->
             seen (Solver.bfs_grid st) end_ = true /\ dist end_ <= dist p) ->
  forall l p, walk g0 p end_ l -> seen (Solver.bfs_grid st) p = true ->
    seen (Solver.bfs_grid st) end_ = true /\
    dist end_ <= dist p + Z.of_nat (length l) - 1.
Proof.
  intros Hinv Hq l p Hwalk.
  induction Hwalk as [p Hp | p q e l Hstep Hwalk IH]; intros Hs.
  - split; [exact Hs | cbn [length]; lia].
  - pose proof (walk_length _ _ _ _ Hwalk) as Hl.
    assert (Hp : Grid.in_bounds g0 (fst p) (snd p) = true) by apply Hstep.
    destruct (bi_done _ _ _ _ _ _ Hinv p Hp Hs) as [Hin | [[] | Hdone]].
    + destruct (Hq p Hin) as [He Hd]. split; [exact He|]. cbn [length]. lia.
    + destruct (Hdone q Hstep) as [Hsq Hdq].
      destruct (IH Hq Hsq) as [He Hd]. split; [exact He|]. cbn [length]. lia.
Qed.

Lemma bfs_dist_range (g0 : Grid.t) (start : Z * Z) (st : Solver.bfs_state)
    (dist : Z * Z -> Z) (level : Z) (busy : list (Z * Z)) :
  bfs_inv g0 start st dist level busy ->
  forall p, Grid.in_bounds g0 (fst p) (snd p) = true ->
            seen (Solver.bfs_grid st) p = true ->
            0 <= dist p < Z.of_nat (length (scanline g0)).
Proof.
  intros Hinv p Hp Hs.
  pose proof (bi_range _ _ _ _ _ _ Hinv p Hp Hs).
  pose proof (bi_bound _ _ _ _ _ _ Hinv p Hp Hs).
  pose proof (count_where_le (seen (Solver.bfs_grid st)) (scanline g0)).
  lia.
Qed.

Lemma bfs_loop_nil (fuel : nat) (end_ : Z * Z) (st : Solver.bfs_state) :
  Solver.bfs_queue st = [] -> Solver.bfs_loop fuel end_ st = Ok st.
Proof. intros E. destruct fuel; cbn [Solver.bfs_loop]; rewrite E; reflexivity. Qed.

Lemma bfs_inv_pop (g0 : Grid.t) (start u : Z * Z) (rest : list (Z * Z))
    (st : Solver.bfs_state) (dist : Z * Z -> Z) (level : Z) :
  bfs_inv g0 start st dist level [] ->
  Solver.bfs_queue st = u :: rest ->
  (forall p, In p (Solver.bfs_queue st) -> dist u <= dist p) /\
  exists level',
    bfs_inv g0 start
      (Solver.mk_bfs (Solver.bfs_grid st) rest (Solver.bfs_parents st)
         (Solver.bfs_visited st)) dist level' [u].
Proof.
  intros Hinv Eq.
  destruct (bi_queue _ _ _ _ _ _ Hinv) as (q1 & q2 & Eq12 & H1 & H2).
  pose proof (bi_level _ _ _ _ _ _ Hinv) as Hlev.
  assert (Hu : Grid.in_bounds g0 (fst u) (snd u) = true /\
               seen (Solver.bfs_grid st) u = true).
  { apply (bi_queued _ _ _ _ _ _ Hinv). rewrite Eq. left. reflexivity. }
  assert (Hcase : exists level' q1' q2',
            level <= level' /\ dist u = level' /\ rest = q1' ++ q2' /\
            (forall p, In p q1' -> dist p = level') /\
            (forall p, In p q2' -> dist p = level' + 1)).
  { rewrite Eq in Eq12. destruct q1 as [|a q1'].
    - cbn [app] in Eq12. subst q2. exists (level + 1), rest, [].
      rewrite app_nil_r. split; [lia|].
      split; [apply H2; left; reflexivity|]. split; [reflexivity|].
      split; [intros p Hp; apply H2; right; exact Hp | intros p []].
    - cbn [app] in Eq12. inversion Eq12; subst a rest.
      exists level, q1', q2. split; [lia|].
      split; [apply H1; left; reflexivity|]. split; [reflexivity|].
      split; [intros p Hp; apply H1; right; exact Hp | exact H2]. }
  destruct Hcase as (level' & q1' & q2' & Hle & Hdu & Erest & H1' & H2').
  split.
  - intros p Hp. rewrite Eq in Hp. destruct Hp as [<- | Hp]; [lia|].
    rewrite Erest in Hp. apply in_app_or in Hp.
    destruct Hp as [Hp | Hp]; [rewrite (H1' p Hp) | rewrite (H2' p Hp)]; lia.
  - exists level'.
    constructor; cbn [Solver.bfs_grid Solver.bfs_queue Solver.bfs_parents];
      try apply Hinv.
    + lia.
    + intros p Hp Hs. pose proof (bi_range _ _ _ _ _ _ Hinv p Hp Hs). lia.
    + exists q1', q2'. auto.
    + intros p Hp. apply (bi_queued _ _ _ _ _ _ Hinv). rewrite Eq. right. exact Hp.
    + intros p [<- | []]. destruct Hu. auto.
    + intros p Hp Hs.
      destruct (bi_done _ _ _ _ _ _ Hinv p Hp Hs) as [Hin | [[] | Hdone]].
      * rewrite Eq in Hin. destruct Hin as [<- | Hin]; [right; left; left; reflexivity|].
        left. exact Hin.
      * right. right. exact Hdone.
Qed.

Lemma bfs_loop_finishes (g0 : Grid.t) (start end_ : Z * Z) (fuel : nat) :
  forall (st : Solver.bfs_state) (dist : Z * Z -> Z) (level : Z),
    bfs_inv g0 start st dist level [] ->
    (bfs_measure g0 st <= fuel)%nat ->
    exists st' dist',
      Solver.bfs_loop fuel end_ st = Ok st' /\
      same_walls g0 (Solver.bfs_grid st') /\
      length (Solver.bfs_parents st') = Z.to_nat (Grid.width g0 * Grid.height g0) /\
      parent_links g0 start (Solver.bfs_parents st')
        (fun p => seen (Solver.bfs_grid st') p = true) dist' /\
      (forall p, Grid.in_bounds g0 (fst p) (snd p) = true ->
                 seen (Solver.bfs_grid st') p = true ->
                 0 <= dist' p < Z.of_nat (length (scanline g0))) /\
      forall l, walk g0 start end_ l ->
                seen (Solver.bfs_grid st') end_ = true /\
                dist' end_ <= Z.of_nat (length l) - 1.
Proof.
  induction fuel as [|k IH]; intros st dist level Hinv Hm.
  - destruct (Solver.bfs_queue st) as [|u rest] eqn:Eq.
    2: { unfold bfs_measure in Hm. rewrite Eq in Hm. cbn [length] in Hm. lia. }
    exists st, dist. rewrite bfs_loop_nil by exact Eq.
    split; [reflexivity|]. split; [apply Hinv|]. split; [apply Hinv|].
    split; [apply Hinv|].
    split; [intros p Hp Hs; apply (bfs_dist_range _ _ _ _ _ _ Hinv p Hp Hs)|].
    intros l Hwalk.
    destruct (bfs_walk_bound g0 start end_ st dist level Hinv) with (l := l) (p := start)
      as [He Hd]; try assumption.
    + rewrite Eq. intros p [].
    + apply Hinv.
    + rewrite (bi_zero _ _ _ _ _ _ Hinv) in Hd. split; [exact He | lia].
  - destruct (Solver.bfs_queue st) as [|u rest] eqn:Eq.
    { exists st, dist. rewrite bfs_loop_nil by exact Eq.
      split; [reflexivity|]. split; [apply Hinv|]. split; [apply Hinv|].
      split; [apply Hinv|].
      split; [intros p Hp Hs; apply (bfs_dist_range _ _ _ _ _ _ Hinv p Hp Hs)|].
      intros l Hwalk.
      destruct (bfs_walk_bound g0 start end_ st dist level Hinv) with (l := l) (p := start)
        as [He Hd]; try assumption.
      + rewrite Eq. intros p [].
      + apply Hinv.
      + rewrite (bi_zero _ _ _ _ _ _ Hinv) in Hd. split; [exact He | lia]. }
    destruct (bfs_inv_pop g0 start u rest st dist level Hinv Eq)
      as (Hmin & level' & Hpop).
    cbn [Solver.bfs_loop]. rewrite Eq.
    destruct (coord_eqb u end_) eqn:Ee.
    + apply coord_eqb_eq in Ee. subst u.
      exists (Solver.mk_bfs (Solver.bfs_grid st) rest (Solver.bfs_parents st)
                (Solver.bfs_visited st)), dist.
      cbn [Solver.bfs_grid Solver.bfs_parents].
      split; [reflexivity|]. split; [apply Hinv|]. split; [apply Hinv|].
      split; [apply Hinv|].
      split; [intros p Hp Hs; apply (bfs_dist_range _ _ _ _ _ _ Hinv p Hp Hs)|].
      intros l Hwalk.
      destruct (bfs_walk_bound g0 start end_ st dist level Hinv) with (l := l) (p := start)
        as [He Hd]; try assumption.
      * intros p Hp. split; [|apply Hmin, Hp].
        apply (bi_queued _ _ _ _ _ _ Hinv). rewrite Eq. left. reflexivity.
      * apply Hinv.
      * rewrite (bi_zero _ _ _ _ _ _ Hinv) in Hd. split; [exact He | lia].
    + destruct (bfs_expand g0 start u _ dist level' Hpop) as (st1 & dist1 & Erun & Hinv1 & Hm1).
      rewrite Erun, bind_Ok.
      apply (IH st1 dist1 level' Hinv1).
      unfold bfs_measure in *. rewrite Eq in Hm.
      cbn [Solver.bfs_grid Solver.bfs_queue length] in *. lia.
Qed.

Lemma walk_end_in_bounds (g : Grid.t) (s e : Z * Z) (l : list (Z * Z)) :
  walk g s e l -> Grid.in_bounds g (fst e) (snd e) = true.
Proof. intros Hw. induction Hw; assumption. Qed.

Lemma zeros_length (g : Grid.t) :
  length (Solver.zeros g) = Z.to_nat (Grid.width g * Grid.height g).
Proof. unfold Solver.zeros. apply length_replicate. Qed.

Lemma start_marked (g : Grid.t) (start : Z * Z) :
  wf g -> no_solver_marks g ->
  Grid.in_bounds g (fst start) (snd start) = true ->
  let g1 := write_cell g (fst start) (snd start)
              (Z.lor (cell_at g (fst start) (snd start)) Grid.SOLVER_VISITED) in
  same_walls g g1 /\
  (forall p, Grid.in_bounds g (fst p) (snd p) = true ->
             seen g1 p = true <-> p = start) /\
  count_where (seen g1) (scanline g) = 1%nat.
Proof.
  intros Hwf Hfresh Hs g1.
  assert (Hseen : forall p, Grid.in_bounds g (fst p) (snd p) = true ->
                            seen g1 p = true <-> p = start).
  { intros p Hp. unfold g1. rewrite seen_mark by assumption.
    rewrite <- surjective_pairing.
    destruct (coord_eqb start p) eqn:E.
    - apply coord_eqb_eq in E. subst p. tauto.
    - apply coord_eqb_neq in E. rewrite (Hfresh p Hp).
      split; [discriminate | congruence]. }
  split; [|split; [exact Hseen|]].
  - destruct (scratch_mask_walls Grid.SOLVER_VISITED) as [Hm Hmd]; [left; reflexivity|].
    apply same_walls_mark; try assumption. apply same_walls_refl, Hwf.
  - rewrite (count_where_update (fun _ => false) (seen g1) (scanline g) start).
    + rewrite count_where_none. reflexivity.
    + apply NoDup_scanline.
    + apply in_scanline_cell, Hs.
    + reflexivity.
    + apply Hseen; [exact Hs | reflexivity].
    + intros p Hp Hne. apply in_scanline_cell in Hp.
      destruct (seen g1 p) eqn:E; [|reflexivity].
      apply Hseen in E; [contradiction | exact Hp].
Qed.

Lemma path_is_shortest (g : Grid.t) (start end_ : Z * Z) (path : list (Z * Z))
    (bound : Z) :
  walk g start end_ (rev (path ++ [start])) ->
  Z.of_nat (length path) <= bound ->
  (forall l, walk g start end_ l -> bound <= Z.of_nat (length l) - 1) ->
  shortest_path g start end_ (rev (path ++ [start])).
Proof.
  intros Hwalk Hlen Hmin. split; [exact Hwalk|].
  intros l Hl. specialize (Hmin l Hl).
  rewrite length_rev, length_app. cbn [length]. lia.
Qed.

Lemma BFS_shortest (g : Grid.t) (start end_ : Z * Z) (fuel : nat)
    (l0 : list (Z * Z)) :
  wf g -> no_solver_marks g -> walk g start end_ l0 ->
  Grid.width g * Grid.height g <= Z.of_nat fuel ->
  exists o, Solver.BFS_run fuel g start end_ = Ok o /\
            shortest_path g start end_ (Solver.path o).
Proof.
  intros Hwf Hfresh Hw0 Hfuel.
  pose proof (walk_start_in_bounds _ _ _ _ Hw0) as Hs.
  pose proof (walk_end_in_bounds _ _ _ _ Hw0) as He.
  destruct (start_marked g start Hwf Hfresh Hs) as (Hsame & Hseen & Hcount).
  set (g1 := write_cell g (fst start) (snd start)
               (Z.lor (cell_at g (fst start) (snd start)) Grid.SOLVER_VISITED)) in *.
  assert (Hinv : bfs_inv g start (Solver.mk_bfs g1 [start] (Solver.zeros g) 1)
                   (fun _ => 0) 0 []).
  { constructor; cbn [Solver.bfs_grid Solver.bfs_queue Solver.bfs_parents].
    - exact Hsame.
    - apply zeros_length.
    - exact Hs.
    - apply Hseen; [exact Hs | reflexivity].
    - reflexivity.
    - lia.
    - intros; lia.
    - exists [start], []. split; [reflexivity|]. split; [auto | intros p []].
    - intros p [<- | []]. split; [exact Hs|]. apply Hseen; [exact Hs | reflexivity].
    - intros p [].
    - intros p Hp Hsp. left. left. symmetry. apply Hseen; assumption.
    - intros p Hp Hsp Hne. apply Hseen in Hsp; [contradiction | exact Hp].
    - intros p Hp Hsp. rewrite Hcount. lia. }
  assert (HN : length (scanline g) = Z.to_nat (Grid.width g * Grid.height g))
    by (apply scanline_length; apply Hwf).
  destruct (bfs_loop_finishes g start end_ fuel _ _ _ Hinv)
    as (st' & dist' & Eloop & Hsame' & Hplen & Hlinks & Hrange & Hmin).
  { unfold bfs_measure. cbn [Solver.bfs_grid Solver.bfs_queue length].
    pose proof (count_where_le (seen g1) (scanline g)) as Hle.
    rewrite Hcount in *. lia. }
  destruct (Hmin l0 Hw0) as [Hse Hde].
  destruct Hsame' as (Hwf' & Hw' & Hh' & Hwalls').
  assert (Hdims : forall x y, Grid.in_bounds (Solver.bfs_grid st') x y =
                              Grid.in_bounds g x y)
    by (intros; apply in_bounds_dims; assumption).
  destruct (follow_parents_walk g start (Solver.bfs_parents st')
              (fun p => seen (Solver.bfs_grid st') p = true) dist' Hs Hplen Hlinks
              fuel (Solver.bfs_grid st') end_ [])
    as (g2 & path & Efollow & _ & Hwalk & Hlen).
  { unfold same_walls. auto. }
  { exact He. }
  { exact Hse. }
  { pose proof (Hrange end_ He Hse). lia. }
  exists (Solver.mk_outcome g2 (rev (path ++ [start])) (Solver.bfs_visited st')
            Solver.Solved).
  split.
  - unfold Solver.BFS_run, Grid.get_index. rewrite Hs, bind_Ok.
    rewrite or_cell_mark, bind_Ok by (try assumption; reflexivity).
    fold g1. rewrite Eloop, bind_Ok.
    unfold Solver.BFS_reconstruct_path, Grid.get_index.
    rewrite Hdims, He, bind_Ok.
    rewrite getitem_cell, bind_Ok by (rewrite ?Hdims; assumption).
    unfold seen, has_bit in Hse. apply negb_true_iff in Hse. rewrite Hse.
    cbn [andb]. rewrite Efollow, bind_Ok. reflexivity.
  - cbn [Solver.path]. apply path_is_shortest with (bound := dist' end_).
    + exact Hwalk.
    + exact Hlen.
    + intros l Hl. apply Hmin, Hl.
Qed.

(** ** The priority queue *)

Lemma leb3_spec (a b : Z * Z * Z) :
  leb3 a b = true <->
  (a.1.1 < b.1.1 \/
   (a.1.1 = b.1.1 /\ (a.1.2 < b.1.2 \/ (a.1.2 = b.1.2 /\ a.2 <= b.2)))).
Proof.
  destruct a as [[f1 x1] y1], b as [[f2 x2] y2]. unfold leb3. cbn [fst snd].
  rewrite !orb_true_iff, !andb_true_iff, !orb_true_iff, !andb_true_iff.
  rewrite !Z.ltb_lt, !Z.eqb_eq, Z.leb_le. tauto.
Qed.

Lemma leb3_total (a b : Z * Z * Z) : leb3 a b = true \/ leb3 b a = true.
Proof. rewrite !leb3_spec. lia. Qed.

Lemma leb3_trans (a b c : Z * Z * Z) :
  leb3 a b = true -> leb3 b c = true -> leb3 a c = true.
Proof. rewrite !leb3_spec. lia. Qed.

Lemma leb3_antisym (a b : Z * Z * Z) :
  leb3 a b && leb3 b a = true <-> a = b.
Proof.
  rewrite andb_true_iff, !leb3_spec. split.
  - intros H. destruct a as [[f1 x1] y1], b as [[f2 x2] y2]. cbn [fst snd] in H.
    assert (f1 = f2 /\ x1 = x2 /\ y1 = y2) as (-> & -> & ->) by lia. reflexivity.
  - intros ->. lia.
Qed.

Lemma leb3_priority (a b : Z * Z * Z) : leb3 a b = true -> a.1.1 <= b.1.1.
Proof. rewrite leb3_spec. lia. Qed.

Lemma heap_least_spec (h : list (Z * Z * Z)) (x : Z * Z * Z) :
  (heap_least leb3 x h = x \/ In (heap_least leb3 x h) h) /\
  leb3 (heap_least leb3 x h) x = true /\
  forall y, In y h -> leb3 (heap_least leb3 x h) y = true.
Proof.
  revert x. induction h as [|a h IH]; intros x; cbn [heap_least].
  - split; [left; reflexivity|]. split; [|intros y []].
    apply leb3_spec. lia.
  - destruct (leb3 x a) eqn:E.
    + destruct (IH x) as (Hin & Hx & Hall).
      split; [destruct Hin; [left|right; right]; assumption|].
      split; [exact Hx|].
      intros y [<- | Hy]; [eapply leb3_trans; eassumption | apply Hall, Hy].
    + destruct (IH a) as (Hin & Ha & Hall).
      assert (Hax : leb3 a x = true) by (destruct (leb3_total x a); congruence).
      split; [right; destruct Hin as [-> | Hin]; [left; reflexivity | right; exact Hin]|].
      split; [eapply leb3_trans; eassumption|].
      intros y [<- | Hy]; [exact Ha | apply Hall, Hy].
Qed.

Lemma remove_first_spec (m : Z * Z * Z) (h : list (Z * Z * Z)) :
  In m h ->
  let rest := remove_first (fun a b => leb3 a b && leb3 b a) m h in
  S (length rest) = length h /\
  (forall x, In x rest -> In x h) /\
  (forall x, In x h -> x = m \/ In x rest).
Proof.
  induction h as [|a h IH]; intros Hin; [destruct Hin|].
  cbn [remove_first].
  destruct (leb3 m a && leb3 a m) eqn:E.
  - apply leb3_antisym in E. subst a. cbn zeta.
    split; [reflexivity|]. split; [intros x Hx; right; exact Hx|].
    intros x [<- | Hx]; [left; reflexivity | right; exact Hx].
  - destruct Hin as [-> | Hin].
    { assert (leb3 m m && leb3 m m = true) by (apply leb3_antisym; reflexivity).
      congruence. }
    destruct (IH Hin) as (Hlen & Hsub & Hsup). cbn zeta.
    split; [cbn [length]; rewrite Hlen; reflexivity|].
    split.
    + intros x [<- | Hx]; [left; reflexivity | right; apply Hsub, Hx].
    + intros x [<- | Hx]; [right; left; reflexivity|].
      destruct (Hsup x Hx) as [-> | Hr]; [left; reflexivity | right; right; exact Hr].
Qed.

Lemma heappop_spec (h rest : list (Z * Z * Z)) (m : Z * Z * Z) :
  heappop leb3 h = Some (m, rest) ->
  In m h /\ (forall y, In y h -> leb3 m y = true) /\
  S (length rest) = length h /\
  (forall x, In x rest -> In x h) /\
  (forall x, In x h -> x = m \/ In x rest).
Proof.
  destruct h as [|a h]; [discriminate|].
  unfold heappop. intros E. inversion E as [[Em Erest]]. clear E.
  destruct (heap_least_spec h a) as (Hin & Ha & Hall).
  assert (Hm : In (heap_least leb3 a h) (a :: h))
    by (destruct Hin as [-> | Hin]; [left; reflexivity | right; exact Hin]).
  split; [exact Hm|].
  split; [intros y [<- | Hy]; [exact Ha | apply Hall, Hy]|].
  apply (remove_first_spec _ _ Hm).
Qed.

Lemma heappop_none (h : list (Z * Z * Z)) : heappop leb3 h = None -> h = [].
Proof. destruct h; [reflexivity | discriminate]. Qed.

(** ** Sums over the cells *)

Lemma sum_over_same (f f' : Z * Z -> Z) (l : list (Z * Z)) :
  (forall p, In p l -> f' p = f p) -> sum_over f' l = sum_over f l.
Proof.
  induction l as [|a l IH]; intros H; [reflexivity|].
  cbn [sum_over fold_right]. fold (sum_over f' l). fold (sum_over f l).
  rewrite (H a) by (left; reflexivity).
  rewrite IH by (intros; apply H; right; assumption). reflexivity.
Qed.

Lemma sum_over_update (f f' : Z * Z -> Z) (l : list (Z * Z)) (p0 : Z * Z) :
  List.NoDup l -> In p0 l ->
  (forall p, In p l -> p <> p0 -> f' p = f p) ->
  sum_over f' l = sum_over f l - f p0 + f' p0.
Proof.
  induction l as [|a l IH]; intros Hnd Hin Hsame; [destruct Hin|].
  cbn [sum_over fold_right]. fold (sum_over f' l). fold (sum_over f l).
  inversion Hnd as [|? ? Hna Hnd']; subst.
  destruct Hin as [-> | Hin].
  - rewrite (sum_over_same f f' l); [lia|].
    intros p Hp. apply Hsame; [right; exact Hp|]. intros ->. contradiction.
  - rewrite IH; try assumption.
    + rewrite (Hsame a); [lia | left; reflexivity|]. intros ->. contradiction.
    + intros p Hp Hne. apply Hsame; [right; exact Hp | exact Hne].
Qed.

Lemma sum_over_bounds (f : Z * Z -> Z) (l : list (Z * Z)) (b : Z) :
  (forall p, In p l -> 0 <= f p <= b) ->
  0 <= sum_over f l <= b * Z.of_nat (length l).
Proof.
  induction l as [|a l IH]; intros H; [cbn; lia|].
  cbn [sum_over fold_right length]. fold (sum_over f l).
  specialize (H a (or_introl eq_refl)) as Ha.
  assert (IH' : 0 <= sum_over f l <= b * Z.of_nat (length l))
    by (apply IH; intros; apply H; right; assumption).
  nia.
Qed.

(** ** Best-first search *)

Lemma setitem_i_inrange (l : list Z) (i v : Z) :
  0 <= i < Z.of_nat (length l) -> - 2 ^ 31 <= v < 2 ^ 31 ->
  setitem_i l i v = Ok (<[Z.to_nat i := v]> l).
Proof.
  intros Hi Hv. unfold setitem_i, array_set.
  rewrite py_index_inrange, bind_Ok by exact Hi.
  unfold is_int32.
  destruct (Z.leb_spec (- 2 ^ 31) v); [|lia].
  destruct (Z.ltb_spec v (2 ^ 31)); [|lia]. reflexivity.
Qed.

Lemma reached_iff (g0 : Grid.t) (gs : list Z) (p : Z * Z) :
  reached g0 gs p = true <-> cost_at g0 gs p <> -1.
Proof.
  unfold reached. rewrite negb_true_iff. apply Z.eqb_neq.
Qed.

Lemma neighbor_differs (g0 : Grid.t) (u : Z * Z) (nx ny d : Z) :
  Grid.in_bounds g0 (fst u) (snd u) = true ->
  In (nx, ny, d) (Grid.get_neighbors g0 (fst u) (snd u)) -> (nx, ny) <> u.
Proof.
  intros Hu Hn.
  destruct (get_neighbors_toward g0 _ _ _ _ _ Hu Hn) as (_ & Hd & od & Ht).
  destruct (toward_cases _ _ _ _ _ _ Hd Ht)
    as [ (_ & Hx & Hy & _) | [ (_ & Hx & Hy & _) | [ (_ & Hx & Hy & _) | (_ & Hx & Hy & _) ] ] ];
    intros E; rewrite <- E in Hx, Hy; cbn [fst snd] in Hx, Hy; lia.
Qed.

Lemma astar_relax_step (g0 : Grid.t) (start end_ : Z * Z)
    (h : Z * Z -> Z * Z -> Z) (u : Z * Z) (st : Solver.astar_state)
    (nx ny d : Z) :
  Z.of_nat (length (scanline g0)) < 2 ^ 31 ->
  (forall p, 0 <= h p end_) ->
  astar_inv g0 start end_ h st [u] ->
  In (nx, ny, d) (Grid.get_neighbors g0 (fst u) (snd u)) ->
  exists st',
    Solver.astar_relax h end_ (fst u) (snd u) (cost_at g0 (Solver.as_g st) u) st
      (nx, ny, d) = Ok st' /\
    astar_inv g0 start end_ h st' [u] /\
    cost_at g0 (Solver.as_g st') u = cost_at g0 (Solver.as_g st) u /\
    (has_bit (cell_at g0 (fst u) (snd u)) d = false ->
     reached g0 (Solver.as_g st') (nx, ny) = true /\
     cost_at g0 (Solver.as_g st') (nx, ny) <= cost_at g0 (Solver.as_g st) u + 1) /\
    (forall p, Grid.in_bounds g0 (fst p) (snd p) = true ->
               reached g0 (Solver.as_g st) p = true ->
               reached g0 (Solver.as_g st') p = true /\
               cost_at g0 (Solver.as_g st') p <= cost_at g0 (Solver.as_g st) p) /\
    astar_measure g0 st' <= astar_measure g0 st.
Proof.
  intros Hsmall Hh0 Hinv Hn.
  destruct (ai_busy _ _ _ _ _ _ Hinv u (or_introl eq_refl)) as (Hu & Hru).
  destruct (get_neighbors_toward g0 _ _ _ _ _ Hu Hn) as (Hnb & Hd & od & Ht).
  pose proof (neighbor_differs g0 u nx ny d Hu Hn) as Hnu.
  pose proof (ai_walls _ _ _ _ _ _ Hinv) as Hsame.
  destruct Hsame as (Hwf & Hw & Hh & Hwalls).
  assert (Hdims : forall x y, Grid.in_bounds (Solver.as_grid st) x y =
                              Grid.in_bounds g0 x y)
    by (intros; apply in_bounds_dims; assumption).
  pose proof (ai_range _ _ _ _ _ _ Hinv u Hu Hru) as Hcu.
  pose proof (count_where_le (reached g0 (Solver.as_g st)) (scanline g0)) as Hcle.
  unfold Solver.astar_relax.
  rewrite has_wall_cell, bind_Ok by (rewrite ?Hdims; assumption).
  rewrite Hwalls by assumption.
  destruct (has_bit (cell_at g0 (fst u) (snd u)) d) eqn:Ewall.
  { exists st. split; [reflexivity|]. split; [exact Hinv|]. split; [reflexivity|].
    split; [discriminate|]. split; [intros; split; [assumption | lia] | lia]. }
  unfold Grid.get_index. rewrite Hdims, Hnb, bind_Ok.
  rewrite Hw. change (ny * Grid.width g0 + nx) with (flat g0 (nx, ny)).
  pose proof (flat_in_range g0 (nx, ny) Hnb) as Rn.
  rewrite getitem_inrange, bind_Ok
    by (rewrite (ai_glen _ _ _ _ _ _ Hinv), Z2Nat.id; lia).
  fold (cost_at g0 (Solver.as_g st) (nx, ny)).
  set (old_g := cost_at g0 (Solver.as_g st) (nx, ny)).
  set (new_g := cost_at g0 (Solver.as_g st) u + 1).
  destruct ((old_g =? -1) || (new_g <? old_g)) eqn:Econd.
  2: { apply orb_false_iff in Econd. destruct Econd as [E1 E2].
       apply Z.eqb_neq in E1. apply Z.ltb_ge in E2.
       exists st. split; [reflexivity|]. split; [exact Hinv|]. split; [reflexivity|].
       split; [intros _; split; [apply reached_iff; exact E1 | exact E2]|].
       split; [intros; split; [assumption | lia] | lia]. }
  assert (Hcond : old_g = -1 \/ (old_g <> -1 /\ new_g < old_g)).
  { apply orb_true_iff in Econd. destruct (Z.eqb_spec old_g (-1)) as [E|E]; [left; exact E|].
    right. split; [exact E|]. destruct Econd as [E'|E']; [discriminate | apply Z.ltb_lt, E']. }
  clear Econd.
  rewrite setitem_i_inrange, bind_Ok
    by (rewrite ?(ai_glen _ _ _ _ _ _ Hinv), ?Z2Nat.id; unfold new_g; lia).
  rewrite (opposite_of_toward _ _ _ _ _ _ Hd Ht), bind_Ok.
  rewrite setitem_inrange, bind_Ok.
  2: rewrite (ai_plen _ _ _ _ _ _ Hinv), Z2Nat.id; lia.
  2: eapply toward_opposite_byte; exact Ht.
  assert (Hcell : getitem (Grid.cells (Solver.as_grid st)) (flat g0 (nx, ny)) =
                  Ok (cell_at (Solver.as_grid st) nx ny)).
  { unfold flat. cbn [fst snd]. rewrite <- Hw.
    apply getitem_cell; rewrite ?Hdims; assumption. }
  assert (Hor : Solver.or_cell (Solver.as_grid st) (flat g0 (nx, ny)) Grid.SOLVER_VISITED =
                Ok (write_cell (Solver.as_grid st) nx ny
                      (Z.lor (cell_at (Solver.as_grid st) nx ny) Grid.SOLVER_VISITED))).
  { unfold flat. cbn [fst snd]. rewrite <- Hw.
    apply or_cell_mark; rewrite ?Hdims; try assumption. reflexivity. }
  rewrite Hcell, bind_Ok, Hor, bind_Ok.
  set (gs' := <[Z.to_nat (flat g0 (nx, ny)) := new_g]> (Solver.as_g st)).
  set (ps' := <[Z.to_nat (flat g0 (nx, ny)) := od]> (Solver.as_parents st)).
  set (open' := heappush (Solver.as_open st) (new_g + h (nx, ny) end_, nx, ny)).
  match goal with
  | |- exists st', (if ?c then ?a else ?b) = Ok st' /\ _ =>
      assert (Hgrid : exists g' v', same_walls g0 g' /\
                (if c then a else b) = Ok (Solver.mk_astar g' open' gs' ps' v'))
  end.
  { destruct (Z.land (cell_at (Solver.as_grid st) nx ny) Grid.SOLVER_VISITED =? 0).
    - eexists _, _. split; [|reflexivity].
      destruct (scratch_mask_walls Grid.SOLVER_VISITED) as [Hm Hmd]; [left; reflexivity|].
      apply same_walls_mark; try assumption. unfold same_walls. auto.
    - eexists _, _. split; [|reflexivity]. unfold same_walls. auto. }
  destruct Hgrid as (g' & v' & Hsame' & Erun).
  exists (Solver.mk_astar g' open' gs' ps' v'). split; [exact Erun|]. clear Erun Hcell Hor.
  assert (Hcost' : forall p, Grid.in_bounds g0 (fst p) (snd p) = true ->
            cost_at g0 gs' p = if coord_eqb (nx, ny) p then new_g
                               else cost_at g0 (Solver.as_g st) p).
  { intros p Hp. unfold cost_at, gs'.
    apply look_insert_flat; [apply (ai_glen _ _ _ _ _ _ Hinv) | exact Hnb | exact Hp]. }
  assert (Hnn : cost_at g0 gs' (nx, ny) = new_g)
    by (rewrite Hcost' by exact Hnb; rewrite coord_eqb_refl; reflexivity).
  assert (Hother : forall p, Grid.in_bounds g0 (fst p) (snd p) = true -> p <> (nx, ny) ->
            cost_at g0 gs' p = cost_at g0 (Solver.as_g st) p /\
            reached g0 gs' p = reached g0 (Solver.as_g st) p).
  { intros p Hp Hne. assert (E : cost_at g0 gs' p = cost_at g0 (Solver.as_g st) p).
    { rewrite Hcost' by exact Hp. destruct (coord_eqb (nx, ny) p) eqn:E; [|reflexivity].
      apply coord_eqb_eq in E. congruence. }
    split; [exact E|]. unfold reached. rewrite E. reflexivity. }
  assert (Hrn : reached g0 gs' (nx, ny) = true)
    by (apply reached_iff; rewrite Hnn; unfold new_g; lia).
  assert (Hmono : forall p, Grid.in_bounds g0 (fst p) (snd p) = true ->
            reached g0 (Solver.as_g st) p = true ->
            reached g0 gs' p = true /\
            cost_at g0 gs' p <= cost_at g0 (Solver.as_g st) p).
  { intros p Hp Hr. destruct (coord_eqb p (nx, ny)) eqn:E.
    - apply coord_eqb_eq in E. subst p. split; [exact Hrn|]. rewrite Hnn.
      apply reached_iff in Hr. fold old_g in Hr |- *. lia.
    - apply coord_eqb_neq in E. destruct (Hother p Hp E) as [E1 E2].
      rewrite E1, E2. split; [exact Hr | lia]. }
  assert (Hns : (nx, ny) <> start).
  { intros E. pose proof (ai_start _ _ _ _ _ _ Hinv) as H0.
    rewrite <- E in H0. fold old_g in H0. unfold new_g in Hcond. lia. }
  assert (Hcount : (count_where (reached g0 (Solver.as_g st)) (scanline g0) <=
                    count_where (reached g0 gs') (scanline g0))%nat /\
                   (old_g = -1 ->
                    count_where (reached g0 gs') (scanline g0) =
                    S (count_where (reached g0 (Solver.as_g st)) (scanline g0)))).
  { assert (Hsame_else : forall p, In p (scanline g0) -> p <> (nx, ny) ->
              reached g0 gs' p = reached g0 (Solver.as_g st) p).
    { intros p Hp Hne. apply in_scanline_cell in Hp. apply Hother; assumption. }
    destruct (reached g0 (Solver.as_g st) (nx, ny)) eqn:Er.
    - rewrite (count_where_same (reached g0 (Solver.as_g st)) (reached g0 gs')).
      + split; [lia|]. intros E. apply reached_iff in Er. contradiction.
      + intros p Hp. destruct (coord_eqb p (nx, ny)) eqn:E.
        * apply coord_eqb_eq in E. subst p. congruence.
        * apply coord_eqb_neq in E. apply Hsame_else; assumption.
    - rewrite (count_where_update (reached g0 (Solver.as_g st)) (reached g0 gs')
                 (scanline g0) (nx, ny)); try assumption.
      + split; [lia | reflexivity].
      + apply NoDup_scanline.
      + apply in_scanline_cell, Hnb. }
  assert (Hnew_lt : new_g < Z.of_nat (count_where (reached g0 gs') (scanline g0))).
  { destruct Hcount as [Hc1 Hc2]. destruct Hcond as [E | [E1 E2]].
    - rewrite (Hc2 E). unfold new_g. lia.
    - apply reached_iff in E1.
      pose proof (ai_range _ _ _ _ _ _ Hinv (nx, ny) Hnb E1) as Hr.
      fold old_g in Hr. lia. }
  assert (Hcase : forall p, p = (nx, ny) \/ p <> (nx, ny)).
  { intros p. destruct (coord_eqb p (nx, ny)) eqn:E;
      [left; apply coord_eqb_eq, E | right; apply coord_eqb_neq, E]. }
  split; [|split; [|split; [|split]]].
  - constructor; cbn [Solver.as_grid Solver.as_g Solver.as_open Solver.as_parents].
    + exact Hsame'.
    + unfold gs'. rewrite length_insert. apply (ai_glen _ _ _ _ _ _ Hinv).
    + unfold ps'. rewrite length_insert. apply (ai_plen _ _ _ _ _ _ Hinv).
    + apply (ai_start_in _ _ _ _ _ _ Hinv).
    + rewrite (proj1 (Hother start (ai_start_in _ _ _ _ _ _ Hinv) (not_eq_sym Hns))).
      apply (ai_start _ _ _ _ _ _ Hinv).
    + intros p Hp Hr. destruct (Hcase p) as [-> | Hne].
      * rewrite Hnn. split; [unfold new_g; lia | exact Hnew_lt].
      * destruct (Hother p Hp Hne) as [E1 E2]. rewrite E1. rewrite E2 in Hr.
        pose proof (ai_range _ _ _ _ _ _ Hinv p Hp Hr). lia.
    + intros p Hp H0. destruct (Hcase p) as [-> | Hne].
      * rewrite Hnn in H0. unfold new_g in H0. lia.
      * rewrite (proj1 (Hother p Hp Hne)) in H0.
        apply (ai_zero _ _ _ _ _ _ Hinv p Hp H0).
    + intros f x y Hin. unfold open', heappush in Hin. apply in_app_or in Hin.
      destruct Hin as [Hin | [Heq | []]].
      * destruct (ai_heap _ _ _ _ _ _ Hinv f x y Hin) as (Hxy & Hr & Hf).
        destruct (Hmono (x, y) Hxy Hr) as [Hr' Hc']. split; [exact Hxy|].
        split; [exact Hr' | lia].
      * inversion Heq; subst f x y. split; [exact Hnb|]. split; [exact Hrn|].
        rewrite Hnn. specialize (Hh0 (nx, ny)). lia.
    + intros p Hp. destruct (ai_busy _ _ _ _ _ _ Hinv p Hp) as [Hpb Hpr].
      split; [exact Hpb | apply Hmono; assumption].
    + intros p Hp Hr. destruct (Hcase p) as [-> | Hne].
      * left. exists (new_g + h (nx, ny) end_). rewrite Hnn. split; [|lia].
        unfold open', heappush. apply in_or_app. right. left. reflexivity.
      * destruct (Hother p Hp Hne) as [E1 E2]. rewrite E1. rewrite E2 in Hr.
        destruct (ai_front _ _ _ _ _ _ Hinv p Hp Hr) as [(f & Hin & Hf) | [Hb | Hdone]].
        -- left. exists f. split; [|exact Hf].
           unfold open', heappush. apply in_or_app. left. exact Hin.
        -- right. left. exact Hb.
        -- right. right. intros q Hstep. destruct (Hdone q Hstep) as [Hrq Hcq].
           assert (Hqb : Grid.in_bounds g0 (fst q) (snd q) = true) by apply Hstep.
           destruct (Hmono q Hqb Hrq) as [Hrq' Hcq']. split; [exact Hrq' | lia].
    + intros p Hp Hr Hne. destruct (Hcase p) as [-> | Hnn'].
      * exists od, d, u. cbn [fst snd].
        split; [eapply toward_opposite_direction; eassumption|].
        split; [unfold ps'; rewrite look_insert_flat, coord_eqb_refl;
                [reflexivity | apply (ai_plen _ _ _ _ _ _ Hinv) | exact Hnb | exact Hnb]|].
        split; [apply toward_back; assumption|].
        split; [split; [exact Hu|]; split; [exact Hnb|]; exists d, od; auto|].
        destruct (Hother u Hu (not_eq_sym Hnu)) as [E1 E2].
        split; [rewrite E2; exact Hru|]. rewrite E1, Hnn. unfold new_g. lia.
      * destruct (Hother p Hp Hnn') as [E1 E2]. rewrite E2 in Hr.
        destruct (ai_links _ _ _ _ _ _ Hinv p Hp Hr Hne)
          as (dir & od' & q & Hdir & Hlook & Htq & Hstep & Hrq & H0 & H1).
        assert (Hqb : Grid.in_bounds g0 (fst q) (snd q) = true) by apply Hstep.
        destruct (Hmono q Hqb Hrq) as [Hrq' Hcq'].
        exists dir, od', q. split; [exact Hdir|].
        split; [unfold ps'; rewrite look_insert_flat;
                [|apply (ai_plen _ _ _ _ _ _ Hinv) | exact Hnb | exact Hp];
                destruct (coord_eqb (nx, ny) p) eqn:E;
                [apply coord_eqb_eq in E; congruence | exact Hlook]|].
        split; [exact Htq|]. split; [exact Hstep|]. split; [exact Hrq'|].
        rewrite E1. split; [|lia].
        destruct (Hcase q) as [-> | Hqn].
        -- rewrite Hnn. unfold new_g. lia.
        -- rewrite (proj1 (Hother q Hqb Hqn)). exact H0.
  - cbn [Solver.as_g]. apply Hother; [exact Hu | exact (not_eq_sym Hnu)].
  - intros _. cbn [Solver.as_g]. split; [exact Hrn | rewrite Hnn; unfold new_g; lia].
  - exact Hmono.
  - unfold astar_measure. cbn [Solver.as_g Solver.as_open].
    unfold open', heappush. rewrite length_app. cbn [length].
    rewrite (sum_over_update (cost_weight g0 (Solver.as_g st)) (cost_weight g0 gs')
               (scanline g0) (nx, ny)).
    + assert (Hw' : cost_weight g0 gs' (nx, ny) <=
                    cost_weight g0 (Solver.as_g st) (nx, ny) - 1).
      { unfold cost_weight. rewrite Hnn. fold old_g.
        destruct (Z.eqb_spec new_g (-1)) as [E|_]; [unfold new_g in E; lia|].
        pose proof (count_where_le (reached g0 gs') (scanline g0)).
        destruct (Z.eqb_spec old_g (-1)); lia. }
      lia.
    + apply NoDup_scanline.
    + apply in_scanline_cell, Hnb.
    + intros p Hp Hne. apply in_scanline_cell in Hp. unfold cost_weight.
      rewrite (proj1 (Hother p Hp Hne)). reflexivity.
Qed.

Lemma astar_expand (g0 : Grid.t) (start end_ : Z * Z)
    (h : Z * Z -> Z * Z -> Z) (u : Z * Z) (st : Solver.astar_state) :
  Z.of_nat (length (scanline g0)) < 2 ^ 31 ->
  (forall p, 0 <= h p end_) ->
  astar_inv g0 start end_ h st [u] ->
  exists st',
    foldM (Solver.astar_relax h end_ (fst u) (snd u) (cost_at g0 (Solver.as_g st) u))
      (Grid.get_neighbors (Solver.as_grid st) (fst u) (snd u)) st = Ok st' /\
    astar_inv g0 start end_ h st' [] /\
    astar_measure g0 st' <= astar_measure g0 st.
Proof.
  intros Hsmall Hh0 Hinv.
  destruct (ai_walls _ _ _ _ _ _ Hinv) as (_ & Hw & Hh & _).
  rewrite (get_neighbors_dims g0) by assumption.
  destruct (foldM_prefix
    (fun pre s =>
       astar_inv g0 start end_ h s [u] /\
       cost_at g0 (Solver.as_g s) u = cost_at g0 (Solver.as_g st) u /\
       (forall nx ny d, In (nx, ny, d) pre ->
          Grid.in_bounds g0 nx ny = true /\
          (has_bit (cell_at g0 (fst u) (snd u)) d = false ->
           reached g0 (Solver.as_g s) (nx, ny) = true /\
           cost_at g0 (Solver.as_g s) (nx, ny) <= cost_at g0 (Solver.as_g st) u + 1)) /\
       astar_measure g0 s <= astar_measure g0 st)
    (Solver.astar_relax h end_ (fst u) (snd u) (cost_at g0 (Solver.as_g st) u))
    (Grid.get_neighbors g0 (fst u) (snd u))) with (pre := @nil (Z * Z * Z)) (s := st)
    as (st' & Erun & Hinv' & Hcu & Hproc & Hm).
  - intros pre s [[nx ny] d] Hin (Hinv1 & Hcu1 & Hproc1 & Hm1).
    destruct (astar_relax_step g0 start end_ h u s nx ny d Hsmall Hh0 Hinv1 Hin)
      as (s' & E & Hinv2 & Hcu2 & Hnew & Hmono & Hm2).
    rewrite Hcu1 in E, Hnew.
    exists s'. split; [exact E|]. split; [exact Hinv2|].
    split; [congruence|]. split; [|lia].
    intros a b c Hpre. apply in_app_or in Hpre.
    destruct Hpre as [Hpre | [Heq | []]].
    + destruct (Hproc1 a b c Hpre) as [Hab Hopen].
      split; [exact Hab|]. intros Ho. destruct (Hopen Ho) as [Hr Hc].
      destruct (Hmono (a, b) Hab Hr) as [Hr' Hc']. split; [exact Hr' | lia].
    + inversion Heq; subst a b c.
      destruct (ai_busy _ _ _ _ _ _ Hinv1 u (or_introl eq_refl)) as (Hu & _).
      split; [apply (get_neighbors_toward g0 _ _ _ _ _ Hu Hin) | exact Hnew].
  - split; [exact Hinv|]. split; [reflexivity|]. split; [intros ? ? ? []|lia].
  - cbn [app] in Hproc. exists st'. split; [exact Erun|]. split; [|exact Hm].
    destruct (ai_busy _ _ _ _ _ _ Hinv' u (or_introl eq_refl)) as (Hu & Hru).
    constructor; try apply Hinv'.
    + intros p [].
    + intros p Hp Hr.
      destruct (ai_front _ _ _ _ _ _ Hinv' p Hp Hr) as [Hq | [[<- | []] | Hdone]].
      * left. exact Hq.
      * right. right. intros q (_ & Hqb & d & od & Hd & Ht & Hopen).
        rewrite (surjective_pairing q). rewrite Hcu.
        apply (Hproc _ _ d); [|exact Hopen].
        eapply toward_in_neighbors; eassumption.
      * right. right. exact Hdone.
Qed.

Lemma astar_walk_bound (g0 : Grid.t) (start end_ : Z * Z)
    (h : Z * Z -> Z * Z -> Z) (st : Solver.astar_state) :
  (forall p l, walk g0 p end_ l -> h p end_ <= Z.of_nat (length l) - 1) ->
  astar_inv g0 start end_ h st [] ->
  (forall f x y, In (f, x, y) (Solver.as_open st) ->
                 reached g0 (Solver.as_g st) end_ = true /\
                 cost_at g0 (Solver.as_g st) end_ <= f) ->
  forall l p, walk g0 p end_ l -> reached g0 (Solver.as_g st) p = true ->
    reached g0 (Solver.as_g st) end_ = true /\
    cost_at g0 (Solver.as_g st) end_ <=
    cost_at g0 (Solver.as_g st) p + Z.of_nat (length l) - 1.
Proof.
  intros Hadm Hinv Hq l p Hwalk.
  induction Hwalk as [p Hp | p q e l Hstep Hwalk IH]; intros Hr.
  - split; [exact Hr | cbn [length]; lia].
  - assert (Hp : Grid.in_bounds g0 (fst p) (snd p) = true) by apply Hstep.
    destruct (ai_front _ _ _ _ _ _ Hinv p Hp Hr) as [(f & Hin & Hf) | [[] | Hdone]].
    + destruct (Hq _ _ _ Hin) as [He Hc]. split; [exact He|].
      pose proof (Hadm p (p :: l) (walk_cons _ _ _ _ _ Hstep Hwalk)) as Ha.
      cbn [length] in *. lia.
    + destruct (Hdone q Hstep) as [Hrq Hcq].
      destruct (IH Hadm Hinv Hq Hrq) as [He Hc]. split; [exact He|]. cbn [length]. lia.
Qed.

Lemma astar_cost_range (g0 : Grid.t) (start end_ : Z * Z)
    (h : Z * Z -> Z * Z -> Z) (st : Solver.astar_state) (busy : list (Z * Z)) :
  astar_inv g0 start end_ h st busy ->
  forall p, Grid.in_bounds g0 (fst p) (snd p) = true ->
            reached g0 (Solver.as_g st) p = true ->
            0 <= cost_at g0 (Solver.as_g st) p < Z.of_nat (length (scanline g0)).
Proof.
  intros Hinv p Hp Hr.
  pose proof (ai_range _ _ _ _ _ _ Hinv p Hp Hr).
  pose proof (count_where_le (reached g0 (Solver.as_g st)) (scanline g0)).
  lia.
Qed.

Lemma astar_measure_open (g0 : Grid.t) (start end_ : Z * Z)
    (h : Z * Z -> Z * Z -> Z) (st : Solver.astar_state) (busy : list (Z * Z)) :
  astar_inv g0 start end_ h st busy ->
  Z.of_nat (length (Solver.as_open st)) <= astar_measure g0 st.
Proof.
  intros Hinv. unfold astar_measure.
  destruct (sum_over_bounds (cost_weight g0 (Solver.as_g st)) (scanline g0)
              (Z.of_nat (length (scanline g0)))) as [H0 _]; [|lia].
  intros p Hp. apply in_scanline_cell in Hp. unfold cost_weight.
  destruct (Z.eqb_spec (cost_at g0 (Solver.as_g st) p) (-1)) as [E|E]; [lia|].
  apply reached_iff in E. pose proof (astar_cost_range _ _ _ _ _ _ Hinv p Hp E). lia.
Qed.

Lemma astar_loop_none (fuel : nat) (h : Z * Z -> Z * Z -> Z) (end_ : Z * Z)
    (st : Solver.astar_state) :
  Solver.as_open st = [] -> Solver.astar_loop fuel h end_ st = Ok st.
Proof. intros E. destruct fuel; cbn [Solver.astar_loop]; rewrite E; reflexivity. Qed.

Lemma astar_exit (g0 : Grid.t) (start end_ : Z * Z) (h : Z * Z -> Z * Z -> Z)
    (st : Solver.astar_state) :
  (forall p l, walk g0 p end_ l -> h p end_ <= Z.of_nat (length l) - 1) ->
  astar_inv g0 start end_ h st [] ->
  (forall f x y, In (f, x, y) (Solver.as_open st) ->
                 reached g0 (Solver.as_g st) end_ = true /\
                 cost_at g0 (Solver.as_g st) end_ <= f) ->
  same_walls g0 (Solver.as_grid st) /\
  length (Solver.as_parents st) = Z.to_nat (Grid.width g0 * Grid.height g0) /\
  length (Solver.as_g st) = Z.to_nat (Grid.width g0 * Grid.height g0) /\
  parent_links g0 start (Solver.as_parents st)
    (fun p => reached g0 (Solver.as_g st) p = true) (cost_at g0 (Solver.as_g st)) /\
  (forall p, Grid.in_bounds g0 (fst p) (snd p) = true ->
             reached g0 (Solver.as_g st) p = true ->
             0 <= cost_at g0 (Solver.as_g st) p < Z.of_nat (length (scanline g0))) /\
  forall l, walk g0 start end_ l ->
            reached g0 (Solver.as_g st) end_ = true /\
            cost_at g0 (Solver.as_g st) end_ <= Z.of_nat (length l) - 1.
Proof.
  intros Hadm Hinv Hq.
  split; [apply Hinv|]. split; [apply Hinv|]. split; [apply Hinv|].
  split; [apply Hinv|]. split; [apply (astar_cost_range _ _ _ _ _ _ Hinv)|].
  intros l Hwalk.
  destruct (astar_walk_bound g0 start end_ h st Hadm Hinv Hq l start Hwalk) as [He Hc].
  - apply reached_iff. rewrite (ai_start _ _ _ _ _ _ Hinv). discriminate.
  - rewrite (ai_start _ _ _ _ _ _ Hinv) in Hc. split; [exact He | lia].
Qed.

Lemma astar_loop_finishes (g0 : Grid.t) (start end_ : Z * Z)
    (h : Z * Z -> Z * Z -> Z) :
  Z.of_nat (length (scanline g0)) < 2 ^ 31 ->
  (forall p, 0 <= h p end_) ->
  (forall p l, walk g0 p end_ l -> h p end_ <= Z.of_nat (length l) - 1) ->
  forall (fuel : nat) (st : Solver.astar_state),
    astar_inv g0 start end_ h st [] ->
    astar_measure g0 st <= Z.of_nat fuel ->
    exists st',
      Solver.astar_loop fuel h end_ st = Ok st' /\
      same_walls g0 (Solver.as_grid st') /\
      length (Solver.as_parents st') = Z.to_nat (Grid.width g0 * Grid.height g0) /\
      length (Solver.as_g st') = Z.to_nat (Grid.width g0 * Grid.height g0) /\
      parent_links g0 start (Solver.as_parents st')
        (fun p => reached g0 (Solver.as_g st') p = true)
        (cost_at g0 (Solver.as_g st')) /\
      (forall p, Grid.in_bounds g0 (fst p) (snd p) = true ->
                 reached g0 (Solver.as_g st') p = true ->
                 0 <= cost_at g0 (Solver.as_g st') p < Z.of_nat (length (scanline g0))) /\
      forall l, walk g0 start end_ l ->
                reached g0 (Solver.as_g st') end_ = true /\
                cost_at g0 (Solver.as_g st') end_ <= Z.of_nat (length l) - 1.
Proof.
  intros Hsmall Hh0 Hadm fuel.
  induction fuel as [|k IH]; intros st Hinv Hm;
    destruct (heappop leb3 (Solver.as_open st)) as [[[[f cx] cy] rest]|] eqn:Epop.
  - destruct (heappop_spec _ _ _ Epop) as (Hin & _).
    pose proof (astar_measure_open _ _ _ _ _ _ Hinv).
    destruct (Solver.as_open st); [destruct Hin | cbn [length] in *; lia].
  - apply heappop_none in Epop. exists st. rewrite astar_loop_none by exact Epop.
    split; [reflexivity|]. apply (astar_exit g0 start end_ h st Hadm Hinv).
    rewrite Epop. intros ? ? ? [].
  - destruct (heappop_spec _ _ _ Epop) as (Hin & Hleast & Hlen & Hsub & Hsup).
    cbn [Solver.astar_loop]. rewrite Epop.
    set (st1 := Solver.mk_astar (Solver.as_grid st) rest (Solver.as_g st)
                  (Solver.as_parents st) (Solver.as_visited st)).
    destruct (ai_heap _ _ _ _ _ _ Hinv f cx cy Hin) as (Hcb & Hcr & Hcf).
    destruct (coord_eqb (cx, cy) end_) eqn:Ee.
    + apply coord_eqb_eq in Ee. subst end_.
      exists st1. split; [reflexivity|].
      apply (astar_exit g0 start (cx, cy) h st Hadm Hinv).
      intros f' x y Hin'. split; [exact Hcr|].
      pose proof (leb3_priority _ _ (Hleast _ Hin')) as Hp. cbn [fst snd] in Hp. lia.
    + assert (Hinv1 : astar_inv g0 start end_ h st1 [(cx, cy)]).
      { constructor; unfold st1;
          cbn [Solver.as_grid Solver.as_g Solver.as_open Solver.as_parents];
          try apply Hinv.
        - intros f' x y Hin'. apply (ai_heap _ _ _ _ _ _ Hinv), Hsub, Hin'.
        - intros p [<- | []]. cbn [fst snd]. auto.
        - intros p Hp Hr.
          destruct (ai_front _ _ _ _ _ _ Hinv p Hp Hr) as [(f' & Hin' & Hf') | [[] | Hdone]].
          + destruct (Hsup _ Hin') as [Heq | Hrest].
            * right. left. left. inversion Heq. symmetry. apply surjective_pairing.
            * left. exists f'. auto.
          + right. right. exact Hdone. }
      destruct (astar_expand g0 start end_ h (cx, cy) st1 Hsmall Hh0 Hinv1)
        as (st2 & Erun & Hinv2 & Hm2).
      destruct (ai_walls _ _ _ _ _ _ Hinv) as (Hwf & Hw & Hh & Hwalls).
      unfold Grid.get_index.
      replace (Grid.in_bounds (Solver.as_grid st1) cx cy) with true
        by (symmetry; unfold st1; cbn [Solver.as_grid];
            rewrite (in_bounds_dims g0) by assumption; exact Hcb).
      rewrite bind_Ok.
      replace (cy * Grid.width (Solver.as_grid st1) + cx) with (flat g0 (cx, cy))
        by (unfold flat, st1; cbn [Solver.as_grid fst snd]; rewrite Hw; reflexivity).
      pose proof (flat_in_range g0 (cx, cy) Hcb) as Rc.
      rewrite getitem_inrange, bind_Ok
        by (unfold st1; cbn [Solver.as_g];
            rewrite (ai_glen _ _ _ _ _ _ Hinv), Z2Nat.id; lia).
      fold (cost_at g0 (Solver.as_g st1) (cx, cy)).
      cbn [fst snd] in Erun. rewrite Erun, bind_Ok.
      apply (IH st2 Hinv2).
      unfold astar_measure in *. unfold st1 in Hm2.
      cbn [Solver.as_g Solver.as_open] in Hm2. lia.
  - apply heappop_none in Epop. exists st. rewrite astar_loop_none by exact Epop.
    split; [reflexivity|]. apply (astar_exit g0 start end_ h st Hadm Hinv).
    rewrite Epop. intros ? ? ? [].
Qed.

Lemma manhattan_admissible (g : Grid.t) (e p : Z * Z) (l : list (Z * Z)) :
  walk g p e l -> Solver.manhattan p e <= Z.of_nat (length l) - 1.
Proof.
  intros Hwalk. induction Hwalk as [p Hp | p q e l Hstep Hwalk IH].
  - unfold Solver.manhattan. cbn [length]. lia.
  - pose proof (walk_length _ _ _ _ Hwalk) as Hl.
    destruct Hstep as (_ & _ & d & od & Hd & Ht & _).
    unfold Solver.manhattan in *. cbn [length].
    destruct (toward_cases _ _ _ _ _ _ Hd Ht)
      as [ (_ & Hx & Hy & _) | [ (_ & Hx & Hy & _) | [ (_ & Hx & Hy & _) | (_ & Hx & Hy & _) ] ] ];
      lia.
Qed.

Lemma zero_admissible (g : Grid.t) (e p : Z * Z) (l : list (Z * Z)) :
  walk g p e l -> Solver.zero_heuristic p e <= Z.of_nat (length l) - 1.
Proof.
  intros Hwalk. pose proof (walk_length _ _ _ _ Hwalk). unfold Solver.zero_heuristic. lia.
Qed.

Lemma look_replicate (n : nat) (v i : Z) :
  0 <= i < Z.of_nat n -> look (replicate n v) i = v.
Proof.
  intros Hi. unfold look.
  rewrite (lookup_replicate_2 n v (Z.to_nat i)) by lia. reflexivity.
Qed.

Lemma sum_over_const (c : Z) (l : list (Z * Z)) :
  sum_over (fun _ => c) l = c * Z.of_nat (length l).
Proof.
  induction l as [|a l IH]; [cbn; lia|].
  cbn [sum_over fold_right length]. fold (sum_over (fun _ => c) l). rewrite IH. lia.
Qed.

Lemma astar_shortest (h : Z * Z -> Z * Z -> Z) (g : Grid.t) (start end_ : Z * Z)
    (fuel : nat) (l0 : list (Z * Z)) :
  (forall p, 0 <= h p end_) ->
  (forall p l, walk g p end_ l -> h p end_ <= Z.of_nat (length l) - 1) ->
  wf g -> Grid.width g * Grid.height g < 2 ^ 31 ->
  walk g start end_ l0 ->
  2 * (Grid.width g * Grid.height g) * (Grid.width g * Grid.height g) <= Z.of_nat fuel ->
  exists o, Solver.astar_run h fuel g start end_ = Ok o /\
            shortest_path g start end_ (Solver.path o).
Proof.
  intros Hh0 Hadm Hwf Hsmall Hw0 Hfuel.
  pose proof (walk_start_in_bounds _ _ _ _ Hw0) as Hs.
  pose proof (walk_end_in_bounds _ _ _ _ Hw0) as He.
  pose proof (flat_in_range g start Hs) as Rs.
  assert (HN : Z.of_nat (length (scanline g)) = Grid.width g * Grid.height g).
  { rewrite scanline_length by apply Hwf. apply Z2Nat.id. lia. }
  set (n := Z.to_nat (Grid.width g * Grid.height g)).
  set (g1 := write_cell g (fst start) (snd start)
               (Z.lor (cell_at g (fst start) (snd start)) Grid.SOLVER_VISITED)).
  set (gs0 := <[Z.to_nat (flat g start) := 0]> (replicate n (-1))).
  assert (Hcost : forall p, Grid.in_bounds g (fst p) (snd p) = true ->
            cost_at g gs0 p = if coord_eqb start p then 0 else -1).
  { intros p Hp. unfold cost_at, gs0.
    rewrite look_insert_flat by (try assumption; apply length_replicate).
    destruct (coord_eqb start p); [reflexivity|].
    apply look_replicate. pose proof (flat_in_range g p Hp). unfold n. lia. }
  assert (Hreach : forall p, Grid.in_bounds g (fst p) (snd p) = true ->
            reached g gs0 p = true <-> p = start).
  { intros p Hp. rewrite reached_iff, Hcost by exact Hp.
    destruct (coord_eqb start p) eqn:E.
    - apply coord_eqb_eq in E. subst p. split; [reflexivity | discriminate].
    - apply coord_eqb_neq in E. split; [congruence | intros ->; congruence]. }
  assert (Hcount : count_where (reached g gs0) (scanline g) = 1%nat).
  { rewrite (count_where_update (fun _ => false) (reached g gs0) (scanline g) start).
    - rewrite count_where_none. reflexivity.
    - apply NoDup_scanline.
    - apply in_scanline_cell, Hs.
    - reflexivity.
    - apply Hreach; [exact Hs | reflexivity].
    - intros p Hp Hne. apply in_scanline_cell in Hp.
      destruct (reached g gs0 p) eqn:E; [|reflexivity].
      apply Hreach in E; [contradiction | exact Hp]. }
  assert (Hinv : astar_inv g start end_ h
                   (Solver.mk_astar g1 [(0, fst start, snd start)] gs0 (Solver.zeros g) 1) []).
  { constructor; cbn [Solver.as_grid Solver.as_g Solver.as_open Solver.as_parents].
    - destruct (scratch_mask_walls Grid.SOLVER_VISITED) as [Hm Hmd]; [left; reflexivity|].
      apply same_walls_mark; try assumption. apply same_walls_refl, Hwf.
    - unfold gs0. rewrite length_insert. apply length_replicate.
    - apply zeros_length.
    - exact Hs.
    - rewrite Hcost by exact Hs. rewrite coord_eqb_refl. reflexivity.
    - intros p Hp Hr. apply Hreach in Hr; [|exact Hp]. subst p.
      rewrite Hcount, Hcost by exact Hs. rewrite coord_eqb_refl. lia.
    - intros p Hp H0. rewrite Hcost in H0 by exact Hp.
      destruct (coord_eqb start p) eqn:E; [|discriminate].
      symmetry. apply coord_eqb_eq, E.
    - intros f x y [Heq | []]. inversion Heq; subst f x y.
      rewrite <- surjective_pairing. split; [exact Hs|].
      split; [apply Hreach; [exact Hs | reflexivity]|].
      rewrite Hcost by exact Hs. rewrite coord_eqb_refl. lia.
    - intros p [].
    - intros p Hp Hr. apply Hreach in Hr; [|exact Hp]. subst p.
      left. exists 0. split; [left; reflexivity|].
      rewrite Hcost by exact Hs. rewrite coord_eqb_refl. specialize (Hh0 start). lia.
    - intros p Hp Hr Hne. apply Hreach in Hr; [contradiction | exact Hp]. }
  destruct (astar_loop_finishes g start end_ h) with (fuel := fuel)
    (st := Solver.mk_astar g1 [(0, fst start, snd start)] gs0 (Solver.zeros g) 1)
    as (st' & Eloop & Hsame' & Hplen & Hglen & Hlinks & Hrange & Hmin);
    try assumption.
  { lia. }
  { unfold astar_measure. cbn [Solver.as_g Solver.as_open length].
    rewrite (sum_over_update (fun _ => Z.of_nat (length (scanline g)))
               (cost_weight g gs0) (scanline g) start).
    - rewrite sum_over_const. unfold cost_weight at 1.
      rewrite Hcost by exact Hs. rewrite coord_eqb_refl. cbn [Z.eqb]. nia.
    - apply NoDup_scanline.
    - apply in_scanline_cell, Hs.
    - intros p Hp Hne. apply in_scanline_cell in Hp. unfold cost_weight.
      rewrite Hcost by exact Hp.
      destruct (coord_eqb start p) eqn:E; [|reflexivity].
      apply coord_eqb_eq in E. congruence. }
  destruct (Hmin l0 Hw0) as [Hre Hce].
  destruct Hsame' as (Hwf' & Hw' & Hh' & Hwalls').
  assert (Hdims : forall x y, Grid.in_bounds (Solver.as_grid st') x y =
                              Grid.in_bounds g x y)
    by (intros; apply in_bounds_dims; assumption).
  destruct (follow_parents_walk g start (Solver.as_parents st')
              (fun p => reached g (Solver.as_g st') p = true)
              (cost_at g (Solver.as_g st')) Hs Hplen Hlinks
              fuel (Solver.as_grid st') end_ [])
    as (g2 & path & Efollow & _ & Hwalk & Hlen).
  { unfold same_walls. auto. }
  { exact He. }
  { exact Hre. }
  { pose proof (Hrange end_ He Hre). nia. }
  exists (Solver.mk_outcome g2 (rev (path ++ [start])) (Solver.as_visited st')
            Solver.Solved).
  split.
  - unfold Solver.astar_run, Grid.get_index. rewrite Hs, bind_Ok.
    fold (flat g start). fold n.
    rewrite setitem_i_inrange, bind_Ok
      by (rewrite ?length_replicate; unfold n; lia).
    fold gs0. unfold flat.
    rewrite or_cell_mark, bind_Ok by (try assumption; reflexivity).
    fold g1. unfold heappush. cbn [app].
    rewrite Eloop, bind_Ok.
    unfold Solver.AStar_reconstruct_path, Grid.get_index.
    rewrite Hdims, He, bind_Ok. rewrite Hw'. fold (flat g end_).
    pose proof (flat_in_range g end_ He) as Re.
    rewrite getitem_inrange, bind_Ok by (rewrite Hglen, Z2Nat.id; lia).
    fold (cost_at g (Solver.as_g st') end_).
    apply reached_iff, Z.eqb_neq in Hre. rewrite Hre.
    cbn [andb]. rewrite Efollow, bind_Ok. reflexivity.
  - cbn [Solver.path].
    apply path_is_shortest with (bound := cost_at g (Solver.as_g st') end_).
    + exact Hwalk.
    + exact Hlen.
    + intros l Hl. apply Hmin, Hl.
Qed.

Lemma reach_walk (g : Grid.t) (s e : Z * Z) :
  Grid.in_bounds g (fst s) (snd s) = true -> reach g s e ->
  exists l, walk g s e l.
Proof.
  intros Hs Hr. induction Hr as [|p q Hr [l IH] Hstep].
  - exists [s]. apply walk_one, Hs.
  - exists (l ++ [q]). eapply walk_snoc; eassumption.
Qed.

(** C3 as the code has it. On a well-formed grid without solver marks and
    with fewer than 2^31 cells, for every pair of cells with the end reachable from the
    start through open walls, the breadth-first, uniform-cost and A*
    solvers each run to completion and return a path that is a walk from
    start to end with the least number of cells of any such walk; the three
    paths therefore have the same length. *)
Theorem solvers_return_shortest_paths (g : Grid.t) (start end_ : Z * Z)
    (fuel : nat) :
  wf g -> no_solver_marks g ->
  Grid.width g * Grid.height g < 2 ^ 31 ->
  Grid.in_bounds g (fst start) (snd start) = true ->
  reach g start end_ ->
  2 * (Grid.width g * Grid.height g) * (Grid.width g * Grid.height g)
    <= Z.of_nat fuel ->
  exists ob od oa,
    Solver.BFS_run fuel g start end_ = Ok ob /\
    Solver.Dijkstra_run fuel g start end_ = Ok od /\
    Solver.AStar_run fuel g start end_ = Ok oa /\
    length (Solver.path ob) = length (Solver.path od) /\
    length (Solver.path od) = length (Solver.path oa) /\
    shortest_path g start end_ (Solver.path ob) /\
    shortest_path g start end_ (Solver.path od) /\
    shortest_path g start end_ (Solver.path oa).
Proof.
  intros Hwf Hfresh Hsmall Hs Hreach Hfuel.
  destruct (reach_walk g start end_ Hs Hreach) as [l0 Hw0].
  pose proof (flat_in_range g start Hs) as Rs.
  destruct (BFS_shortest g start end_ fuel l0 Hwf Hfresh Hw0) as (ob & Eb & Hb); [nia|].
  destruct (astar_shortest Solver.zero_heuristic g start end_ fuel l0) as (od & Ed & Hd);
    try assumption.
  { intros p. unfold Solver.zero_heuristic. lia. }
  { intros p l. apply zero_admissible. }
  destruct (astar_shortest Solver.manhattan g start end_ fuel l0) as (oa & Ea & Ha);
    try assumption.
  { intros p. unfold Solver.manhattan. lia. }
  { intros p l. apply manhattan_admissible. }
  exists ob, od, oa.
  split; [exact Eb|]. split; [exact Ed|]. split; [exact Ea|].
  destruct Hb as [Wb Mb], Hd as [Wd Md], Ha as [Wa Ma].
  pose proof (Mb _ Wd). pose proof (Md _ Wb).
  pose proof (Md _ Wa). pose proof (Ma _ Wd).
  split; [lia|]. split; [lia|].
  unfold shortest_path. auto.
Qed.

Lemma solvers_return_shortest_paths_witness :
  exists ob od oa,
    Solver.BFS_run 32 (Grid.mk 2 2 [29; 19; 31; 30]) (0, 0) (1, 1) = Ok ob /\
    Solver.Dijkstra_run 32 (Grid.mk 2 2 [29; 19; 31; 30]) (0, 0) (1, 1) = Ok od /\
    Solver.AStar_run 32 (Grid.mk 2 2 [29; 19; 31; 30]) (0, 0) (1, 1) = Ok oa /\
    length (Solver.path ob) = length (Solver.path od) /\
    length (Solver.path od) = length (Solver.path oa) /\
    shortest_path (Grid.mk 2 2 [29; 19; 31; 30]) (0, 0) (1, 1) (Solver.path ob) /\
    shortest_path (Grid.mk 2 2 [29; 19; 31; 30]) (0, 0) (1, 1) (Solver.path od) /\
    shortest_path (Grid.mk 2 2 [29; 19; 31; 30]) (0, 0) (1, 1) (Solver.path oa).
Proof.
  apply (solvers_return_shortest_paths (Grid.mk 2 2 [29; 19; 31; 30]) (0, 0) (1, 1) 32).
  - unfold wf; simpl. repeat split; try lia. repeat constructor.
  - intros [x y] Hp. apply in_bounds_iff in Hp. cbn in Hp.
    assert (Hx : x = 0 \/ x = 1) by lia. assert (Hy : y = 0 \/ y = 1) by lia.
    destruct Hx as [-> | ->], Hy as [-> | ->]; reflexivity.
  - cbn. lia.
  - reflexivity.
  - apply reach_step with (p := (1, 0)).
    + apply reach_step with (p := (0, 0)); [apply reach_refl|].
      split; [reflexivity|]. split; [reflexivity|].
      exists Grid.EAST, Grid.WEST. split; [cbn; auto|]. split; reflexivity.
    + split; [reflexivity|]. split; [reflexivity|].
      exists Grid.SOUTH, Grid.NORTH. split; [cbn; auto|]. split; reflexivity.
  - cbn. lia.
Defined.

(** C3, counterexample: on a grid that carries the mark of an earlier run
    the solvers disagree.  The end (1,1) is reachable from (0,0) through
    (1,0), three cells; with [SOLVER_VISITED] left on the end cell the
    breadth-first solver returns a path of two cells, the A* solver one of
    three. *)
Lemma stale_marks_break_agreement :
  wf (Grid.mk 2 2 [29; 19; 31; 94]) /\
  reach (Grid.mk 2 2 [29; 19; 31; 94]) (0, 0) (1, 1) /\
  exists ob oa,
    Solver.BFS_run 32 (Grid.mk 2 2 [29; 19; 31; 94]) (0, 0) (1, 1) = Ok ob /\
    Solver.AStar_run 32 (Grid.mk 2 2 [29; 19; 31; 94]) (0, 0) (1, 1) = Ok oa /\
    length (Solver.path ob) = 2%nat /\ length (Solver.path oa) = 3%nat /\
    length (Solver.path ob) <> length (Solver.path oa).
Proof.
  split; [|split].
  - unfold wf; simpl. repeat split; try lia. repeat constructor.
  - apply reach_step with (p := (1, 0)).
    + apply reach_step with (p := (0, 0)); [apply reach_refl|].
      split; [reflexivity|]. split; [reflexivity|].
      exists Grid.EAST, Grid.WEST. split; [cbn; auto|]. split; reflexivity.
    + split; [reflexivity|]. split; [reflexivity|].
      exists Grid.SOUTH, Grid.NORTH. split; [cbn; auto|]. split; reflexivity.
  - destruct (Solver.BFS_run 32 (Grid.mk 2 2 [29; 19; 31; 94]) (0, 0) (1, 1))
      as [ob|] eqn:Eb; [|vm_compute in Eb; discriminate].
    destruct (Solver.AStar_run 32 (Grid.mk 2 2 [29; 19; 31; 94]) (0, 0) (1, 1))
      as [oa|] eqn:Ea; [|vm_compute in Ea; discriminate].
    exists ob, oa. split; [reflexivity|]. split; [reflexivity|].
    vm_compute in Eb, Ea. injection Eb as <-. injection Ea as <-.
    repeat split; cbn; lia.
Qed.

(** The marks of an earlier run must be cleared, as [solver_benchmark.py]
    does between runs: with the mark left on the end cell, the
    breadth-first search never enqueues it and returns the two ends alone,
    while A*, which reads its own cost array, still returns the walk. *)
Example stale_marks_mislead_bfs :
  path_of id (Solver.BFS_run 32 (Grid.mk 2 2 [29; 19; 31; 94]) (0, 0) (1, 1))
    = Ok ([(0, 0); (1, 1)], Solver.Solved) /\
  path_of id (Solver.AStar_run 32 (Grid.mk 2 2 [29; 19; 31; 94]) (0, 0) (1, 1))
    = Ok ([(0, 0); (1, 0); (1, 1)], Solver.Solved).
Proof. split; vm_compute; reflexivity. Qed.

(** ** The event log *)

Lemma bind_Ok_inv {A B : Type} (m : result A) (f : A -> result B) (b : B) :
  bind m f = Ok b -> exists a, m = Ok a /\ f a = Ok b.
Proof. destruct m as [a|e]; cbn; [eauto | discriminate]. Qed.

Lemma pack_be_ok (n : nat) (v : Z) :
  0 <= v < 256 ^ Z.of_nat n -> Events.pack_be n v = Ok (rev (le_bytes n v)).
Proof.
  intros H. unfold Events.pack_be.
  destruct (Z.leb_spec 0 v); [|lia].
  destruct (Z.ltb_spec v (256 ^ Z.of_nat n)); [|lia]. reflexivity.
Qed.

Lemma pack_be_raises (n : nat) (v : Z) :
  ~ 0 <= v < 256 ^ Z.of_nat n -> Events.pack_be n v = Raise StructError.
Proof.
  intros H. unfold Events.pack_be.
  destruct (Z.leb_spec 0 v); [|reflexivity].
  destruct (Z.ltb_spec v (256 ^ Z.of_nat n)); [lia | reflexivity].
Qed.

Lemma be_value_bytes (n : nat) (v : Z) :
  0 <= v < 256 ^ Z.of_nat n -> Events.be_value (rev (le_bytes n v)) = v.
Proof.
  intros H. unfold Events.be_value. rewrite rev_involutive.
  apply le_value_bytes, H.
Qed.

Lemma be_length (n : nat) (v : Z) : length (rev (le_bytes n v)) = n.
Proof. rewrite length_rev. apply le_bytes_length. Qed.

Lemma unpack_HH_pack (x y : Z) :
  0 <= x < 65536 -> 0 <= y < 65536 ->
  Events.unpack_HH (rev (le_bytes 2 x) ++ rev (le_bytes 2 y)) = Ok (x, y).
Proof.
  intros Hx Hy. unfold Events.unpack_HH.
  rewrite length_app, !be_length. cbn [Nat.add Nat.eqb].
  rewrite take_app_length' by (symmetry; apply be_length).
  rewrite drop_app_length' by (symmetry; apply be_length).
  rewrite !be_value_bytes by (change (256 ^ Z.of_nat 2) with 65536; assumption).
  reflexivity.
Qed.

Lemma unpack_HHB_pack (x y d : Z) :
  0 <= x < 65536 -> 0 <= y < 65536 -> 0 <= d < 256 ->
  Events.unpack_HHB (rev (le_bytes 2 x) ++ rev (le_bytes 2 y) ++ [d]) = Ok (x, y, d).
Proof.
  intros Hx Hy Hd. unfold Events.unpack_HHB.
  rewrite !length_app, !be_length. cbn [length Nat.add Nat.eqb].
  rewrite take_app_length' by (symmetry; apply be_length).
  rewrite drop_app_length' by (symmetry; apply be_length).
  rewrite take_app_length' by (symmetry; apply be_length).
  rewrite app_assoc, drop_app_length' by (rewrite length_app, !be_length; reflexivity).
  rewrite !be_value_bytes by (change (256 ^ Z.of_nat 2) with 65536; assumption).
  unfold Events.be_value. cbn [rev app le_value]. f_equal. f_equal. lia.
Qed.

Lemma do_call_fits (file : list Z) (c : writer_call) :
  call_fits c -> do_call file c = Ok (file ++ call_bytes c).
Proof.
  destruct c as [x y | x y d | x y | x y | x y | x y]; cbn [call_fits];
    intros H; cbn [do_call call_bytes];
    unfold Events.log_visit, Events.log_carve, Events.log_path_add,
      Events.log_path_rem, Events.log_solver_scan, Events.log_solver_scan_aux,
      Events.pack_BHH, Events.pack_BHHB;
    rewrite ?(pack_be_ok 2 x), ?(pack_be_ok 2 y), ?(pack_be_ok 1 d)
      by (first [change (256 ^ Z.of_nat 2) with 65536
                | change (256 ^ Z.of_nat 1) with 256]; tauto);
    first [reflexivity | cbn; rewrite (Z.mod_small d) by tauto; reflexivity].
Qed.

Lemma do_call_raises (file : list Z) (c : writer_call) :
  ~ call_fits c -> do_call file c = Raise StructError.
Proof.
  assert (Hcase : forall n v, Events.pack_be n v = Ok (rev (le_bytes n v)) /\
                                0 <= v < 256 ^ Z.of_nat n \/
                              Events.pack_be n v = Raise StructError /\
                                ~ 0 <= v < 256 ^ Z.of_nat n).
  { intros n v.
    destruct (Z_le_dec 0 v); [destruct (Z_lt_dec v (256 ^ Z.of_nat n))|];
      [left; split; [apply pack_be_ok|]; lia | right; split; [apply pack_be_raises|]; lia ..]. }
  destruct c as [x y | x y d | x y | x y | x y | x y]; cbn [call_fits];
    intros H; cbn [do_call];
    unfold Events.log_visit, Events.log_carve, Events.log_path_add,
      Events.log_path_rem, Events.log_solver_scan, Events.log_solver_scan_aux,
      Events.pack_BHH, Events.pack_BHHB;
    cbn [bind Events.pack_be];
    destruct (Hcase 2%nat x) as [[-> Hx] | [-> Hx]]; cbn [bind]; try reflexivity;
    destruct (Hcase 2%nat y) as [[-> Hy] | [-> Hy]]; cbn [bind]; try reflexivity;
    try (destruct (Hcase 1%nat d) as [[-> Hd] | [-> Hd]]; cbn [bind]; try reflexivity);
    exfalso; apply H;
    change (256 ^ Z.of_nat 2) with 65536 in *;
    change (256 ^ Z.of_nat 1) with 256 in *; tauto.
Qed.

Lemma stream_call (c : writer_call) (rest : list Z) (k : nat) :
  call_fits c ->
  Events.stream_events (S k) (call_bytes c ++ rest) =
  (event_of_call c :: fst (Events.stream_events k rest),
   snd (Events.stream_events k rest)).
Proof.
  destruct c as [x y | x y d | x y | x y | x y | x y]; cbn [call_fits];
    intros H; cbn [call_bytes event_of_call app];
    rewrite <- ?app_assoc;
    cbn [Events.stream_events Events.EVT_VISIT Events.EVT_CARVE
           Events.EVT_PATH_ADD Events.EVT_PATH_REM Events.EVT_SOLVER_SCAN
           Events.EVT_SOLVER_SCAN_AUX Z.eqb Pos.eqb];
    match goal with
    | |- context [read 4 ?l] =>
        replace l with ((rev (le_bytes 2 x) ++ rev (le_bytes 2 y)) ++ rest)
          by (rewrite <- !app_assoc; reflexivity)
    | |- context [read 5 ?l] =>
        replace l with ((rev (le_bytes 2 x) ++ rev (le_bytes 2 y) ++ [d]) ++ rest)
          by (rewrite <- !app_assoc; reflexivity)
    end;
    rewrite read_app by (rewrite ?length_app, !be_length; reflexivity);
    rewrite ?unpack_HH_pack, ?unpack_HHB_pack by tauto;
    destruct (Events.stream_events k rest) as [evs e]; reflexivity.
Qed.

Lemma stream_short_record (c : writer_call) (n : nat) (k : nat) :
  call_fits c -> (0 < n < length (call_bytes c))%nat ->
  Events.stream_events (S k) (take n (call_bytes c)) = ([], Some StructError).
Proof.
  destruct c as [x y | x y d | x y | x y | x y | x y]; cbn [call_fits];
    intros H Hn; cbn [call_bytes app] in *;
    (destruct n as [|n]; [lia|]); cbn [take];
    cbn [Events.stream_events Events.EVT_VISIT Events.EVT_CARVE
           Events.EVT_PATH_ADD Events.EVT_PATH_REM Events.EVT_SOLVER_SCAN
           Events.EVT_SOLVER_SCAN_AUX Z.eqb Pos.eqb];
    cbn [length] in Hn; rewrite ?length_app, ?be_length in Hn; cbn [length] in Hn;
    unfold read, Events.unpack_HH, Events.unpack_HHB;
    rewrite length_take, length_take, ?length_app, ?be_length;
    cbn [length Nat.add];
    match goal with
    | |- context [Nat.eqb ?a ?b] => replace (Nat.eqb a b) with false
          by (symmetry; apply Nat.eqb_neq; lia)
    end; reflexivity.
Qed.

Lemma do_calls_bytes (calls : list writer_call) (file : list Z) :
  Forall call_fits calls ->
  foldM do_call calls file = Ok (file ++ flat_map call_bytes calls).
Proof.
  revert file. induction calls as [|c calls IH]; intros file H.
  - cbn. rewrite app_nil_r. reflexivity.
  - apply Forall_cons in H. destruct H as [Hc H].
    cbn [foldM flat_map]. rewrite do_call_fits, bind_Ok by exact Hc.
    rewrite IH by exact H. rewrite <- app_assoc. reflexivity.
Qed.

Lemma stream_calls (calls : list writer_call) (tail : list Z) (k : nat) :
  Forall call_fits calls ->
  Events.stream_events (length calls + k) (flat_map call_bytes calls ++ tail) =
  (map event_of_call calls ++ fst (Events.stream_events k tail),
   snd (Events.stream_events k tail)).
Proof.
  induction calls as [|c calls IH]; intros H.
  - cbn [length flat_map map app Nat.add].
    destruct (Events.stream_events k tail); reflexivity.
  - apply Forall_cons in H. destruct H as [Hc H].
    cbn [length flat_map map app Nat.add]. rewrite <- app_assoc.
    rewrite stream_call by exact Hc. rewrite IH by exact H. reflexivity.
Qed.

Lemma stream_nil (k : nat) : Events.stream_events k [] = ([], None).
Proof. destruct k; reflexivity. Qed.

Lemma write_header_bytes (file : list Z) (w h : Z) :
  0 <= w < 2 ^ 32 -> 0 <= h < 2 ^ 32 ->
  Events.write_header file w h =
  Ok (file ++ Events.MAGIC ++ rev (le_bytes 4 w) ++ rev (le_bytes 4 h)).
Proof.
  intros Hw Hh. unfold Events.write_header, Events.pack_II.
  rewrite !pack_be_ok by (change (256 ^ Z.of_nat 4) with (2 ^ 32); assumption).
  cbn [bind]. rewrite <- app_assoc. reflexivity.
Qed.


Lemma read_header_written (w h : Z) (rest : list Z) :
  0 <= w < 2 ^ 32 -> 0 <= h < 2 ^ 32 ->
  Events.read_header
    (Events.MAGIC ++ rev (le_bytes 4 w) ++ rev (le_bytes 4 h) ++ rest) =
  Ok (w, h, rest).
Proof.
  intros Hw Hh. unfold Events.read_header.
  rewrite read_app by reflexivity.
  rewrite bool_decide_eq_true_2 by reflexivity. cbn [negb].
  rewrite (app_assoc (rev (le_bytes 4 w))).
  rewrite read_app by (rewrite length_app, !be_length; reflexivity).
  unfold Events.unpack_II. rewrite length_app, !be_length. cbn [Nat.add Nat.eqb].
  rewrite take_app_length' by (symmetry; apply be_length).
  rewrite drop_app_length' by (symmetry; apply be_length).
  rewrite !be_value_bytes by (change (256 ^ Z.of_nat 4) with (2 ^ 32); assumption).
  reflexivity.
Qed.

(** X1. A log written by the writer is read back as written: the header
    gives the dimensions, and the stream yields one event per logging
    call, in order, with the coordinates and direction that were logged,
    and ends without an exception. *)
Theorem event_log_roundtrip (w h : Z) (calls : list writer_call) (fuel : nat) :
  0 <= w < 2 ^ 32 -> 0 <= h < 2 ^ 32 ->
  Forall call_fits calls -> (length calls <= fuel)%nat ->
  exists log rest,
    (let* file := Events.write_header [] w h in foldM do_call calls file) = Ok log /\
    Events.read_header log = Ok (w, h, rest) /\
    Events.stream_events fuel rest = (map event_of_call calls, None).
Proof.
  intros Hw Hh Hfit Hfuel.
  exists (Events.MAGIC ++ rev (le_bytes 4 w) ++ rev (le_bytes 4 h) ++
          flat_map call_bytes calls), (flat_map call_bytes calls).
  split; [|split].
  - rewrite write_header_bytes by assumption. cbn [bind app].
    rewrite do_calls_bytes by exact Hfit.
    rewrite <- !app_assoc. reflexivity.
  - apply read_header_written; assumption.
  - replace fuel with (length calls + (fuel - length calls))%nat by lia.
    rewrite <- (app_nil_r (flat_map call_bytes calls)) at 1.
    rewrite stream_calls by exact Hfit.
    rewrite stream_nil. cbn [fst snd]. rewrite app_nil_r. reflexivity.
Qed.

Lemma event_log_roundtrip_witness :
  exists log rest,
    (let* file := Events.write_header [] 300 2 in
     foldM do_call [LogVisit 0 0; LogCarve 0 0 Grid.EAST; LogVisit 299 1;
                    LogSolverScan 1 0; LogPathAdd 1 0] file) = Ok log /\
    Events.read_header log = Ok (300, 2, rest) /\
    Events.stream_events 5 rest =
      (map event_of_call [LogVisit 0 0; LogCarve 0 0 Grid.EAST; LogVisit 299 1;
                          LogSolverScan 1 0; LogPathAdd 1 0], None).
Proof.
  apply (event_log_roundtrip 300 2); [lia | lia | | cbn; lia].
  repeat (apply List.Forall_cons; [cbn [call_fits]; unfold Grid.EAST; lia|]).
  apply List.Forall_nil.
Defined.

(** X2. What the log refuses: the writer raises [struct.error] for a
    coordinate that does not fit two bytes or a direction that does not fit
    one; the reader raises [ValueError] unless the file starts with
    [MAZELOG], and [struct.error] when fewer than eight bytes follow it. *)
Theorem event_log_errors :
  (forall file c, ~ call_fits c -> do_call file c = Raise StructError) /\
  (forall f, take 7 f <> Events.MAGIC -> Events.read_header f = Raise ValueError) /\
  (forall d, (length d < 8)%nat ->
             Events.read_header (Events.MAGIC ++ d) = Raise StructError).
Proof.
  split; [exact do_call_raises|]. split.
  - intros f H. unfold Events.read_header, read. change (Z.to_nat 7) with 7%nat.
    rewrite bool_decide_eq_false_2 by exact H. reflexivity.
  - intros d H. unfold Events.read_header.
    rewrite read_app by reflexivity.
    rewrite bool_decide_eq_true_2 by reflexivity. cbn [negb].
    unfold read, Events.unpack_II. rewrite length_take.
    replace (Nat.eqb (Z.to_nat 8 `min` length d) 8) with false
      by (symmetry; apply Nat.eqb_neq; lia).
    reflexivity.
Qed.

(** X3. A log cut inside a record: the stream yields the events of the
    complete records before it and then raises [struct.error]. *)
Theorem event_stream_truncated (calls : list writer_call) (c : writer_call)
    (n fuel : nat) :
  Forall call_fits calls -> call_fits c ->
  (0 < n < length (call_bytes c))%nat -> (length calls < fuel)%nat ->
  Events.stream_events fuel (flat_map call_bytes calls ++ take n (call_bytes c)) =
  (map event_of_call calls, Some StructError).
Proof.
  intros Hfit Hc Hn Hfuel.
  replace fuel with (length calls + S (fuel - length calls - 1))%nat by lia.
  rewrite stream_calls by exact Hfit.
  rewrite stream_short_record by assumption.
  cbn [fst snd]. rewrite app_nil_r. reflexivity.
Qed.

Lemma event_stream_truncated_witness :
  Events.stream_events 3
    (flat_map call_bytes [LogVisit 0 0; LogCarve 0 0 Grid.EAST] ++
     take 3 (call_bytes (LogVisit 1 0))) =
  (map event_of_call [LogVisit 0 0; LogCarve 0 0 Grid.EAST], Some StructError).
Proof.
  apply (event_stream_truncated [LogVisit 0 0; LogCarve 0 0 Grid.EAST]
           (LogVisit 1 0) 3 3); [| | cbn; lia | cbn; lia].
  - repeat (apply List.Forall_cons; [cbn [call_fits]; unfold Grid.EAST; lia|]).
  apply List.Forall_nil.
  - cbn; lia.
Defined.

(** ** Replaying a log *)

Ltac invert_binds H :=
  repeat (let a := fresh "a" in let E := fresh "E" in
          apply bind_Ok_inv in H; destruct H as (a & E & H)).








(** ** Serializer: files that are not what [save] wrote *)

Lemma take_all_but (a b : list Z) (k : nat) :
  (k <= length b)%nat ->
  take (length (a ++ b) - k) (a ++ b) = a ++ take (length b - k) b.
Proof.
  intros Hk. rewrite take_app, length_app.
  rewrite take_ge by lia. f_equal. f_equal. lia.
Qed.

Section SerializerEdges.

Variable Meta : Type.
Variable empty_dict : Meta.
Variable json_dumps : Meta -> list Z.
Variable json_loads : list Z -> result Meta.
Variable zlib_compress : list Z -> list Z.
Variable zlib_decompress : list Z -> result (list Z).

#[local] Abbreviation save :=
  (MazeSerializer.save Meta empty_dict json_dumps zlib_compress).
#[local] Abbreviation load :=
  (MazeSerializer.load Meta json_loads zlib_decompress).

Ltac field_bounds :=
  intros; unfold from_option, id in *; cbv beta iota in *;
  change (256 ^ 4) with 4294967296 in *; change (2 ^ 32) with 4294967296 in *;
  change (256 ^ 2) with 65536 in *; change (2 ^ 16) with 65536 in *;
  lia.

(** X5. [load] reads whatever payload is there: it compares its length
    neither with the stored data length nor with width times height.  A raw
    file that has lost its last [k] bytes of payload loads without an
    exception, as a grid of the stored dimensions holding the cells that
    are left. *)
Theorem load_truncated_payload (g : Grid.t) (meta : option Meta) (k : nat) :
  (forall m, json_loads (json_dumps m) = Ok m) ->
  0 <= Grid.width g < 2 ^ 32 -> 0 <= Grid.height g < 2 ^ 32 ->
  Z.of_nat (length (json_dumps (default empty_dict meta))) < 2 ^ 16 ->
  0 < Z.of_nat (length (Grid.cells g)) < 2 ^ 32 ->
  (k <= length (Grid.cells g))%nat ->
  exists file,
    save g meta false false = Ok file /\
    load (take (length file - k) file) =
    Ok (Grid.mk (Grid.width g) (Grid.height g)
          (take (length (Grid.cells g) - k) (Grid.cells g)),
        default empty_dict meta).
Proof.
  intros Hjson Hw Hh Hm Hn Hk.
  eexists. split; [apply save_layout; field_bounds|].
  cbv beta iota.
  unfold MazeSerializer.file_layout.
  repeat rewrite (app_assoc _ _ (Grid.cells g)).
  rewrite take_all_but by exact Hk.
  repeat rewrite <- (app_assoc _ _ (take _ (Grid.cells g))).
  change (MazeSerializer.MAGIC ++ [MazeSerializer.VERSION] ++ [0 + 0] ++
          (le_bytes 4 (Grid.width g) ++ le_bytes 4 (Grid.height g)) ++
          le_bytes 2 (Z.of_nat (length (json_dumps (default empty_dict meta)))) ++
          json_dumps (default empty_dict meta) ++
          le_bytes 4 (Z.of_nat (length (Grid.cells g))) ++
          take (length (Grid.cells g) - k) (Grid.cells g))
    with (MazeSerializer.file_layout MazeSerializer.MAGIC MazeSerializer.VERSION 0
            (Grid.width g) (Grid.height g) (json_dumps (default empty_dict meta))
            (Z.of_nat (length (Grid.cells g)))
            (take (length (Grid.cells g) - k) (Grid.cells g))).
  rewrite load_layout by field_bounds.
  unfold MazeSerializer.load_fields. rewrite Hjson, bind_Ok.
  change (negb (Z.land (MazeSerializer.VERSION * 0 + 0)
                  MazeSerializer.FLAG_SEED_ONLY =? 0)) with false.
  change (negb (Z.land (MazeSerializer.VERSION * 0 + 0)
                  MazeSerializer.FLAG_COMPRESSED =? 0)) with false.
  cbv beta iota.
  destruct (Z.ltb_spec 0 (Z.of_nat (length (Grid.cells g)))) as [_|]; [|lia].
  rewrite bind_Ok. rewrite take_ge by (rewrite length_take; lia).
  reflexivity.
Qed.

(** X6. The metadata comes back in every mode: whatever the seed-only and
    compression flags, the file [save] writes loads as the metadata that
    was saved, the empty dictionary when none was given. *)
Theorem save_load_metadata (g : Grid.t) (meta : option Meta)
    (seed_only compress : bool) :
  (forall m, json_loads (json_dumps m) = Ok m) ->
  (forall d, zlib_decompress (zlib_compress d) = Ok d) ->
  0 <= Grid.width g < 2 ^ 32 -> 0 <= Grid.height g < 2 ^ 32 ->
  Z.of_nat (length (json_dumps (default empty_dict meta))) < 2 ^ 16 ->
  Z.of_nat (length (if compress then zlib_compress (Grid.cells g)
                    else Grid.cells g)) < 2 ^ 32 ->
  exists file g',
    save g meta seed_only compress = Ok file /\
    load file = Ok (g', default empty_dict meta).
Proof.
  intros Hjson Hzlib Hw Hh Hm Hd.
  pose proof (save_layout Meta empty_dict json_dumps zlib_compress g meta
                seed_only compress ltac:(field_bounds) ltac:(field_bounds)
                ltac:(field_bounds) ltac:(field_bounds)) as Hsave.
  rewrite Hsave. eexists.
  cut (exists g', load (MazeSerializer.file_layout MazeSerializer.MAGIC
                    MazeSerializer.VERSION
                    ((if compress then 1 else 0) + (if seed_only then 2 else 0))
                    (Grid.width g) (Grid.height g)
                    (json_dumps (default empty_dict meta))
                    (if seed_only then 0
                     else Z.of_nat (length (if compress
                                            then zlib_compress (Grid.cells g)
                                            else Grid.cells g)))
                    (if seed_only then []
                     else if compress then zlib_compress (Grid.cells g)
                          else Grid.cells g)) =
                  Ok (g', default empty_dict meta)).
  { intros [g' E]. exists g'. split; [reflexivity | exact E]. }
  rewrite load_layout by (destruct seed_only; field_bounds).
  unfold MazeSerializer.load_fields. rewrite Hjson, bind_Ok.
  destruct seed_only.
  - destruct compress; eexists; reflexivity.
  - destruct compress.
    + change (negb (Z.land (MazeSerializer.VERSION * 0 + (1 + 0))
                      MazeSerializer.FLAG_SEED_ONLY =? 0)) with false.
      change (negb (Z.land (MazeSerializer.VERSION * 0 + (1 + 0))
                      MazeSerializer.FLAG_COMPRESSED =? 0)) with true.
      cbv beta iota.
      destruct (0 <? Z.of_nat (length (zlib_compress (Grid.cells g)))).
      * rewrite Nat2Z.id, firstn_all, Hzlib, bind_Ok. eexists. reflexivity.
      * eexists. reflexivity.
    + change (negb (Z.land (MazeSerializer.VERSION * 0 + (0 + 0))
                      MazeSerializer.FLAG_SEED_ONLY =? 0)) with false.
      change (negb (Z.land (MazeSerializer.VERSION * 0 + (0 + 0))
                      MazeSerializer.FLAG_COMPRESSED =? 0)) with false.
      cbv beta iota.
      destruct (0 <? Z.of_nat (length (Grid.cells g))); eexists; reflexivity.
Qed.

(** X7. What the serializer refuses.  [save] raises [struct.error] when the
    width, the height or the length of the encoded metadata does not fit
    its field.  [load] raises [ValueError] unless the file starts with
    [MAZE], and [struct.error] when the file ends within the twelve bytes
    of version, flags, dimensions and metadata length that follow. *)
Theorem serializer_errors :
  (forall g meta seed_only compress,
     ~ (0 <= Grid.width g < 2 ^ 32 /\ 0 <= Grid.height g < 2 ^ 32 /\
        Z.of_nat (length (json_dumps (default empty_dict meta))) < 2 ^ 16) ->
     save g meta seed_only compress = Raise StructError) /\
  (forall file, take 4 file <> MazeSerializer.MAGIC ->
                load file = Raise ValueError) /\
  (forall d, (length d < 12)%nat ->
             load (MazeSerializer.MAGIC ++ d) = Raise StructError).
Proof.
  assert (Hpack : forall n v, pack_uint n v = Ok (le_bytes n v) /\
                                0 <= v < 256 ^ Z.of_nat n \/
                              pack_uint n v = Raise StructError /\
                                ~ 0 <= v < 256 ^ Z.of_nat n).
  { intros n v. unfold pack_uint.
    destruct (Z.leb_spec 0 v); destruct (Z.ltb_spec v (256 ^ Z.of_nat n));
      cbn [andb]; [left | right ..]; split; solve [reflexivity | lia]. }
  split; [|split].
  - intros g meta seed_only compress H. unfold MazeSerializer.save.
    destruct (Hpack 1%nat MazeSerializer.VERSION) as [[-> _] | [_ Hv]];
      [|exfalso; apply Hv; unfold MazeSerializer.VERSION;
        change (256 ^ Z.of_nat 1) with 256; lia].
    rewrite bind_Ok.
    match goal with
    | |- context [pack_uint 1 ?f] =>
        destruct (Hpack 1%nat f) as [[-> _] | [_ Hf]];
          [|exfalso; apply Hf; change (256 ^ Z.of_nat 1) with 256;
            destruct compress, seed_only; vm_compute; (split; [discriminate | reflexivity])]
    end.
    rewrite bind_Ok.
    destruct (Hpack 4%nat (Grid.width g)) as [[-> Hw] | [-> Hw]];
      [rewrite bind_Ok | reflexivity].
    destruct (Hpack 4%nat (Grid.height g)) as [[-> Hh] | [-> Hh]];
      [rewrite bind_Ok | reflexivity].
    destruct (Hpack 2%nat
                (Z.of_nat (length (json_dumps (default empty_dict meta)))))
      as [[-> Hm] | [-> Hm]]; [|reflexivity].
    exfalso. apply H.
    change (256 ^ Z.of_nat 4) with (2 ^ 32) in *.
    change (256 ^ Z.of_nat 2) with (2 ^ 16) in *. lia.
  - intros file H. apply load_rejects_bad_magic. exact H.
  - intros d Hd. unfold MazeSerializer.load.
    rewrite read_app by reflexivity.
    rewrite bool_decide_eq_true_2 by reflexivity. cbn [negb].
    do 12 (destruct d as [|? d]; [reflexivity|]).
    cbn [length] in Hd. lia.
Qed.

End SerializerEdges.

Lemma load_truncated_payload_witness :
  exists file,
    MazeSerializer.save (list Z) [] id toy_compress
      (Grid.mk 2 2 [29; 23; 15; 15]) (Some [123; 125]) false false = Ok file /\
    MazeSerializer.load (list Z) Ok toy_decompress (take (length file - 3) file) =
    Ok (Grid.mk 2 2 (take (4 - 3) [29; 23; 15; 15]), [123; 125]).
Proof.
  apply (load_truncated_payload (list Z) [] id Ok toy_compress toy_decompress
           (Grid.mk 2 2 [29; 23; 15; 15]) (Some [123; 125]) 3);
    cbn; intros; solve [reflexivity | lia].
Defined.

Lemma save_load_metadata_witness :
  exists file g',
    MazeSerializer.save (list Z) [] id toy_compress
      (Grid.mk 2 1 [13; 23]) (Some [123; 125]) false true = Ok file /\
    MazeSerializer.load (list Z) Ok toy_decompress file = Ok (g', [123; 125]).
Proof.
  apply (save_load_metadata (list Z) [] id Ok toy_compress toy_decompress
           (Grid.mk 2 1 [13; 23]) (Some [123; 125]) false true);
    cbn; intros; solve [reflexivity | lia].
Defined.

(** ** How the grid operations compose *)

Lemma grid_ext (g1 g2 : Grid.t) :
  wf g1 -> wf g2 ->
  Grid.width g1 = Grid.width g2 -> Grid.height g1 = Grid.height g2 ->
  (forall x y, Grid.in_bounds g1 x y = true -> cell_at g1 x y = cell_at g2 x y) ->
  g1 = g2.
Proof.
  intros Hwf1 Hwf2 Hw Hh Hcells.
  destruct g1 as [w1 h1 c1], g2 as [w2 h2 c2]. cbn [Grid.width Grid.height] in *.
  subst w2 h2. f_equal.
  destruct Hwf1 as (Hw0 & Hh0 & Hl1 & Hby1), Hwf2 as (_ & _ & Hl2 & _).
  cbn [Grid.width Grid.height Grid.cells] in *.
  apply list_eq. intros i.
  destruct (Nat.lt_ge_cases i (length c1)) as [Hi | Hi].
  - assert (Hr : 0 <= Z.of_nat i < w1 * h1) by lia.
    assert (Hwf : wf (Grid.mk w1 h1 c1)) by (unfold wf; cbn; auto).
    destruct (index_coords (Grid.mk w1 h1 c1) (Z.of_nat i) Hwf Hr) as [Hb Hidx].
    cbn [Grid.width] in Hb, Hidx.
    specialize (Hcells _ _ Hb). unfold cell_at, look in Hcells.
    cbn [Grid.width Grid.cells] in Hcells. rewrite Hidx, Nat2Z.id in Hcells.
    destruct (lookup_lt_is_Some_2 c1 i Hi) as [v1 E1].
    destruct (lookup_lt_is_Some_2 c2 i ltac:(lia)) as [v2 E2].
    rewrite E1, E2 in *. cbn in Hcells. congruence.
  - rewrite !lookup_ge_None_2 by lia. reflexivity.
Qed.

Lemma cell_at_walled_dir (g : Grid.t) (x y d nx ny od a b : Z) :
  wf g -> Grid.in_bounds g x y = true -> Grid.in_bounds g a b = true ->
  In d directions -> Grid.toward x y d = (nx, ny, od) ->
  Grid.in_bounds g nx ny = true ->
  cell_at (walled g x y d) a b =
  if (x =? a) && (y =? b) then Z.lor (cell_at g a b) d
  else if (nx =? a) && (ny =? b) then Z.lor (cell_at g a b) od
  else cell_at g a b.
Proof.
  intros Hwf Hb Hab Hd Ht Hn.
  rewrite (cell_at_walled g x y d nx ny od a b) by
    (try assumption; apply direction_byte, Hd).
  rewrite Hn.
  assert (Hne : (x =? nx) && (y =? ny) = false).
  { apply andb_false_iff.
    destruct (toward_cases _ _ _ _ _ _ Hd Ht)
      as [ (_ & -> & -> & _) | [ (_ & -> & -> & _) | [ (_ & -> & -> & _) | (_ & -> & -> & _) ] ] ];
      [right | left | right | left]; apply Z.eqb_neq; lia. }
  rewrite Hne.
  destruct ((nx =? a) && (ny =? b)) eqn:En; destruct ((x =? a) && (y =? b)) eqn:Ex;
    try reflexivity.
  - apply andb_true_iff in En, Ex. destruct En as [E1 E2], Ex as [E3 E4].
    apply Z.eqb_eq in E1, E2, E3, E4. subst.
    rewrite !Z.eqb_refl in Hne. discriminate.
  - apply andb_true_iff in En. destruct En as [E1 E2].
    apply Z.eqb_eq in E1, E2. subst. reflexivity.
  - apply andb_true_iff in Ex. destruct Ex as [E1 E2].
    apply Z.eqb_eq in E1, E2. subst. reflexivity.
Qed.

Lemma bits_clear_clear (c d : Z) :
  Z.land (Z.land c (Z.lnot d)) (Z.lnot d) = Z.land c (Z.lnot d).
Proof. rewrite <- Z.land_assoc, Z.land_diag. reflexivity. Qed.

Lemma bits_set_set (c d : Z) : Z.lor (Z.lor c d) d = Z.lor c d.
Proof. rewrite <- Z.lor_assoc, Z.lor_diag. reflexivity. Qed.

Lemma bits_clear_set (c d : Z) : Z.lor (Z.land c (Z.lnot d)) d = Z.lor c d.
Proof.
  apply Z.bits_inj'. intros n Hn.
  rewrite !Z.lor_spec, Z.land_spec, Z.lnot_spec by exact Hn.
  destruct (Z.testbit c n), (Z.testbit d n); reflexivity.
Qed.

Lemma bits_set_clear (c d : Z) : Z.land (Z.lor c d) (Z.lnot d) = Z.land c (Z.lnot d).
Proof.
  apply Z.bits_inj'. intros n Hn.
  rewrite !Z.land_spec, Z.lor_spec, Z.lnot_spec by exact Hn.
  destruct (Z.testbit c n), (Z.testbit d n); reflexivity.
Qed.

Lemma neighbor_is_other_cell (x y d nx ny od : Z) :
  In d directions -> Grid.toward x y d = (nx, ny, od) ->
  forall a b, (x =? a) && (y =? b) = true -> (nx =? a) && (ny =? b) = false.
Proof.
  intros Hd Ht a b E. apply andb_true_iff in E. destruct E as [E1 E2].
  apply Z.eqb_eq in E1, E2. subst a b. apply andb_false_iff.
  destruct (toward_cases _ _ _ _ _ _ Hd Ht)
    as [ (_ & -> & -> & _) | [ (_ & -> & -> & _) | [ (_ & -> & -> & _) | (_ & -> & -> & _) ] ] ];
    [right | left | right | left]; apply Z.eqb_neq; lia.
Qed.

Lemma carved_width (g : Grid.t) (x y d : Z) :
  Grid.width (carved g x y d) = Grid.width g.
Proof. apply carved_dims. Qed.

Lemma carved_height (g : Grid.t) (x y d : Z) :
  Grid.height (carved g x y d) = Grid.height g.
Proof. apply carved_dims. Qed.

Lemma walled_width (g : Grid.t) (x y d : Z) :
  Grid.width (walled g x y d) = Grid.width g.
Proof. apply walled_dims. Qed.

Lemma walled_height (g : Grid.t) (x y d : Z) :
  Grid.height (walled g x y d) = Grid.height g.
Proof. apply walled_dims. Qed.

Ltac grid_dims :=
  repeat first [rewrite carved_width | rewrite carved_height
               | rewrite walled_width | rewrite walled_height];
  reflexivity.

(** X8. The two wall mutators on a pair of adjacent cells of the lattice:
    each is idempotent, the later call wins over the earlier one, and the
    wall can be carved or added from either of its two sides with the same
    result. *)
Theorem wall_mutators_compose (g : Grid.t) (x y d nx ny od : Z) :
  wf g -> Grid.in_bounds g x y = true -> In d directions ->
  Grid.toward x y d = (nx, ny, od) -> Grid.in_bounds g nx ny = true ->
  exists gc gw,
    Grid.carve_path g x y d = Ok gc /\ Grid.add_wall g x y d = Ok gw /\
    Grid.carve_path gc x y d = Ok gc /\ Grid.add_wall gw x y d = Ok gw /\
    Grid.add_wall gc x y d = Ok gw /\ Grid.carve_path gw x y d = Ok gc /\
    Grid.carve_path g nx ny od = Ok gc /\ Grid.add_wall g nx ny od = Ok gw.
Proof.
  intros Hwf Hb Hd Ht Hn.
  pose proof (direction_byte d Hd) as Hbyte.
  pose proof (toward_opposite_direction _ _ _ _ _ _ Hd Ht) as Hod.
  pose proof (toward_back _ _ _ _ _ _ Hd Ht) as Hback.
  pose proof (carved_wf g x y d Hwf) as Hwfc.
  pose proof (walled_wf g x y d Hwf Hbyte) as Hwfw.
  destruct (carved_dims g x y d) as [Hcw Hch].
  destruct (walled_dims g x y d) as [Hww Hwh].
  assert (Hbc : forall a b, Grid.in_bounds (carved g x y d) a b = Grid.in_bounds g a b)
    by (intros; apply in_bounds_dims; assumption).
  assert (Hbw : forall a b, Grid.in_bounds (walled g x y d) a b = Grid.in_bounds g a b)
    by (intros; apply in_bounds_dims; assumption).
  pose proof (neighbor_is_other_cell _ _ _ _ _ _ Hd Ht) as Hother.
  exists (carved g x y d), (walled g x y d).
  rewrite !carve_path_carved, !add_wall_walled
    by (rewrite ?Hbc, ?Hbw; try assumption; apply direction_byte; assumption).
  assert (Hin : forall G a b, Grid.width G = Grid.width g ->
                              Grid.height G = Grid.height g ->
                              Grid.in_bounds G a b = Grid.in_bounds g a b)
    by (intros; apply in_bounds_dims; assumption).
  repeat split; f_equal.
  - apply grid_ext;
      [apply carved_wf, Hwfc | exact Hwfc | grid_dims | grid_dims |].
    intros a b Hab. rewrite Hin in Hab by grid_dims.
    rewrite (cell_at_carved_dir (carved g x y d) x y d nx ny od a b)
      by (rewrite ?Hbc; assumption).
    rewrite (cell_at_carved_dir g x y d nx ny od a b) by assumption.
    destruct ((x =? a) && (y =? b)); [apply bits_clear_clear|].
    destruct ((nx =? a) && (ny =? b)); [apply bits_clear_clear | reflexivity].
  - apply grid_ext;
      [apply walled_wf; assumption | exact Hwfw | grid_dims | grid_dims |].
    intros a b Hab.
    rewrite Hin in Hab by grid_dims.
    rewrite (cell_at_walled_dir (walled g x y d) x y d nx ny od a b)
      by (rewrite ?Hbw; assumption).
    rewrite (cell_at_walled_dir g x y d nx ny od a b) by assumption.
    destruct ((x =? a) && (y =? b)); [apply bits_set_set|].
    destruct ((nx =? a) && (ny =? b)); [apply bits_set_set | reflexivity].
  - apply grid_ext;
      [apply walled_wf; assumption | exact Hwfw
      | grid_dims | grid_dims |].
    intros a b Hab.
    rewrite Hin in Hab by grid_dims.
    rewrite (cell_at_walled_dir (carved g x y d) x y d nx ny od a b)
      by (rewrite ?Hbc; assumption).
    rewrite (cell_at_walled_dir g x y d nx ny od a b) by assumption.
    rewrite (cell_at_carved_dir g x y d nx ny od a b) by assumption.
    destruct ((x =? a) && (y =? b)); [apply bits_clear_set|].
    destruct ((nx =? a) && (ny =? b)); [apply bits_clear_set | reflexivity].
  - apply grid_ext;
      [apply carved_wf; assumption | exact Hwfc
      | grid_dims | grid_dims |].
    intros a b Hab.
    rewrite Hin in Hab by grid_dims.
    rewrite (cell_at_carved_dir (walled g x y d) x y d nx ny od a b)
      by (rewrite ?Hbw; assumption).
    rewrite (cell_at_carved_dir g x y d nx ny od a b) by assumption.
    rewrite (cell_at_walled_dir g x y d nx ny od a b) by assumption.
    destruct ((x =? a) && (y =? b)); [apply bits_set_clear|].
    destruct ((nx =? a) && (ny =? b)); [apply bits_set_clear | reflexivity].
  - apply grid_ext;
      [apply carved_wf; assumption | exact Hwfc
      | grid_dims | grid_dims |].
    intros a b Hab.
    rewrite Hin in Hab by grid_dims.
    rewrite (cell_at_carved_dir g nx ny od x y d a b) by assumption.
    rewrite (cell_at_carved_dir g x y d nx ny od a b) by assumption.
    destruct ((x =? a) && (y =? b)) eqn:Ex.
    + rewrite (Hother a b Ex). reflexivity.
    + reflexivity.
  - apply grid_ext;
      [apply walled_wf; [assumption | apply direction_byte, Hod] | exact Hwfw
      | grid_dims | grid_dims |].
    intros a b Hab.
    rewrite Hin in Hab by grid_dims.
    rewrite (cell_at_walled_dir g nx ny od x y d a b) by assumption.
    rewrite (cell_at_walled_dir g x y d nx ny od a b) by assumption.
    destruct ((x =? a) && (y =? b)) eqn:Ex.
    + rewrite (Hother a b Ex). reflexivity.
    + reflexivity.
Qed.

Lemma wall_mutators_compose_witness :
  exists gc gw,
    Grid.carve_path (Grid.mk 2 1 [29; 15]) 0 0 Grid.EAST = Ok gc /\
    Grid.add_wall (Grid.mk 2 1 [29; 15]) 0 0 Grid.EAST = Ok gw /\
    Grid.carve_path gc 0 0 Grid.EAST = Ok gc /\
    Grid.add_wall gw 0 0 Grid.EAST = Ok gw /\
    Grid.add_wall gc 0 0 Grid.EAST = Ok gw /\
    Grid.carve_path gw 0 0 Grid.EAST = Ok gc /\
    Grid.carve_path (Grid.mk 2 1 [29; 15]) 1 0 Grid.WEST = Ok gc /\
    Grid.add_wall (Grid.mk 2 1 [29; 15]) 1 0 Grid.WEST = Ok gw.
Proof.
  apply (wall_mutators_compose (Grid.mk 2 1 [29; 15]) 0 0 Grid.EAST 1 0 Grid.WEST).
  - unfold wf; simpl. repeat split; try lia. repeat constructor.
  - reflexivity.
  - simpl. auto.
  - reflexivity.
  - reflexivity.
Defined.

(** X9. [get_open_neighbors] is [get_neighbors] filtered by [has_wall]:
    on a cell of the lattice it yields, in the same order, the neighbours
    toward which the cell has no wall, which are the cells one open move
    away. *)
Theorem open_neighbors_are_unwalled_neighbors (g : Grid.t) (x y : Z) :
  wf g -> Grid.in_bounds g x y = true ->
  Grid.get_open_neighbors g x y =
    Ok (map (fun n => (fst (fst n), snd (fst n)))
          (List.filter (fun n => negb (has_bit (cell_at g x y) (snd n)))
             (Grid.get_neighbors g x y))) /\
  forall q, In q (map (fun n => (fst (fst n), snd (fst n)))
                    (List.filter (fun n => negb (has_bit (cell_at g x y) (snd n)))
                       (Grid.get_neighbors g x y))) <->
            step g (x, y) q.
Proof.
  intros Hwf Hb. split.
  - unfold Grid.get_open_neighbors, Grid.get_neighbors.
    rewrite getitem_cell, bind_Ok by assumption.
    unfold has_bit.
    destruct (0 <? y); destruct (y <? Grid.height g - 1);
      destruct (x <? Grid.width g - 1); destruct (0 <? x);
      cbn [app List.filter snd];
      destruct (Z.land (cell_at g x y) Grid.NORTH =? 0);
      destruct (Z.land (cell_at g x y) Grid.SOUTH =? 0);
      destruct (Z.land (cell_at g x y) Grid.EAST =? 0);
      destruct (Z.land (cell_at g x y) Grid.WEST =? 0);
      reflexivity.
  - intros q. rewrite in_map_iff. split.
    + intros ([[nx ny] d] & Eq & Hin). cbn [fst snd] in Eq. subst q.
      apply filter_In in Hin. destruct Hin as [Hin Hopen]. cbn [snd] in Hopen.
      apply negb_true_iff in Hopen.
      destruct (get_neighbors_toward g _ _ _ _ _ Hb Hin) as (Hnb & Hd & od & Ht).
      split; [exact Hb|]. split; [exact Hnb|]. exists d, od. auto.
    + intros (_ & Hq & d & od & Hd & Ht & Hopen). cbn [fst snd] in *.
      exists (fst q, snd q, d). split; [destruct q; reflexivity|].
      apply filter_In. split.
      * eapply toward_in_neighbors; eassumption.
      * cbn [snd]. rewrite Hopen. reflexivity.
Qed.

Lemma open_neighbors_are_unwalled_neighbors_witness :
  Grid.get_open_neighbors (Grid.mk 2 2 [29; 19; 31; 30]) 1 0 =
    Ok (map (fun n => (fst (fst n), snd (fst n)))
          (List.filter
             (fun n => negb (has_bit (cell_at (Grid.mk 2 2 [29; 19; 31; 30]) 1 0) (snd n)))
             (Grid.get_neighbors (Grid.mk 2 2 [29; 19; 31; 30]) 1 0))) /\
  forall q, In q (map (fun n => (fst (fst n), snd (fst n)))
                    (List.filter
                       (fun n => negb (has_bit (cell_at (Grid.mk 2 2 [29; 19; 31; 30]) 1 0)
                                         (snd n)))
                       (Grid.get_neighbors (Grid.mk 2 2 [29; 19; 31; 30]) 1 0))) <->
            step (Grid.mk 2 2 [29; 19; 31; 30]) (1, 0) q.
Proof.
  apply (open_neighbors_are_unwalled_neighbors (Grid.mk 2 2 [29; 19; 31; 30]) 1 0).
  - unfold wf; simpl. repeat split; try lia. repeat constructor.
  - reflexivity.
Defined.

(** X10. The carved flag and the walls do not interfere: [set_visited] on
    a cell of the lattice sets or clears the flag [is_visited] reads there
    and changes neither the flag of another cell nor any wall, and
    [carve_path] changes no flag. *)
Theorem visited_flag_frame (g : Grid.t) (x y : Z) (v : bool) :
  wf g -> Grid.in_bounds g x y = true ->
  exists g',
    Grid.set_visited g x y v = Ok g' /\ wf g' /\
    Grid.is_visited g' x y = Ok v /\
    (forall a b, Grid.in_bounds g a b = true -> (a, b) <> (x, y) ->
                 Grid.is_visited g' a b = Grid.is_visited g a b) /\
    (forall a b d, Grid.in_bounds g a b = true -> In d directions ->
                   Grid.has_wall g' a b d = Grid.has_wall g a b d) /\
    (forall d a b, In d directions -> Grid.in_bounds g a b = true ->
                   exists gc, Grid.carve_path g x y d = Ok gc /\
                              Grid.is_visited gc a b = Grid.is_visited g a b).
Proof.
  intros Hwf Hb.
  set (c' := if v then Z.lor (cell_at g x y) Grid.VISITED
             else Z.land (cell_at g x y) (Z.lnot Grid.VISITED)).
  assert (Hbyte : is_byte c' = true).
  { unfold c'. destruct v.
    - apply byte_lor; [apply cell_at_byte, Hwf | reflexivity].
    - apply byte_land, cell_at_byte, Hwf. }
  assert (Hwf' : wf (write_cell g x y c')) by (apply write_cell_wf; assumption).
  assert (Hin : forall a b, Grid.in_bounds (write_cell g x y c') a b =
                            Grid.in_bounds g a b) by reflexivity.
  exists (write_cell g x y c').
  split; [|split; [exact Hwf'|split; [|split; [|split]]]].
  - unfold Grid.set_visited. rewrite getitem_cell, bind_Ok by assumption.
    fold c'. rewrite setitem_cell, bind_Ok by assumption. reflexivity.
  - rewrite is_visited_cell by (rewrite ?Hin; assumption).
    rewrite cell_at_write by assumption. rewrite !Z.eqb_refl. cbn [andb].
    unfold c'. destruct v.
    + rewrite has_bit_set_same by discriminate. reflexivity.
    + rewrite has_bit_clear_same. reflexivity.
  - intros a b Hab Hne.
    rewrite !is_visited_cell by (rewrite ?Hin; assumption).
    rewrite cell_at_write by assumption.
    destruct ((x =? a) && (y =? b)) eqn:E; [|reflexivity].
    apply andb_true_iff in E. destruct E as [E1 E2].
    apply Z.eqb_eq in E1, E2. subst. contradiction.
  - intros a b d Hab Hd.
    rewrite !has_wall_cell by (rewrite ?Hin; assumption).
    rewrite cell_at_write by assumption.
    destruct ((x =? a) && (y =? b)) eqn:E; [|reflexivity].
    apply andb_true_iff in E. destruct E as [E1 E2].
    apply Z.eqb_eq in E1, E2. subst a b. unfold c'. destruct v.
    + rewrite has_bit_dir_mark by exact Hd. reflexivity.
    + rewrite has_bit_clear_other; [reflexivity|].
      apply directions_cases in Hd.
      destruct Hd as [ -> | [ -> | [ -> | -> ] ] ]; reflexivity.
  - intros d a b Hd Hab. exists (carved g x y d).
    split; [apply carve_path_carved; assumption|].
    rewrite !is_visited_cell
      by (rewrite ?(in_bounds_dims g) by apply carved_dims;
          first [assumption | apply carved_wf, Hwf]).
    destruct (Grid.toward x y d) as [[nx ny] od] eqn:Ht.
    rewrite (cell_at_carved g x y d nx ny od a b) by assumption.
    pose proof (toward_opposite_direction _ _ _ _ _ _ Hd Ht) as Hod.
    destruct (Grid.in_bounds g nx ny); [|reflexivity].
    destruct ((nx =? a) && (ny =? b)) eqn:En.
    + apply andb_true_iff in En. destruct En as [E1 E2].
      apply Z.eqb_eq in E1, E2. subst a b.
      rewrite has_bit_visited_clear by exact Hod.
      destruct ((x =? nx) && (y =? ny)) eqn:Ex; [|reflexivity].
      apply andb_true_iff in Ex. destruct Ex as [E1 E2].
      apply Z.eqb_eq in E1, E2. subst nx ny.
      rewrite has_bit_visited_clear by exact Hd. reflexivity.
    + destruct ((x =? a) && (y =? b)) eqn:Ex; [|reflexivity].
      apply andb_true_iff in Ex. destruct Ex as [E1 E2].
      apply Z.eqb_eq in E1, E2. subst a b.
      rewrite has_bit_visited_clear by exact Hd. reflexivity.
Qed.

Lemma visited_flag_frame_witness :
  exists g',
    Grid.set_visited (Grid.mk 2 1 [29; 15]) 1 0 true = Ok g' /\ wf g' /\
    Grid.is_visited g' 1 0 = Ok true /\
    (forall a b, Grid.in_bounds (Grid.mk 2 1 [29; 15]) a b = true -> (a, b) <> (1, 0) ->
                 Grid.is_visited g' a b = Grid.is_visited (Grid.mk 2 1 [29; 15]) a b) /\
    (forall a b d, Grid.in_bounds (Grid.mk 2 1 [29; 15]) a b = true -> In d directions ->
                   Grid.has_wall g' a b d = Grid.has_wall (Grid.mk 2 1 [29; 15]) a b d) /\
    (forall d a b, In d directions -> Grid.in_bounds (Grid.mk 2 1 [29; 15]) a b = true ->
                   exists gc, Grid.carve_path (Grid.mk 2 1 [29; 15]) 1 0 d = Ok gc /\
                              Grid.is_visited gc a b =
                              Grid.is_visited (Grid.mk 2 1 [29; 15]) a b).
Proof.
  apply (visited_flag_frame (Grid.mk 2 1 [29; 15]) 1 0 true).
  - unfold wf; simpl. repeat split; try lia. repeat constructor.
  - reflexivity.
Defined.

(** ** Statistics *)

Lemma foldM_app {A S : Type} (f : S -> A -> result S) (l1 l2 : list A) (s : S) :
  foldM f (l1 ++ l2) s = let* s' := foldM f l1 s in foldM f l2 s'.
Proof.
  revert s. induction l1 as [|a l1 IH]; intros s; [reflexivity|].
  cbn [app foldM]. destruct (f s a) as [s1|e]; cbn [bind]; [apply IH | reflexivity].
Qed.

(** Reading a list through its indices, in order. *)
Lemma foldM_indices {S : Type} (l : list Z) (f : S -> Z -> result S)
    (step : S -> Z -> S) :
  (forall s c, f s c = Ok (step s c)) ->
  forall (pre rest : list Z) (s : S),
    l = pre ++ rest ->
    foldM (fun s i => let* c := getitem l i in f s c)
      (seqZ (Z.of_nat (length pre)) (Z.of_nat (length rest))) s =
    Ok (fold_left step rest s).
Proof.
  intros Hf pre rest. revert pre.
  induction rest as [|c rest IH]; intros pre s El; [reflexivity|].
  cbn [length]. rewrite Nat2Z.inj_succ, seqZ_cons by lia.
  cbn [foldM fold_left].
  rewrite getitem_inrange by (rewrite El, length_app; cbn [length]; lia).
  unfold look. rewrite Nat2Z.id, El, lookup_app_r, Nat.sub_diag by lia.
  cbn [lookup list_lookup default from_option id bind].
  rewrite Hf. cbn [bind].
  replace (Z.succ (Z.of_nat (length pre))) with (Z.of_nat (length (pre ++ [c])))
    by (rewrite length_app; cbn [length]; lia).
  replace (Z.pred (Z.succ (Z.of_nat (length rest)))) with (Z.of_nat (length rest)) by lia.
  rewrite <- El. apply IH. rewrite El, <- app_assoc. reflexivity.
Qed.

Lemma count_walls_total (l : list Z) :
  Z.of_nat (length (List.filter (fun c => MazePostProcessor.popcount_walls c =? 0) l)) +
  Z.of_nat (length (List.filter (fun c => MazePostProcessor.popcount_walls c =? 1) l)) +
  Z.of_nat (length (List.filter (fun c => MazePostProcessor.popcount_walls c =? 2) l)) +
  Z.of_nat (length (List.filter (fun c => MazePostProcessor.popcount_walls c =? 3) l)) +
  Z.of_nat (length (List.filter (fun c => MazePostProcessor.popcount_walls c =? 4) l)) =
  Z.of_nat (length l).
Proof.
  induction l as [|c l IH]; [reflexivity|].
  cbn [List.filter length].
  pose proof (popcount_walls_range c) as Hr.
  destruct (Z.eqb_spec (MazePostProcessor.popcount_walls c) 0);
    destruct (Z.eqb_spec (MazePostProcessor.popcount_walls c) 1);
    destruct (Z.eqb_spec (MazePostProcessor.popcount_walls c) 2);
    destruct (Z.eqb_spec (MazePostProcessor.popcount_walls c) 3);
    destruct (Z.eqb_spec (MazePostProcessor.popcount_walls c) 4);
    cbn [length]; lia.
Qed.

Lemma classify_fold (l : list Z) (a b c : Z) :
  fold_left
    (fun (acc : Z * Z * Z) cell =>
       let walls := MazePostProcessor.popcount_walls cell in
       if walls =? 3 then (acc.1.1 + 1, acc.1.2, acc.2)
       else if walls =? 2 then (acc.1.1, acc.1.2 + 1, acc.2)
       else if walls <=? 1 then (acc.1.1, acc.1.2, acc.2 + 1)
       else acc) l (a, b, c) =
  (a + Z.of_nat (length (List.filter (fun c => MazePostProcessor.popcount_walls c =? 3) l)),
   b + Z.of_nat (length (List.filter (fun c => MazePostProcessor.popcount_walls c =? 2) l)),
   c + (Z.of_nat (length (List.filter (fun c => MazePostProcessor.popcount_walls c =? 0) l)) +
        Z.of_nat (length (List.filter (fun c => MazePostProcessor.popcount_walls c =? 1) l)))).
Proof.
  revert a b c. induction l as [|cell l IH]; intros a b c.
  - cbn. apply pair_equal_spec; split; [apply pair_equal_spec; split|]; lia.
  - cbn [fold_left List.filter]. cbv zeta.
    pose proof (popcount_walls_range cell) as Hr.
    destruct (Z.eqb_spec (MazePostProcessor.popcount_walls cell) 3);
      destruct (Z.eqb_spec (MazePostProcessor.popcount_walls cell) 2);
      destruct (Z.eqb_spec (MazePostProcessor.popcount_walls cell) 0);
      destruct (Z.eqb_spec (MazePostProcessor.popcount_walls cell) 1);
      destruct (Z.leb_spec (MazePostProcessor.popcount_walls cell) 1);
      try lia; cbn [fst snd]; rewrite IH; cbn [length];
      (apply pair_equal_spec; split; [apply pair_equal_spec; split|]; lia).
Qed.

Lemma foldM_ext {A S : Type} (f f' : S -> A -> result S) (l : list A) (s : S) :
  (forall s a, f s a = f' s a) -> foldM f l s = foldM f' l s.
Proof.
  intros H. revert s. induction l as [|a l IH]; intros s; [reflexivity|].
  cbn [foldM]. rewrite H. destruct (f' s a); cbn [bind]; [apply IH | reflexivity].
Qed.

Lemma classify_reads (g : Grid.t) (pre rest : list Z) (acc : Z * Z * Z) :
  Grid.cells g = pre ++ rest ->
  foldM (MazeStats.classify g)
    (seqZ (Z.of_nat (length pre)) (Z.of_nat (length rest))) acc =
  Ok (fold_left
        (fun (acc : Z * Z * Z) cell =>
           let walls := MazePostProcessor.popcount_walls cell in
           if walls =? 3 then (acc.1.1 + 1, acc.1.2, acc.2)
           else if walls =? 2 then (acc.1.1, acc.1.2 + 1, acc.2)
           else if walls <=? 1 then (acc.1.1, acc.1.2, acc.2 + 1)
           else acc) rest acc).
Proof.
  intros El.
  rewrite (foldM_ext (MazeStats.classify g)
             (fun s i =>
                let* c := getitem (Grid.cells g) i in
                (fun (acc : Z * Z * Z) cell =>
                   let walls := MazePostProcessor.popcount_walls cell in
                   if walls =? 3 then Ok (acc.1.1 + 1, acc.1.2, acc.2)
                   else if walls =? 2 then Ok (acc.1.1, acc.1.2 + 1, acc.2)
                   else if walls <=? 1 then Ok (acc.1.1, acc.1.2, acc.2 + 1)
                   else Ok acc) s c)).
  - apply foldM_indices; [|exact El].
    intros s cell. cbv zeta.
    destruct (_ =? 3); [reflexivity|].
    destruct (_ =? 2); [reflexivity|].
    destruct (_ <=? 1); reflexivity.
  - intros [[a b] c] i. unfold MazeStats.classify. reflexivity.
Qed.

(** X11. [calculate_stats] on a well-formed grid: the dead ends are the
    cells with three walls, the corridors those with two, the
    intersections those with one or none; the cells with four walls are
    in none of the three classes, so the three counts add up to the number
    of cells less the fully walled ones. *)
Theorem calculate_stats_counts (g : Grid.t) :
  wf g ->
  exists st,
    MazeStats.calculate_stats g = Ok st /\
    MazeStats.dead_ends st = cells_with_walls g 3 /\
    MazeStats.corridors st = cells_with_walls g 2 /\
    MazeStats.intersections st = cells_with_walls g 0 + cells_with_walls g 1 /\
    MazeStats.dead_ends st + MazeStats.corridors st + MazeStats.intersections st =
      Grid.width g * Grid.height g - cells_with_walls g 4.
Proof.
  intros (Hw & Hh & Hlen & _).
  unfold MazeStats.calculate_stats.
  pose proof (classify_reads g [] (Grid.cells g) (0, 0, 0) eq_refl) as Hfold.
  cbn [length] in Hfold. change (Z.of_nat 0) with 0 in Hfold.
  replace (Z.of_nat (length (Grid.cells g))) with (Grid.width g * Grid.height g)
    in Hfold by (rewrite Hlen; lia).
  rewrite Hfold, classify_fold. cbn [bind].
  eexists. split; [reflexivity|]. cbn [MazeStats.dead_ends MazeStats.corridors
                                       MazeStats.intersections].
  unfold cells_with_walls.
  pose proof (count_walls_total (Grid.cells g)) as Htot.
  rewrite Hlen in Htot. repeat split; lia.
Qed.

Lemma calculate_stats_counts_witness :
  exists st,
    MazeStats.calculate_stats (Grid.mk 2 2 [29; 19; 31; 30]) = Ok st /\
    MazeStats.dead_ends st = cells_with_walls (Grid.mk 2 2 [29; 19; 31; 30]) 3 /\
    MazeStats.corridors st = cells_with_walls (Grid.mk 2 2 [29; 19; 31; 30]) 2 /\
    MazeStats.intersections st =
      cells_with_walls (Grid.mk 2 2 [29; 19; 31; 30]) 0 +
      cells_with_walls (Grid.mk 2 2 [29; 19; 31; 30]) 1 /\
    MazeStats.dead_ends st + MazeStats.corridors st + MazeStats.intersections st =
      Grid.width (Grid.mk 2 2 [29; 19; 31; 30]) *
      Grid.height (Grid.mk 2 2 [29; 19; 31; 30]) -
      cells_with_walls (Grid.mk 2 2 [29; 19; 31; 30]) 4.
Proof.
  apply (calculate_stats_counts (Grid.mk 2 2 [29; 19; 31; 30])).
  unfold wf; simpl. repeat split; try lia. repeat constructor.
Defined.

(** X12. [calculate_stats] indexes the cell array up to width times height
    without a test: on a grid whose array is shorter, as [load] returns for
    a file with a short payload, it raises [IndexError]. *)
Theorem calculate_stats_short_array (g : Grid.t) :
  Z.of_nat (length (Grid.cells g)) < Grid.width g * Grid.height g ->
  MazeStats.calculate_stats g = Raise IndexError.
Proof.
  intros Hshort. unfold MazeStats.calculate_stats.
  replace (Grid.width g * Grid.height g)
    with (Z.of_nat (length (Grid.cells g)) +
          (Grid.width g * Grid.height g - Z.of_nat (length (Grid.cells g)))) at 1 by lia.
  rewrite seqZ_app by lia. rewrite foldM_app.
  pose proof (classify_reads g [] (Grid.cells g) (0, 0, 0) eq_refl) as Hfold.
  cbn [length] in Hfold. change (Z.of_nat 0) with 0 in Hfold.
  rewrite Hfold. cbn [bind].
  rewrite seqZ_cons by lia. cbn [foldM].
  destruct (fold_left _ (Grid.cells g) (0, 0, 0)) as [[a b] c].
  unfold MazeStats.classify.
  rewrite getitem_raises by lia. reflexivity.
Qed.

Lemma calculate_stats_short_array_witness :
  MazeStats.calculate_stats (Grid.mk 2 2 [29; 19; 31]) = Raise IndexError.
Proof.
  apply (calculate_stats_short_array (Grid.mk 2 2 [29; 19; 31])). cbn. lia.
Defined.

(** ** Braiding opens walls and nothing else *)

Lemma only_opened_refl (g : Grid.t) : wf g -> only_opened g g.
Proof.
  intros Hwf. split; [exact Hwf|]. split; [reflexivity|]. split; [reflexivity|].
  intros x y _. split; auto.
Qed.

Lemma only_opened_trans (g1 g2 g3 : Grid.t) :
  only_opened g1 g2 -> only_opened g2 g3 -> only_opened g1 g3.
Proof.
  intros (Hwf2 & Hw2 & Hh2 & H12) (Hwf3 & Hw3 & Hh3 & H23).
  split; [exact Hwf3|]. split; [congruence|]. split; [congruence|].
  intros x y Hb.
  assert (Hb2 : Grid.in_bounds g2 x y = true)
    by (unfold Grid.in_bounds; rewrite Hw2, Hh2; exact Hb).
  destruct (H12 x y Hb) as [Hd12 Hf12]. destruct (H23 x y Hb2) as [Hd23 Hf23].
  split.
  - intros d Hd H. apply Hd12, Hd23; assumption.
  - intros f Hf. rewrite Hf23, Hf12 by assumption. reflexivity.
Qed.

Lemma has_bit_clear_dir (c d e : Z) :
  In d directions -> In e directions ->
  has_bit (Z.land c (Z.lnot d)) e = if e =? d then false else has_bit c e.
Proof.
  intros Hd He. destruct (Z.eqb_spec e d) as [-> | Hne].
  - apply has_bit_clear_same.
  - apply has_bit_clear_other.
    apply directions_cases in Hd, He.
    destruct Hd as [ -> | [ -> | [ -> | -> ] ] ];
      destruct He as [ -> | [ -> | [ -> | -> ] ] ];
      first [reflexivity | contradiction].
Qed.

Lemma has_bit_clear_flag (c d f : Z) :
  In d directions -> In f flag_bits ->
  has_bit (Z.land c (Z.lnot d)) f = has_bit c f.
Proof.
  intros Hd Hf. apply has_bit_clear_other.
  apply directions_cases in Hd. cbn in Hf.
  destruct Hd as [ -> | [ -> | [ -> | -> ] ] ];
    destruct Hf as [ <- | [ <- | [ <- | [ <- | [] ] ] ] ]; reflexivity.
Qed.

(** The wall bits after a carve between two cells of the lattice. *)
Lemma carved_wall_bits (g : Grid.t) (x y d nx ny od : Z) (p : Z * Z) (e : Z) :
  wf g -> Grid.in_bounds g x y = true -> In d directions ->
  Grid.toward x y d = (nx, ny, od) -> Grid.in_bounds g nx ny = true ->
  Grid.in_bounds g (fst p) (snd p) = true -> In e directions ->
  has_bit (cell_at (carved g x y d) (fst p) (snd p)) e =
  if (coord_eqb p (x, y) && (e =? d)) || (coord_eqb p (nx, ny) && (e =? od))
  then false else has_bit (cell_at g (fst p) (snd p)) e.
Proof.
  intros Hwf Hb Hd Ht Hn Hp He.
  pose proof (toward_opposite_direction _ _ _ _ _ _ Hd Ht) as Hod.
  rewrite (cell_at_carved_dir g x y d nx ny od) by assumption.
  unfold coord_eqb. cbn [fst snd].
  rewrite (Z.eqb_sym (fst p) x), (Z.eqb_sym (snd p) y),
          (Z.eqb_sym (fst p) nx), (Z.eqb_sym (snd p) ny).
  destruct ((x =? fst p) && (y =? snd p)) eqn:Ex.
  - rewrite (neighbor_is_other_cell _ _ _ _ _ _ Hd Ht _ _ Ex).
    rewrite has_bit_clear_dir by assumption. cbn [andb orb].
    rewrite orb_false_r. destruct (e =? d); reflexivity.
  - cbn [andb orb]. destruct ((nx =? fst p) && (ny =? snd p)).
    + rewrite has_bit_clear_dir by assumption. cbn [andb].
      destruct (e =? od); reflexivity.
    + reflexivity.
Qed.

Lemma carved_only_opened (g : Grid.t) (x y d nx ny od : Z) :
  wf g -> Grid.in_bounds g x y = true -> In d directions ->
  Grid.toward x y d = (nx, ny, od) -> Grid.in_bounds g nx ny = true ->
  only_opened g (carved g x y d).
Proof.
  intros Hwf Hb Hd Ht Hn.
  pose proof (toward_opposite_direction _ _ _ _ _ _ Hd Ht) as Hod.
  split; [apply carved_wf, Hwf|]. split; [apply carved_dims|].
  split; [apply carved_dims|]. intros a b Hab. split.
  - intros e He.
    pose proof (carved_wall_bits g x y d nx ny od (a, b) e Hwf Hb Hd Ht Hn Hab He) as E.
    cbn [fst snd] in E. rewrite E.
    destruct (_ || _); [discriminate | auto].
  - intros f Hf. rewrite (cell_at_carved_dir g x y d nx ny od) by assumption.
    destruct ((x =? a) && (y =? b)); [apply has_bit_clear_flag; assumption|].
    destruct ((nx =? a) && (ny =? b)); [apply has_bit_clear_flag; assumption|].
    reflexivity.
Qed.

(** Carving a wall that stands between two cells of the lattice opens
    exactly one wall pair. *)
Lemma carved_adds_pair (g : Grid.t) (x y d nx ny od : Z) :
  wf g -> symmetric_cells g ->
  Grid.in_bounds g x y = true -> In d directions ->
  Grid.toward x y d = (nx, ny, od) -> Grid.in_bounds g nx ny = true ->
  has_bit (cell_at g x y) d = true ->
  open_wall_pairs (carved g x y d) = S (open_wall_pairs g).
Proof.
  intros Hwf Hsym Hu Hd Ht Hv Hud.
  assert (Hvw : has_bit (cell_at g nx ny) od = true)
    by (rewrite <- (Hsym x y d nx ny od) by assumption; exact Hud).
  destruct (carved_dims g x y d) as [Ew Eh].
  set (g' := carved g x y d) in *.
  set (u := (x, y)). set (v := (nx, ny)).
  unfold open_wall_pairs.
  replace (scanline g') with (scanline g)
    by (unfold scanline; rewrite Ew, Eh; reflexivity).
  assert (Hin : forall p, In p (scanline g) ->
                          Grid.in_bounds g (fst p) (snd p) = true).
  { intros [a b] Hp. apply in_scanline, Hp. }
  assert (HE : forall p, In p (scanline g) ->
             east_open g' p =
             (fst p <? Grid.width g - 1) &&
             negb (if (coord_eqb p u && (Grid.EAST =? d)) ||
                      (coord_eqb p v && (Grid.EAST =? od))
                   then false else has_bit (cell_at g (fst p) (snd p)) Grid.EAST)).
  { intros p Hp. unfold east_open. rewrite Ew. unfold g'.
    rewrite (carved_wall_bits g x y d nx ny od p Grid.EAST)
      by (first [assumption | apply Hin, Hp | simpl; tauto]).
    reflexivity. }
  assert (HS : forall p, In p (scanline g) ->
             south_open g' p =
             (snd p <? Grid.height g - 1) &&
             negb (if (coord_eqb p u && (Grid.SOUTH =? d)) ||
                      (coord_eqb p v && (Grid.SOUTH =? od))
                   then false else has_bit (cell_at g (fst p) (snd p)) Grid.SOUTH)).
  { intros p Hp. unfold south_open. rewrite Eh. unfold g'.
    rewrite (carved_wall_bits g x y d nx ny od p Grid.SOUTH)
      by (first [assumption | apply Hin, Hp | simpl; tauto]).
    reflexivity. }
  assert (Huin : In u (scanline g)) by (apply in_scanline, Hu).
  assert (Hvin : In v (scanline g)) by (apply in_scanline, Hv).
  apply in_bounds_iff in Hu, Hv.
  destruct (toward_cases _ _ _ _ _ _ Hd Ht)
    as [ (? & ? & ? & ?) | [ (? & ? & ? & ?) | [ (? & ? & ? & ?) | (? & ? & ? & ?) ] ] ];
    subst d od.
  - rewrite (count_where_same (east_open g) (east_open g')).
    2:{ intros p Hp. rewrite (HE p Hp). cbn [Z.eqb Grid.EAST Grid.NORTH Grid.SOUTH Pos.eqb].
        rewrite !andb_false_r. reflexivity. }
    rewrite (count_where_update (south_open g) (south_open g') _ v); try assumption.
    + lia.
    + apply NoDup_scanline.
    + unfold south_open, v. cbn [fst snd]. rewrite Hvw, andb_false_r. reflexivity.
    + rewrite (HS v Hvin), coord_eqb_refl. cbn. rewrite orb_true_r. cbn.
      rewrite andb_true_r. apply Z.ltb_lt. lia.
    + intros p Hp Hpv. rewrite (HS p Hp). apply coord_eqb_neq in Hpv. rewrite Hpv.
      cbn. rewrite andb_false_r. reflexivity.
  - rewrite (count_where_same (south_open g) (south_open g')).
    2:{ intros p Hp. rewrite (HS p Hp). cbn [Z.eqb Grid.EAST Grid.WEST Grid.SOUTH Pos.eqb].
        rewrite !andb_false_r. reflexivity. }
    rewrite (count_where_update (east_open g) (east_open g') _ u); try assumption.
    + lia.
    + apply NoDup_scanline.
    + unfold east_open, u. cbn [fst snd]. rewrite Hud. cbn. apply andb_false_r.
    + rewrite (HE u Huin), coord_eqb_refl. cbn.
      rewrite andb_true_r. apply Z.ltb_lt. lia.
    + intros p Hp Hpu. rewrite (HE p Hp). apply coord_eqb_neq in Hpu. rewrite Hpu.
      cbn. rewrite andb_false_r. reflexivity.
  - rewrite (count_where_same (east_open g) (east_open g')).
    2:{ intros p Hp. rewrite (HE p Hp). cbn [Z.eqb Grid.EAST Grid.NORTH Grid.SOUTH Pos.eqb].
        rewrite !andb_false_r. reflexivity. }
    rewrite (count_where_update (south_open g) (south_open g') _ u); try assumption.
    + lia.
    + apply NoDup_scanline.
    + unfold south_open, u. cbn [fst snd]. rewrite Hud. cbn. apply andb_false_r.
    + rewrite (HS u Huin), coord_eqb_refl. cbn.
      rewrite andb_true_r. apply Z.ltb_lt. lia.
    + intros p Hp Hpu. rewrite (HS p Hp). apply coord_eqb_neq in Hpu. rewrite Hpu.
      cbn. rewrite andb_false_r. reflexivity.
  - rewrite (count_where_same (south_open g) (south_open g')).
    2:{ intros p Hp. rewrite (HS p Hp). cbn [Z.eqb Grid.EAST Grid.WEST Grid.SOUTH Pos.eqb].
        rewrite !andb_false_r. reflexivity. }
    rewrite (count_where_update (east_open g) (east_open g') _ v); try assumption.
    + lia.
    + apply NoDup_scanline.
    + unfold east_open, v. cbn [fst snd]. rewrite Hvw, andb_false_r. reflexivity.
    + rewrite (HE v Hvin), coord_eqb_refl. cbn. rewrite orb_true_r. cbn.
      rewrite andb_true_r. apply Z.ltb_lt. lia.
    + intros p Hp Hpv. rewrite (HE p Hp). apply coord_eqb_neq in Hpv. rewrite Hpv.
      cbn. rewrite andb_false_r. reflexivity.
Qed.
Lemma only_opened_reach (g g' : Grid.t) (p q : Z * Z) :
  only_opened g g' -> reach g p q -> reach g' p q.
Proof.
  intros (Hwf' & Ew & Eh & Hcells) Hr. induction Hr as [|a b _ IH Hst].
  - apply reach_refl.
  - apply (reach_step g' p a b IH).
    destruct Hst as (Ha & Hb & d & od & Hd & Ht & Hbit).
    assert (Hbnd : forall x y, Grid.in_bounds g' x y = Grid.in_bounds g x y)
      by (intros x y; unfold Grid.in_bounds; rewrite Ew, Eh; reflexivity).
    split; [rewrite Hbnd; exact Ha|]. split; [rewrite Hbnd; exact Hb|].
    exists d, od. split; [exact Hd|]. split; [exact Ht|].
    destruct (has_bit (cell_at g' (fst a) (snd a)) d) eqn:E; [|reflexivity].
    destruct (Hcells _ _ Ha) as [Hopen _].
    rewrite (Hopen d Hd E) in Hbit. discriminate.
Qed.

Section BraidOpens.

Variable Rng : Type.
Variable Random : Z -> Rng.
Variable randbelow : Rng -> Z -> Z * Rng.
Hypothesis randbelow_range :
  forall rng n, 0 < n -> 0 <= fst (randbelow rng n) < n.

Lemma braid_loop_opens (l : list (Z * Z)) :
  forall (g : Grid.t) (rng : Rng) (target removed : Z),
    wf g -> symmetric_cells g ->
    (forall x y, In (x, y) l -> Grid.in_bounds g x y = true) ->
    exists g' r rng',
      MazePostProcessor.braid_loop Rng randbelow g rng target removed l =
        Ok (g', r, rng') /\
      only_opened g g' /\ symmetric_cells g' /\
      removed <= r <= Z.max removed target /\
      r - removed <= Z.of_nat (length l) /\
      Z.of_nat (open_wall_pairs g') = Z.of_nat (open_wall_pairs g) + (r - removed).
Proof using randbelow_range.
  induction l as [|[x y] l IH]; intros g rng target removed Hwf Hsym Hin.
  - exists g, removed, rng. split; [reflexivity|].
    split; [apply only_opened_refl, Hwf|]. split; [exact Hsym|].
    cbn [length]. lia.
  - cbn [MazePostProcessor.braid_loop].
    destruct (Z.leb_spec target removed) as [Hle|Hlt].
    { exists g, removed, rng. split; [reflexivity|].
      split; [apply only_opened_refl, Hwf|]. split; [exact Hsym|].
      cbn [length]. lia. }
    assert (Hxy : Grid.in_bounds g x y = true) by (apply Hin; left; reflexivity).
    assert (Hrest : forall a b, In (a, b) l -> Grid.in_bounds g a b = true)
      by (intros a b Hab; apply Hin; right; exact Hab).
    assert (Hskip : exists g' r rng',
      MazePostProcessor.braid_loop Rng randbelow g rng target removed l =
        Ok (g', r, rng') /\
      only_opened g g' /\ symmetric_cells g' /\
      removed <= r <= Z.max removed target /\
      r - removed <= Z.of_nat (length ((x, y) :: l)) /\
      Z.of_nat (open_wall_pairs g') = Z.of_nat (open_wall_pairs g) + (r - removed)).
    { destruct (IH g rng target removed Hwf Hsym Hrest)
        as (g' & r & rng' & E & Ho & Hs & Hr & Hl & Hp).
      exists g', r, rng'. cbn [length]. repeat (split; [first [assumption | lia]|]).
      exact Hp. }
    unfold Grid.get_index. rewrite Hxy, bind_Ok, getitem_cell, bind_Ok by assumption.
    destruct (MazePostProcessor.popcount_walls (cell_at g x y) =? 3); cbn [negb];
      [|exact Hskip].
    destruct (closed_neighbors_spec g x y Hwf Hxy) as (cl & Ecl & Hcl & _).
    rewrite Ecl, bind_Ok.
    destruct cl as [|d0 cl']; [exact Hskip|]. clear Hskip.
    destruct (choice_in Rng randbelow randbelow_range rng (d0 :: cl') ltac:(discriminate))
      as (d & rng' & Ech & Hd).
    rewrite Ech, bind_Ok. cbv beta iota.
    destruct (Hcl d Hd) as (Hdir & Hbit & nx & ny & od & Ht & Hn).
    rewrite carve_path_carved, bind_Ok by assumption.
    destruct (carved_dims g x y d) as [Ew Eh].
    destruct (IH (carved g x y d) rng' target (removed + 1))
      as (g' & r & rng'' & E & Ho & Hs & Hr & Hl & Hp).
    + apply carved_wf, Hwf.
    + apply carved_symmetric; assumption.
    + intros a b Hab. unfold Grid.in_bounds. rewrite Ew, Eh. apply Hrest, Hab.
    + exists g', r, rng''. split; [exact E|].
      split; [apply (only_opened_trans g (carved g x y d) g');
              [apply (carved_only_opened g x y d nx ny od)|]; assumption|].
      split; [exact Hs|].
      rewrite (carved_adds_pair g x y d nx ny od) in Hp by assumption.
      cbn [length]. lia.
Qed.

(** X13.  Braiding a well-formed grid with symmetric walls first forms
    [int(len(dead_ends) * factor)] in float arithmetic.  When that raises
    ([OverflowError] for an infinite product, [ValueError] for a NaN) the
    braid raises the same, before it touches the grid.  Otherwise it
    returns and only opens walls: no wall is added and no flag changes, the
    walls stay symmetric, every cell reachable before is reachable after;
    the count it returns is the number of wall pairs it opened, at least 0
    and at most the truncated product (0 when that is negative).  On a grid
    of fewer than 2^53 cells with a factor between 0.0 and 1.0 the product
    does not raise. *)
Theorem braid_opens_walls (g : Grid.t) (factor : PyFloat.t) (seed : Z) :
  wf g -> symmetric_cells g ->
  let dead_ends := Z.of_nat (length (List.filter (dead_end g) (scanline g))) in
  (forall e, MazePostProcessor.int_times dead_ends factor = Raise e ->
     MazePostProcessor.braid Rng Random randbelow g factor seed = Raise e) /\
  (forall target, MazePostProcessor.int_times dead_ends factor = Ok target ->
     exists g' removed,
       MazePostProcessor.braid Rng Random randbelow g factor seed = Ok (g', removed) /\
       only_opened g g' /\ symmetric_cells g' /\
       (forall p q, reach g p q -> reach g' p q) /\
       0 <= removed <= Z.max 0 target /\
       Z.of_nat (open_wall_pairs g') = Z.of_nat (open_wall_pairs g) + removed) /\
  (Grid.width g * Grid.height g < 2 ^ 53 ->
   PyFloat.valid factor = true ->
   PyFloat.leb PyFloat.zero factor = true ->
   PyFloat.leb factor PyFloat.one = true ->
   exists target,
     MazePostProcessor.int_times dead_ends factor = Ok target /\ 0 <= target).
Proof using randbelow_range.
  intros Hwf Hsym dead_ends. subst dead_ends.
  assert (Hrun : MazePostProcessor.braid Rng Random randbelow g factor seed =
    let '(l, rng) := shuffle Rng randbelow (Random seed)
                       (List.filter (dead_end g) (scanline g)) in
    let* target := MazePostProcessor.int_times (Z.of_nat (length l)) factor in
    let* '(g', removed_count, _) :=
      MazePostProcessor.braid_loop Rng randbelow g rng target 0 l in
    Ok (g', removed_count)).
  { unfold MazePostProcessor.braid.
    rewrite collect_dead_ends, bind_Ok by assumption. reflexivity. }
  rewrite Hrun. clear Hrun.
  destruct (shuffle_spec Rng randbelow (Random seed)
              (List.filter (dead_end g) (scanline g))) as [Hlen Hmem].
  destruct (shuffle Rng randbelow (Random seed)
              (List.filter (dead_end g) (scanline g))) as [l rng].
  cbn [fst] in Hlen, Hmem. rewrite <- Hlen.
  split; [|split].
  - intros e He. rewrite He. reflexivity.
  - intros target Ht. rewrite Ht, bind_Ok.
    destruct (braid_loop_opens l g rng target 0 Hwf Hsym)
      as (g' & r & rng' & E & Ho & Hs & Hr & Hl & Hp).
    { intros x y Hin. apply Hmem, filter_In in Hin. apply in_scanline, Hin. }
    exists g', r. rewrite E, bind_Ok. split; [reflexivity|].
    split; [exact Ho|]. split; [exact Hs|].
    split; [intros p q; apply only_opened_reach, Ho|].
    split; lia.
  - intros Hsize Hvalid H0 H1. apply FloatFacts.int_times_unit; try assumption.
    pose proof (dead_ends_few g Hwf). lia.
Qed.

End BraidOpens.

Lemma braid_opens_walls_witness :
  wf (Grid.mk 2 2 [29; 19; 29; 22]) /\
  symmetric_cells (Grid.mk 2 2 [29; 19; 29; 22]) /\
  MazePostProcessor.int_times
    (Z.of_nat (length (List.filter (dead_end (Grid.mk 2 2 [29; 19; 29; 22]))
                         (scanline (Grid.mk 2 2 [29; 19; 29; 22])))))
    PyFloat.half = Ok 1 /\
  exists g' removed,
    MazePostProcessor.braid (list Z) (fun _ => [3; 1; 4; 1; 5]) scripted_randbelow
      (Grid.mk 2 2 [29; 19; 29; 22]) PyFloat.half 7 = Ok (g', removed) /\
    only_opened (Grid.mk 2 2 [29; 19; 29; 22]) g' /\ symmetric_cells g' /\
    (forall p q, reach (Grid.mk 2 2 [29; 19; 29; 22]) p q -> reach g' p q) /\
    0 <= removed <= Z.max 0 1 /\
    Z.of_nat (open_wall_pairs g') =
    Z.of_nat (open_wall_pairs (Grid.mk 2 2 [29; 19; 29; 22])) + removed.
Proof.
  assert (Hwf : wf (Grid.mk 2 2 [29; 19; 29; 22])).
  { unfold wf; simpl. repeat split; try lia. repeat constructor. }
  assert (Hsym : symmetric_cells (Grid.mk 2 2 [29; 19; 29; 22])).
  { intros x y d nx ny od Hd Ht Hb Hn.
    apply in_bounds_iff in Hb, Hn. cbn in Hb, Hn.
    assert (Hx : x = 0 \/ x = 1) by lia. assert (Hy : y = 0 \/ y = 1) by lia.
    apply directions_cases in Hd.
    destruct Hx as [-> | ->], Hy as [-> | ->], Hd as [ -> | [ -> | [ -> | -> ] ] ];
      cbn in Ht; injection Ht as <- <- <-; first [reflexivity | lia]. }
  assert (Htarget : MazePostProcessor.int_times
            (Z.of_nat (length (List.filter (dead_end (Grid.mk 2 2 [29; 19; 29; 22]))
                                 (scanline (Grid.mk 2 2 [29; 19; 29; 22])))))
            PyFloat.half = Ok 1) by (vm_compute; reflexivity).
  split; [exact Hwf|]. split; [exact Hsym|]. split; [exact Htarget|].
  exact (proj1 (proj2 (braid_opens_walls (list Z) (fun _ => [3; 1; 4; 1; 5])
                         scripted_randbelow scripted_randbelow_range
                         (Grid.mk 2 2 [29; 19; 29; 22]) PyFloat.half 7 Hwf Hsym))
               1 Htarget).
Defined.

(** ** The searches on any pair of cells *)

(** A cell with a chain of parent links is reachable from the start. *)
Lemma links_reach (g0 : Grid.t) (start : Z * Z) (parents : list Z)
    (reached : Z * Z -> Prop) (cost : Z * Z -> Z) :
  parent_links g0 start parents reached cost ->
  forall p, Grid.in_bounds g0 (fst p) (snd p) = true -> reached p ->
            0 <= cost p -> reach g0 start p.
Proof.
  intros Hlinks.
  assert (H : forall n p, Z.to_nat (cost p) = n ->
                Grid.in_bounds g0 (fst p) (snd p) = true -> reached p ->
                0 <= cost p -> reach g0 start p).
  { induction n as [n IH] using lt_wf_ind. intros p En Hp Hr Hc.
    destruct (coord_eqb p start) eqn:E.
    - apply coord_eqb_eq in E. subst p. apply reach_refl.
    - apply coord_eqb_neq in E.
      destruct (Hlinks p Hp Hr E) as (dir & od & q & _ & _ & _ & Hst & Hrq & Hq0 & Hq).
      apply (reach_step g0 start q p); [|exact Hst].
      apply (IH (Z.to_nat (cost q))); try assumption; [lia | reflexivity | apply Hst]. }
  intros p. apply (H (Z.to_nat (cost p)) p eq_refl).
Qed.

Lemma BFS_search (g : Grid.t) (start end_ : Z * Z) (fuel : nat) :
  wf g -> no_solver_marks g ->
  Grid.in_bounds g (fst start) (snd start) = true ->
  Grid.width g * Grid.height g <= Z.of_nat fuel ->
  exists st' dist',
    Solver.bfs_loop fuel end_
      (Solver.mk_bfs
         (write_cell g (fst start) (snd start)
            (Z.lor (cell_at g (fst start) (snd start)) Grid.SOLVER_VISITED))
         [start] (Solver.zeros g) 1) = Ok st' /\
    same_walls g (Solver.bfs_grid st') /\
    length (Solver.bfs_parents st') = Z.to_nat (Grid.width g * Grid.height g) /\
    parent_links g start (Solver.bfs_parents st')
      (fun p => seen (Solver.bfs_grid st') p = true) dist' /\
    (forall p, Grid.in_bounds g (fst p) (snd p) = true ->
               seen (Solver.bfs_grid st') p = true ->
               0 <= dist' p < Z.of_nat (length (scanline g))) /\
    forall l, walk g start end_ l ->
              seen (Solver.bfs_grid st') end_ = true /\
              dist' end_ <= Z.of_nat (length l) - 1.
Proof.
  intros Hwf Hfresh Hs Hfuel.
  destruct (start_marked g start Hwf Hfresh Hs) as (Hsame & Hseen & Hcount).
  set (g1 := write_cell g (fst start) (snd start)
               (Z.lor (cell_at g (fst start) (snd start)) Grid.SOLVER_VISITED)) in *.
  assert (Hinv : bfs_inv g start (Solver.mk_bfs g1 [start] (Solver.zeros g) 1)
                   (fun _ => 0) 0 []).
  { constructor; cbn [Solver.bfs_grid Solver.bfs_queue Solver.bfs_parents].
    - exact Hsame.
    - apply zeros_length.
    - exact Hs.
    - apply Hseen; [exact Hs | reflexivity].
    - reflexivity.
    - lia.
    - intros; lia.
    - exists [start], []. split; [reflexivity|]. split; [auto | intros p []].
    - intros p [<- | []]. split; [exact Hs|]. apply Hseen; [exact Hs | reflexivity].
    - intros p [].
    - intros p Hp Hsp. left. left. symmetry. apply Hseen; assumption.
    - intros p Hp Hsp Hne. apply Hseen in Hsp; [contradiction | exact Hp].
    - intros p Hp Hsp. rewrite Hcount. lia. }
  assert (HN : length (scanline g) = Z.to_nat (Grid.width g * Grid.height g))
    by (apply scanline_length; apply Hwf).
  destruct (bfs_loop_finishes g start end_ fuel _ _ _ Hinv)
    as (st' & dist' & Eloop & Hrest).
  { unfold bfs_measure. cbn [Solver.bfs_grid Solver.bfs_queue length].
    pose proof (count_where_le (seen g1) (scanline g)) as Hle.
    rewrite Hcount in *. lia. }
  exists st', dist'. split; [exact Eloop | exact Hrest].
Qed.

Lemma BFS_answer (g : Grid.t) (start end_ : Z * Z) (fuel : nat) :
  wf g -> no_solver_marks g ->
  Grid.in_bounds g (fst start) (snd start) = true ->
  Grid.in_bounds g (fst end_) (snd end_) = true ->
  Grid.width g * Grid.height g <= Z.of_nat fuel ->
  search_answer g start end_ (Solver.BFS_run fuel g start end_).
Proof.
  intros Hwf Hfresh Hs He Hfuel.
  destruct (BFS_search g start end_ fuel Hwf Hfresh Hs Hfuel)
    as (st' & dist' & Eloop & Hsame' & Hplen & Hlinks & Hrange & Hmin).
  assert (HN : length (scanline g) = Z.to_nat (Grid.width g * Grid.height g))
    by (apply scanline_length; apply Hwf).
  assert (Hrun : Solver.BFS_run fuel g start end_ =
                 let* '(g, path) := Solver.BFS_reconstruct_path fuel
                     (Solver.bfs_grid st') (Solver.bfs_parents st') start end_ in
                 Ok (Solver.mk_outcome g path (Solver.bfs_visited st') Solver.Solved)).
  { unfold Solver.BFS_run, Grid.get_index. rewrite Hs, bind_Ok.
    rewrite or_cell_mark, bind_Ok by (try assumption; reflexivity).
    rewrite Eloop, bind_Ok. reflexivity. }
  pose proof Hsame' as (Hwf' & Hw' & Hh' & Hwalls').
  assert (Hdims : forall x y, Grid.in_bounds (Solver.bfs_grid st') x y =
                              Grid.in_bounds g x y)
    by (intros; apply in_bounds_dims; assumption).
  assert (Hrec : Solver.BFS_reconstruct_path fuel (Solver.bfs_grid st')
                   (Solver.bfs_parents st') start end_ =
                 if negb (seen (Solver.bfs_grid st') end_) && negb (coord_eqb start end_)
                 then Ok (Solver.bfs_grid st', [])
                 else
                   let* '(g, path) := Solver.follow_parents fuel (Solver.bfs_grid st')
                                        (Solver.bfs_parents st') start end_ [] in
                   Ok (g, rev (path ++ [start]))).
  { unfold Solver.BFS_reconstruct_path, Grid.get_index.
    rewrite Hdims, He, bind_Ok.
    rewrite getitem_cell, bind_Ok by (rewrite ?Hdims; assumption).
    unfold seen, has_bit. rewrite negb_involutive. reflexivity. }
  rewrite Hrun, Hrec. clear Hrun Hrec.
  destruct (seen (Solver.bfs_grid st') end_) eqn:Hse; cbn [negb andb].
  - assert (Hreach : reach g start end_).
    { apply (links_reach g start _ _ dist' Hlinks end_ He Hse).
      apply (Hrange end_ He Hse). }
    destruct (reach_walk g start end_ Hs Hreach) as [l0 Hw0].
    destruct (Hmin l0 Hw0) as [_ Hde].
    destruct (follow_parents_walk g start (Solver.bfs_parents st')
                (fun p => seen (Solver.bfs_grid st') p = true) dist' Hs Hplen Hlinks
                fuel (Solver.bfs_grid st') end_ [])
      as (g2 & path & Efollow & Hsame2 & Hwalk & Hlen).
    { exact Hsame'. }
    { exact He. }
    { exact Hse. }
    { pose proof (Hrange end_ He Hse). lia. }
    rewrite Efollow, !bind_Ok. eexists. split; [reflexivity|].
    cbn [Solver.grid Solver.path]. split; [exact Hsame2|]. right.
    apply path_is_shortest with (bound := dist' end_).
    + exact Hwalk.
    + exact Hlen.
    + intros l Hl. apply Hmin, Hl.
  - assert (Hno : forall l, ~ walk g start end_ l).
    { intros l Hl. destruct (Hmin l Hl) as [Hse' _]. congruence. }
    destruct (coord_eqb start end_) eqn:E.
    { apply coord_eqb_eq in E. subst end_.
      destruct (Hno [start]). apply walk_one, Hs. }
    cbn [negb]. rewrite bind_Ok. eexists. split; [reflexivity|].
    cbn [Solver.grid Solver.path]. split; [exact Hsame'|]. left.
    split; [reflexivity|]. intros Hr.
    destruct (reach_walk g start end_ Hs Hr) as [l Hl]. apply (Hno l Hl).
Qed.
Lemma astar_search (h : Z * Z -> Z * Z -> Z) (g : Grid.t) (start end_ : Z * Z)
    (fuel : nat) :
  (forall p, 0 <= h p end_) ->
  (forall p l, walk g p end_ l -> h p end_ <= Z.of_nat (length l) - 1) ->
  wf g -> Grid.width g * Grid.height g < 2 ^ 31 ->
  Grid.in_bounds g (fst start) (snd start) = true ->
  2 * (Grid.width g * Grid.height g) * (Grid.width g * Grid.height g) <= Z.of_nat fuel ->
  exists st',
    Solver.astar_loop fuel h end_
      (Solver.mk_astar
         (write_cell g (fst start) (snd start)
            (Z.lor (cell_at g (fst start) (snd start)) Grid.SOLVER_VISITED))
         [(0, fst start, snd start)]
         (<[Z.to_nat (flat g start) := 0]>
            (replicate (Z.to_nat (Grid.width g * Grid.height g)) (-1)))
         (Solver.zeros g) 1) = Ok st' /\
    same_walls g (Solver.as_grid st') /\
    length (Solver.as_parents st') = Z.to_nat (Grid.width g * Grid.height g) /\
    length (Solver.as_g st') = Z.to_nat (Grid.width g * Grid.height g) /\
    parent_links g start (Solver.as_parents st')
      (fun p => reached g (Solver.as_g st') p = true)
      (cost_at g (Solver.as_g st')) /\
    (forall p, Grid.in_bounds g (fst p) (snd p) = true ->
               reached g (Solver.as_g st') p = true ->
               0 <= cost_at g (Solver.as_g st') p < Z.of_nat (length (scanline g))) /\
    forall l, walk g start end_ l ->
              reached g (Solver.as_g st') end_ = true /\
              cost_at g (Solver.as_g st') end_ <= Z.of_nat (length l) - 1.
Proof.
  intros Hh0 Hadm Hwf Hsmall Hs Hfuel.
  pose proof (flat_in_range g start Hs) as Rs.
  assert (HN : Z.of_nat (length (scanline g)) = Grid.width g * Grid.height g).
  { rewrite scanline_length by apply Hwf. apply Z2Nat.id. lia. }
  set (n := Z.to_nat (Grid.width g * Grid.height g)).
  set (g1 := write_cell g (fst start) (snd start)
               (Z.lor (cell_at g (fst start) (snd start)) Grid.SOLVER_VISITED)).
  set (gs0 := <[Z.to_nat (flat g start) := 0]> (replicate n (-1))).
  assert (Hcost : forall p, Grid.in_bounds g (fst p) (snd p) = true ->
            cost_at g gs0 p = if coord_eqb start p then 0 else -1).
  { intros p Hp. unfold cost_at, gs0.
    rewrite look_insert_flat by (try assumption; apply length_replicate).
    destruct (coord_eqb start p); [reflexivity|].
    apply look_replicate. pose proof (flat_in_range g p Hp). unfold n. lia. }
  assert (Hreach : forall p, Grid.in_bounds g (fst p) (snd p) = true ->
            reached g gs0 p = true <-> p = start).
  { intros p Hp. rewrite reached_iff, Hcost by exact Hp.
    destruct (coord_eqb start p) eqn:E.
    - apply coord_eqb_eq in E. subst p. split; [reflexivity | discriminate].
    - apply coord_eqb_neq in E. split; [congruence | intros ->; congruence]. }
  assert (Hcount : count_where (reached g gs0) (scanline g) = 1%nat).
  { rewrite (count_where_update (fun _ => false) (reached g gs0) (scanline g) start).
    - rewrite count_where_none. reflexivity.
    - apply NoDup_scanline.
    - apply in_scanline_cell, Hs.
    - reflexivity.
    - apply Hreach; [exact Hs | reflexivity].
    - intros p Hp Hne. apply in_scanline_cell in Hp.
      destruct (reached g gs0 p) eqn:E; [|reflexivity].
      apply Hreach in E; [contradiction | exact Hp]. }
  assert (Hinv : astar_inv g start end_ h
                   (Solver.mk_astar g1 [(0, fst start, snd start)] gs0 (Solver.zeros g) 1) []).
  { constructor; cbn [Solver.as_grid Solver.as_g Solver.as_open Solver.as_parents].
    - destruct (scratch_mask_walls Grid.SOLVER_VISITED) as [Hm Hmd]; [left; reflexivity|].
      apply same_walls_mark; try assumption. apply same_walls_refl, Hwf.
    - unfold gs0. rewrite length_insert. apply length_replicate.
    - apply zeros_length.
    - exact Hs.
    - rewrite Hcost by exact Hs. rewrite coord_eqb_refl. reflexivity.
    - intros p Hp Hr. apply Hreach in Hr; [|exact Hp]. subst p.
      rewrite Hcount, Hcost by exact Hs. rewrite coord_eqb_refl. lia.
    - intros p Hp H0. rewrite Hcost in H0 by exact Hp.
      destruct (coord_eqb start p) eqn:E; [|discriminate].
      symmetry. apply coord_eqb_eq, E.
    - intros f x y [Heq | []]. inversion Heq; subst f x y.
      rewrite <- surjective_pairing. split; [exact Hs|].
      split; [apply Hreach; [exact Hs | reflexivity]|].
      rewrite Hcost by exact Hs. rewrite coord_eqb_refl. lia.
    - intros p [].
    - intros p Hp Hr. apply Hreach in Hr; [|exact Hp]. subst p.
      left. exists 0. split; [left; reflexivity|].
      rewrite Hcost by exact Hs. rewrite coord_eqb_refl. specialize (Hh0 start). lia.
    - intros p Hp Hr Hne. apply Hreach in Hr; [contradiction | exact Hp]. }
  apply (astar_loop_finishes g start end_ h); try assumption.
  { lia. }
  unfold astar_measure. cbn [Solver.as_g Solver.as_open length].
  rewrite (sum_over_update (fun _ => Z.of_nat (length (scanline g)))
             (cost_weight g gs0) (scanline g) start).
  - rewrite sum_over_const. unfold cost_weight at 1.
    rewrite Hcost by exact Hs. rewrite coord_eqb_refl. cbn [Z.eqb]. nia.
  - apply NoDup_scanline.
  - apply in_scanline_cell, Hs.
  - intros p Hp Hne. apply in_scanline_cell in Hp. unfold cost_weight.
    rewrite Hcost by exact Hp.
    destruct (coord_eqb start p) eqn:E; [|reflexivity].
    apply coord_eqb_eq in E. congruence.
Qed.

(** The run up to the reconstruction of the path. *)
Lemma astar_run_search (h : Z * Z -> Z * Z -> Z) (g : Grid.t) (start end_ : Z * Z)
    (fuel : nat) (st' : Solver.astar_state) :
  wf g -> Grid.width g * Grid.height g < 2 ^ 31 ->
  Grid.in_bounds g (fst start) (snd start) = true ->
  Solver.astar_loop fuel h end_
    (Solver.mk_astar
       (write_cell g (fst start) (snd start)
          (Z.lor (cell_at g (fst start) (snd start)) Grid.SOLVER_VISITED))
       [(0, fst start, snd start)]
       (<[Z.to_nat (flat g start) := 0]>
          (replicate (Z.to_nat (Grid.width g * Grid.height g)) (-1)))
       (Solver.zeros g) 1) = Ok st' ->
  Solver.astar_run h fuel g start end_ =
  let* '(g, path) := Solver.AStar_reconstruct_path fuel (Solver.as_grid st')
                       (Solver.as_g st') (Solver.as_parents st') start end_ in
  Ok (Solver.mk_outcome g path (Solver.as_visited st') Solver.Solved).
Proof.
  intros Hwf Hsmall Hs Eloop.
  pose proof (flat_in_range g start Hs) as Rs.
  unfold Solver.astar_run, Grid.get_index. rewrite Hs, bind_Ok.
  fold (flat g start).
  rewrite setitem_i_inrange, bind_Ok by (rewrite ?length_replicate; lia).
  unfold flat.
  rewrite or_cell_mark, bind_Ok by (try assumption; reflexivity).
  unfold heappush. cbn [app]. fold (flat g start).
  rewrite Eloop, bind_Ok. reflexivity.
Qed.

Lemma astar_answer (h : Z * Z -> Z * Z -> Z) (g : Grid.t) (start end_ : Z * Z)
    (fuel : nat) :
  (forall p, 0 <= h p end_) ->
  (forall p l, walk g p end_ l -> h p end_ <= Z.of_nat (length l) - 1) ->
  wf g -> Grid.width g * Grid.height g < 2 ^ 31 ->
  Grid.in_bounds g (fst start) (snd start) = true ->
  Grid.in_bounds g (fst end_) (snd end_) = true ->
  2 * (Grid.width g * Grid.height g) * (Grid.width g * Grid.height g) <= Z.of_nat fuel ->
  search_answer g start end_ (Solver.astar_run h fuel g start end_).
Proof.
  intros Hh0 Hadm Hwf Hsmall Hs He Hfuel.
  destruct (astar_search h g start end_ fuel Hh0 Hadm Hwf Hsmall Hs Hfuel)
    as (st' & Eloop & Hsame' & Hplen & Hglen & Hlinks & Hrange & Hmin).
  rewrite (astar_run_search h g start end_ fuel st' Hwf Hsmall Hs Eloop).
  pose proof (flat_in_range g start Hs) as Rs.
  assert (HN : Z.of_nat (length (scanline g)) = Grid.width g * Grid.height g).
  { rewrite scanline_length by apply Hwf. apply Z2Nat.id. lia. }
  pose proof Hsame' as (Hwf' & Hw' & Hh' & Hwalls').
  assert (Hdims : forall x y, Grid.in_bounds (Solver.as_grid st') x y =
                              Grid.in_bounds g x y)
    by (intros; apply in_bounds_dims; assumption).
  assert (Hrec : Solver.AStar_reconstruct_path fuel (Solver.as_grid st')
                   (Solver.as_g st') (Solver.as_parents st') start end_ =
                 if negb (reached g (Solver.as_g st') end_) && negb (coord_eqb start end_)
                 then Ok (Solver.as_grid st', [])
                 else
                   let* '(g, path) := Solver.follow_parents fuel (Solver.as_grid st')
                                        (Solver.as_parents st') start end_ [] in
                   Ok (g, rev (path ++ [start]))).
  { unfold Solver.AStar_reconstruct_path, Grid.get_index.
    rewrite Hdims, He, bind_Ok. rewrite Hw'. fold (flat g end_).
    pose proof (flat_in_range g end_ He) as Re.
    rewrite getitem_inrange, bind_Ok by (rewrite Hglen, Z2Nat.id; lia).
    fold (cost_at g (Solver.as_g st') end_).
    unfold reached. rewrite negb_involutive. reflexivity. }
  rewrite Hrec. clear Hrec.
  destruct (reached g (Solver.as_g st') end_) eqn:Hre; cbn [negb andb].
  - assert (Hreach : reach g start end_).
    { apply (links_reach g start _ _ _ Hlinks end_ He Hre).
      apply (Hrange end_ He Hre). }
    destruct (reach_walk g start end_ Hs Hreach) as [l0 Hw0].
    destruct (Hmin l0 Hw0) as [_ Hce].
    destruct (follow_parents_walk g start (Solver.as_parents st')
                (fun p => reached g (Solver.as_g st') p = true)
                (cost_at g (Solver.as_g st')) Hs Hplen Hlinks
                fuel (Solver.as_grid st') end_ [])
      as (g2 & path & Efollow & Hsame2 & Hwalk & Hlen).
    { exact Hsame'. }
    { exact He. }
    { exact Hre. }
    { pose proof (Hrange end_ He Hre). nia. }
    rewrite Efollow, !bind_Ok. eexists. split; [reflexivity|].
    cbn [Solver.grid Solver.path]. split; [exact Hsame2|]. right.
    apply path_is_shortest with (bound := cost_at g (Solver.as_g st') end_).
    + exact Hwalk.
    + exact Hlen.
    + intros l Hl. apply Hmin, Hl.
  - assert (Hno : forall l, ~ walk g start end_ l).
    { intros l Hl. destruct (Hmin l Hl) as [Hre' _]. congruence. }
    destruct (coord_eqb start end_) eqn:E.
    { apply coord_eqb_eq in E. subst end_.
      destruct (Hno [start]). apply walk_one, Hs. }
    cbn [negb]. rewrite bind_Ok. eexists. split; [reflexivity|].
    cbn [Solver.grid Solver.path]. split; [exact Hsame'|]. left.
    split; [reflexivity|]. intros Hr.
    destruct (reach_walk g start end_ Hs Hr) as [l Hl]. apply (Hno l Hl).
Qed.

(** X14.  On a well-formed grid with fewer than 2^31 cells, for any two
    cells of the lattice, the uniform-cost and A* solvers each run to
    completion and leave every wall as it was; each returns a shortest walk
    from start to end, or the empty path, and the empty path only when the
    end cannot be reached.  They read no solver mark, so this holds whatever
    marks an earlier run left on the grid; the breadth-first solver does the
    same on a grid without solver marks. *)
Theorem searches_answer_every_query (g : Grid.t) (start end_ : Z * Z)
    (fuel : nat) :
  wf g ->
  Grid.width g * Grid.height g < 2 ^ 31 ->
  Grid.in_bounds g (fst start) (snd start) = true ->
  Grid.in_bounds g (fst end_) (snd end_) = true ->
  2 * (Grid.width g * Grid.height g) * (Grid.width g * Grid.height g)
    <= Z.of_nat fuel ->
  (no_solver_marks g ->
   search_answer g start end_ (Solver.BFS_run fuel g start end_)) /\
  search_answer g start end_ (Solver.Dijkstra_run fuel g start end_) /\
  search_answer g start end_ (Solver.AStar_run fuel g start end_).
Proof.
  intros Hwf Hsmall Hs He Hfuel.
  pose proof (flat_in_range g start Hs) as Rs.
  split; [intros Hfresh; apply BFS_answer; try assumption; nia|].
  split.
  - apply astar_answer; try assumption.
    + intros p. unfold Solver.zero_heuristic. lia.
    + intros p l. apply zero_admissible.
  - apply astar_answer; try assumption.
    + intros p. unfold Solver.manhattan. lia.
    + intros p l. apply manhattan_admissible.
Qed.

Lemma searches_answer_every_query_witness :
  search_answer (Grid.mk 2 2 [29; 23; 31; 31]) (0, 0) (1, 1)
    (Solver.BFS_run 32 (Grid.mk 2 2 [29; 23; 31; 31]) (0, 0) (1, 1)) /\
  search_answer (Grid.mk 2 2 [29; 23; 31; 31]) (0, 0) (1, 1)
    (Solver.Dijkstra_run 32 (Grid.mk 2 2 [29; 23; 31; 31]) (0, 0) (1, 1)) /\
  search_answer (Grid.mk 2 2 [29; 23; 31; 31]) (0, 0) (1, 1)
    (Solver.AStar_run 32 (Grid.mk 2 2 [29; 23; 31; 31]) (0, 0) (1, 1)).
Proof.
  destruct (searches_answer_every_query (Grid.mk 2 2 [29; 23; 31; 31]) (0, 0) (1, 1) 32)
    as (Hb & Hd & Ha).
  - unfold wf; simpl. repeat split; try lia. repeat constructor.
  - cbn. lia.
  - reflexivity.
  - reflexivity.
  - cbn. lia.
  - split; [|split; assumption]. apply Hb.
    intros [x y] Hp. apply in_bounds_iff in Hp. cbn in Hp.
    assert (Hx : x = 0 \/ x = 1) by lia. assert (Hy : y = 0 \/ y = 1) by lia.
    destruct Hx as [-> | ->], Hy as [-> | ->]; reflexivity.
Defined.

(** X15.  With the start outside the lattice the three searches raise
    IndexError at once.  With the start inside and the end outside, on a
    well-formed grid without solver marks and with fewer than 2^31 cells,
    they search first, and raise IndexError when they come to reconstruct
    the path. *)
Theorem searches_outside_lattice (g : Grid.t) (start end_ : Z * Z) (fuel : nat) :
  (Grid.in_bounds g (fst start) (snd start) = false ->
   Solver.BFS_run fuel g start end_ = Raise IndexError /\
   Solver.Dijkstra_run fuel g start end_ = Raise IndexError /\
   Solver.AStar_run fuel g start end_ = Raise IndexError) /\
  (wf g -> no_solver_marks g ->
   Grid.width g * Grid.height g < 2 ^ 31 ->
   Grid.in_bounds g (fst start) (snd start) = true ->
   Grid.in_bounds g (fst end_) (snd end_) = false ->
   2 * (Grid.width g * Grid.height g) * (Grid.width g * Grid.height g)
     <= Z.of_nat fuel ->
   Solver.BFS_run fuel g start end_ = Raise IndexError /\
   Solver.Dijkstra_run fuel g start end_ = Raise IndexError /\
   Solver.AStar_run fuel g start end_ = Raise IndexError).
Proof.
  split.
  - intros Hs. unfold Solver.Dijkstra_run, Solver.AStar_run, Solver.astar_run,
      Solver.BFS_run, Grid.get_index. rewrite Hs. auto.
  - intros Hwf Hfresh Hsmall Hs He Hfuel.
    pose proof (flat_in_range g start Hs) as Rs.
    assert (Hastar : forall h,
              (forall p, 0 <= h p end_) ->
              (forall p l, walk g p end_ l -> h p end_ <= Z.of_nat (length l) - 1) ->
              Solver.astar_run h fuel g start end_ = Raise IndexError).
    { intros h Hh0 Hadm.
      destruct (astar_search h g start end_ fuel Hh0 Hadm Hwf Hsmall Hs Hfuel)
        as (st' & Eloop & (Hwf' & Hw' & Hh' & _) & _).
      rewrite (astar_run_search h g start end_ fuel st' Hwf Hsmall Hs Eloop).
      unfold Solver.AStar_reconstruct_path, Grid.get_index.
      rewrite (in_bounds_dims g (Solver.as_grid st')), He by assumption.
      reflexivity. }
    split; [|split].
    + destruct (BFS_search g start end_ fuel Hwf Hfresh Hs ltac:(nia))
        as (st' & dist' & Eloop & (Hwf' & Hw' & Hh' & _) & _).
      unfold Solver.BFS_run, Grid.get_index. rewrite Hs, bind_Ok.
      rewrite or_cell_mark, bind_Ok by (try assumption; reflexivity).
      rewrite Eloop, bind_Ok.
      unfold Solver.BFS_reconstruct_path, Grid.get_index.
      rewrite (in_bounds_dims g (Solver.bfs_grid st')), He by assumption.
      reflexivity.
    + apply Hastar.
      * intros p. unfold Solver.zero_heuristic. lia.
      * intros p l. apply zero_admissible.
    + apply Hastar.
      * intros p. unfold Solver.manhattan. lia.
      * intros p l. apply manhattan_admissible.
Qed.

Lemma searches_outside_lattice_witness :
  (Solver.BFS_run 32 (Grid.mk 2 2 [29; 19; 31; 30]) (2, 0) (1, 1) = Raise IndexError /\
   Solver.Dijkstra_run 32 (Grid.mk 2 2 [29; 19; 31; 30]) (2, 0) (1, 1) = Raise IndexError /\
   Solver.AStar_run 32 (Grid.mk 2 2 [29; 19; 31; 30]) (2, 0) (1, 1) = Raise IndexError) /\
  (Solver.BFS_run 32 (Grid.mk 2 2 [29; 19; 31; 30]) (0, 0) (1, 2) = Raise IndexError /\
   Solver.Dijkstra_run 32 (Grid.mk 2 2 [29; 19; 31; 30]) (0, 0) (1, 2) = Raise IndexError /\
   Solver.AStar_run 32 (Grid.mk 2 2 [29; 19; 31; 30]) (0, 0) (1, 2) = Raise IndexError).
Proof.
  split.
  - apply (proj1 (searches_outside_lattice (Grid.mk 2 2 [29; 19; 31; 30]) (2, 0) (1, 1) 32)).
    reflexivity.
  - apply (proj2 (searches_outside_lattice (Grid.mk 2 2 [29; 19; 31; 30]) (0, 0) (1, 2) 32)).
    + unfold wf; simpl. repeat split; try lia. repeat constructor.
    + intros [x y] Hp. apply in_bounds_iff in Hp. cbn in Hp.
      assert (Hx : x = 0 \/ x = 1) by lia. assert (Hy : y = 0 \/ y = 1) by lia.
      destruct Hx as [-> | ->], Hy as [-> | ->]; reflexivity.
    + cbn. lia.
    + reflexivity.
    + reflexivity.
    + cbn. lia.
Defined.

(** ** Clearing the solver bits between two runs *)

Lemma cell_at_cleared (g : Grid.t) (x y : Z) :
  cell_at (clear_solver_bits g) x y = Z.land (cell_at g x y) 31.
Proof.
  unfold cell_at, clear_solver_bits, look. cbn.
  rewrite list_lookup_fmap.
  destruct (Grid.cells g !! Z.to_nat (y * Grid.width g + x)); reflexivity.
Qed.

Lemma has_bit_masked (c m b : Z) :
  has_bit (Z.land c m) b = has_bit c (Z.land m b).
Proof. unfold has_bit. rewrite <- Z.land_assoc. reflexivity. Qed.

Lemma cleared_wf (g : Grid.t) : wf g -> wf (clear_solver_bits g).
Proof.
  intros (Hw & Hh & Hlen & Hbytes). unfold wf, clear_solver_bits. cbn.
  split; [exact Hw|]. split; [exact Hh|].
  split; [rewrite length_map; exact Hlen|].
  apply List.Forall_map, List.Forall_forall. intros b _.
  change 31 with (Z.ones 5). rewrite Z.land_ones by lia.
  pose proof (Z.mod_pos_bound b (2 ^ 5) ltac:(lia)) as Hb.
  unfold is_byte. apply andb_true_iff. split; [apply Z.leb_le | apply Z.ltb_lt]; lia.
Qed.

Lemma cleared_same_walls (g : Grid.t) : wf g -> same_walls g (clear_solver_bits g).
Proof.
  intros Hwf. split; [apply cleared_wf, Hwf|].
  split; [reflexivity|]. split; [reflexivity|].
  intros x y d _ Hd. rewrite cell_at_cleared, has_bit_masked.
  apply directions_cases in Hd.
  destruct Hd as [ -> | [ -> | [ -> | -> ] ] ]; reflexivity.
Qed.

Lemma same_walls_step (g0 g : Grid.t) (p q : Z * Z) :
  same_walls g0 g -> (step g0 p q <-> step g p q).
Proof.
  intros (_ & Ew & Eh & Hwalls).
  assert (Hb : forall x y, Grid.in_bounds g x y = Grid.in_bounds g0 x y)
    by (intros; apply in_bounds_dims; assumption).
  unfold step. rewrite !Hb. split.
  - intros (Hp & Hq & d & od & Hd & Ht & Hbit). split; [exact Hp|]. split; [exact Hq|].
    exists d, od. rewrite Hwalls by assumption. auto.
  - intros (Hp & Hq & d & od & Hd & Ht & Hbit). split; [exact Hp|]. split; [exact Hq|].
    exists d, od. rewrite Hwalls in Hbit by assumption. auto.
Qed.

Lemma same_walls_walk (g0 g : Grid.t) (s e : Z * Z) (l : list (Z * Z)) :
  same_walls g0 g -> (walk g0 s e l <-> walk g s e l).
Proof.
  intros Hsame. pose proof Hsame as (_ & Ew & Eh & _).
  assert (Hb : forall x y, Grid.in_bounds g x y = Grid.in_bounds g0 x y)
    by (intros; apply in_bounds_dims; assumption).
  split; intros Hw; induction Hw as [p Hp | p q e l Hst _ IH].
  - apply walk_one. rewrite Hb. exact Hp.
  - apply (walk_cons g p q e l); [apply (same_walls_step g0 g); assumption | exact IH].
  - apply walk_one. rewrite <- Hb. exact Hp.
  - apply (walk_cons g0 p q e l); [apply (same_walls_step g0 g); assumption | exact IH].
Qed.

Lemma same_walls_reach (g0 g : Grid.t) (s e : Z * Z) :
  same_walls g0 g -> (reach g0 s e <-> reach g s e).
Proof.
  intros Hsame.
  split; intros Hr; induction Hr as [|p q _ IH Hst]; try apply reach_refl.
  - apply (reach_step g s p q IH). apply (same_walls_step g0 g); assumption.
  - apply (reach_step g0 s p q IH). apply (same_walls_step g0 g); assumption.
Qed.

Lemma same_walls_trans (g0 g1 g2 : Grid.t) :
  same_walls g0 g1 -> same_walls g1 g2 -> same_walls g0 g2.
Proof.
  intros (Hwf1 & Ew1 & Eh1 & H1) (Hwf2 & Ew2 & Eh2 & H2).
  split; [exact Hwf2|]. split; [congruence|]. split; [congruence|].
  intros x y d Hb Hd. rewrite H2, H1; try assumption; [reflexivity|].
  rewrite (in_bounds_dims g0 g1) by assumption. exact Hb.
Qed.

Lemma search_answer_same_walls (g0 g : Grid.t) (start end_ : Z * Z)
    (r : result Solver.outcome) :
  same_walls g0 g -> search_answer g start end_ r -> search_answer g0 start end_ r.
Proof.
  intros Hsame (o & -> & Hgrid & Hpath). exists o. split; [reflexivity|].
  split; [apply (same_walls_trans g0 g); assumption|].
  destruct Hpath as [[Hnil Hno] | [Hwalk Hmin]].
  - left. split; [exact Hnil|]. intros Hr. apply Hno.
    apply (same_walls_reach g0 g); assumption.
  - right. split; [apply (same_walls_walk g0 g); assumption|].
    intros l Hl. apply Hmin. apply (same_walls_walk g0 g); assumption.
Qed.

(** X16.  Masking every cell byte with 0x1F, as the benchmark does before
    each solver, keeps the walls and the generator's visited flag of a
    well-formed grid and clears the three solver bits, whatever marks an
    earlier run left.  On the masked grid with fewer than 2^31 cells the
    breadth-first, uniform-cost and A* solvers answer any query on two cells
    of the lattice as on a grid that was never searched. *)
Theorem cleared_grid_is_searchable (g : Grid.t) (start end_ : Z * Z) (fuel : nat) :
  wf g ->
  Grid.width g * Grid.height g < 2 ^ 31 ->
  Grid.in_bounds g (fst start) (snd start) = true ->
  Grid.in_bounds g (fst end_) (snd end_) = true ->
  2 * (Grid.width g * Grid.height g) * (Grid.width g * Grid.height g)
    <= Z.of_nat fuel ->
  same_walls g (clear_solver_bits g) /\
  (forall p, visited (clear_solver_bits g) p = visited g p) /\
  (forall x y f, In f [Grid.PATH; Grid.SOLVER_VISITED; Grid.SOLVER_AUX] ->
                 has_bit (cell_at (clear_solver_bits g) x y) f = false) /\
  search_answer g start end_
    (Solver.BFS_run fuel (clear_solver_bits g) start end_) /\
  search_answer g start end_
    (Solver.Dijkstra_run fuel (clear_solver_bits g) start end_) /\
  search_answer g start end_
    (Solver.AStar_run fuel (clear_solver_bits g) start end_).
Proof.
  intros Hwf Hsmall Hs He Hfuel.
  pose proof (cleared_same_walls g Hwf) as Hsame.
  pose proof (cleared_wf g Hwf) as Hwf'.
  pose proof (flat_in_range g start Hs) as Rs.
  assert (Hbits : forall x y f,
            In f [Grid.PATH; Grid.SOLVER_VISITED; Grid.SOLVER_AUX] ->
            has_bit (cell_at (clear_solver_bits g) x y) f = false).
  { intros x y f Hf. rewrite cell_at_cleared, has_bit_masked.
    assert (Hz : forall c, has_bit c 0 = false)
      by (intros c; unfold has_bit; rewrite Z.land_0_r; reflexivity).
    cbn in Hf. destruct Hf as [ <- | [ <- | [ <- | [] ] ] ]; exact (Hz _). }
  assert (Hfresh : no_solver_marks (clear_solver_bits g)).
  { intros p _. apply Hbits. cbn. auto. }
  split; [exact Hsame|].
  split; [intros p; unfold visited; rewrite cell_at_cleared, has_bit_masked; reflexivity|].
  split; [exact Hbits|].
  split; [|split]; apply (search_answer_same_walls g (clear_solver_bits g) _ _ _ Hsame).
  - apply BFS_answer; try assumption. cbn. nia.
  - apply astar_answer; try assumption.
    + intros p. unfold Solver.zero_heuristic. lia.
    + intros p l. apply zero_admissible.
  - apply astar_answer; try assumption.
    + intros p. unfold Solver.manhattan. lia.
    + intros p l. apply manhattan_admissible.
Qed.

Lemma cleared_grid_is_searchable_witness :
  same_walls (Grid.mk 2 2 [29; 19; 31; 94]) (clear_solver_bits (Grid.mk 2 2 [29; 19; 31; 94])) /\
  (forall p, visited (clear_solver_bits (Grid.mk 2 2 [29; 19; 31; 94])) p =
             visited (Grid.mk 2 2 [29; 19; 31; 94]) p) /\
  (forall x y f, In f [Grid.PATH; Grid.SOLVER_VISITED; Grid.SOLVER_AUX] ->
     has_bit (cell_at (clear_solver_bits (Grid.mk 2 2 [29; 19; 31; 94])) x y) f = false) /\
  search_answer (Grid.mk 2 2 [29; 19; 31; 94]) (0, 0) (1, 1)
    (Solver.BFS_run 32 (clear_solver_bits (Grid.mk 2 2 [29; 19; 31; 94])) (0, 0) (1, 1)) /\
  search_answer (Grid.mk 2 2 [29; 19; 31; 94]) (0, 0) (1, 1)
    (Solver.Dijkstra_run 32 (clear_solver_bits (Grid.mk 2 2 [29; 19; 31; 94])) (0, 0) (1, 1)) /\
  search_answer (Grid.mk 2 2 [29; 19; 31; 94]) (0, 0) (1, 1)
    (Solver.AStar_run 32 (clear_solver_bits (Grid.mk 2 2 [29; 19; 31; 94])) (0, 0) (1, 1)).
Proof.
  apply (cleared_grid_is_searchable (Grid.mk 2 2 [29; 19; 31; 94]) (0, 0) (1, 1) 32).
  - unfold wf; simpl. repeat split; try lia. repeat constructor.
  - cbn. lia.
  - reflexivity.
  - reflexivity.
  - cbn. lia.
Defined.

(** ** The wall follower *)

Lemma walk_cells_in_bounds (g : Grid.t) (s e : Z * Z) (l : list (Z * Z)) :
  walk g s e l -> forall p, In p l -> Grid.in_bounds g (fst p) (snd p) = true.
Proof.
  intros Hw. induction Hw as [p Hp | p q e l Hst _ IH]; intros a Ha.
  - destruct Ha as [<- | []]. exact Hp.
  - destruct Ha as [<- | Ha]; [apply Hst | apply IH, Ha].
Qed.

Lemma mask_keeps_walls (mask : Z) :
  In mask [Grid.SOLVER_VISITED; Grid.PATH; Z.lor Grid.SOLVER_VISITED Grid.PATH] ->
  is_byte mask = true /\ forall d, In d directions -> Z.land mask d = 0.
Proof.
  intros Hm. cbn in Hm.
  destruct Hm as [ <- | [ <- | [ <- | [] ] ] ]; (split; [reflexivity|]);
    intros d Hd; apply directions_cases in Hd;
    destruct Hd as [ -> | [ -> | [ -> | -> ] ] ]; reflexivity.
Qed.

Lemma wall_try_moves (g0 : Grid.t) (start : Z * Z) (order : list Z) :
  forall st, wall_inv g0 start st ->
    (forall d, In d order -> 0 <= d < 4) ->
    exists r, Solver.wall_try st order = Ok r /\
      match r with
      | None => True
      | Some st' =>
          wall_inv g0 start st' /\
          length (Solver.wl_path st') = S (length (Solver.wl_path st))
      end.
Proof.
  induction order as [|d_idx rest IH]; intros st Hinv Hord.
  - exists None. split; [reflexivity | exact I].
  - pose proof Hinv as (Hsame & Hf & Hwalk).
    pose proof Hsame as (Hwf & Ew & Eh & Hwalls).
    assert (Hdims : forall x y, Grid.in_bounds (Solver.wl_grid st) x y =
                                Grid.in_bounds g0 x y)
      by (intros; apply in_bounds_dims; assumption).
    pose proof (walk_end_in_bounds _ _ _ _ Hwalk) as Hpos.
    assert (Hrest : forall d, In d rest -> 0 <= d < 4)
      by (intros d Hd; apply Hord; right; exact Hd).
    destruct (IH st Hinv Hrest) as (r & Er & Hr).
    cbn [Solver.wall_try].
    destruct (Solver.wl_pos st) as [cx cy] eqn:Epos. cbn [fst snd] in Hpos.
    assert (Hcase : exists d ddx ddy od,
              getitem Solver.wf_dirs d_idx = Ok d /\
              getitem Solver.wf_dx d_idx = Ok ddx /\
              getitem Solver.wf_dy d_idx = Ok ddy /\
              In d directions /\
              Grid.toward cx cy d = (cx + ddx, cy + ddy, od)).
    { assert (Hd : d_idx = 0 \/ d_idx = 1 \/ d_idx = 2 \/ d_idx = 3)
        by (specialize (Hord d_idx (or_introl eq_refl)); lia).
      destruct Hd as [ -> | [ -> | [ -> | -> ] ] ].
      - exists Grid.NORTH, 0, (-1), Grid.SOUTH.
        repeat (split; [first [reflexivity | cbn; tauto]|]).
        unfold Grid.toward. cbn. f_equal. f_equal; lia.
      - exists Grid.EAST, 1, 0, Grid.WEST.
        repeat (split; [first [reflexivity | cbn; tauto]|]).
        unfold Grid.toward. cbn. f_equal. f_equal; lia.
      - exists Grid.SOUTH, 0, 1, Grid.NORTH.
        repeat (split; [first [reflexivity | cbn; tauto]|]).
        unfold Grid.toward. cbn. f_equal. f_equal; lia.
      - exists Grid.WEST, (-1), 0, Grid.EAST.
        repeat (split; [first [reflexivity | cbn; tauto]|]).
        unfold Grid.toward. cbn. f_equal. f_equal; lia. }
    destruct Hcase as (d & ddx & ddy & od & Ed & Edx & Edy & Hd & Ht).
    rewrite Ed, bind_Ok.
    rewrite has_wall_cell, bind_Ok by (rewrite ?Hdims; assumption).
    rewrite (Hwalls cx cy d Hpos Hd).
    destruct (has_bit (cell_at g0 cx cy) d) eqn:Hbit; [exists r; auto|].
    rewrite Edx, bind_Ok, Edy, bind_Ok. cbv zeta.
    rewrite Hdims.
    destruct (Grid.in_bounds g0 (cx + ddx) (cy + ddy)) eqn:Hn; [|exists r; auto].
    unfold Grid.get_index. rewrite Hdims, Hn, bind_Ok.
    rewrite getitem_cell, bind_Ok by (rewrite ?Hdims; assumption).
    destruct (mask_keeps_walls Grid.SOLVER_VISITED) as [Hm Hmd]; [cbn; auto|].
    rewrite or_cell_mark, bind_Ok by (rewrite ?Hdims; assumption).
    eexists. split; [reflexivity|].
    cbn [Solver.wl_grid Solver.wl_facing Solver.wl_pos Solver.wl_path].
    split; [|rewrite length_app; cbn; lia].
    split; [apply same_walls_mark; assumption|].
    split; [apply Hord; left; reflexivity|].
    apply (walk_snoc g0 start (cx, cy)); [exact Hwalk|].
    split; [exact Hpos|]. split; [exact Hn|].
    exists d, od. cbn [fst snd]. auto.
Qed.

Lemma wall_loop_walks (g0 : Grid.t) (start end_ : Z * Z) (rule : string)
    (budget : nat) :
  forall st, wall_inv g0 start st ->
    exists st', Solver.wall_loop budget rule end_ st = Ok st' /\
                wall_inv g0 start st' /\
                (length (Solver.wl_path st') <=
                 length (Solver.wl_path st) + budget)%nat.
Proof.
  induction budget as [|k IH]; intros st Hinv.
  - exists st. cbn [Solver.wall_loop].
    destruct (coord_eqb (Solver.wl_pos st) end_); (split; [reflexivity|]);
      (split; [exact Hinv | lia]).
  - cbn [Solver.wall_loop].
    destruct (coord_eqb (Solver.wl_pos st) end_).
    { exists st. split; [reflexivity|]. split; [exact Hinv | lia]. }
    pose proof Hinv as (_ & Hf & _).
    set (order := if String.eqb rule "left" then _ else _).
    assert (Hord : forall d, In d order -> 0 <= d < 4).
    { intros d Hd. unfold order in Hd.
      pose proof (Z.mod_pos_bound (Solver.wl_facing st - 1) 4 ltac:(lia)).
      pose proof (Z.mod_pos_bound (Solver.wl_facing st + 1) 4 ltac:(lia)).
      pose proof (Z.mod_pos_bound (Solver.wl_facing st + 2) 4 ltac:(lia)).
      destruct (String.eqb rule "left"); cbn in Hd;
        destruct Hd as [ <- | [ <- | [ <- | [ <- | [] ] ] ] ]; lia. }
    destruct (wall_try_moves g0 start order st Hinv Hord) as (r & Er & Hr).
    rewrite Er, bind_Ok. destruct r as [st1|].
    + destruct Hr as [Hinv1 Hlen1].
      destruct (IH st1 Hinv1) as (st' & E' & Hinv' & Hlen').
      exists st'. split; [exact E'|]. split; [exact Hinv' | lia].
    + exists st. split; [reflexivity|]. split; [exact Hinv | lia].
Qed.

(** X17.  From any start cell of a well-formed grid, with either rule and
    any end, the wall follower returns: it changes no wall, its path is a
    walk from the start through open walls of at most 4 * width * height
    moves, and its status is Solved when that walk ends on the end cell and
    Stuck when it does not. *)
Theorem wall_follower_walks (rule : string) (g : Grid.t) (start end_ : Z * Z) :
  wf g -> Grid.in_bounds g (fst start) (snd start) = true ->
  exists o last,
    Solver.WallFollower_run rule g start end_ = Ok o /\
    same_walls g (Solver.grid o) /\
    walk g start last (Solver.path o) /\
    Z.of_nat (length (Solver.path o)) <= 4 * (Grid.width g * Grid.height g) + 1 /\
    Solver.last_status o =
      (if coord_eqb last end_ then Solver.Solved else Solver.Stuck).
Proof.
  intros Hwf Hs. destruct start as [cx cy]. cbn [fst snd] in Hs.
  unfold Solver.WallFollower_run, Grid.get_index. rewrite Hs, bind_Ok.
  destruct (mask_keeps_walls (Z.lor Grid.SOLVER_VISITED Grid.PATH)) as [Hm Hmd];
    [cbn; auto|].
  rewrite or_cell_mark, bind_Ok by assumption.
  set (g1 := write_cell g cx cy _).
  assert (Hsame1 : same_walls g g1)
    by (apply same_walls_mark; try assumption; apply same_walls_refl, Hwf).
  pose proof Hsame1 as (_ & Ew1 & Eh1 & _).
  assert (Hinv : wall_inv g (cx, cy) (Solver.mk_wall g1 (cx, cy) 1 [(cx, cy)] 1)).
  { split; [exact Hsame1|]. split; [cbn; lia|]. apply walk_one. exact Hs. }
  destruct (wall_loop_walks g (cx, cy) end_ rule
              (Z.to_nat (Grid.width g1 * Grid.height g1 * 4)) _ Hinv)
    as (st & Eloop & (Hsame & _ & Hwalk) & Hlen).
  rewrite Eloop, bind_Ok.
  cbn [Solver.wl_path length] in Hlen.
  assert (Hbound : Z.of_nat (length (Solver.wl_path st)) <=
                   4 * (Grid.width g * Grid.height g) + 1).
  { rewrite Ew1, Eh1 in Hlen. destruct Hwf as (Hw0 & Hh0 & _). nia. }
  destruct (coord_eqb (Solver.wl_pos st) end_) eqn:Eend.
  - destruct (foldM_invariant (same_walls g) Solver.mark_path
                (Solver.wl_path st) (Solver.wl_grid st) Hsame)
      as (g2 & E2 & Hsame2).
    { intros s p Hp Hsg. unfold Solver.mark_path, Grid.get_index.
      pose proof (walk_cells_in_bounds _ _ _ _ Hwalk p Hp) as Hpb.
      pose proof Hsg as (Hwfs & Ews & Ehs & _).
      rewrite (in_bounds_dims g s), Hpb, bind_Ok by assumption.
      destruct (mask_keeps_walls Grid.PATH) as [Hp1 Hp2]; [cbn; auto|].
      rewrite or_cell_mark
        by (try assumption; rewrite (in_bounds_dims g s) by assumption; exact Hpb).
      eexists. split; [reflexivity|]. apply same_walls_mark; assumption. }
    rewrite E2, bind_Ok. eexists _, (Solver.wl_pos st). split; [reflexivity|].
    cbn [Solver.grid Solver.path Solver.last_status]. rewrite Eend. auto.
  - eexists _, (Solver.wl_pos st). split; [reflexivity|].
    cbn [Solver.grid Solver.path Solver.last_status]. rewrite Eend. auto.
Qed.

Lemma wall_follower_walks_witness :
  exists o last,
    Solver.WallFollower_run "left" (Grid.mk 2 2 [29; 19; 31; 30]) (0, 0) (1, 1) = Ok o /\
    same_walls (Grid.mk 2 2 [29; 19; 31; 30]) (Solver.grid o) /\
    walk (Grid.mk 2 2 [29; 19; 31; 30]) (0, 0) last (Solver.path o) /\
    Z.of_nat (length (Solver.path o)) <= 4 * (2 * 2) + 1 /\
    Solver.last_status o =
      (if coord_eqb last (1, 1) then Solver.Solved else Solver.Stuck).
Proof.
  apply (wall_follower_walks "left" (Grid.mk 2 2 [29; 19; 31; 30]) (0, 0) (1, 1)).
  - unfold wf; simpl. repeat split; try lia. repeat constructor.
  - reflexivity.
Defined.

(** ** The depth-first solver *)

Lemma open_neighbors_steps (g : Grid.t) (x y : Z) :
  wf g -> Grid.in_bounds g x y = true ->
  exists l, Grid.get_open_neighbors g x y = Ok l /\
            forall q, In q l <-> step g (x, y) q.
Proof.
  intros Hwf Hb.
  assert (E : Grid.get_open_neighbors g x y =
    Ok (map (fun n => (fst (fst n), snd (fst n)))
          (List.filter (fun n => negb (has_bit (cell_at g x y) (snd n)))
             (Grid.get_neighbors g x y)))).
  { unfold Grid.get_open_neighbors, Grid.get_neighbors.
    rewrite getitem_cell, bind_Ok by assumption.
    unfold has_bit.
    destruct (0 <? y); destruct (y <? Grid.height g - 1);
      destruct (x <? Grid.width g - 1); destruct (0 <? x);
      cbn [app List.filter snd];
      destruct (Z.land (cell_at g x y) Grid.NORTH =? 0);
      destruct (Z.land (cell_at g x y) Grid.SOUTH =? 0);
      destruct (Z.land (cell_at g x y) Grid.EAST =? 0);
      destruct (Z.land (cell_at g x y) Grid.WEST =? 0);
      reflexivity. }
  eexists. split; [exact E|].
  intros q. rewrite in_map_iff. split.
  - intros ([[nx ny] d] & Eq & Hin). cbn [fst snd] in Eq. subst q.
    apply filter_In in Hin. destruct Hin as [Hin Hopen]. cbn [snd] in Hopen.
    apply negb_true_iff in Hopen.
    destruct (get_neighbors_toward g _ _ _ _ _ Hb Hin) as (Hnb & Hd & od & Ht).
    split; [exact Hb|]. split; [exact Hnb|]. exists d, od. auto.
  - intros (_ & Hq & d & od & Hd & Ht & Hopen). cbn [fst snd] in *.
    exists (fst q, snd q, d). split; [destruct q; reflexivity|].
    apply filter_In. split.
    + eapply toward_in_neighbors; eassumption.
    + cbn [snd]. rewrite Hopen. reflexivity.
Qed.

Lemma rdfs_scan_step (g0 : Grid.t) (start u n : Z * Z) (st : Solver.dfs_state)
    (depth : Z * Z -> Z) :
  rdfs_inv g0 start st depth [u] -> step g0 u n ->
  exists st' depth',
    Solver.dfs_scan (fst u) (snd u) st n = Ok st' /\
    rdfs_inv g0 start st' depth' [u] /\
    seen (Solver.df_grid st') n = true /\
    (forall p, Grid.in_bounds g0 (fst p) (snd p) = true ->
               seen (Solver.df_grid st) p = true ->
               seen (Solver.df_grid st') p = true) /\
    (rdfs_measure g0 st' <= rdfs_measure g0 st)%nat.
Proof.
  intros Hinv Hstep. destruct n as [nx ny].
  destruct (ri_busy _ _ _ _ _ Hinv u (or_introl eq_refl)) as (Hu & Hsu).
  destruct Hstep as (_ & Hnb & d & od & Hd & Ht & Hopen). cbn [fst snd] in *.
  pose proof (ri_walls _ _ _ _ _ Hinv) as Hsame.
  destruct Hsame as (Hwf & Hw & Hh & Hwalls).
  assert (Hdims : forall x y, Grid.in_bounds (Solver.df_grid st) x y =
                              Grid.in_bounds g0 x y)
    by (intros; apply in_bounds_dims; assumption).
  unfold Solver.dfs_scan, Grid.get_index. cbn [fst snd].
  rewrite Hdims, Hnb, bind_Ok.
  rewrite getitem_cell, bind_Ok by (rewrite ?Hdims; assumption).
  destruct (seen (Solver.df_grid st) (nx, ny)) eqn:Eseen.
  { pose proof Eseen as Eraw. unfold seen, has_bit in Eraw. cbn [fst snd] in Eraw.
    apply negb_true_iff in Eraw. rewrite Eraw.
    exists st, depth. split; [reflexivity|]. split; [exact Hinv|].
    split; [exact Eseen|]. split; [auto|]. lia. }
  pose proof Eseen as Eraw. unfold seen, has_bit in Eraw. cbn [fst snd] in Eraw.
  apply negb_false_iff in Eraw. rewrite Eraw.
  rewrite or_cell_mark, bind_Ok by (rewrite ?Hdims; try assumption; reflexivity).
  cbv zeta.
  assert (Hpbit : (if snd u - ny =? -1 then Grid.NORTH
                   else if snd u - ny =? 1 then Grid.SOUTH
                   else if fst u - nx =? -1 then Grid.WEST
                   else if fst u - nx =? 1 then Grid.EAST else 0) = od).
  { destruct (toward_cases _ _ _ _ _ _ Hd Ht)
      as [ (? & ? & ? & ?) | [ (? & ? & ? & ?) | [ (? & ? & ? & ?) | (? & ? & ? & ?) ] ] ];
      subst d od nx ny;
      repeat match goal with
             | |- context [?a =? ?b] =>
                 destruct (Z.eqb_spec a b); try lia
             end; reflexivity. }
  rewrite Hpbit. rewrite Hw. change (ny * Grid.width g0 + nx) with (flat g0 (nx, ny)).
  pose proof (flat_in_range g0 (nx, ny) Hnb) as Rn.
  rewrite setitem_inrange, bind_Ok.
  2: rewrite (ri_plen _ _ _ _ _ Hinv), Z2Nat.id; lia.
  2: eapply toward_opposite_byte; exact Ht.
  set (g' := write_cell (Solver.df_grid st) nx ny
               (Z.lor (cell_at (Solver.df_grid st) nx ny) Grid.SOLVER_VISITED)).
  set (ps := <[Z.to_nat (flat g0 (nx, ny)) := od]> (Solver.df_parents st)).
  set (depth' := fun p => if coord_eqb p (nx, ny) then depth u + 1 else depth p).
  assert (Hseen' : forall p, Grid.in_bounds g0 (fst p) (snd p) = true ->
            seen g' p = if coord_eqb (nx, ny) p then true
                        else seen (Solver.df_grid st) p).
  { intros p Hp. apply seen_mark; rewrite ?Hdims; assumption. }
  assert (Hold : forall p, Grid.in_bounds g0 (fst p) (snd p) = true ->
            seen (Solver.df_grid st) p = true ->
            seen g' p = true /\ depth' p = depth p).
  { intros p Hp Hs. rewrite Hseen' by assumption. unfold depth'.
    destruct (coord_eqb p (nx, ny)) eqn:E.
    - apply coord_eqb_eq in E. subst p. congruence.
    - rewrite coord_eqb_sym, E. auto. }
  assert (Hnew : forall p, Grid.in_bounds g0 (fst p) (snd p) = true ->
            seen g' p = true ->
            p = (nx, ny) \/ (p <> (nx, ny) /\ seen (Solver.df_grid st) p = true)).
  { intros p Hp Hs. rewrite Hseen' in Hs by assumption.
    destruct (coord_eqb (nx, ny) p) eqn:E.
    - left. symmetry. apply coord_eqb_eq, E.
    - right. split; [|exact Hs]. apply coord_eqb_neq in E. congruence. }
  assert (Hdn : depth' (nx, ny) = depth u + 1)
    by (unfold depth'; rewrite coord_eqb_refl; reflexivity).
  assert (Hsn : seen g' (nx, ny) = true)
    by (rewrite Hseen' by exact Hnb; rewrite coord_eqb_refl; reflexivity).
  exists (Solver.mk_dfs g' (Solver.df_stack st ++ [(nx, ny)]) ps
            (Solver.df_visited st + 1)), depth'.
  split; [reflexivity|].
  assert (Hcount : count_where (seen g') (scanline g0) =
                   S (count_where (seen (Solver.df_grid st)) (scanline g0))).
  { apply count_where_update with (p0 := (nx, ny)).
    - apply NoDup_scanline.
    - apply in_scanline, Hnb.
    - exact Eseen.
    - exact Hsn.
    - intros p Hp Hne. apply in_scanline_cell in Hp. rewrite Hseen' by exact Hp.
      destruct (coord_eqb (nx, ny) p) eqn:E; [|reflexivity].
      apply coord_eqb_eq in E. congruence. }
  split; [|split; [|split]].
  - constructor; cbn [Solver.df_grid Solver.df_stack Solver.df_parents].
    + destruct (scratch_mask_walls Grid.SOLVER_VISITED) as [Hm Hmd]; [left; reflexivity|].
      apply same_walls_mark; try assumption. unfold same_walls. auto.
    + unfold ps. rewrite length_insert. apply (ri_plen _ _ _ _ _ Hinv).
    + apply (ri_start_in _ _ _ _ _ Hinv).
    + apply Hold; [apply (ri_start_in _ _ _ _ _ Hinv) | apply (ri_start _ _ _ _ _ Hinv)].
    + intros p Hp. apply in_app_or in Hp. destruct Hp as [Hp | [<- | []]].
      * destruct (ri_stacked _ _ _ _ _ Hinv p Hp) as [Hpb Hps].
        split; [exact Hpb|]. apply Hold; assumption.
      * split; [exact Hnb | exact Hsn].
    + intros p Hp. destruct (ri_busy _ _ _ _ _ Hinv p Hp) as (Hpb & Hps).
      split; [exact Hpb|]. apply Hold; assumption.
    + intros p Hp Hs. destruct (Hnew p Hp Hs) as [-> | [Hne Hs0]].
      * left. apply in_or_app. right. left. reflexivity.
      * destruct (ri_done _ _ _ _ _ Hinv p Hp Hs0) as [Hq | [Hb | Hdone]].
        -- left. apply in_or_app. left. exact Hq.
        -- right. left. exact Hb.
        -- right. right. intros q Hstep.
           assert (Hqb : Grid.in_bounds g0 (fst q) (snd q) = true) by apply Hstep.
           apply Hold; [exact Hqb | apply Hdone, Hstep].
    + intros p Hp Hs Hne. destruct (Hnew p Hp Hs) as [-> | [Hnn Hs0]].
      * exists od, d, u. cbn [fst snd].
        split; [eapply toward_opposite_direction; eassumption|].
        split; [unfold ps; rewrite look_insert_flat, coord_eqb_refl;
                [reflexivity | apply (ri_plen _ _ _ _ _ Hinv) | exact Hnb | exact Hnb]|].
        split; [apply toward_back; assumption|].
        split; [split; [exact Hu|]; split; [exact Hnb|]; exists d, od; auto|].
        destruct (Hold u Hu Hsu) as [Hsu' Hdu'].
        split; [exact Hsu'|]. rewrite Hdu', Hdn.
        pose proof (ri_bound _ _ _ _ _ Hinv u Hu Hsu). lia.
      * destruct (ri_links _ _ _ _ _ Hinv p Hp Hs0 Hne)
          as (dir & od' & q & Hdir & Hlook & Htq & Hstep & Hsq & H0 & H1).
        assert (Hqb : Grid.in_bounds g0 (fst q) (snd q) = true) by apply Hstep.
        destruct (Hold q Hqb Hsq) as [Hsq' Hdq'].
        exists dir, od', q. split; [exact Hdir|].
        split; [unfold ps; rewrite look_insert_flat;
                [|apply (ri_plen _ _ _ _ _ Hinv) | exact Hnb | exact Hp];
                destruct (coord_eqb (nx, ny) p) eqn:E;
                [apply coord_eqb_eq in E; congruence | exact Hlook]|].
        split; [exact Htq|]. split; [exact Hstep|]. split; [exact Hsq'|].
        rewrite Hdq', (proj2 (Hold p Hp Hs0)). auto.
    + intros p Hp Hs. rewrite Hcount. destruct (Hnew p Hp Hs) as [-> | [Hnn Hs0]].
      * rewrite Hdn. pose proof (ri_bound _ _ _ _ _ Hinv u Hu Hsu). lia.
      * rewrite (proj2 (Hold p Hp Hs0)).
        pose proof (ri_bound _ _ _ _ _ Hinv p Hp Hs0). lia.
  - exact Hsn.
  - intros p Hp Hs. apply Hold; assumption.
  - unfold rdfs_measure. cbn [Solver.df_grid Solver.df_stack].
    rewrite Hcount, length_app. cbn [length].
    pose proof (count_where_lt (seen (Solver.df_grid st)) (scanline g0) (nx, ny)
                  (proj2 (in_scanline g0 nx ny) Hnb) Eseen).
    lia.
Qed.
Lemma rdfs_expand (g0 : Grid.t) (start u : Z * Z) (st : Solver.dfs_state)
    (depth : Z * Z -> Z) :
  rdfs_inv g0 start st depth [u] ->
  exists st' depth',
    (let* neighbors :=
       Grid.get_open_neighbors (Solver.df_grid st) (fst u) (snd u) in
     foldM (Solver.dfs_scan (fst u) (snd u)) neighbors st) = Ok st' /\
    rdfs_inv g0 start st' depth' [] /\
    (rdfs_measure g0 st' <= rdfs_measure g0 st)%nat.
Proof.
  intros Hinv.
  pose proof (ri_walls _ _ _ _ _ Hinv) as Hsame.
  pose proof Hsame as (Hwf & Hw & Hh & _).
  destruct (ri_busy _ _ _ _ _ Hinv u (or_introl eq_refl)) as (Hu & Hsu).
  destruct (open_neighbors_steps (Solver.df_grid st) (fst u) (snd u) Hwf)
    as (l & El & Hl).
  { rewrite (in_bounds_dims g0) by assumption. exact Hu. }
  rewrite El, bind_Ok.
  assert (Hl0 : forall q, In q l <-> step g0 u q).
  { intros q. rewrite Hl, <- surjective_pairing.
    symmetry. apply same_walls_step, Hsame. }
  destruct (foldM_prefix
    (fun pre s => exists depth',
       rdfs_inv g0 start s depth' [u] /\
       (forall q, In q pre -> Grid.in_bounds g0 (fst q) (snd q) = true /\
                              seen (Solver.df_grid s) q = true) /\
       (rdfs_measure g0 s <= rdfs_measure g0 st)%nat)
    (Solver.dfs_scan (fst u) (snd u)) l) with (pre := @nil (Z * Z)) (s := st)
    as (st' & Erun & depth' & Hinv' & Hproc & Hm).
  - intros pre s n Hin (depth1 & Hinv1 & Hproc1 & Hm1).
    destruct (rdfs_scan_step g0 start u n s depth1 Hinv1 (proj1 (Hl0 n) Hin))
      as (s' & depth2 & E & Hinv2 & Hnew & Hkeep & Hm2).
    exists s'. split; [exact E|]. exists depth2. split; [exact Hinv2|].
    split; [|lia].
    intros q Hpre. apply in_app_or in Hpre.
    destruct Hpre as [Hpre | [<- | []]].
    + destruct (Hproc1 q Hpre) as [Hqb Hqs].
      split; [exact Hqb | apply Hkeep; assumption].
    + split; [apply (proj1 (Hl0 n) Hin) | exact Hnew].
  - exists depth. split; [exact Hinv|]. split; [intros ? []|lia].
  - cbn [app] in Hproc. exists st', depth'. split; [exact Erun|]. split; [|exact Hm].
    constructor; try apply Hinv'.
    + intros p [].
    + intros p Hp Hs.
      destruct (ri_done _ _ _ _ _ Hinv' p Hp Hs) as [Hq | [[<- | []] | Hdone]].
      * left. exact Hq.
      * right. right. intros q Hst. apply Hproc, Hl0, Hst.
      * right. right. exact Hdone.
Qed.
Lemma stack_pop {A : Type} (l : list A) (c : A) :
  last l = Some c -> l = removelast l ++ [c].
Proof.
  intros Hl. apply last_Some in Hl. destruct Hl as [l' ->].
  rewrite removelast_last. reflexivity.
Qed.

Lemma rdfs_closed (g0 : Grid.t) (start end_ : Z * Z) (st : Solver.dfs_state)
    (depth : Z * Z -> Z) :
  rdfs_inv g0 start st depth [] -> Solver.df_stack st = [] ->
  forall l p, walk g0 p end_ l -> seen (Solver.df_grid st) p = true ->
              seen (Solver.df_grid st) end_ = true.
Proof.
  intros Hinv Hempty l p Hwalk.
  induction Hwalk as [p Hp | p q e l Hstep Hwalk IH]; intros Hs; [exact Hs|].
  assert (Hp : Grid.in_bounds g0 (fst p) (snd p) = true) by apply Hstep.
  destruct (ri_done _ _ _ _ _ Hinv p Hp Hs) as [Hin | [[] | Hdone]].
  - rewrite Hempty in Hin. destruct Hin.
  - apply IH, Hdone, Hstep.
Qed.

Lemma rdfs_loop_finishes (g0 : Grid.t) (start end_ : Z * Z) (fuel : nat) :
  forall (st : Solver.dfs_state) (depth : Z * Z -> Z),
    rdfs_inv g0 start st depth [] ->
    (rdfs_measure g0 st <= fuel)%nat ->
    exists st' depth',
      Solver.dfs_loop fuel end_ st = Ok st' /\
      same_walls g0 (Solver.df_grid st') /\
      length (Solver.df_parents st') = Z.to_nat (Grid.width g0 * Grid.height g0) /\
      parent_links g0 start (Solver.df_parents st')
        (fun p => seen (Solver.df_grid st') p = true) depth' /\
      (forall p, Grid.in_bounds g0 (fst p) (snd p) = true ->
                 seen (Solver.df_grid st') p = true ->
                 0 <= depth' p < Z.of_nat (length (scanline g0))) /\
      forall l, walk g0 start end_ l -> seen (Solver.df_grid st') end_ = true.
Proof.
  assert (Hrange : forall st depth, rdfs_inv g0 start st depth [] ->
            forall p, Grid.in_bounds g0 (fst p) (snd p) = true ->
                      seen (Solver.df_grid st) p = true ->
                      0 <= depth p < Z.of_nat (length (scanline g0))).
  { intros st depth Hinv p Hp Hs.
    pose proof (ri_bound _ _ _ _ _ Hinv p Hp Hs).
    pose proof (count_where_le (seen (Solver.df_grid st)) (scanline g0)). lia. }
  assert (Hstop : forall fuel st depth, rdfs_inv g0 start st depth [] ->
            Solver.df_stack st = [] ->
            exists st' depth',
              Solver.dfs_loop fuel end_ st = Ok st' /\
              same_walls g0 (Solver.df_grid st') /\
              length (Solver.df_parents st') =
                Z.to_nat (Grid.width g0 * Grid.height g0) /\
              parent_links g0 start (Solver.df_parents st')
                (fun p => seen (Solver.df_grid st') p = true) depth' /\
              (forall p, Grid.in_bounds g0 (fst p) (snd p) = true ->
                         seen (Solver.df_grid st') p = true ->
                         0 <= depth' p < Z.of_nat (length (scanline g0))) /\
              forall l, walk g0 start end_ l ->
                        seen (Solver.df_grid st') end_ = true).
  { intros k st depth Hinv Hempty. exists st, depth.
    split; [destruct k; cbn [Solver.dfs_loop]; rewrite Hempty; reflexivity|].
    split; [apply Hinv|]. split; [apply Hinv|]. split; [apply Hinv|].
    split; [apply (Hrange st depth Hinv)|].
    intros l Hwalk.
    apply (rdfs_closed g0 start end_ st depth Hinv Hempty l start Hwalk).
    apply Hinv. }
  induction fuel as [|k IH]; intros st depth Hinv Hm.
  - apply (Hstop 0%nat st depth Hinv).
    destruct (Solver.df_stack st) eqn:E; [reflexivity|].
    unfold rdfs_measure in Hm. rewrite E in Hm. cbn [length] in Hm. lia.
  - destruct (last (Solver.df_stack st)) as [curr|] eqn:Elast.
    2: { apply (Hstop (S k) st depth Hinv). apply last_None, Elast. }
    pose proof (stack_pop _ _ Elast) as Estack.
    cbn [Solver.dfs_loop]. rewrite Elast.
    assert (Hcurr : Grid.in_bounds g0 (fst curr) (snd curr) = true /\
                    seen (Solver.df_grid st) curr = true).
    { apply (ri_stacked _ _ _ _ _ Hinv). rewrite Estack.
      apply in_or_app. right. left. reflexivity. }
    set (st0 := Solver.mk_dfs (Solver.df_grid st) (removelast (Solver.df_stack st))
                  (Solver.df_parents st) (Solver.df_visited st)).
    destruct (coord_eqb curr end_) eqn:Ee.
    + apply coord_eqb_eq in Ee. subst curr.
      exists st0, depth. cbn [Solver.df_grid Solver.df_parents st0].
      split; [reflexivity|]. split; [apply Hinv|]. split; [apply Hinv|].
      split; [apply Hinv|]. split; [apply (Hrange st depth Hinv)|].
      intros l _. apply Hcurr.
    + assert (Hpop : rdfs_inv g0 start st0 depth [curr]).
      { constructor; cbn [Solver.df_grid Solver.df_stack Solver.df_parents st0];
          try apply Hinv.
        - intros p Hp. apply (ri_stacked _ _ _ _ _ Hinv). rewrite Estack.
          apply in_or_app. left. exact Hp.
        - intros p [<- | []]. exact Hcurr.
        - intros p Hp Hs.
          destruct (ri_done _ _ _ _ _ Hinv p Hp Hs) as [Hin | [[] | Hdone]].
          + rewrite Estack in Hin. apply in_app_or in Hin.
            destruct Hin as [Hin | [<- | []]]; [left; exact Hin|].
            right. left. left. reflexivity.
          + right. right. exact Hdone. }
      destruct (rdfs_expand g0 start curr st0 depth Hpop)
        as (st1 & depth1 & Erun & Hinv1 & Hm1).
      apply bind_Ok_inv in Erun. destruct Erun as (l & El & Ef).
      fold st0. rewrite El, bind_Ok, Ef, bind_Ok.
      apply (IH st1 depth1 Hinv1).
      unfold rdfs_measure in *. rewrite Estack, length_app in Hm.
      cbn [Solver.df_grid Solver.df_stack length st0] in *. lia.
Qed.
(** X18.  On a well-formed grid without solver marks, for any two cells of
    the lattice, the depth-first solver runs to completion and leaves every
    wall as it was; it returns a walk from start to end through open walls,
    or the empty path, and the empty path only when the end cannot be
    reached. *)
Theorem recursive_dfs_finds_a_path (g : Grid.t) (start end_ : Z * Z)
    (fuel : nat) :
  wf g -> no_solver_marks g ->
  Grid.in_bounds g (fst start) (snd start) = true ->
  Grid.in_bounds g (fst end_) (snd end_) = true ->
  2 * (Grid.width g * Grid.height g) <= Z.of_nat fuel ->
  path_answer g start end_ (Solver.RecursiveDFS_run fuel g start end_).
Proof.
  intros Hwf Hfresh Hs He Hfuel.
  destruct (start_marked g start Hwf Hfresh Hs) as (Hsame & Hseen & Hcount).
  set (g1 := write_cell g (fst start) (snd start)
               (Z.lor (cell_at g (fst start) (snd start)) Grid.SOLVER_VISITED)) in *.
  assert (Hinv : rdfs_inv g start (Solver.mk_dfs g1 [start] (Solver.zeros g) 1)
                   (fun _ => 0) []).
  { constructor; cbn [Solver.df_grid Solver.df_stack Solver.df_parents].
    - exact Hsame.
    - apply zeros_length.
    - exact Hs.
    - apply Hseen; [exact Hs | reflexivity].
    - intros p [<- | []]. split; [exact Hs|]. apply Hseen; [exact Hs | reflexivity].
    - intros p [].
    - intros p Hp Hsp. left. left. symmetry. apply Hseen; assumption.
    - intros p Hp Hsp Hne. apply Hseen in Hsp; [contradiction | exact Hp].
    - intros p Hp Hsp. rewrite Hcount. lia. }
  assert (HN : length (scanline g) = Z.to_nat (Grid.width g * Grid.height g))
    by (apply scanline_length; apply Hwf).
  pose proof (flat_in_range g start Hs) as Rs.
  destruct (rdfs_loop_finishes g start end_ fuel _ _ Hinv)
    as (st' & depth' & Eloop & Hsame' & Hplen & Hlinks & Hrange & Hfound).
  { unfold rdfs_measure. cbn [Solver.df_grid Solver.df_stack length].
    pose proof (count_where_le (seen g1) (scanline g)) as Hle.
    rewrite Hcount in *. lia. }
  pose proof Hsame' as (Hwf' & Hw' & Hh' & Hwalls').
  assert (Hdims : forall x y, Grid.in_bounds (Solver.df_grid st') x y =
                              Grid.in_bounds g x y)
    by (intros; apply in_bounds_dims; assumption).
  unfold Solver.RecursiveDFS_run, Grid.get_index. rewrite Hs, bind_Ok.
  rewrite or_cell_mark, bind_Ok by (try assumption; reflexivity).
  fold g1. change (Solver.zeros g1) with (Solver.zeros g).
  rewrite Eloop, bind_Ok.
  rewrite Hdims, He, bind_Ok.
  rewrite getitem_cell, bind_Ok by (rewrite ?Hdims; assumption).
  change (negb (Z.land (cell_at (Solver.df_grid st') (fst end_) (snd end_))
                  Grid.SOLVER_VISITED =? 0))
    with (seen (Solver.df_grid st') end_).
  destruct (seen (Solver.df_grid st') end_) eqn:Hse.
  - destruct (follow_parents_walk g start (Solver.df_parents st')
                (fun p => seen (Solver.df_grid st') p = true) depth' Hs Hplen Hlinks
                fuel (Solver.df_grid st') end_ [])
      as (g2 & path & Efollow & Hsame2 & Hwalk & Hlen).
    { exact Hsame'. }
    { exact He. }
    { exact Hse. }
    { pose proof (Hrange end_ He Hse). lia. }
    rewrite Efollow, bind_Ok. eexists. split; [reflexivity|].
    cbn [Solver.grid Solver.path]. split; [exact Hsame2|]. right. exact Hwalk.
  - eexists. split; [reflexivity|].
    cbn [Solver.grid Solver.path]. split; [exact Hsame'|]. left.
    split; [reflexivity|]. intros Hr.
    destruct (reach_walk g start end_ Hs Hr) as [l Hl].
    discriminate (Hfound l Hl).
Qed.

Lemma recursive_dfs_finds_a_path_witness :
  path_answer (Grid.mk 2 2 [29; 19; 31; 30]) (0, 0) (1, 1)
    (Solver.RecursiveDFS_run 8 (Grid.mk 2 2 [29; 19; 31; 30]) (0, 0) (1, 1)).
Proof.
  apply (recursive_dfs_finds_a_path (Grid.mk 2 2 [29; 19; 31; 30]) (0, 0) (1, 1) 8).
  - unfold wf; simpl. repeat split; try lia. repeat constructor.
  - intros [x y] Hp. apply in_bounds_iff in Hp. cbn in Hp.
    assert (Hx : x = 0 \/ x = 1) by lia. assert (Hy : y = 0 \/ y = 1) by lia.
    destruct Hx as [-> | ->], Hy as [-> | ->]; reflexivity.
  - reflexivity.
  - reflexivity.
  - cbn. lia.
Defined.

(** ** From the generator to the race *)

Lemma reach_trans (g : Grid.t) (a b c : Z * Z) :
  reach g a b -> reach g b c -> reach g a c.
Proof.
  intros Hab Hbc. induction Hbc as [|p q _ IH Hst]; [exact Hab|].
  apply (reach_step g a p q IH Hst).
Qed.

Lemma reach_sym (g : Grid.t) (a b : Z * Z) :
  symmetric_cells g -> reach g a b -> reach g b a.
Proof.
  intros Hsym Hab. induction Hab as [|p q _ IH Hst]; [apply reach_refl|].
  apply (reach_trans g q p a); [|exact IH].
  apply (reach_step g q q p); [apply reach_refl | apply step_sym; assumption].
Qed.

Lemma search_answer_solved (g : Grid.t) (start end_ : Z * Z)
    (r : result Solver.outcome) :
  reach g start end_ -> search_answer g start end_ r -> solved_by g start end_ r.
Proof.
  intros Hr (o & E & Hsame & [[_ Hno] | Hpath]); [contradiction|].
  exists o. auto.
Qed.

Section Benchmark.

Variable Rng : Type.
Variable Random : Z -> Rng.
Variable randbelow : Rng -> Z -> Z * Rng.
Hypothesis randbelow_range :
  forall rng n, 0 < n -> 0 <= fst (randbelow rng n) < n.

Lemma backtracker_tree (w h seed : Z) (fuel : nat) :
  1 <= w -> 1 <= h -> 2 * (w * h) <= Z.of_nat fuel ->
  exists g rank n,
    Generator.RecursiveBacktracker_run Rng Random randbelow fuel seed (Grid.init w h)
      = Ok g /\
    tree_inv w h g rank n /\
    forall p, Grid.in_bounds g (fst p) (snd p) = true -> visited g p = true.
Proof using randbelow_range.
  intros Hw Hh Hfuel. unfold Generator.RecursiveBacktracker_run.
  assert (Hwf0 : wf (Grid.init w h)) by (apply init_wf; lia).
  assert (H00 : Grid.in_bounds (Grid.init w h) 0 0 = true)
    by (apply in_bounds_iff; simpl; lia).
  rewrite set_visited_mark, bind_Ok by assumption.
  pose proof (initial_tree w h Hw Hh) as I.
  set (g1 := write_cell _ _ _ _) in *.
  destruct (backtracker_loop_finishes Rng randbelow randbelow_range w h fuel
              (Generator.mk_backtracker Rng g1 [(0, 0)] (Random seed) 0)
              (fun _ => O) 1%nat) as (st' & rank' & n' & Erun & Hinv' & Hempty).
  - constructor; cbn [Generator.bt_grid Generator.bt_stack].
    + exact I.
    + exact H00.
    + intros p [<-|[]]. split; [exact H00 | apply I].
    + intros p q Hp Hv Hnot _. exfalso. apply Hnot. left.
      pose proof (ti_count _ _ _ _ _ I) as Hcnt.
      destruct (coord_eqb p (0, 0)) eqn:E; [apply coord_eqb_eq in E; congruence|].
      apply coord_eqb_neq in E.
      assert (Hroot := ti_root _ _ _ _ _ I).
      assert (Hin0 : In (0, 0) (scanline g1)) by (apply in_scanline, H00).
      assert (Hinp : In p (scanline g1)) by (destruct p; apply in_scanline, Hp).
      exfalso. clear - Hcnt Hv Hroot Hin0 Hinp E.
      unfold count_where in Hcnt.
      assert (Hsub : (2 <= length (List.filter (visited g1) (scanline g1)))%nat).
      { pose proof (NoDup_scanline g1) as Hnd.
        assert (H1 : In (0, 0) (List.filter (visited g1) (scanline g1)))
          by (apply filter_In; auto).
        assert (H2 : In p (List.filter (visited g1) (scanline g1)))
          by (apply filter_In; auto).
        destruct (List.filter (visited g1) (scanline g1)) as [|a [|b l]];
          simpl in *; try lia; intuition congruence. }
      lia.
  - cbn [Generator.bt_stack length].
    assert (1 <= Z.to_nat (w * h))%nat by nia. lia.
  - rewrite Erun, bind_Ok. exists (Generator.bt_grid Rng st'), rank', n'.
    split; [reflexivity|].
    pose proof (di_tree _ _ _ _ _ Hinv') as I'. split; [exact I'|].
    apply (closed_all_visited _ _ _ _ _ I').
    intros p q Hp Hv Hnb. apply (di_closed _ _ _ _ _ Hinv' p q Hp Hv); [|exact Hnb].
    rewrite Hempty. intros [].
Qed.

(** X19.  The benchmark's pipeline on a maze of at most 7000 * 7000 cells:
    the recursive backtracker followed by the braid, with any seed and any
    float factor up to 1.0 (the braid is skipped when the factor is not
    positive), returns a well-formed maze of the requested size; and on any
    grid with the walls of that maze, whatever marks earlier solvers left
    on it, masking the cells with 0x1F and then running the breadth-first,
    uniform-cost or A* solver between any two cells of the lattice returns
    a shortest walk between them and changes no wall. *)
Theorem benchmark_race_finds_shortest_paths (w h seed : Z)
    (factor : PyFloat.t) (fuel : nat) :
  1 <= w -> 1 <= h -> w * h <= 7000 * 7000 ->
  2 * (w * h) * (w * h) <= Z.of_nat fuel ->
  PyFloat.valid factor = true -> PyFloat.leb factor PyFloat.one = true ->
  exists g,
    benchmark_maze Rng Random randbelow fuel w h factor seed = Ok g /\
    wf g /\ Grid.width g = w /\ Grid.height g = h /\
    forall g' start end_,
      same_walls g g' ->
      Grid.in_bounds g (fst start) (snd start) = true ->
      Grid.in_bounds g (fst end_) (snd end_) = true ->
      solved_by g start end_
        (Solver.BFS_run fuel (clear_solver_bits g') start end_) /\
      solved_by g start end_
        (Solver.Dijkstra_run fuel (clear_solver_bits g') start end_) /\
      solved_by g start end_
        (Solver.AStar_run fuel (clear_solver_bits g') start end_).
Proof using randbelow_range.
  intros Hw Hh Hmax Hfuel Hvalid Hone.
  destruct (backtracker_tree w h seed fuel Hw Hh ltac:(nia))
    as (g0 & rank & n & Egen & I & Hall).
  pose proof (ti_wf _ _ _ _ _ I) as Hwf0.
  pose proof (ti_sym _ _ _ _ _ I) as Hsym0.
  pose proof (ti_width _ _ _ _ _ I) as Ew0.
  pose proof (ti_height _ _ _ _ _ I) as Eh0.
  assert (Hconn0 : forall p q, Grid.in_bounds g0 (fst p) (snd p) = true ->
                               Grid.in_bounds g0 (fst q) (snd q) = true ->
                               reach g0 p q).
  { intros p q Hp Hq. apply (reach_trans g0 p (0, 0) q).
    - apply reach_sym; [exact Hsym0|].
      apply (ti_reach _ _ _ _ _ I p Hp), Hall, Hp.
    - apply (ti_reach _ _ _ _ _ I q Hq), Hall, Hq. }
  assert (Hmaze : exists g,
            benchmark_maze Rng Random randbelow fuel w h factor seed = Ok g /\
            only_opened g0 g).
  { unfold benchmark_maze. rewrite Egen, bind_Ok.
    destruct (PyFloat.ltb PyFloat.zero factor) eqn:Epos.
    - unfold MazePostProcessor.braid.
      rewrite collect_dead_ends, bind_Ok by assumption.
      destruct (shuffle_spec Rng randbelow (Random seed)
                  (List.filter (dead_end g0) (scanline g0))) as [Hlen Hmem].
      destruct (shuffle Rng randbelow (Random seed)
                  (List.filter (dead_end g0) (scanline g0))) as [l rng].
      cbn [fst] in Hlen, Hmem.
      destruct (FloatFacts.int_times_unit (Z.of_nat (length l)) factor)
        as (target & Et & _); try assumption.
      { pose proof (dead_ends_few g0 Hwf0). rewrite Ew0, Eh0 in *. lia. }
      { unfold PyFloat.ltb, SpecFloat.SFltb in Epos.
        unfold PyFloat.leb, SpecFloat.SFleb.
        destruct (SpecFloat.SFcompare PyFloat.zero factor) as [[]|];
          first [reflexivity | discriminate]. }
      rewrite Et, bind_Ok.
      destruct (braid_loop_opens Rng randbelow randbelow_range l g0 rng target 0
                  Hwf0 Hsym0)
        as (g & r & rng' & E & Ho & _).
      { intros x y Hin. apply Hmem, filter_In in Hin. apply in_scanline, Hin. }
      exists g. rewrite E, !bind_Ok. split; [reflexivity | exact Ho].
    - exists g0. split; [reflexivity | apply only_opened_refl, Hwf0]. }
  destruct Hmaze as (g & Emaze & Ho).
  pose proof Ho as (Hwf & Ew & Eh & _).
  exists g. split; [exact Emaze|]. split; [exact Hwf|].
  split; [congruence|]. split; [congruence|].
  intros g' start end_ Hsame Hs He.
  assert (Hreach : reach g start end_).
  { apply (only_opened_reach g0 g _ _ Ho). apply Hconn0.
    - rewrite <- (in_bounds_dims g0 g) by assumption. exact Hs.
    - rewrite <- (in_bounds_dims g0 g) by assumption. exact He. }
  pose proof Hsame as (Hwf' & Ew' & Eh' & _).
  pose proof (cleared_same_walls g' Hwf') as Hclear.
  pose proof (same_walls_trans g g' _ Hsame Hclear) as Hboth.
  pose proof Hboth as (Hwfc & Ewc & Ehc & _).
  assert (Hfresh : no_solver_marks (clear_solver_bits g')).
  { intros p _. unfold seen. rewrite cell_at_cleared, has_bit_masked.
    unfold has_bit. change (Z.land 31 Grid.SOLVER_VISITED) with 0.
    rewrite Z.land_0_r. reflexivity. }
  assert (Hsc : Grid.in_bounds (clear_solver_bits g') (fst start) (snd start) = true)
    by (rewrite (in_bounds_dims g) by assumption; exact Hs).
  assert (Hec : Grid.in_bounds (clear_solver_bits g') (fst end_) (snd end_) = true)
    by (rewrite (in_bounds_dims g) by assumption; exact He).
  assert (Hsize : Grid.width (clear_solver_bits g') * Grid.height (clear_solver_bits g')
                  = w * h) by (rewrite Ewc, Ehc; congruence).
  split; [|split]; apply search_answer_solved; try exact Hreach;
    apply (search_answer_same_walls g (clear_solver_bits g') _ _ _ Hboth).
  - apply BFS_answer; try assumption. rewrite Hsize. nia.
  - apply astar_answer; try assumption; try (rewrite Hsize; lia).
    + intros p. unfold Solver.zero_heuristic. lia.
    + intros p l. apply zero_admissible.
  - apply astar_answer; try assumption; try (rewrite Hsize; lia).
    + intros p. unfold Solver.manhattan. lia.
    + intros p l. apply manhattan_admissible.
Qed.

End Benchmark.

Lemma benchmark_race_finds_shortest_paths_witness :
  exists g,
    benchmark_maze (list Z) (fun _ => [3; 1; 4; 1; 5]) scripted_randbelow 32 2 2
      PyFloat.half 7 = Ok g /\
    wf g /\ Grid.width g = 2 /\ Grid.height g = 2 /\
    forall g' start end_,
      same_walls g g' ->
      Grid.in_bounds g (fst start) (snd start) = true ->
      Grid.in_bounds g (fst end_) (snd end_) = true ->
      solved_by g start end_
        (Solver.BFS_run 32 (clear_solver_bits g') start end_) /\
      solved_by g start end_
        (Solver.Dijkstra_run 32 (clear_solver_bits g') start end_) /\
      solved_by g start end_
        (Solver.AStar_run 32 (clear_solver_bits g') start end_).
Proof.
  apply (benchmark_race_finds_shortest_paths (list Z) (fun _ => [3; 1; 4; 1; 5])
           scripted_randbelow scripted_randbelow_range 2 2 7 PyFloat.half 32);
    first [reflexivity | cbn; lia].
Defined.

(** ** The generators write no solver bit *)

Lemma getitem_Ok_In (l : list Z) (i c : Z) : getitem l i = Ok c -> In c l.
Proof.
  unfold getitem. intros H. apply bind_Ok_inv in H. destruct H as (n & _ & H).
  destruct (l !! n) as [v|] eqn:E; [|discriminate].
  injection H as <-. apply list_elem_of_In. eapply list_elem_of_lookup_2, E.
Qed.

Lemma setitem_Ok_Forall (P : Z -> Prop) (l l' : list Z) (i v : Z) :
  setitem l i v = Ok l' -> Forall P l -> P v -> Forall P l'.
Proof.
  unfold setitem, array_set. intros H Hl Hv.
  apply bind_Ok_inv in H. destruct H as (n & _ & H).
  destruct (is_byte v); [|discriminate]. injection H as <-.
  apply Forall_insert; assumption.
Qed.

Lemma solver_bits_masked (c m : Z) :
  Z.land c 224 = 0 -> Z.land (Z.land c m) 224 = 0.
Proof.
  intros H. rewrite <- Z.land_assoc, (Z.land_comm m), Z.land_assoc, H.
  apply Z.land_0_l.
Qed.

Lemma carve_path_keeps_clear (g g' : Grid.t) (x y d : Z) :
  Grid.carve_path g x y d = Ok g' -> solver_bits_clear g -> solver_bits_clear g'.
Proof.
  unfold Grid.carve_path, solver_bits_clear.
  destruct (Grid.toward x y d) as [[x2 y2] od].
  destruct (negb (Grid.in_bounds g x2 y2)); [intros E; injection E as <-; auto|].
  intros H Hc. invert_binds H. injection H as <-. cbn [Grid.cells Grid.set_cells].
  pose proof (proj1 (List.Forall_forall _ _) Hc) as Hall.
  assert (H1 : Forall (fun c => Z.land c 224 = 0) a0).
  { eapply setitem_Ok_Forall; [eassumption | exact Hc |].
    apply solver_bits_masked, Hall. eapply getitem_Ok_In; eassumption. }
  eapply setitem_Ok_Forall; [eassumption | exact H1 |].
  apply solver_bits_masked.
  apply (proj1 (List.Forall_forall _ _) H1). eapply getitem_Ok_In; eassumption.
Qed.

Lemma set_visited_keeps_clear (g g' : Grid.t) (x y : Z) (v : bool) :
  Grid.set_visited g x y v = Ok g' -> solver_bits_clear g -> solver_bits_clear g'.
Proof.
  unfold Grid.set_visited, solver_bits_clear.
  intros H Hc. invert_binds H. injection H as <-. cbn [Grid.cells Grid.set_cells].
  eapply setitem_Ok_Forall; [eassumption | exact Hc |].
  pose proof (proj1 (List.Forall_forall _ _) Hc a ltac:(eapply getitem_Ok_In; eassumption))
    as Ha. cbv beta in Ha.
  destruct v; [|apply solver_bits_masked, Ha].
  change (Z.lor Grid.PATH (Z.lor Grid.SOLVER_VISITED Grid.SOLVER_AUX)) with 224 in *.
  rewrite Z.land_lor_distr_l, Ha. reflexivity.
Qed.
Section GeneratorFrame.

Variable Rng : Type.
Variable Random : Z -> Rng.
Variable randbelow : Rng -> Z -> Z * Rng.
Variable list_of_set : gset (Z * Z) -> list (Z * Z).

Lemma backtracker_loop_keeps_clear (fuel : nat) :
  forall st st',
    Generator.backtracker_loop Rng randbelow fuel st = Ok st' ->
    solver_bits_clear (Generator.bt_grid Rng st) ->
    solver_bits_clear (Generator.bt_grid Rng st').
Proof.
  induction fuel as [|k IH]; intros st st' H Hc.
  - cbn [Generator.backtracker_loop] in H.
    destruct (Generator.bt_stack Rng st) as [|[cx cy] below]; [|discriminate].
    injection H as <-. exact Hc.
  - cbn [Generator.backtracker_loop] in H.
    destruct (Generator.bt_stack Rng st) as [|[cx cy] below].
    { injection H as <-. exact Hc. }
    apply bind_Ok_inv in H. destruct H as (nb & _ & H).
    destruct nb as [|n0 rest]; [apply (IH _ _ H); exact Hc|].
    apply bind_Ok_inv in H. destruct H as ([[[nx ny] d] rng'] & _ & H).
    apply bind_Ok_inv in H. destruct H as (g1 & E1 & H).
    apply bind_Ok_inv in H. destruct H as (g2 & E2 & H).
    apply (IH _ _ H). cbn [Generator.bt_grid].
    eapply set_visited_keeps_clear; [exact E2|].
    eapply carve_path_keeps_clear; [exact E1 | exact Hc].
Qed.

Lemma prim_loop_keeps_clear (fuel : nat) :
  forall st st',
    Generator.prim_loop Rng randbelow fuel st = Ok st' ->
    solver_bits_clear (Generator.pr_grid Rng st) ->
    solver_bits_clear (Generator.pr_grid Rng st').
Proof.
  induction fuel as [|k IH]; intros st st' H Hc.
  - cbn [Generator.prim_loop] in H.
    destruct (Generator.pr_list Rng st); [|discriminate].
    injection H as <-. exact Hc.
  - cbn [Generator.prim_loop] in H.
    destruct (Generator.pr_list Rng st) as [|f0 frest] eqn:El.
    { injection H as <-. exact Hc. }
    apply bind_Ok_inv in H. destruct H as ([idx rng] & _ & H).
    apply bind_Ok_inv in H. destruct H as (n & _ & H).
    destruct ((f0 :: frest) !! n) as [[cx cy]|]; [|discriminate].
    destruct (last (f0 :: frest)) as [final|]; [|discriminate].
    destruct (negb (bool_decide ((cx, cy) ∈ Generator.pr_set Rng st))).
    { apply (IH _ _ H). exact Hc. }
    apply bind_Ok_inv in H. destruct H as (v & _ & H).
    destruct v; [apply (IH _ _ H); exact Hc|].
    apply bind_Ok_inv in H. destruct H as (possible & _ & H).
    destruct possible as [|p0 prest]; [apply (IH _ _ H); exact Hc|].
    apply bind_Ok_inv in H. destruct H as ([[[nx ny] d] rng'] & _ & H).
    apply bind_Ok_inv in H. destruct H as (g1 & E1 & H).
    apply bind_Ok_inv in H. destruct H as (g2 & E2 & H).
    apply bind_Ok_inv in H. destruct H as ([fset flist] & _ & H).
    apply (IH _ _ H). cbn [Generator.pr_grid].
    eapply set_visited_keeps_clear; [exact E2|].
    eapply carve_path_keeps_clear; [exact E1 | exact Hc].
Qed.

Lemma init_solver_bits_clear (w h : Z) : solver_bits_clear (Grid.init w h).
Proof.
  unfold solver_bits_clear, Grid.init. cbn [Grid.cells].
  apply Forall_replicate. reflexivity.
Qed.

Lemma generators_keep_clear (fuel : nat) (seed : Z) (g g' : Grid.t) :
  solver_bits_clear g ->
  (Generator.RecursiveBacktracker_run Rng Random randbelow fuel seed g = Ok g' ->
   solver_bits_clear g') /\
  (Generator.PrimsAlgorithm_run Rng Random randbelow list_of_set fuel seed g = Ok g' ->
   solver_bits_clear g').
Proof.
  intros Hc. split; intros H.
  - unfold Generator.RecursiveBacktracker_run in H.
    apply bind_Ok_inv in H. destruct H as (g1 & E1 & H).
    apply bind_Ok_inv in H. destruct H as (st & Est & H).
    injection H as <-.
    apply (backtracker_loop_keeps_clear _ _ _ Est). cbn [Generator.bt_grid].
    eapply set_visited_keeps_clear; [exact E1 | exact Hc].
  - unfold Generator.PrimsAlgorithm_run in H.
    apply bind_Ok_inv in H. destruct H as (g1 & E1 & H).
    apply bind_Ok_inv in H. destruct H as (st & Est & H).
    injection H as <-.
    apply (prim_loop_keeps_clear _ _ _ Est). cbn [Generator.pr_grid].
    eapply set_visited_keeps_clear; [exact E1 | exact Hc].
Qed.

End GeneratorFrame.

Lemma clear_no_solver_marks (g : Grid.t) :
  solver_bits_clear g -> no_solver_marks g.
Proof.
  intros Hc p _. unfold seen, has_bit, cell_at, look.
  destruct (Grid.cells g !! Z.to_nat (snd p * Grid.width g + fst p)) as [c|] eqn:E;
    [|reflexivity].
  change (default 0 (Some c)) with c.
  pose proof (proj1 (List.Forall_forall _ _) Hc c
                ltac:(apply list_elem_of_In; eapply list_elem_of_lookup_2, E)) as H.
  cbv beta in H.
  assert (Hz : Z.land c Grid.SOLVER_VISITED = 0).
  { change Grid.SOLVER_VISITED
      with (Z.land (Z.lor Grid.PATH (Z.lor Grid.SOLVER_VISITED Grid.SOLVER_AUX))
              Grid.SOLVER_VISITED).
    rewrite Z.land_assoc, H. reflexivity. }
  rewrite Hz. reflexivity.
Qed.
Lemma tree_ready (w h : Z) (g : Grid.t) (rank : Z * Z -> nat) (n : nat)
    (fuel : nat) :
  tree_inv w h g rank n ->
  (forall p, Grid.in_bounds g (fst p) (snd p) = true -> visited g p = true) ->
  solver_bits_clear g ->
  w * h < 2 ^ 31 -> 2 * (w * h) * (w * h) <= Z.of_nat fuel ->
  ready_to_solve fuel g.
Proof.
  intros I Hall Hclear Hsmall Hfuel.
  pose proof (ti_wf _ _ _ _ _ I) as Hwf.
  pose proof (ti_sym _ _ _ _ _ I) as Hsym.
  pose proof (ti_width _ _ _ _ _ I) as Ew.
  pose proof (ti_height _ _ _ _ _ I) as Eh.
  pose proof (clear_no_solver_marks g Hclear) as Hfresh.
  split; [exact Hwf|]. split; [exact Hclear|].
  intros start end_ Hs He.
  assert (Hreach : reach g start end_).
  { apply (reach_trans g start (0, 0) end_).
    - apply reach_sym; [exact Hsym|].
      apply (ti_reach _ _ _ _ _ I start Hs), Hall, Hs.
    - apply (ti_reach _ _ _ _ _ I end_ He), Hall, He. }
  pose proof (flat_in_range g start Hs) as Rs.
  split; [|split]; apply search_answer_solved; try exact Hreach.
  - apply BFS_answer; try assumption. rewrite Ew, Eh in *. nia.
  - apply astar_answer; try assumption; try (rewrite Ew, Eh; lia).
    + intros p. unfold Solver.zero_heuristic. lia.
    + intros p l. apply zero_admissible.
  - apply astar_answer; try assumption; try (rewrite Ew, Eh; lia).
    + intros p. unfold Solver.manhattan. lia.
    + intros p l. apply manhattan_admissible.
Qed.

Section GeneratedMazes.

Variable Rng : Type.
Variable Random : Z -> Rng.
Variable randbelow : Rng -> Z -> Z * Rng.
Variable list_of_set : gset (Z * Z) -> list (Z * Z).
Hypothesis randbelow_range :
  forall rng n, 0 < n -> 0 <= fst (randbelow rng n) < n.
Hypothesis list_of_set_spec :
  forall s, List.NoDup (list_of_set s) /\ forall q, In q (list_of_set s) <-> q ∈ s.

Lemma prim_tree (w h seed : Z) (fuel : nat) :
  1 <= w -> 1 <= h -> 4 * (w * h) < Z.of_nat fuel ->
  exists g rank n,
    Generator.PrimsAlgorithm_run Rng Random randbelow list_of_set fuel seed
      (Grid.init w h) = Ok g /\
    tree_inv w h g rank n /\
    forall p, Grid.in_bounds g (fst p) (snd p) = true -> visited g p = true.
Proof using randbelow_range list_of_set_spec.
  intros Hw Hh Hfuel. unfold Generator.PrimsAlgorithm_run.
  assert (Hwf0 : wf (Grid.init w h)) by (apply init_wf; lia).
  assert (H00 : Grid.in_bounds (Grid.init w h) 0 0 = true)
    by (apply in_bounds_iff; simpl; lia).
  rewrite set_visited_mark, bind_Ok by assumption.
  pose proof (initial_tree w h Hw Hh) as I.
  pose proof (initial_visited w h Hw Hh) as Hvis.
  set (g1 := write_cell _ _ _ _) in *.
  set (fset := foldl _ ∅ (Grid.get_neighbors g1 0 0)).
  destruct (list_of_set_spec fset) as [Hnd Hmem].
  assert (Hfset : forall q, q ∈ fset <-> lattice_neighbor g1 (0, 0) q).
  { intros q. subst fset. rewrite elem_of_frontier_start. unfold lattice_neighbor.
    cbn [fst snd]. split; [intros [H|H]; [set_solver | exact H] | auto]. }
  destruct (prim_loop_finishes Rng randbelow randbelow_range w h fuel
              (Generator.mk_prim Rng g1 fset (list_of_set fset) (Random seed) 0)
              (fun _ => O) 1%nat) as (st' & rank' & n' & Erun & Hinv' & Hempty).
  - constructor; cbn [Generator.pr_grid Generator.pr_list Generator.pr_set].
    + exact I.
    + exact H00.
    + exact Hnd.
    + intros q. symmetry. apply Hmem.
    + intros q Hq. apply Hmem, Hfset in Hq.
      destruct (lattice_neighbor_sym g1 (0, 0) q H00 Hq) as [Hqb Hsym].
      split; [exact Hqb|]. exists (0, 0). split; [exact H00|].
      split; [apply I | exact Hsym].
    + intros p q Hp Hv Hnb. right. apply Hmem, Hfset.
      rewrite (Hvis p Hp) in Hv. apply coord_eqb_eq in Hv. subst p. exact Hnb.
  - cbn [Generator.pr_list].
    assert (Hl : (length (list_of_set fset) <= 4)%nat).
    { pose proof (get_neighbors_length g1 0 0) as H4.
      assert (Hsub : forall q, In q (list_of_set fset) ->
                In q (map (fun n : Z * Z * Z => (fst (fst n), snd (fst n)))
                        (Grid.get_neighbors g1 0 0))).
      { intros q Hq. apply Hmem, Hfset in Hq. destruct Hq as [d Hd].
        apply in_map_iff. exists (fst q, snd q, d). split; [destruct q; reflexivity | exact Hd]. }
      pose proof (NoDup_incl_length Hnd Hsub) as Hle. rewrite length_map in Hle. lia. }
    assert (1 <= Z.to_nat (w * h))%nat by nia. lia.
  - rewrite Erun, bind_Ok. exists (Generator.pr_grid Rng st'), rank', n'.
    split; [reflexivity|].
    pose proof (pi_tree _ _ _ _ _ Hinv') as I'. split; [exact I'|].
    apply (closed_all_visited _ _ _ _ _ I').
    intros p q Hp Hv Hnb.
    destruct (pi_closed _ _ _ _ _ Hinv' p q Hp Hv Hnb) as [Hq|Hq]; [exact Hq|].
    rewrite Hempty in Hq. destruct Hq.
Qed.

(** X20.  The two sequential generators write no solver bit, and their
    mazes can be searched as they are: for every width and height of at
    least 1 with fewer than 2^31 cells and every seed, the recursive
    backtracker and Prim's algorithm each return a well-formed maze in
    which no cell has the PATH, SOLVER_VISITED or SOLVER_AUX bit, and on
    which the breadth-first, uniform-cost and A* solvers return a shortest
    walk between any two cells of the lattice. *)
Theorem generated_maze_is_ready_to_solve (w h seed : Z) (fuel : nat) :
  1 <= w -> 1 <= h -> w * h < 2 ^ 31 ->
  4 * (w * h) < Z.of_nat fuel ->
  2 * (w * h) * (w * h) <= Z.of_nat fuel ->
  (exists g,
     Generator.RecursiveBacktracker_run Rng Random randbelow fuel seed (Grid.init w h)
       = Ok g /\ ready_to_solve fuel g) /\
  (exists g,
     Generator.PrimsAlgorithm_run Rng Random randbelow list_of_set fuel seed
       (Grid.init w h) = Ok g /\ ready_to_solve fuel g).
Proof using randbelow_range list_of_set_spec.
  intros Hw Hh Hsmall Hgen Hfuel. split.
  - destruct (backtracker_tree Rng Random randbelow randbelow_range w h seed fuel
                Hw Hh ltac:(lia)) as (g & rank & n & Erun & I & Hall).
    exists g. split; [exact Erun|].
    apply (tree_ready w h g rank n fuel I Hall); try assumption.
    apply (proj1 (generators_keep_clear Rng Random randbelow list_of_set fuel seed
                    (Grid.init w h) g (init_solver_bits_clear w h))), Erun.
  - destruct (prim_tree w h seed fuel Hw Hh Hgen) as (g & rank & n & Erun & I & Hall).
    exists g. split; [exact Erun|].
    apply (tree_ready w h g rank n fuel I Hall); try assumption.
    apply (proj2 (generators_keep_clear Rng Random randbelow list_of_set fuel seed
                    (Grid.init w h) g (init_solver_bits_clear w h))), Erun.
Qed.

End GeneratedMazes.
Lemma generated_maze_is_ready_to_solve_witness :
  (exists g,
     Generator.RecursiveBacktracker_run (list Z) (fun _ => [3; 1; 4; 1; 5; 9; 2; 6])
       scripted_randbelow 72 42 (Grid.init 3 2) = Ok g /\ ready_to_solve 72 g) /\
  (exists g,
     Generator.PrimsAlgorithm_run (list Z) (fun _ => [3; 1; 4; 1; 5; 9; 2; 6])
       scripted_randbelow elements 72 42 (Grid.init 3 2) = Ok g /\
     ready_to_solve 72 g).
Proof.
  apply (generated_maze_is_ready_to_solve (list Z) (fun _ => [3; 1; 4; 1; 5; 9; 2; 6])
           scripted_randbelow elements scripted_randbelow_range elements_enumerates
           3 2 42 72); cbn; lia.
Defined.

(** ** The macro maze is a spanning tree of the blocks *)

Lemma fold_insert {A : Type} (f : A -> Z) (l : list A) (i : nat) (a v : A) :
  l !! i = Some a ->
  fold_right (fun c acc => f c + acc) 0 (<[i := v]> l) =
  fold_right (fun c acc => f c + acc) 0 l - f a + f v.
Proof.
  revert i. induction l as [|c l IH]; intros i Hi; [discriminate|].
  destruct i as [|i].
  - cbn in Hi. injection Hi as ->. cbn. lia.
  - change (<[S i := v]> (c :: l)) with (c :: <[i := v]> l).
    cbn [fold_right]. rewrite (IH i Hi). lia.
Qed.

Lemma block_in_iff (w h : Z) (p : Z * Z) :
  block_in w h p = true <-> 0 <= fst p < w /\ 0 <= snd p < h.
Proof. unfold block_in. rewrite !andb_true_iff, !Z.leb_le, !Z.ltb_lt. lia. Qed.

Lemma block_index (w h : Z) (p : Z * Z) :
  block_in w h p = true ->
  (Z.to_nat (fst p * h + snd p) < Z.to_nat (w * h))%nat.
Proof. intros H. apply block_in_iff in H. nia. Qed.

Lemma block_index_inj (w h : Z) (p q : Z * Z) :
  block_in w h p = true -> block_in w h q = true ->
  Z.to_nat (fst p * h + snd p) = Z.to_nat (fst q * h + snd q) -> p = q.
Proof.
  intros Hp Hq E. apply block_in_iff in Hp, Hq.
  destruct p as [a b], q as [c d]. cbn [fst snd] in *.
  assert (a * h + b = c * h + d) by nia.
  assert (a = c) by nia. subst. f_equal. lia.
Qed.

Lemma block_at_or (w h : Z) (grid : list Z) (q p : Z * Z) (bit : Z) :
  length grid = Z.to_nat (w * h) ->
  block_in w h q = true -> block_in w h p = true ->
  block_at h (TaichiParallelGenerator.or_at grid (fst q * h + snd q) bit) p =
  if coord_eqb p q then Z.lor (block_at h grid q) bit else block_at h grid p.
Proof.
  intros Hlen Hq Hp. unfold block_at, TaichiParallelGenerator.or_at.
  destruct (coord_eqb p q) eqn:E.
  - apply coord_eqb_eq in E. subst p.
    rewrite list_lookup_insert_eq by (rewrite Hlen; eapply block_index; eassumption).
    reflexivity.
  - apply coord_eqb_neq in E.
    rewrite list_lookup_insert_ne; [reflexivity|].
    intros Hi. apply E. symmetry. eapply block_index_inj; eassumption.
Qed.

Lemma block_seen_mark (w h : Z) (visited : list bool) (q p : Z * Z) :
  length visited = Z.to_nat (w * h) ->
  block_in w h q = true -> block_in w h p = true ->
  block_seen h (<[Z.to_nat (fst q * h + snd q) := true]> visited) p =
  if coord_eqb p q then true else block_seen h visited p.
Proof.
  intros Hlen Hq Hp. unfold block_seen.
  destruct (coord_eqb p q) eqn:E.
  - apply coord_eqb_eq in E. subst p.
    rewrite list_lookup_insert_eq by (rewrite Hlen; eapply block_index; eassumption).
    reflexivity.
  - apply coord_eqb_neq in E.
    rewrite list_lookup_insert_ne; [reflexivity|].
    intros Hi. apply E. symmetry. eapply block_index_inj; eassumption.
Qed.

Lemma macro_dirs_cases (dx dy d od : Z) :
  In (dx, dy, d, od) TaichiParallelGenerator.macro_dirs ->
  (dx = 0 /\ dy = -1 /\ d = 1 /\ od = 4) \/
  (dx = 1 /\ dy = 0 /\ d = 2 /\ od = 8) \/
  (dx = 0 /\ dy = 1 /\ d = 4 /\ od = 1) \/
  (dx = -1 /\ dy = 0 /\ d = 8 /\ od = 2).
Proof.
  cbn. intros [E | [E | [E | [E | []]]]]; inversion E; tauto.
Qed.

Lemma macro_dirs_back (dx dy d od : Z) :
  In (dx, dy, d, od) TaichiParallelGenerator.macro_dirs ->
  In (- dx, - dy, od, d) TaichiParallelGenerator.macro_dirs.
Proof.
  intros H. apply macro_dirs_cases in H.
  destruct H as [ (-> & -> & -> & ->) | [ (-> & -> & -> & ->) |
                [ (-> & -> & -> & ->) | (-> & -> & -> & ->) ] ] ]; cbn; tauto.
Qed.

Lemma macro_neighbors_spec (w h : Z) (visited : list bool) (cx cy nx ny d od : Z) :
  In (nx, ny, d, od) (TaichiParallelGenerator.macro_neighbors w h visited cx cy) <->
  exists dx dy, In (dx, dy, d, od) TaichiParallelGenerator.macro_dirs /\
                nx = cx + dx /\ ny = cy + dy /\
                block_in w h (nx, ny) = true /\
                block_seen h visited (nx, ny) = false.
Proof.
  unfold TaichiParallelGenerator.macro_neighbors. rewrite in_flat_map. split.
  - intros ([[[dx dy] d'] od'] & Hin & Hx).
    destruct (_ && _) eqn:E in Hx; [|destruct Hx].
    destruct Hx as [Hx | []]. inversion Hx; subst.
    exists dx, dy. split; [exact Hin|]. split; [reflexivity|]. split; [reflexivity|].
    apply andb_true_iff in E. destruct E as [E1 E2].
    split; [exact E1|]. apply negb_true_iff in E2. exact E2.
  - intros (dx & dy & Hin & -> & -> & Hb & Hs).
    exists (dx, dy, d, od). split; [exact Hin|].
    unfold block_in, block_seen in Hb, Hs. cbn [fst snd] in Hb, Hs.
    rewrite Hb, Hs. cbn. left. reflexivity.
Qed.
Lemma has_bit_lor (c b e : Z) :
  has_bit (Z.lor c b) e = has_bit c e || has_bit b e.
Proof.
  unfold has_bit. rewrite Z.land_lor_distr_l.
  destruct (Z.eqb_spec (Z.land c e) 0) as [E1|E1];
    destruct (Z.eqb_spec (Z.land b e) 0) as [E2|E2];
    destruct (Z.eqb_spec (Z.lor (Z.land c e) (Z.land b e)) 0) as [E|E];
    try reflexivity; exfalso.
  - apply E. rewrite E1, E2. reflexivity.
  - apply Z.lor_eq_0_iff in E. tauto.
  - apply Z.lor_eq_0_iff in E. tauto.
  - apply Z.lor_eq_0_iff in E. tauto.
Qed.

(** The direction bits of the table are pairwise disjoint. *)
Lemma macro_dirs_bit (dx dy d od dx' dy' d' od' : Z) :
  In (dx, dy, d, od) TaichiParallelGenerator.macro_dirs ->
  In (dx', dy', d', od') TaichiParallelGenerator.macro_dirs ->
  has_bit d d' = true -> dx' = dx /\ dy' = dy /\ d' = d /\ od' = od.
Proof.
  intros H H'. apply macro_dirs_cases in H, H'.
  destruct H as [ (-> & -> & -> & ->) | [ (-> & -> & -> & ->) |
                [ (-> & -> & -> & ->) | (-> & -> & -> & ->) ] ] ];
    destruct H' as [ (-> & -> & -> & ->) | [ (-> & -> & -> & ->) |
                   [ (-> & -> & -> & ->) | (-> & -> & -> & ->) ] ] ];
    cbn; intros E; first [discriminate E | tauto].
Qed.

Lemma popcount_walls_lor (c dx dy d od : Z) :
  In (dx, dy, d, od) TaichiParallelGenerator.macro_dirs ->
  has_bit c d = false ->
  MazePostProcessor.popcount_walls (Z.lor c d) =
  MazePostProcessor.popcount_walls c + 1.
Proof.
  intros H Hc. rewrite !popcount_walls_bits, !has_bit_lor.
  apply macro_dirs_cases in H.
  destruct H as [ (_ & _ & -> & _) | [ (_ & _ & -> & _) |
                [ (_ & _ & -> & _) | (_ & _ & -> & _) ] ] ];
    change Grid.NORTH with 1 in *; change Grid.EAST with 2 in *;
    change Grid.SOUTH with 4 in *; change Grid.WEST with 8 in *;
    rewrite Hc; cbn;
    repeat match goal with
           | |- context [has_bit c ?b] => destruct (has_bit c b)
           end; reflexivity.
Qed.

Lemma unseen_blocks_nonneg (visited : list bool) : 0 <= unseen_blocks visited.
Proof.
  induction visited as [|b l IH]; cbn; [lia|].
  unfold unseen_blocks in IH. destruct b; lia.
Qed.

Lemma joined_mono (w h : Z) (grid grid' : list Z) (s p : Z * Z) :
  (forall a b, linked w h grid a b -> linked w h grid' a b) ->
  joined w h grid s p -> joined w h grid' s p.
Proof.
  intros Hm Hj. induction Hj as [|p q _ IH Hl]; [apply joined_refl|].
  apply (joined_step w h grid' s p q IH), Hm, Hl.
Qed.

Lemma joined_trans (w h : Z) (grid : list Z) (a b c : Z * Z) :
  joined w h grid a b -> joined w h grid b c -> joined w h grid a c.
Proof.
  intros Hab Hbc. induction Hbc as [|p q _ IH Hl]; [exact Hab|].
  apply (joined_step w h grid a p q IH Hl).
Qed.

Section MacroMaze.

Variable Rng : Type.
Variable randbelow : Rng -> Z -> Z * Rng.
Hypothesis randbelow_range :
  forall rng n, 0 < n -> 0 <= fst (randbelow rng n) < n.

#[local] Abbreviation mk_macro := (TaichiParallelGenerator.mk_macro Rng).

Lemma macro_carve (w h : Z) (start c n : Z * Z) (dx dy d od : Z)
    (grid : list Z) (visited : list bool) (stack : list (Z * Z)) (rng rng' : Rng) :
  macro_inv w h start (mk_macro grid visited stack rng) ->
  In c stack ->
  In (dx, dy, d, od) TaichiParallelGenerator.macro_dirs ->
  n = (fst c + dx, snd c + dy) ->
  block_in w h n = true -> block_seen h visited n = false ->
  macro_inv w h start
    (mk_macro
       (TaichiParallelGenerator.or_at
          (TaichiParallelGenerator.or_at grid (fst c * h + snd c) d)
          (fst n * h + snd n) od)
       (<[Z.to_nat (fst n * h + snd n) := true]> visited)
       (stack ++ [n]) rng') /\
  unseen_blocks (<[Z.to_nat (fst n * h + snd n) := true]> visited) =
  unseen_blocks visited - 1.
Proof using Type.
  intros Hinv Hc Hdir En Hn Hun.
  pose proof (mi_glen _ _ _ _ Hinv) as Hglen.
  pose proof (mi_vlen _ _ _ _ Hinv) as Hvlen.
  cbn [TaichiParallelGenerator.mc_grid TaichiParallelGenerator.mc_visited] in Hglen, Hvlen.
  destruct (mi_stack _ _ _ _ Hinv c Hc) as [Hcb Hcs].
  cbn [TaichiParallelGenerator.mc_visited] in Hcs.
  assert (Hne : n <> c) by (intros ->; congruence).
  pose proof (mi_fresh _ _ _ _ Hinv n Hn Hun) as Hn0.
  cbn [TaichiParallelGenerator.mc_grid] in Hn0.
  assert (Hcd : has_bit (block_at h grid c) d = false).
  { destruct (has_bit (block_at h grid c) d) eqn:E; [|reflexivity].
    destruct (mi_sym _ _ _ _ Hinv c dx dy d od Hcb Hdir E) as [_ Hod].
    cbn [TaichiParallelGenerator.mc_grid] in Hod. rewrite <- En, Hn0 in Hod.
    discriminate Hod. }
  set (grid1 := TaichiParallelGenerator.or_at grid (fst c * h + snd c) d).
  set (grid2 := TaichiParallelGenerator.or_at grid1 (fst n * h + snd n) od).
  set (visited' := <[Z.to_nat (fst n * h + snd n) := true]> visited).
  assert (Hlen1 : length grid1 = Z.to_nat (w * h))
    by (unfold grid1, TaichiParallelGenerator.or_at; rewrite length_insert; exact Hglen).
  assert (Hlen2 : length grid2 = Z.to_nat (w * h))
    by (unfold grid2, TaichiParallelGenerator.or_at; rewrite length_insert; exact Hlen1).
  assert (Hcell : forall p, block_in w h p = true ->
            block_at h grid2 p =
            if coord_eqb p n then od
            else if coord_eqb p c then Z.lor (block_at h grid c) d
            else block_at h grid p).
  { intros p Hp. unfold grid2. rewrite (block_at_or w h) by assumption.
    unfold grid1. rewrite !(block_at_or w h) by assumption.
    destruct (coord_eqb p n) eqn:E1.
    - destruct (coord_eqb n c) eqn:E2; [apply coord_eqb_eq in E2; contradiction|].
      rewrite Hn0. reflexivity.
    - reflexivity. }
  assert (Hseen : forall p, block_in w h p = true ->
            block_seen h visited' p =
            if coord_eqb p n then true else block_seen h visited p).
  { intros p Hp. apply (block_seen_mark w h); assumption. }
  assert (Hmono : forall p e, block_in w h p = true ->
            has_bit (block_at h grid p) e = true ->
            has_bit (block_at h grid2 p) e = true).
  { intros p e Hp He. rewrite (Hcell p Hp).
    destruct (coord_eqb p n) eqn:E1.
    - apply coord_eqb_eq in E1. subst p. rewrite Hn0 in He. discriminate He.
    - destruct (coord_eqb p c) eqn:E2; [|exact He].
      apply coord_eqb_eq in E2. subst p. rewrite has_bit_lor, He. reflexivity. }
  assert (Hlinked : forall a b, linked w h grid a b -> linked w h grid2 a b).
  { intros a b (Ha & Hb & dx' & dy' & d' & od' & Hin & -> & Hbit).
    split; [exact Ha|]. split; [exact Hb|].
    exists dx', dy', d', od'. split; [exact Hin|]. split; [reflexivity|].
    apply Hmono; assumption. }
  assert (Hod0 : has_bit od od = true /\ has_bit d d = true).
  { apply macro_dirs_cases in Hdir.
    destruct Hdir as [ (_ & _ & -> & ->) | [ (_ & _ & -> & ->) |
                     [ (_ & _ & -> & ->) | (_ & _ & -> & ->) ] ] ]; split; reflexivity. }
  assert (Hcount1 : unseen_blocks visited' = unseen_blocks visited - 1).
  { unfold visited', unseen_blocks.
    destruct (lookup_lt_is_Some_2 visited (Z.to_nat (fst n * h + snd n))) as [b Hb].
    { rewrite Hvlen. eapply block_index, Hn. }
    rewrite (fold_insert (fun b : bool => if b then 0 else 1) _ _ b true Hb).
    unfold block_seen in Hun. rewrite Hb in Hun. cbn in Hun. subst b. lia. }
  split; [|exact Hcount1].
  constructor; cbn [TaichiParallelGenerator.mc_grid TaichiParallelGenerator.mc_visited
                    TaichiParallelGenerator.mc_stack].
  - exact Hlen2.
  - unfold visited'. rewrite length_insert. exact Hvlen.
  - apply Hinv.
  - rewrite Hseen by apply Hinv.
    destruct (coord_eqb start n); [reflexivity | apply Hinv].
  - intros p Hp. apply in_app_or in Hp. destruct Hp as [Hp | [<- | []]].
    + destruct (mi_stack _ _ _ _ Hinv p Hp) as [Hpb Hps].
      split; [exact Hpb|]. rewrite Hseen by exact Hpb.
      destruct (coord_eqb p n); [reflexivity | exact Hps].
    + split; [exact Hn|]. rewrite Hseen, coord_eqb_refl by exact Hn. reflexivity.
  - intros p Hp Hs. rewrite Hseen in Hs by exact Hp.
    destruct (coord_eqb p n) eqn:E.
    + apply coord_eqb_eq in E. subst p.
      apply (joined_step w h grid2 start c).
      * apply (joined_mono w h grid grid2 _ _ Hlinked).
        apply (mi_joined _ _ _ _ Hinv c Hcb Hcs).
      * split; [exact Hcb|]. split; [exact Hn|].
        exists dx, dy, d, od. split; [exact Hdir|]. split; [exact En|].
        rewrite (Hcell c Hcb).
        destruct (coord_eqb c n) eqn:E'; [apply coord_eqb_eq in E'; congruence|].
        rewrite coord_eqb_refl, has_bit_lor, (proj2 Hod0). apply orb_true_r.
    + apply (joined_mono w h grid grid2 _ _ Hlinked).
      apply (mi_joined _ _ _ _ Hinv p Hp Hs).
  - intros p Hp Hs. rewrite Hseen in Hs by exact Hp.
    destruct (coord_eqb p n) eqn:E; [discriminate Hs|].
    rewrite (Hcell p Hp), E.
    destruct (coord_eqb p c) eqn:E'; [apply coord_eqb_eq in E'; congruence|].
    apply (mi_fresh _ _ _ _ Hinv p Hp Hs).
  - intros p dx' dy' e oe Hp Hin He.
    rewrite (Hcell p Hp) in He.
    destruct (coord_eqb p n) eqn:E1.
    { apply coord_eqb_eq in E1. subst p.
      destruct (macro_dirs_bit _ _ _ _ _ _ _ _ (macro_dirs_back _ _ _ _ Hdir) Hin He)
        as (-> & -> & -> & ->).
      assert (Eback : (fst n + - dx, snd n + - dy) = c)
        by (rewrite En; destruct c; cbn [fst snd]; f_equal; lia).
      rewrite Eback. split; [exact Hcb|].
      rewrite (Hcell c Hcb).
      destruct (coord_eqb c n) eqn:E'; [apply coord_eqb_eq in E'; congruence|].
      rewrite coord_eqb_refl, has_bit_lor, (proj2 Hod0). apply orb_true_r. }
    assert (Hold : has_bit (block_at h grid p) e = true ->
              block_in w h (fst p + dx', snd p + dy') = true /\
              has_bit (block_at h grid2 (fst p + dx', snd p + dy')) oe = true).
    { intros Hb. destruct (mi_sym _ _ _ _ Hinv p dx' dy' e oe Hp Hin Hb) as [Hq Hqb].
      split; [exact Hq | apply Hmono; assumption]. }
    destruct (coord_eqb p c) eqn:E2; [|apply Hold, He].
    apply coord_eqb_eq in E2. subst p.
    rewrite has_bit_lor in He. apply orb_true_iff in He.
    destruct He as [He | He]; [apply Hold, He|].
    destruct (macro_dirs_bit _ _ _ _ _ _ _ _ Hdir Hin He) as (-> & -> & -> & ->).
    rewrite <- En. split; [exact Hn|].
    rewrite (Hcell n Hn), coord_eqb_refl. apply Hod0.
  - pose proof (mi_count _ _ _ _ Hinv) as Hcnt.
    cbn [TaichiParallelGenerator.mc_grid TaichiParallelGenerator.mc_visited] in Hcnt.
    rewrite Hcount1.
    destruct (lookup_lt_is_Some_2 grid (Z.to_nat (fst c * h + snd c))) as [vc Hvc].
    { rewrite Hglen. eapply block_index, Hcb. }
    destruct (lookup_lt_is_Some_2 grid1 (Z.to_nat (fst n * h + snd n))) as [vn Hvn].
    { rewrite Hlen1. eapply block_index, Hn. }
    assert (Evc : block_at h grid c = vc) by (unfold block_at; rewrite Hvc; reflexivity).
    assert (Evn : block_at h grid1 n = vn) by (unfold block_at; rewrite Hvn; reflexivity).
    assert (Evn0 : vn = 0).
    { rewrite <- Evn. unfold grid1. rewrite (block_at_or w h) by assumption.
      destruct (coord_eqb n c) eqn:E'; [apply coord_eqb_eq in E'; contradiction|].
      exact Hn0. }
    assert (E2 : grid2 = <[Z.to_nat (fst n * h + snd n) := Z.lor (block_at h grid1 n) od]> grid1)
      by reflexivity.
    assert (E1 : grid1 = <[Z.to_nat (fst c * h + snd c) := Z.lor (block_at h grid c) d]> grid)
      by reflexivity.
    unfold link_ends. rewrite E2.
    rewrite (fold_insert MazePostProcessor.popcount_walls _ _ vn _ Hvn).
    rewrite E1.
    rewrite (fold_insert MazePostProcessor.popcount_walls _ _ vc _ Hvc).
    fold (link_ends grid). rewrite Hcnt.
    rewrite (popcount_walls_lor _ dx dy d od Hdir Hcd).
    rewrite <- E1, Evn, Evn0, <- Evc.
    rewrite (popcount_walls_lor 0 _ _ _ _ (macro_dirs_back _ _ _ _ Hdir) eq_refl).
    change (MazePostProcessor.popcount_walls 0) with 0. lia.
  - intros p dx' dy' e oe Hp Hs Hnot Hin Hq.
    rewrite Hseen in Hs by exact Hp.
    assert (Hpn : coord_eqb p n = false).
    { apply coord_eqb_neq. intros ->. apply Hnot, in_or_app. right. left. reflexivity. }
    rewrite Hpn in Hs. rewrite Hseen by exact Hq.
    destruct (coord_eqb (fst p + dx', snd p + dy') n); [reflexivity|].
    apply (mi_closed _ _ _ _ Hinv p dx' dy' e oe Hp Hs); try assumption.
    intros Hp'. apply Hnot, in_or_app. left. exact Hp'.
Qed.

Lemma macro_loop_finishes (w h : Z) (start : Z * Z) (fuel : nat) :
  forall st : TaichiParallelGenerator.macro_state Rng,
    macro_inv w h start st ->
    2 * unseen_blocks (TaichiParallelGenerator.mc_visited Rng st) +
      Z.of_nat (length (TaichiParallelGenerator.mc_stack Rng st)) < Z.of_nat fuel ->
    exists st',
      TaichiParallelGenerator.macro_loop Rng randbelow fuel w h st = Ok st' /\
      macro_inv w h start st' /\ TaichiParallelGenerator.mc_stack Rng st' = [].
Proof using randbelow_range.
  induction fuel as [|k IH]; intros st Hinv Hm.
  { pose proof (unseen_blocks_nonneg (TaichiParallelGenerator.mc_visited Rng st)). lia. }
  destruct st as [grid visited stack rng].
  cbn [TaichiParallelGenerator.mc_grid TaichiParallelGenerator.mc_visited
       TaichiParallelGenerator.mc_stack] in Hm.
  cbn [TaichiParallelGenerator.macro_loop TaichiParallelGenerator.mc_stack
       TaichiParallelGenerator.mc_grid TaichiParallelGenerator.mc_visited
       TaichiParallelGenerator.mc_rng].
  destruct (last stack) as [[cx cy]|] eqn:Elast.
  2: { apply last_None in Elast. subst stack.
       eexists. split; [reflexivity|]. split; [exact Hinv | reflexivity]. }
  pose proof (stack_pop _ _ Elast) as Estack.
  assert (Hc : In (cx, cy) stack)
    by (rewrite Estack; apply in_or_app; right; left; reflexivity).
  destruct (mi_stack _ _ _ _ Hinv (cx, cy) Hc) as [Hcb Hcs].
  cbn [TaichiParallelGenerator.mc_visited] in Hcs.
  destruct (TaichiParallelGenerator.macro_neighbors w h visited cx cy)
    as [|n0 rest] eqn:Enb.
  - (* backtrack *)
    apply IH.
    + constructor; cbn [TaichiParallelGenerator.mc_grid TaichiParallelGenerator.mc_visited
                        TaichiParallelGenerator.mc_stack]; try apply Hinv.
      * intros p Hp. apply (mi_stack _ _ _ _ Hinv p).
        cbn [TaichiParallelGenerator.mc_stack]. rewrite Estack.
        apply in_or_app. left. exact Hp.
      * intros p dx dy d od Hp Hs Hnot Hin Hq.
        destruct (coord_eqb p (cx, cy)) eqn:E.
        -- apply coord_eqb_eq in E. subst p. cbn [fst snd] in *.
           destruct (block_seen h visited (cx + dx, cy + dy)) eqn:Es; [reflexivity|].
           assert (Hmem : In (cx + dx, cy + dy, d, od)
                            (TaichiParallelGenerator.macro_neighbors w h visited cx cy)).
           { apply macro_neighbors_spec. exists dx, dy. auto. }
           rewrite Enb in Hmem. destruct Hmem.
        -- apply coord_eqb_neq in E.
           apply (mi_closed _ _ _ _ Hinv p dx dy d od Hp Hs); try assumption.
           cbn [TaichiParallelGenerator.mc_stack]. rewrite Estack.
           intros Hp'. apply in_app_or in Hp'.
           destruct Hp' as [Hp' | [Hp' | []]]; [contradiction | congruence].
    + cbn [TaichiParallelGenerator.mc_visited TaichiParallelGenerator.mc_stack].
      rewrite Estack, length_app in Hm. cbn [length] in Hm. lia.
  - (* connect a fresh block *)
    destruct (choice_in Rng randbelow randbelow_range rng (n0 :: rest))
      as ([[[nx ny] d] od] & rng' & Ech & Hin); [discriminate|].
    rewrite Ech, bind_Ok. cbv beta iota zeta.
    rewrite <- Enb in Hin. apply macro_neighbors_spec in Hin.
    destruct Hin as (dx & dy & Hdir & Ex & Ey & Hn & Hun).
    destruct (macro_carve w h start (cx, cy) (nx, ny) dx dy d od
                grid visited stack rng rng' Hinv Hc Hdir) as [Hinv' Hcount];
      try assumption.
    { cbn [fst snd]. congruence. }
    cbn [fst snd] in Hinv', Hcount.
    apply IH; [exact Hinv'|].
    cbn [TaichiParallelGenerator.mc_visited TaichiParallelGenerator.mc_stack].
    rewrite Hcount, length_app. cbn [length]. lia.
Qed.

Lemma macro_all_seen (w h : Z) (start : Z * Z)
    (st : TaichiParallelGenerator.macro_state Rng) :
  macro_inv w h start st -> TaichiParallelGenerator.mc_stack Rng st = [] ->
  forall p, block_in w h p = true ->
            block_seen h (TaichiParallelGenerator.mc_visited Rng st) p = true.
Proof using Type.
  intros Hinv Hempty.
  pose proof (mi_start _ _ _ _ Hinv) as Hs. apply block_in_iff in Hs.
  assert (H : forall k p,
            Z.to_nat (Z.abs (fst p - fst start) + Z.abs (snd p - snd start)) = k ->
            block_in w h p = true ->
            block_seen h (TaichiParallelGenerator.mc_visited Rng st) p = true).
  { induction k as [|k IH]; intros [x y] Ek Hp; cbn [fst snd] in Ek;
      pose proof Hp as Hp'; apply block_in_iff in Hp'; cbn [fst snd] in Hp'.
    - assert ((x, y) = start) as -> by (destruct start; cbn [fst snd] in *; f_equal; lia).
      apply Hinv.
    - assert (Hstep : forall q dx dy d od,
                In (dx, dy, d, od) TaichiParallelGenerator.macro_dirs ->
                (x, y) = (fst q + dx, snd q + dy) ->
                Z.to_nat (Z.abs (fst q - fst start) + Z.abs (snd q - snd start)) = k ->
                block_in w h q = true ->
                block_seen h (TaichiParallelGenerator.mc_visited Rng st) (x, y) = true).
      { intros q dx dy d od Hin Eq Hk Hq. rewrite Eq.
        apply (mi_closed _ _ _ _ Hinv q dx dy d od Hq); try assumption.
        - apply IH; assumption.
        - rewrite Hempty. intros [].
        - rewrite <- Eq. exact Hp. }
      destruct (Z.lt_trichotomy x (fst start)) as [Hx | [Hx | Hx]].
      + apply (Hstep (x + 1, y) (-1) 0 8 2); cbn [fst snd];
          [cbn; tauto | f_equal; lia | lia | apply block_in_iff; cbn [fst snd]; lia].
      + destruct (Z.lt_trichotomy y (snd start)) as [Hy | [Hy | Hy]].
        * apply (Hstep (x, y + 1) 0 (-1) 1 4); cbn [fst snd];
            [cbn; tauto | f_equal; lia | lia | apply block_in_iff; cbn [fst snd]; lia].
        * lia.
        * apply (Hstep (x, y - 1) 0 1 4 1); cbn [fst snd];
            [cbn; tauto | f_equal; lia | lia | apply block_in_iff; cbn [fst snd]; lia].
      + apply (Hstep (x - 1, y) 1 0 2 8); cbn [fst snd];
          [cbn; tauto | f_equal; lia | lia | apply block_in_iff; cbn [fst snd]; lia]. }
  intros p. apply (H _ p eq_refl).
Qed.

Lemma unseen_blocks_none (visited : list bool) :
  (forall i b, visited !! i = Some b -> b = true) -> unseen_blocks visited = 0.
Proof using Type.
  induction visited as [|b l IH]; intros Hall; [reflexivity|].
  cbn. rewrite (Hall O b eq_refl). fold (unseen_blocks l).
  rewrite IH; [reflexivity|]. intros i b' Hi. apply (Hall (S i) b' Hi).
Qed.

Lemma unseen_blocks_replicate (n : nat) :
  unseen_blocks (replicate n false) = Z.of_nat n.
Proof using Type.
  induction n as [|n IH]; [reflexivity|].
  cbn [replicate]. unfold unseen_blocks in *. cbn [fold_right]. rewrite IH. lia.
Qed.

Lemma link_ends_zeros (n : nat) : link_ends (replicate n 0) = 0.
Proof using Type.
  induction n as [|n IH]; [reflexivity|].
  cbn [replicate]. unfold link_ends in *. cbn [fold_right]. rewrite IH. reflexivity.
Qed.

Lemma linked_sym (w h : Z) (start : Z * Z)
    (st : TaichiParallelGenerator.macro_state Rng) (p q : Z * Z) :
  macro_inv w h start st ->
  linked w h (TaichiParallelGenerator.mc_grid Rng st) p q ->
  linked w h (TaichiParallelGenerator.mc_grid Rng st) q p.
Proof using Type.
  intros Hinv (Hp & Hq & dx & dy & d & od & Hin & -> & Hbit).
  destruct (mi_sym _ _ _ _ Hinv p dx dy d od Hp Hin Hbit) as [_ Hback].
  split; [exact Hq|]. split; [exact Hp|].
  exists (- dx), (- dy), od, d. split; [apply macro_dirs_back, Hin|].
  split; [destruct p; cbn [fst snd]; f_equal; lia | exact Hback].
Qed.

Lemma joined_sym (w h : Z) (start : Z * Z)
    (st : TaichiParallelGenerator.macro_state Rng) (a b : Z * Z) :
  macro_inv w h start st ->
  joined w h (TaichiParallelGenerator.mc_grid Rng st) a b ->
  joined w h (TaichiParallelGenerator.mc_grid Rng st) b a.
Proof using Type.
  intros Hinv Hab. induction Hab as [|p q _ IH Hl]; [apply joined_refl|].
  apply (joined_trans w h _ q p a); [|exact IH].
  apply (joined_step w h _ q q p); [apply joined_refl|].
  apply (linked_sym w h start st); assumption.
Qed.

(** X21.  [generate_macro_maze_cpu] on at least one block in each
    direction returns, and the block graph it returns is a spanning tree:
    every connection is recorded on both of its sides and joins two blocks
    of the grid, every block is joined to every other, and there are
    [blocks_x * blocks_y - 1] connections, whatever the random generator
    answers. *)
Theorem macro_maze_is_spanning_tree (blocks_x blocks_y seed : Z) (rng : Rng)
    (fuel : nat) :
  1 <= blocks_x -> 1 <= blocks_y ->
  2 * (blocks_x * blocks_y) <= Z.of_nat fuel ->
  exists grid rng',
    TaichiParallelGenerator.generate_macro_maze_cpu Rng randbelow fuel
      blocks_x blocks_y seed rng = Ok (grid, rng') /\
    spanning_tree blocks_x blocks_y grid.
Proof using randbelow_range.
  intros Hw Hh Hfuel. set (w := blocks_x) in *. set (h := blocks_y) in *.
  unfold TaichiParallelGenerator.generate_macro_maze_cpu. fold w h. cbv zeta.
  unfold TaichiParallelGenerator.randint, randrange.
  replace (w - 1 - 0 + 1) with w by lia. replace (h - 1 - 0 + 1) with h by lia.
  destruct (Z.ltb_spec 0 w); [|lia]. destruct (Z.ltb_spec 0 h); [|lia].
  rewrite bind_Ok.
  pose proof (randbelow_range rng w ltac:(lia)) as Hx.
  destruct (randbelow rng w) as [sx rng1]. cbn [fst] in Hx.
  rewrite !bind_Ok.
  pose proof (randbelow_range rng1 h ltac:(lia)) as Hy.
  destruct (randbelow rng1 h) as [sy rng2]. cbn [fst] in Hy.
  rewrite !bind_Ok. rewrite !Z.add_0_l.
  set (N := Z.to_nat (w * h)).
  set (start := (sx, sy)).
  assert (Hstart : block_in w h start = true)
    by (apply block_in_iff; unfold start; cbn [fst snd]; lia).
  set (visited0 := <[Z.to_nat (sx * h + sy) := true]> (replicate N false)).
  assert (Hseen0 : forall p, block_in w h p = true ->
            block_seen h visited0 p = coord_eqb p start).
  { intros p Hp. unfold visited0.
    change (sx * h + sy) with (fst start * h + snd start).
    rewrite (block_seen_mark w h) by (try assumption; apply length_replicate).
    destruct (coord_eqb p start); [reflexivity|].
    unfold block_seen. rewrite lookup_replicate_2; [reflexivity|].
    apply (block_index w h), Hp. }
  assert (Hzero : forall p, block_at h (replicate N 0) p = 0).
  { intros p. unfold block_at.
    destruct (replicate N 0 !! Z.to_nat (fst p * h + snd p)) as [v|] eqn:E;
      [|reflexivity].
    apply lookup_replicate in E. destruct E as [-> _]. reflexivity. }
  assert (Hinv : macro_inv w h start
                   (TaichiParallelGenerator.mk_macro Rng (replicate N 0) visited0
                      [start] rng2)).
  { constructor; cbn [TaichiParallelGenerator.mc_grid TaichiParallelGenerator.mc_visited
                      TaichiParallelGenerator.mc_stack].
    - apply length_replicate.
    - unfold visited0. rewrite length_insert. apply length_replicate.
    - exact Hstart.
    - rewrite Hseen0 by exact Hstart. apply coord_eqb_refl.
    - intros p [<- | []]. split; [exact Hstart|].
      rewrite Hseen0 by exact Hstart. apply coord_eqb_refl.
    - intros p Hp Hs. rewrite Hseen0 in Hs by exact Hp.
      apply coord_eqb_eq in Hs. subst p. apply joined_refl.
    - intros p _ _. apply Hzero.
    - intros p dx dy d od _ _ Hbit. rewrite Hzero in Hbit. discriminate Hbit.
    - rewrite link_ends_zeros. unfold visited0.
      destruct (lookup_lt_is_Some_2 (replicate N false) (Z.to_nat (sx * h + sy)))
        as [b Hb].
      { rewrite length_replicate. apply (block_index w h start Hstart). }
      unfold unseen_blocks.
      rewrite (fold_insert (fun b : bool => if b then 0 else 1) _ _ b true Hb).
      fold (unseen_blocks (replicate N false)). rewrite unseen_blocks_replicate.
      apply lookup_replicate in Hb. destruct Hb as [-> _]. unfold N.
      rewrite Z2Nat.id by nia. lia.
    - intros p dx dy d od Hp Hs Hnot. rewrite Hseen0 in Hs by exact Hp.
      apply coord_eqb_eq in Hs. subst p. destruct Hnot. left. reflexivity. }
  destruct (macro_loop_finishes w h start fuel _ Hinv) as (st' & Erun & Hinv' & Hempty).
  { cbn [TaichiParallelGenerator.mc_visited TaichiParallelGenerator.mc_stack length].
    assert (Hu : unseen_blocks visited0 = w * h - 1).
    { pose proof (mi_count _ _ _ _ Hinv) as Hc.
      cbn [TaichiParallelGenerator.mc_grid TaichiParallelGenerator.mc_visited] in Hc.
      rewrite link_ends_zeros in Hc. lia. }
    rewrite Hu. lia. }
  fold N. fold visited0. fold start. rewrite Erun, bind_Ok.
  exists (TaichiParallelGenerator.mc_grid Rng st'),
         (TaichiParallelGenerator.mc_rng Rng st').
  split; [reflexivity|].
  pose proof (macro_all_seen w h start st' Hinv' Hempty) as Hall.
  split; [apply Hinv'|]. split; [apply Hinv'|]. split.
  - intros p q Hp Hq.
    apply (joined_trans w h _ p start q).
    + apply (joined_sym w h start st' start p Hinv').
      apply (mi_joined _ _ _ _ Hinv' p Hp), Hall, Hp.
    + apply (mi_joined _ _ _ _ Hinv' q Hq), Hall, Hq.
  - rewrite (mi_count _ _ _ _ Hinv').
    rewrite unseen_blocks_none; [lia|].
    intros i b Hi.
    pose proof (lookup_lt_Some _ _ _ Hi) as Hlt.
    rewrite (mi_vlen _ _ _ _ Hinv') in Hlt.
    set (p := (Z.of_nat i / h, Z.of_nat i mod h)).
    assert (Hdiv : Z.of_nat i = h * (Z.of_nat i / h) + Z.of_nat i mod h)
      by (apply Z.div_mod; lia).
    pose proof (Z.mod_pos_bound (Z.of_nat i) h ltac:(lia)) as Hmod.
    assert (Hp : block_in w h p = true).
    { apply block_in_iff. unfold p. cbn [fst snd].
      split; [|exact Hmod]. split; [apply Z.div_pos; lia|].
      apply Z.div_lt_upper_bound; lia. }
    specialize (Hall p Hp). unfold block_seen, p in Hall. cbn [fst snd] in Hall.
    replace (Z.to_nat (Z.of_nat i / h * h + Z.of_nat i mod h)) with i in Hall by lia.
    rewrite Hi in Hall. exact Hall.
Qed.

End MacroMaze.

Lemma macro_maze_is_spanning_tree_witness :
  exists grid rng',
    TaichiParallelGenerator.generate_macro_maze_cpu (list Z) scripted_randbelow 12
      3 2 42 [3; 1; 4; 1; 5; 9; 2; 6] = Ok (grid, rng') /\
    spanning_tree 3 2 grid.
Proof.
  apply (macro_maze_is_spanning_tree (list Z) scripted_randbelow
           scripted_randbelow_range 3 2 42 [3; 1; 4; 1; 5; 9; 2; 6] 12); lia.
Defined.

(** ** The swarm *)

Section SwarmProperties.

Variable Rng : Type.
Variable randbelow : Rng -> Z -> Z * Rng.
Hypothesis randbelow_range :
  forall rng n, 0 < n -> 0 <= fst (randbelow rng n) < n.

Lemma swarm_unvisited_filter (g : Grid.t) (l : list (Z * Z)) :
  wf g -> (forall q, In q l -> Grid.in_bounds g (fst q) (snd q) = true) ->
  foldM (Solver.swarm_unvisited g) l [] =
  Ok (List.filter (fun q => negb (seen g q)) l).
Proof using Type.
  intros Hwf Hl.
  rewrite (foldM_collect _ (fun q => negb (seen g q))); [reflexivity|].
  intros acc q Hq. unfold Solver.swarm_unvisited, Grid.get_index.
  rewrite (Hl q Hq), bind_Ok, getitem_cell, bind_Ok by (try assumption; apply Hl, Hq).
  unfold seen, has_bit. rewrite negb_involutive.
  destruct (Z.land (cell_at g (fst q) (snd q)) Grid.SOLVER_VISITED =? 0); reflexivity.
Qed.

Lemma swarm_flags (g0 : Grid.t) (start end_ : Z * Z)
    (st : Solver.swarm_state Rng) (depth : Z * Z -> Z) (stuck : bool) :
  swarm_inv g0 start end_ st depth ->
  swarm_inv g0 start end_
    (Solver.mk_swarm Rng (Solver.sw_grid Rng st) (Solver.sw_agents Rng st)
       (Solver.sw_parents Rng st) (Solver.sw_visited Rng st) (Solver.sw_rng Rng st)
       false stuck) depth.
Proof using Type.
  intros Hinv.
  constructor; cbn [Solver.sw_grid Solver.sw_agents Solver.sw_parents Solver.sw_finished];
    try apply Hinv.
  discriminate.
Qed.
Lemma swarm_turn (g0 : Grid.t) (start end_ : Z * Z)
    (st : Solver.swarm_state Rng) (depth : Z * Z -> Z) (i : nat) :
  swarm_inv g0 start end_ st depth -> (i < Solver.num_agents)%nat ->
  Solver.sw_finished Rng st = false ->
  exists st' depth',
    Solver.swarm_agent Rng randbelow end_ st i = Ok st' /\
    swarm_inv g0 start end_ st' depth' /\
    (forall j, j <> i ->
       Solver.sw_agents Rng st' !! j = Solver.sw_agents Rng st !! j) /\
    ((Solver.sw_agents Rng st !! i = Some [] /\ st' = st) \/
     (Solver.sw_all_stuck Rng st' = false /\
      (Solver.sw_finished Rng st' = true \/
       (Solver.sw_finished Rng st' = false /\
        swarm_measure g0 st' < swarm_measure g0 st)))) /\
    swarm_measure g0 st' <= swarm_measure g0 st.
Proof using randbelow_range.
  intros Hinv Hi Hfin.
  destruct st as [grid agents parents visited rng fin stuck].
  cbn [Solver.sw_finished] in Hfin. subst fin.
  pose proof (si_walls _ _ _ _ _ Hinv) as Hsame.
  pose proof (si_plen _ _ _ _ _ Hinv) as Hplen.
  pose proof (si_agents _ _ _ _ _ Hinv) as Hlen.
  pose proof (si_stack _ _ _ _ _ Hinv) as Hstack.
  cbn [Solver.sw_grid Solver.sw_agents Solver.sw_parents] in Hsame, Hplen, Hlen, Hstack.
  pose proof Hsame as (Hwf & Hw & Hh & Hwalls).
  assert (Hdims : forall x y, Grid.in_bounds grid x y = Grid.in_bounds g0 x y)
    by (intros; apply in_bounds_dims; assumption).
  destruct (lookup_lt_is_Some_2 agents i ltac:(lia)) as [stack Hst].
  unfold Solver.swarm_agent.
  cbn [Solver.sw_finished Solver.sw_agents Solver.sw_grid Solver.sw_parents
       Solver.sw_visited Solver.sw_rng].
  rewrite Hst.
  destruct (last stack) as [curr|] eqn:Elast.
  2: { apply last_None in Elast. subst stack.
       eexists _, depth. split; [reflexivity|]. split; [exact Hinv|].
       split; [reflexivity|]. split; [left; auto | lia]. }
  pose proof (stack_pop _ _ Elast) as Estack.
  assert (Hcin : In curr stack)
    by (rewrite Estack; apply in_or_app; right; left; reflexivity).
  destruct (Hstack i stack curr Hst Hcin) as [Hcb Hcs].
  destruct (coord_eqb curr end_) eqn:Eend.
  { apply coord_eqb_eq in Eend. subst curr.
    eexists _, depth. split; [reflexivity|].
    split.
    { constructor;
        cbn [Solver.sw_grid Solver.sw_agents Solver.sw_parents Solver.sw_finished];
        try apply Hinv. intros _. auto. }
    split; [reflexivity|].
    split; [right; cbn; auto | unfold swarm_measure; cbn; lia]. }
  apply coord_eqb_neq in Eend.
  destruct curr as [cx cy]. cbn [fst snd] in Hcb.
  destruct (open_neighbors_steps grid cx cy Hwf) as (l & El & Hl).
  { rewrite Hdims. exact Hcb. }
  rewrite El, bind_Ok.
  assert (Hl0 : forall q, In q l <-> step g0 (cx, cy) q).
  { intros q. rewrite Hl. symmetry. apply same_walls_step, Hsame. }
  rewrite swarm_unvisited_filter, bind_Ok.
  2: exact Hwf.
  2: { intros q Hq. rewrite Hdims. apply Hl0 in Hq. apply Hq. }
  assert (Hsize : forall s',
            fold_right (fun (s : list (Z * Z)) acc => Z.of_nat (length s) + acc) 0
              (<[i := s']> agents) =
            fold_right (fun (s : list (Z * Z)) acc => Z.of_nat (length s) + acc) 0
              agents - Z.of_nat (length stack) + Z.of_nat (length s')).
  { intros s'.
    apply (fold_insert (fun s : list (Z * Z) => Z.of_nat (length s)) _ _ _ _ Hst). }
  assert (Hslen : length stack = S (length (removelast stack)))
    by (rewrite Estack at 1; rewrite length_app; cbn [length]; lia).
  destruct (List.filter (fun q => negb (seen grid q)) l) as [|n0 rest] eqn:Efilt.
  - (* the walker steps back *)
    eexists _, depth. split; [reflexivity|].
    split; [|split; [|split]].
    + constructor;
        cbn [Solver.sw_grid Solver.sw_agents Solver.sw_parents Solver.sw_finished];
        try apply Hinv.
      * rewrite length_insert. exact Hlen.
      * intros j s p Hj Hp. destruct (Nat.eq_dec j i) as [-> | Hne].
        -- rewrite list_lookup_insert_eq in Hj by lia. injection Hj as <-.
           apply (Hstack i stack p Hst). rewrite Estack.
           apply in_or_app. left. exact Hp.
        -- rewrite list_lookup_insert_ne in Hj by congruence.
           apply (Hstack j s p Hj Hp).
      * intros p Hp Hs.
        destruct (si_done _ _ _ _ _ Hinv p Hp Hs) as [(j & s & Hj & Hps) | Hclosed];
          [|right; exact Hclosed].
        cbn [Solver.sw_agents] in Hj.
        destruct (Nat.eq_dec j i) as [-> | Hne].
        -- rewrite Hst in Hj. injection Hj as <-.
           rewrite Estack in Hps. apply in_app_or in Hps.
           destruct Hps as [Hps | [<- | []]].
           ++ left. exists i, (removelast stack).
              rewrite list_lookup_insert_eq by lia. auto.
           ++ right. intros q Hq.
              destruct (seen grid q) eqn:Esq; [reflexivity|].
              assert (Hmem : In q (List.filter (fun q => negb (seen grid q)) l)).
              { apply filter_In. split; [apply Hl0, Hq | rewrite Esq; reflexivity]. }
              rewrite Efilt in Hmem. destruct Hmem.
        -- left. exists j, s. rewrite list_lookup_insert_ne by congruence. auto.
      * intros Hne Heb Hes.
        destruct (si_end _ _ _ _ _ Hinv Hne Heb Hes) as (j & s & Hj & Hlast).
        cbn [Solver.sw_agents] in Hj.
        destruct (Nat.eq_dec j i) as [-> | Hji].
        -- rewrite Hst in Hj. injection Hj as <-. congruence.
        -- exists j, s. rewrite list_lookup_insert_ne by congruence. auto.
    + intros j Hj. cbn [Solver.sw_agents]. apply list_lookup_insert_ne. congruence.
    + right. cbn [Solver.sw_all_stuck Solver.sw_finished]. split; [reflexivity|].
      right. split; [reflexivity|].
      unfold swarm_measure. cbn [Solver.sw_agents Solver.sw_grid].
      rewrite Hsize. lia.
    + unfold swarm_measure. cbn [Solver.sw_agents Solver.sw_grid].
      rewrite Hsize. lia.
  - (* the walker moves to an unmarked cell *)
    destruct (choice_in Rng randbelow randbelow_range rng (n0 :: rest))
      as ([nx ny] & rng' & Ech & Hin); [discriminate|].
    rewrite Ech, bind_Ok. cbv beta iota.
    rewrite <- Efilt in Hin. apply filter_In in Hin. destruct Hin as [Hnl Hun].
    apply negb_true_iff in Hun. apply Hl0 in Hnl.
    pose proof Hnl as (_ & Hnb & d & od & Hd & Ht & Hopen). cbn [fst snd] in Hnb, Ht, Hopen.
    unfold Grid.get_index. rewrite Hdims, Hnb, bind_Ok.
    rewrite or_cell_mark, bind_Ok by (rewrite ?Hdims; try assumption; reflexivity).
    rewrite Hw. change (ny * Grid.width g0 + nx) with (flat g0 (nx, ny)).
    pose proof (flat_in_range g0 (nx, ny) Hnb) as Rn.
    rewrite getitem_inrange, bind_Ok by (rewrite Hplen, Z2Nat.id; lia).
    pose proof (si_unset _ _ _ _ _ Hinv (nx, ny) Hnb Hun) as Hp0.
    cbn [Solver.sw_parents] in Hp0. rewrite Hp0. cbn [Z.eqb].
    assert (Hset : (if ny - cy =? -1 then setitem parents (flat g0 (nx, ny)) Grid.SOUTH
                    else if ny - cy =? 1 then setitem parents (flat g0 (nx, ny)) Grid.NORTH
                    else if nx - cx =? -1 then setitem parents (flat g0 (nx, ny)) Grid.EAST
                    else if nx - cx =? 1 then setitem parents (flat g0 (nx, ny)) Grid.WEST
                    else Ok parents) =
                   Ok (<[Z.to_nat (flat g0 (nx, ny)) := od]> parents)).
    { assert (Hod : (if ny - cy =? -1 then setitem parents (flat g0 (nx, ny)) Grid.SOUTH
                     else if ny - cy =? 1 then setitem parents (flat g0 (nx, ny)) Grid.NORTH
                     else if nx - cx =? -1 then setitem parents (flat g0 (nx, ny)) Grid.EAST
                     else if nx - cx =? 1 then setitem parents (flat g0 (nx, ny)) Grid.WEST
                     else Ok parents) = setitem parents (flat g0 (nx, ny)) od).
      { destruct (toward_cases _ _ _ _ _ _ Hd Ht)
          as [ (? & ? & ? & ?) | [ (? & ? & ? & ?) | [ (? & ? & ? & ?) | (? & ? & ? & ?) ] ] ];
          subst d od nx ny;
          repeat match goal with
                 | |- context [?a =? ?b] =>
                     destruct (Z.eqb_spec a b); try lia
                 end; reflexivity. }
      rewrite Hod. apply setitem_inrange; [rewrite Hplen, Z2Nat.id; lia|].
      eapply toward_opposite_byte; exact Ht. }
    rewrite Hset, bind_Ok.
    set (g' := write_cell grid nx ny (Z.lor (cell_at grid nx ny) Grid.SOLVER_VISITED)).
    set (ps := <[Z.to_nat (flat g0 (nx, ny)) := od]> parents).
    set (depth' := fun p => if coord_eqb p (nx, ny) then depth (cx, cy) + 1 else depth p).
    assert (Hseen' : forall p, Grid.in_bounds g0 (fst p) (snd p) = true ->
              seen g' p = if coord_eqb (nx, ny) p then true else seen grid p).
    { intros p Hp. apply seen_mark; rewrite ?Hdims; assumption. }
    assert (Hold : forall p, Grid.in_bounds g0 (fst p) (snd p) = true ->
              seen grid p = true -> seen g' p = true /\ depth' p = depth p).
    { intros p Hp Hs. rewrite Hseen' by assumption. unfold depth'.
      destruct (coord_eqb p (nx, ny)) eqn:E.
      - apply coord_eqb_eq in E. subst p. congruence.
      - rewrite coord_eqb_sym, E. auto. }
    assert (Hnew : forall p, Grid.in_bounds g0 (fst p) (snd p) = true ->
              seen g' p = true ->
              p = (nx, ny) \/ (p <> (nx, ny) /\ seen grid p = true)).
    { intros p Hp Hs. rewrite Hseen' in Hs by assumption.
      destruct (coord_eqb (nx, ny) p) eqn:E.
      - left. symmetry. apply coord_eqb_eq, E.
      - right. split; [|exact Hs]. apply coord_eqb_neq in E. congruence. }
    assert (Hdn : depth' (nx, ny) = depth (cx, cy) + 1)
      by (unfold depth'; rewrite coord_eqb_refl; reflexivity).
    assert (Hsn : seen g' (nx, ny) = true)
      by (rewrite Hseen' by exact Hnb; rewrite coord_eqb_refl; reflexivity).
    assert (Hcount : count_where (seen g') (scanline g0) =
                     S (count_where (seen grid) (scanline g0))).
    { apply count_where_update with (p0 := (nx, ny)).
      - apply NoDup_scanline.
      - apply in_scanline, Hnb.
      - exact Hun.
      - exact Hsn.
      - intros p Hp Hne. apply in_scanline_cell in Hp. rewrite Hseen' by exact Hp.
        destruct (coord_eqb (nx, ny) p) eqn:E; [|reflexivity].
        apply coord_eqb_eq in E. congruence. }
    pose proof (count_where_lt (seen grid) (scanline g0) (nx, ny)
                  (proj2 (in_scanline g0 nx ny) Hnb) Hun) as Hlt.
    eexists _, depth'. split; [reflexivity|].
    split; [|split; [|split]].
    + constructor;
        cbn [Solver.sw_grid Solver.sw_agents Solver.sw_parents Solver.sw_finished].
      * destruct (scratch_mask_walls Grid.SOLVER_VISITED) as [Hm Hmd]; [left; reflexivity|].
        apply same_walls_mark; try assumption.
      * unfold ps. rewrite length_insert. exact Hplen.
      * apply Hinv.
      * apply Hold; [apply Hinv | apply (si_start _ _ _ _ _ Hinv)].
      * unfold ps. rewrite look_insert_flat by (try assumption; apply Hinv).
        destruct (coord_eqb (nx, ny) start) eqn:E; [|apply (si_root _ _ _ _ _ Hinv)].
        apply coord_eqb_eq in E. rewrite <- E in Hinv.
        pose proof (si_start _ _ _ _ _ Hinv) as Hss.
        cbn [Solver.sw_grid] in Hss. congruence.
      * rewrite length_insert. exact Hlen.
      * intros j s p Hj Hp. destruct (Nat.eq_dec j i) as [-> | Hne].
        -- rewrite list_lookup_insert_eq in Hj by lia. injection Hj as <-.
           apply in_app_or in Hp. destruct Hp as [Hp | [<- | []]].
           ++ destruct (Hstack i stack p Hst Hp) as [Hpb Hps].
              split; [exact Hpb | apply Hold; assumption].
           ++ split; [exact Hnb | exact Hsn].
        -- rewrite list_lookup_insert_ne in Hj by congruence.
           destruct (Hstack j s p Hj Hp) as [Hpb Hps].
           split; [exact Hpb | apply Hold; assumption].
      * intros p Hp Hs. destruct (Hnew p Hp Hs) as [-> | [Hne Hs0]].
        -- left. exists i, (stack ++ [(nx, ny)]).
           rewrite list_lookup_insert_eq by lia. split; [reflexivity|].
           apply in_or_app. right. left. reflexivity.
        -- destruct (si_done _ _ _ _ _ Hinv p Hp Hs0) as [(j & s & Hj & Hps) | Hclosed].
           ++ cbn [Solver.sw_agents] in Hj. left.
              destruct (Nat.eq_dec j i) as [-> | Hji].
              ** rewrite Hst in Hj. injection Hj as <-.
                 exists i, (stack ++ [(nx, ny)]).
                 rewrite list_lookup_insert_eq by lia. split; [reflexivity|].
                 apply in_or_app. left. exact Hps.
              ** exists j, s. rewrite list_lookup_insert_ne by congruence. auto.
           ++ right. intros q Hq.
              assert (Hqb : Grid.in_bounds g0 (fst q) (snd q) = true) by apply Hq.
              apply Hold; [exact Hqb | apply Hclosed, Hq].
      * intros p Hp Hs Hne. destruct (Hnew p Hp Hs) as [-> | [Hnn Hs0]].
        -- exists od, d, (cx, cy). cbn [fst snd].
           split; [eapply toward_opposite_direction; eassumption|].
           split; [unfold ps; rewrite look_insert_flat, coord_eqb_refl;
                   [reflexivity | exact Hplen | exact Hnb | exact Hnb]|].
           split; [apply toward_back; assumption|].
           split; [exact Hnl|].
           destruct (Hold (cx, cy) Hcb Hcs) as [Hsu' Hdu'].
           split; [exact Hsu'|]. rewrite Hdu', Hdn.
           pose proof (si_bound _ _ _ _ _ Hinv (cx, cy) Hcb Hcs). lia.
        -- destruct (si_links _ _ _ _ _ Hinv p Hp Hs0 Hne)
             as (dir & od' & q & Hdir & Hlook & Htq & Hstep & Hsq & H0 & H1).
           assert (Hqb : Grid.in_bounds g0 (fst q) (snd q) = true) by apply Hstep.
           destruct (Hold q Hqb Hsq) as [Hsq' Hdq'].
           exists dir, od', q. split; [exact Hdir|].
           split; [unfold ps; rewrite look_insert_flat;
                   [|exact Hplen | exact Hnb | exact Hp];
                   destruct (coord_eqb (nx, ny) p) eqn:E;
                   [apply coord_eqb_eq in E; congruence | exact Hlook]|].
           split; [exact Htq|]. split; [exact Hstep|]. split; [exact Hsq'|].
           rewrite Hdq', (proj2 (Hold p Hp Hs0)). auto.
      * intros p Hp Hs. rewrite Hcount. destruct (Hnew p Hp Hs) as [-> | [Hnn Hs0]].
        -- rewrite Hdn. pose proof (si_bound _ _ _ _ _ Hinv (cx, cy) Hcb Hcs).
           cbn [Solver.sw_grid] in *. lia.
        -- rewrite (proj2 (Hold p Hp Hs0)).
           pose proof (si_bound _ _ _ _ _ Hinv p Hp Hs0).
           cbn [Solver.sw_grid] in *. lia.
      * intros p Hp Hs. rewrite Hseen' in Hs by exact Hp.
        destruct (coord_eqb (nx, ny) p) eqn:E; [discriminate Hs|].
        unfold ps. rewrite look_insert_flat, E by assumption.
        apply (si_unset _ _ _ _ _ Hinv p Hp Hs).
      * intros Hne Heb Hes. destruct (Hnew end_ Heb Hes) as [-> | [Hnn Hs0]].
        -- exists i, (stack ++ [(nx, ny)]).
           rewrite list_lookup_insert_eq by lia. split; [reflexivity|].
           apply last_snoc.
        -- destruct (si_end _ _ _ _ _ Hinv Hne Heb Hs0) as (j & s & Hj & Hlast).
           cbn [Solver.sw_agents] in Hj.
           destruct (Nat.eq_dec j i) as [-> | Hji].
           ++ rewrite Hst in Hj. injection Hj as <-. congruence.
           ++ exists j, s. rewrite list_lookup_insert_ne by congruence. auto.
      * discriminate.
    + intros j Hj. cbn [Solver.sw_agents]. apply list_lookup_insert_ne. congruence.
    + right. cbn [Solver.sw_all_stuck Solver.sw_finished]. split; [reflexivity|].
      right. split; [reflexivity|].
      unfold swarm_measure. cbn [Solver.sw_agents Solver.sw_grid].
      rewrite Hsize, Hcount, length_app. cbn [length]. lia.
    + unfold swarm_measure. cbn [Solver.sw_agents Solver.sw_grid].
      rewrite Hsize, Hcount, length_app. cbn [length]. lia.
Qed.

End SwarmProperties.

Section SwarmRun.

Variable Rng : Type.
Variable randbelow : Rng -> Z -> Z * Rng.
Hypothesis randbelow_range :
  forall rng n, 0 < n -> 0 <= fst (randbelow rng n) < n.

Lemma swarm_measure_nonneg (g0 : Grid.t) (st : Solver.swarm_state Rng) :
  0 <= swarm_measure g0 st.
Proof using Type.
  unfold swarm_measure.
  pose proof (count_where_le (seen (Solver.sw_grid Rng st)) (scanline g0)).
  assert (0 <= fold_right (fun (s : list (Z * Z)) acc => Z.of_nat (length s) + acc) 0
                 (Solver.sw_agents Rng st)).
  { induction (Solver.sw_agents Rng st) as [|s l IH]; cbn [fold_right]; lia. }
  lia.
Qed.

Lemma swarm_round (g0 : Grid.t) (start end_ : Z * Z)
    (st : Solver.swarm_state Rng) (depth : Z * Z -> Z) :
  swarm_inv g0 start end_ st depth ->
  Solver.sw_finished Rng st = false -> Solver.sw_all_stuck Rng st = true ->
  exists st' depth',
    foldM (Solver.swarm_agent Rng randbelow end_) (seq 0 Solver.num_agents) st = Ok st' /\
    swarm_inv g0 start end_ st' depth' /\
    (Solver.sw_finished Rng st' = true \/
     (Solver.sw_finished Rng st' = false /\ Solver.sw_all_stuck Rng st' = true /\
      forall j, (j < Solver.num_agents)%nat ->
                Solver.sw_agents Rng st' !! j = Some []) \/
     (Solver.sw_finished Rng st' = false /\ Solver.sw_all_stuck Rng st' = false /\
      swarm_measure g0 st' < swarm_measure g0 st)).
Proof using randbelow_range.
  intros Hinv Hfin Hstuck.
  destruct (foldM_prefix
    (fun pre s => exists depth',
       swarm_inv g0 start end_ s depth' /\
       (Solver.sw_finished Rng s = true \/
        (s = st /\
         forall j, In j pre -> Solver.sw_agents Rng s !! j = Some []) \/
        (Solver.sw_finished Rng s = false /\ Solver.sw_all_stuck Rng s = false /\
         swarm_measure g0 s < swarm_measure g0 st)))
    (Solver.swarm_agent Rng randbelow end_) (seq 0 Solver.num_agents))
    with (pre := @nil nat) (s := st) as (st' & Erun & depth' & Hinv' & Hcase).
  - intros pre s i Hi (depth1 & Hinv1 & Hcase1).
    apply in_seq in Hi.
    destruct (Solver.sw_finished Rng s) eqn:Efin.
    { exists s. split.
      - unfold Solver.swarm_agent. rewrite Efin. reflexivity.
      - exists depth1. split; [exact Hinv1|]. left. exact Efin. }
    destruct (swarm_turn Rng randbelow randbelow_range g0 start end_ s depth1 i Hinv1
                ltac:(lia) Efin)
      as (s' & depth2 & E & Hinv2 & Hother & Hmove & Hle).
    exists s'. split; [exact E|]. exists depth2. split; [exact Hinv2|].
    destruct Hcase1 as [Hf | [(-> & Hempty) | (_ & Hst & Hm)]];
      [congruence | |].
    + destruct Hmove as [[Hi0 ->] | [Hst' [Hf' | [Hf' Hm']]]].
      * right. left. split; [reflexivity|].
        intros j Hj. apply in_app_or in Hj.
        destruct Hj as [Hj | [<- | []]]; [apply Hempty, Hj | exact Hi0].
      * left. exact Hf'.
      * right. right. split; [exact Hf'|]. split; [exact Hst'|]. exact Hm'.
    + destruct Hmove as [[Hi0 ->] | [Hst' [Hf' | [Hf' Hm']]]].
      * right. right. auto.
      * left. exact Hf'.
      * right. right. split; [exact Hf'|]. split; [exact Hst'|]. lia.
  - exists depth. split; [exact Hinv|]. right. left.
    split; [reflexivity|]. intros j [].
  - cbn [app] in Hcase. exists st', depth'. split; [exact Erun|].
    split; [exact Hinv'|].
    destruct Hcase as [Hf | [(-> & Hempty) | Hm]];
      [left; exact Hf | | right; right; exact Hm].
    right. left. split; [exact Hfin|]. split; [exact Hstuck|].
    intros j Hj. apply Hempty, in_seq. lia.
Qed.
Lemma swarm_loop_finishes (g0 : Grid.t) (start end_ : Z * Z) (fuel : nat) :
  forall (st : Solver.swarm_state Rng) (depth : Z * Z -> Z),
    swarm_inv g0 start end_ st depth ->
    swarm_measure g0 st < Z.of_nat fuel ->
    exists st' depth',
      Solver.swarm_loop Rng randbelow fuel end_ st = Ok st' /\
      swarm_inv g0 start end_ st' depth' /\
      (Solver.sw_finished Rng st' = true \/
       (Solver.sw_finished Rng st' = false /\
        forall j, (j < Solver.num_agents)%nat ->
                  Solver.sw_agents Rng st' !! j = Some [])).
Proof using randbelow_range.
  induction fuel as [|k IH]; intros st depth Hinv Hm.
  { pose proof (swarm_measure_nonneg g0 st). lia. }
  cbn [Solver.swarm_loop].
  destruct (Solver.sw_finished Rng st) eqn:Efin.
  { exists st, depth. split; [reflexivity|]. split; [exact Hinv|]. left. exact Efin. }
  destruct (swarm_round g0 start end_ _ depth (swarm_flags Rng g0 start end_ st depth true Hinv)
              eq_refl eq_refl) as (st1 & depth1 & Erun & Hinv1 & Hcase).
  rewrite Erun, bind_Ok.
  destruct Hcase as [Hf | [(Hf & Hst & Hempty) | (Hf & Hst & Hlt)]].
  - rewrite Hf. cbn [orb]. exists st1, depth1. auto.
  - rewrite Hf, Hst. cbn [orb]. exists st1, depth1. auto.
  - rewrite Hf, Hst. cbn [orb]. apply (IH st1 depth1 Hinv1).
    unfold swarm_measure in *. cbn [Solver.sw_agents Solver.sw_grid] in Hlt. lia.
Qed.

Lemma swarm_closed (g0 : Grid.t) (start end_ : Z * Z)
    (st : Solver.swarm_state Rng) (depth : Z * Z -> Z) :
  swarm_inv g0 start end_ st depth ->
  (forall j, (j < Solver.num_agents)%nat -> Solver.sw_agents Rng st !! j = Some []) ->
  forall l p, walk g0 p end_ l -> seen (Solver.sw_grid Rng st) p = true ->
              seen (Solver.sw_grid Rng st) end_ = true.
Proof using Type.
  intros Hinv Hempty l p Hwalk.
  induction Hwalk as [p Hp | p q e l Hstep Hwalk IH]; intros Hs; [exact Hs|].
  assert (Hp : Grid.in_bounds g0 (fst p) (snd p) = true) by apply Hstep.
  destruct (si_done _ _ _ _ _ Hinv p Hp Hs) as [(j & s & Hj & Hin) | Hclosed].
  - pose proof (lookup_lt_Some _ _ _ Hj) as Hlt.
    rewrite (si_agents _ _ _ _ _ Hinv) in Hlt.
    rewrite (Hempty j Hlt) in Hj. injection Hj as <-. destruct Hin.
  - apply IH; first [assumption | apply Hclosed, Hstep].
Qed.

(** X22.  On a well-formed grid without solver marks, for any two cells of
    the lattice, the swarm runs to completion whatever the random generator
    answers, and leaves every wall as it was.  When the end differs from
    the start and can be reached, its path lists the cells of a walk from
    start to end after the start cell, which it leaves out; otherwise the
    path is empty, also when start and end are the same cell. *)
Theorem swarm_finds_a_path (rng : Rng) (g : Grid.t) (start end_ : Z * Z)
    (fuel : nat) :
  wf g -> no_solver_marks g ->
  Grid.in_bounds g (fst start) (snd start) = true ->
  Grid.in_bounds g (fst end_) (snd end_) = true ->
  2 * (Grid.width g * Grid.height g) + 8 < Z.of_nat fuel ->
  exists o rng',
    Solver.SwarmSolver_run Rng randbelow fuel rng g start end_ = Ok (o, rng') /\
    swarm_answer g start end_ o.
Proof using randbelow_range.
  intros Hwf Hfresh Hs He Hfuel.
  destruct (start_marked g start Hwf Hfresh Hs) as (Hsame & Hseen & Hcount).
  set (g1 := write_cell g (fst start) (snd start)
               (Z.lor (cell_at g (fst start) (snd start)) Grid.SOLVER_VISITED)) in *.
  assert (HN : length (scanline g) = Z.to_nat (Grid.width g * Grid.height g))
    by (apply scanline_length; apply Hwf).
  pose proof (flat_in_range g start Hs) as Rs.
  assert (Hzero : forall p, Grid.in_bounds g (fst p) (snd p) = true ->
                            look (Solver.zeros g) (flat g p) = 0).
  { intros p Hp. unfold Solver.zeros. apply look_replicate.
    pose proof (flat_in_range g p Hp). lia. }
  assert (Hagent : forall i stack,
            replicate Solver.num_agents [start] !! i = Some stack -> stack = [start]).
  { intros i stack Hi. apply lookup_replicate in Hi. apply Hi. }
  assert (Hinv : swarm_inv g start end_
                   (Solver.mk_swarm Rng g1 (replicate Solver.num_agents [start])
                      (Solver.zeros g) 0 rng false true) (fun _ => 0)).
  { constructor; cbn [Solver.sw_grid Solver.sw_agents Solver.sw_parents
                      Solver.sw_finished].
    - exact Hsame.
    - apply zeros_length.
    - exact Hs.
    - apply Hseen; [exact Hs | reflexivity].
    - apply Hzero, Hs.
    - apply length_replicate.
    - intros i stack p Hi Hp. rewrite (Hagent i stack Hi) in Hp.
      destruct Hp as [<- | []]. split; [exact Hs|]. apply Hseen; [exact Hs | reflexivity].
    - intros p Hp Hsp. left. exists O, [start]. split; [reflexivity|].
      left. symmetry. apply Hseen; assumption.
    - intros p Hp Hsp Hne. apply Hseen in Hsp; [contradiction | exact Hp].
    - intros p Hp Hsp. rewrite Hcount. lia.
    - intros p Hp _. apply Hzero, Hp.
    - intros Hne Heb Hes. apply Hseen in Hes; [contradiction | exact Heb].
    - discriminate. }
  destruct (swarm_loop_finishes g start end_ fuel _ _ Hinv)
    as (st' & depth' & Eloop & Hinv' & Hcase).
  { unfold swarm_measure. cbn [Solver.sw_agents Solver.sw_grid].
    rewrite Hcount, HN. cbn [Solver.num_agents replicate fold_right length]. lia. }
  pose proof (si_walls _ _ _ _ _ Hinv') as Hsame'.
  pose proof Hsame' as (Hwf' & Hw' & Hh' & _).
  assert (Hdims : forall x y, Grid.in_bounds (Solver.sw_grid Rng st') x y =
                              Grid.in_bounds g x y)
    by (intros; apply in_bounds_dims; assumption).
  unfold Solver.SwarmSolver_run, Grid.get_index. rewrite Hs, bind_Ok.
  rewrite or_cell_mark, bind_Ok by (try assumption; reflexivity).
  fold g1. change (Solver.zeros g1) with (Solver.zeros g).
  rewrite Eloop, bind_Ok.
  destruct Hcase as [Hf | [Hf Hempty]]; rewrite Hf.
  - destruct (si_fin _ _ _ _ _ Hinv' Hf) as [_ Hse].
    rewrite Hdims, He, bind_Ok. rewrite Hw'. fold (flat g end_).
    pose proof (flat_in_range g end_ He) as Re.
    rewrite getitem_inrange, bind_Ok
      by (rewrite (si_plen _ _ _ _ _ Hinv'), Z2Nat.id; lia).
    destruct (coord_eqb start end_) eqn:Ese.
    + apply coord_eqb_eq in Ese. subst end_.
      rewrite (si_root _ _ _ _ _ Hinv'). cbn [Z.eqb negb].
      eexists _, _. split; [reflexivity|].
      split; [exact Hsame'|]. left. cbn [Solver.path]. auto.
    + apply coord_eqb_neq in Ese.
      destruct (si_links _ _ _ _ _ Hinv' end_ He Hse ltac:(congruence))
        as (dir & od & q & Hdir & Hlook & _).
      rewrite Hlook.
      assert (Hnz : (dir =? 0) = false).
      { apply directions_cases in Hdir.
        destruct Hdir as [ -> | [ -> | [ -> | -> ] ] ]; reflexivity. }
      rewrite Hnz. cbn [negb].
      destruct (follow_parents_walk g start (Solver.sw_parents Rng st')
                  (fun p => seen (Solver.sw_grid Rng st') p = true) depth' Hs
                  (si_plen _ _ _ _ _ Hinv') (si_links _ _ _ _ _ Hinv')
                  fuel (Solver.sw_grid Rng st') end_ [])
        as (g2 & path & Efollow & Hsame2 & Hwalk & Hlen).
      { exact Hsame'. }
      { exact He. }
      { exact Hse. }
      { pose proof (si_bound _ _ _ _ _ Hinv' end_ He Hse) as Hb.
        pose proof (count_where_le (seen (Solver.sw_grid Rng st')) (scanline g)).
        lia. }
      rewrite Efollow, bind_Ok. eexists _, _. split; [reflexivity|].
      split; [exact Hsame2|]. right. split; [exact Ese|].
      cbn [Solver.path app]. rewrite rev_app_distr in Hwalk. exact Hwalk.
  - eexists _, _. split; [reflexivity|].
    split; [exact Hsame'|]. left. cbn [Solver.path]. split; [reflexivity|].
    destruct (coord_eqb start end_) eqn:Ese; [left; apply coord_eqb_eq, Ese|].
    apply coord_eqb_neq in Ese. right. intros Hr.
    destruct (reach_walk g start end_ Hs Hr) as [l Hl].
    pose proof (swarm_closed g start end_ st' depth' Hinv' Hempty l start Hl
                  (si_start _ _ _ _ _ Hinv')) as Hse.
    destruct (si_end _ _ _ _ _ Hinv' ltac:(congruence) He Hse) as (j & s & Hj & Hlast).
    pose proof (lookup_lt_Some _ _ _ Hj) as Hlt.
    rewrite (si_agents _ _ _ _ _ Hinv') in Hlt.
    rewrite (Hempty j Hlt) in Hj. injection Hj as <-. discriminate Hlast.
Qed.

End SwarmRun.

Lemma swarm_finds_a_path_witness :
  exists o rng',
    Solver.SwarmSolver_run (list Z) scripted_randbelow 20 [3; 1; 4; 1; 5]
      (Grid.mk 2 2 [29; 19; 31; 30]) (0, 0) (1, 1) = Ok (o, rng') /\
    swarm_answer (Grid.mk 2 2 [29; 19; 31; 30]) (0, 0) (1, 1) o.
Proof.
  apply (swarm_finds_a_path (list Z) scripted_randbelow scripted_randbelow_range
           [3; 1; 4; 1; 5] (Grid.mk 2 2 [29; 19; 31; 30]) (0, 0) (1, 1) 20).
  - unfold wf; simpl. repeat split; try lia. repeat constructor.
  - intros [x y] Hp. apply in_bounds_iff in Hp. cbn in Hp.
    assert (Hx : x = 0 \/ x = 1) by lia. assert (Hy : y = 0 \/ y = 1) by lia.
    destruct Hx as [-> | ->], Hy as [-> | ->]; reflexivity.
  - reflexivity.
  - reflexivity.
  - cbn. lia.
Defined.

(** ** The dead-end filler *)

Lemma open_list_neighbors (g : Grid.t) (x y : Z) :
  wf g -> Grid.in_bounds g x y = true ->
  Grid.get_open_neighbors g x y = Ok (open_list g (x, y)).
Proof.
  intros Hwf Hb. unfold Grid.get_open_neighbors, open_list, Grid.get_neighbors.
  cbn [fst snd]. rewrite getitem_cell, bind_Ok by assumption.
  unfold has_bit.
  destruct (0 <? y); destruct (y <? Grid.height g - 1);
    destruct (x <? Grid.width g - 1); destruct (0 <? x);
    cbn [app List.filter snd];
    destruct (Z.land (cell_at g x y) Grid.NORTH =? 0);
    destruct (Z.land (cell_at g x y) Grid.SOUTH =? 0);
    destruct (Z.land (cell_at g x y) Grid.EAST =? 0);
    destruct (Z.land (cell_at g x y) Grid.WEST =? 0);
    reflexivity.
Qed.

Lemma open_list_step (g : Grid.t) (p q : Z * Z) :
  Grid.in_bounds g (fst p) (snd p) = true ->
  In q (open_list g p) <-> step g p q.
Proof.
  intros Hb. unfold open_list. rewrite in_map_iff. split.
  - intros ([[nx ny] d] & Eq & Hin). cbn [fst snd] in Eq. subst q.
    apply filter_In in Hin. destruct Hin as [Hin Hopen]. cbn [snd] in Hopen.
    apply negb_true_iff in Hopen.
    destruct (get_neighbors_toward g _ _ _ _ _ Hb Hin) as (Hnb & Hd & od & Ht).
    split; [exact Hb|]. split; [exact Hnb|]. exists d, od. auto.
  - intros (_ & Hq & d & od & Hd & Ht & Hopen).
    exists (fst q, snd q, d). split; [destruct q; reflexivity|].
    apply filter_In. split.
    + eapply toward_in_neighbors; eassumption.
    + cbn [snd]. rewrite Hopen. reflexivity.
Qed.

Lemma open_list_NoDup (g : Grid.t) (p : Z * Z) : List.NoDup (open_list g p).
Proof.
  unfold open_list, Grid.get_neighbors. destruct p as [x y]. cbn [fst snd].
  destruct (0 <? y); destruct (y <? Grid.height g - 1);
    destruct (x <? Grid.width g - 1); destruct (0 <? x);
    cbn [app List.filter snd];
    destruct (negb (has_bit (cell_at g x y) Grid.NORTH));
    destruct (negb (has_bit (cell_at g x y) Grid.SOUTH));
    destruct (negb (has_bit (cell_at g x y) Grid.EAST));
    destruct (negb (has_bit (cell_at g x y) Grid.WEST));
    cbn [map fst snd];
    repeat (apply List.NoDup_cons; [cbn [In]; intros H;
              repeat (destruct H as [H | H]; [inversion H; lia|]); exact H|]);
    apply List.NoDup_nil.
Qed.

Lemma open_list_same_walls (g0 g : Grid.t) (p : Z * Z) :
  same_walls g0 g -> Grid.in_bounds g0 (fst p) (snd p) = true ->
  open_list g p = open_list g0 p.
Proof.
  intros (_ & Ew & Eh & Hwalls) Hp. unfold open_list.
  rewrite (get_neighbors_dims g0 g) by assumption. f_equal.
  apply List.filter_ext_in. intros [[nx ny] d] Hin. cbn [snd].
  destruct (get_neighbors_toward g0 _ _ _ _ _ Hp Hin) as (_ & Hd & _).
  rewrite Hwalls by assumption. reflexivity.
Qed.

Lemma aux_mask_walls :
  is_byte Grid.SOLVER_AUX = true /\
  forall d, In d directions -> Z.land Grid.SOLVER_AUX d = 0.
Proof.
  split; [reflexivity|]. intros d Hd. apply directions_cases in Hd.
  destruct Hd as [ -> | [ -> | [ -> | -> ] ] ]; reflexivity.
Qed.

Lemma filled_mark (g : Grid.t) (x y : Z) (p : Z * Z) :
  wf g -> Grid.in_bounds g x y = true ->
  Grid.in_bounds g (fst p) (snd p) = true ->
  filled (write_cell g x y (Z.lor (cell_at g x y) Grid.SOLVER_AUX)) p =
  if coord_eqb (x, y) p then true else filled g p.
Proof.
  intros Hwf Hb Hp. unfold filled. rewrite cell_at_write by assumption.
  unfold coord_eqb. cbn [fst snd].
  destruct ((x =? fst p) && (y =? snd p)) eqn:E; [|reflexivity].
  apply andb_true_iff in E. destruct E as [Ea Eb].
  apply Z.eqb_eq in Ea, Eb. subst x y.
  apply has_bit_set_same. discriminate.
Qed.

(** Filling a cell takes one from the free degree of the cells it is an
    open neighbour of, and leaves the others' alone. *)
Lemma free_degree_fill (g0 g g' : Grid.t) (c p : Z * Z) :
  Grid.in_bounds g0 (fst p) (snd p) = true ->
  filled g c = false ->
  (forall q, Grid.in_bounds g0 (fst q) (snd q) = true ->
             filled g' q = if coord_eqb c q then true else filled g q) ->
  (In c (open_list g0 p) -> free_degree g0 g p = free_degree g0 g' p + 1) /\
  (~ In c (open_list g0 p) -> free_degree g0 g' p = free_degree g0 g p).
Proof.
  intros Hp Hc Hfill. unfold free_degree.
  assert (Hin : forall q, In q (open_list g0 p) ->
                          Grid.in_bounds g0 (fst q) (snd q) = true).
  { intros q Hq. apply (open_list_step g0 p q Hp) in Hq. apply Hq. }
  split; intros E.
  - rewrite (count_where_update (fun q => negb (filled g' q))
               (fun q => negb (filled g q)) (open_list g0 p) c).
    + lia.
    + apply open_list_NoDup.
    + exact E.
    + rewrite (Hfill c (Hin c E)), coord_eqb_refl. reflexivity.
    + rewrite Hc. reflexivity.
    + intros q Hq Hne. rewrite (Hfill q (Hin q Hq)).
      destruct (coord_eqb c q) eqn:Ecq; [|reflexivity].
      apply coord_eqb_eq in Ecq. congruence.
  - rewrite (count_where_same (fun q => negb (filled g' q))
               (fun q => negb (filled g q)) (open_list g0 p)); [lia|].
    intros q Hq. rewrite (Hfill q (Hin q Hq)).
    destruct (coord_eqb c q) eqn:Ecq; [|reflexivity].
    apply coord_eqb_eq in Ecq. subst q. contradiction.
Qed.

Lemma foldM_steps {A S : Type} (I : list A -> S -> Prop)
    (f : S -> A -> result S) (l : list A) :
  (forall pre a suf s, l = pre ++ a :: suf -> I pre s ->
     exists s', f s a = Ok s' /\ I (pre ++ [a]) s') ->
  forall s, I [] s -> exists s', foldM f l s = Ok s' /\ I l s'.
Proof.
  intros Hstep.
  assert (H : forall suf pre s, l = pre ++ suf -> I pre s ->
                exists s', foldM f suf s = Ok s' /\ I l s').
  { induction suf as [|a suf IH]; intros pre s E Hs.
    - rewrite app_nil_r in E. subst pre. exists s. split; [reflexivity | exact Hs].
    - destruct (Hstep pre a suf s E Hs) as (s1 & E1 & H1).
      destruct (IH (pre ++ [a]) s1) as (s' & E' & H').
      + rewrite <- app_assoc. exact E.
      + exact H1.
      + exists s'. split; [|exact H']. cbn [foldM]. rewrite E1, bind_Ok. exact E'. }
  intros s Hs. apply (H l [] s); [reflexivity | exact Hs].
Qed.

Lemma count_where_pos (f : Z * Z -> bool) (l : list (Z * Z)) (a : Z * Z) :
  In a l -> f a = true -> (1 <= count_where f l)%nat.
Proof.
  unfold count_where. induction l as [|x l IH]; intros Hin Ha; [destruct Hin|].
  cbn [List.filter]. destruct Hin as [-> | Hin].
  - rewrite Ha. cbn [length]. lia.
  - specialize (IH Hin Ha). destruct (f x); cbn [length]; lia.
Qed.

Lemma count_where_two (f : Z * Z -> bool) (l : list (Z * Z)) (a b : Z * Z) :
  In a l -> In b l -> a <> b -> f a = true -> f b = true ->
  (2 <= count_where f l)%nat.
Proof.
  induction l as [|x l IH]; intros Ha Hb Hne Fa Fb; [destruct Ha|].
  unfold count_where in *. cbn [List.filter].
  destruct Ha as [-> | Ha], Hb as [E | Hb].
  - congruence.
  - rewrite Fa. cbn [length]. pose proof (count_where_pos f l b Hb Fb) as H.
    unfold count_where in H. lia.
  - subst x. rewrite Fb. cbn [length]. pose proof (count_where_pos f l a Ha Fa) as H.
    unfold count_where in H. lia.
  - specialize (IH Ha Hb Hne Fa Fb). destruct (f x); cbn [length]; lia.
Qed.

(** A cell strictly inside a walk that visits no cell twice has two
    different neighbours on it. *)
Lemma walk_inner_neighbors (g : Grid.t) (s e c : Z * Z) (l : list (Z * Z)) :
  walk g s e l -> List.NoDup l -> In c l -> c <> s -> c <> e ->
  exists a b, In a l /\ In b l /\ a <> b /\ step g a c /\ step g c b.
Proof.
  intros Hw. induction Hw as [p Hp | p q e l Hst Hw IH]; intros Hnd Hin Hs He.
  - destruct Hin as [<- | []]. congruence.
  - destruct Hin as [E | Hin]; [congruence|].
    apply List.NoDup_cons_iff in Hnd. destruct Hnd as [Hp Hnd].
    destruct (coord_eqb c q) eqn:Ecq.
    + apply coord_eqb_eq in Ecq. subst q.
      inversion Hw as [p' Hb E1 E2 E3 | p' q' e' l' Hst' Hw' E1 E2 E3]; subst.
      * congruence.
      * assert (Hq' : In q' l').
        { inversion Hw'; subst; left; reflexivity. }
        exists p, q'. split; [left; reflexivity|].
        split; [right; right; exact Hq'|].
        split; [|split; assumption].
        intros ->. apply Hp. right. exact Hq'.
    + apply coord_eqb_neq in Ecq.
      destruct (IH Hnd Hin Ecq He) as (a & b & Ha & Hb & Hab & H1 & H2).
      exists a, b. split; [right; exact Ha|]. split; [right; exact Hb|].
      split; [exact Hab|]. split; assumption.
Qed.

Lemma walk_cells_step (g : Grid.t) (s e : Z * Z) (l : list (Z * Z)) :
  walk g s e l -> s <> e -> forall p, In p l -> exists q, step g p q \/ step g q p.
Proof.
  intros Hw Hne.
  assert (H : (2 <= length l)%nat).
  { destruct Hw as [p Hp | p q e l Hst Hw]; [congruence|].
    destruct Hw; cbn [length]; lia. }
  clear Hne. induction Hw as [p Hp | p q e l Hst Hw IH]; intros a Ha.
  - cbn in H. lia.
  - destruct Ha as [<- | Ha]; [exists q; left; exact Hst|].
    destruct Hw as [q Hq | q q' e l Hst' Hw'].
    + destruct Ha as [<- | []]. exists p. right. exact Hst.
    + apply IH; [cbn [length]; destruct Hw'; cbn [length]; lia | exact Ha].
Qed.

Lemma open_wall_not_solid (c d : Z) :
  In d directions -> has_bit c d = false -> Z.land c 15 <> 15.
Proof.
  intros Hd Hbit E. unfold has_bit in Hbit. apply negb_false_iff, Z.eqb_eq in Hbit.
  assert (H : Z.land (Z.land c 15) d = d).
  { rewrite E. apply directions_cases in Hd.
    destruct Hd as [ -> | [ -> | [ -> | -> ] ] ]; reflexivity. }
  rewrite <- Z.land_assoc in H.
  assert (H15 : Z.land 15 d = d).
  { apply directions_cases in Hd.
    destruct Hd as [ -> | [ -> | [ -> | -> ] ] ]; reflexivity. }
  rewrite H15, Hbit in H. apply directions_cases in Hd.
  destruct Hd as [ -> | [ -> | [ -> | -> ] ] ]; discriminate.
Qed.

Lemma open_list_length (g : Grid.t) (p : Z * Z) : (length (open_list g p) <= 4)%nat.
Proof.
  unfold open_list, Grid.get_neighbors. destruct p as [x y]. cbn [fst snd].
  rewrite length_map.
  etransitivity; [apply List.filter_length_le|].
  destruct (0 <? y); destruct (y <? Grid.height g - 1);
    destruct (x <? Grid.width g - 1); destruct (0 <? x); cbn; lia.
Qed.

Lemma free_degree_range (g0 g : Grid.t) (p : Z * Z) : 0 <= free_degree g0 g p <= 4.
Proof.
  unfold free_degree.
  pose proof (count_where_le (fun q => negb (filled g q)) (open_list g0 p)).
  pose proof (open_list_length g0 p). lia.
Qed.

Lemma open_list_sym (g : Grid.t) (p q : Z * Z) :
  symmetric_cells g -> Grid.in_bounds g (fst p) (snd p) = true ->
  In q (open_list g p) -> In p (open_list g q).
Proof.
  intros Hsym Hp Hq. apply (open_list_step g p q Hp) in Hq.
  assert (Hb : Grid.in_bounds g (fst q) (snd q) = true) by apply Hq.
  apply (open_list_step g q p Hb). apply step_sym; assumption.
Qed.

Lemma get_index_flat (g0 g : Grid.t) (p : Z * Z) :
  same_walls g0 g -> Grid.in_bounds g0 (fst p) (snd p) = true ->
  Grid.get_index g (fst p) (snd p) = Ok (flat g0 p).
Proof.
  intros (_ & Ew & Eh & _) Hp. unfold Grid.get_index, flat.
  rewrite (in_bounds_dims g0 g) by assumption. rewrite Hp, Ew. reflexivity.
Qed.

(** One open neighbour of the cell just filled. *)
Lemma filler_neighbor_step (g0 : Grid.t) (start end_ n : Z * Z)
    (rest suf : list (Z * Z)) (st : Solver.filler_state) :
  filler_inv g0 start end_ (n :: suf) (rest ++ Solver.fl_leaves st)
    (Solver.fl_grid st) (Solver.fl_degrees st) ->
  ~ In n suf -> Grid.in_bounds g0 (fst n) (snd n) = true ->
  exists st', Solver.filler_neighbor start end_ st n = Ok st' /\
    Solver.fl_grid st' = Solver.fl_grid st /\
    filler_inv g0 start end_ suf (rest ++ Solver.fl_leaves st')
      (Solver.fl_grid st') (Solver.fl_degrees st').
Proof.
  intros Hinv Hns Hn. destruct st as [g degrees leaves v]. cbn [Solver.fl_grid
    Solver.fl_degrees Solver.fl_leaves] in *.
  pose proof (fi_walls _ _ _ _ _ _ _ Hinv) as Hsame.
  pose proof Hsame as (Hwf & Ew & Eh & _).
  assert (Hn' : Grid.in_bounds g (fst n) (snd n) = true)
    by (rewrite (in_bounds_dims g0 g) by assumption; exact Hn).
  pose proof (flat_in_range g0 n Hn) as Rn.
  pose proof (fi_len _ _ _ _ _ _ _ Hinv) as Hlen.
  unfold Solver.filler_neighbor. cbn [Solver.fl_grid Solver.fl_degrees Solver.fl_leaves
    Solver.fl_visited].
  rewrite (get_index_flat g0 g n Hsame Hn), bind_Ok.
  unfold flat at 1. rewrite <- Ew.
  rewrite (getitem_cell g (fst n) (snd n) Hwf Hn'), bind_Ok.
  assert (Hz : (Z.land (cell_at g (fst n) (snd n)) Grid.SOLVER_AUX =? 0) =
               negb (filled g n))
    by (unfold filled, has_bit; rewrite negb_involutive; reflexivity).
  rewrite Hz.
  destruct (filled g n) eqn:Hfn; cbn [negb].
  - (* already filled: skipped *)
    eexists. split; [reflexivity|]. split; [reflexivity|].
    cbn [Solver.fl_grid Solver.fl_degrees Solver.fl_leaves].
    destruct Hinv as [H1 H2 H3 H4 H5 H6 H7 H8 H9].
    constructor; try assumption.
    intros p Hp Hf. destruct (H3 p Hp Hf) as [Ha Hb].
    assert (Hpn : p <> n) by (intros ->; congruence).
    split.
    + intros Hin. apply Ha. right. exact Hin.
    + intros Hnin. apply Hb. intros [E | Hin]; [congruence | contradiction].
  - (* its degree drops by one *)
    destruct (fi_deg _ _ _ _ _ _ _ Hinv n Hn Hfn) as [Hd _].
    specialize (Hd (or_introl eq_refl)).
    pose proof (free_degree_range g0 g n) as Rd.
    rewrite getitem_inrange, bind_Ok by (rewrite Hlen; lia).
    rewrite setitem_inrange, bind_Ok;
      [| rewrite Hlen; lia
       | rewrite Hd; unfold is_byte; apply andb_true_iff;
         split; [apply Z.leb_le | apply Z.ltb_lt]; lia].
    rewrite getitem_inrange, bind_Ok by (rewrite length_insert, Hlen; lia).
    assert (Hlook : forall q, Grid.in_bounds g0 (fst q) (snd q) = true ->
              look (<[Z.to_nat (flat g0 n) := look degrees (flat g0 n) - 1]> degrees)
                (flat g0 q) =
              if coord_eqb n q then look degrees (flat g0 n) - 1
              else look degrees (flat g0 q)).
    { intros q Hq. apply look_insert_flat; assumption. }
    rewrite (Hlook n Hn), coord_eqb_refl.
    set (degrees' := <[Z.to_nat (flat g0 n) := look degrees (flat g0 n) - 1]> degrees)
      in *.
    assert (Hdeg' : forall p, Grid.in_bounds g0 (fst p) (snd p) = true ->
              filled g p = false ->
              (In p suf -> look degrees' (flat g0 p) = free_degree g0 g p + 1) /\
              (~ In p suf -> look degrees' (flat g0 p) = free_degree g0 g p)).
    { intros p Hp Hf. rewrite (Hlook p Hp).
      destruct (fi_deg _ _ _ _ _ _ _ Hinv p Hp Hf) as [Ha Hb].
      destruct (coord_eqb n p) eqn:E.
      - apply coord_eqb_eq in E. subst p. split; [contradiction|]. intros _. lia.
      - apply coord_eqb_neq in E. split.
        + intros Hin. apply Ha. right. exact Hin.
        + intros Hnin. apply Hb. intros [E' | Hin]; [congruence | contradiction]. }
    assert (Hle : forall p, Grid.in_bounds g0 (fst p) (snd p) = true ->
              look degrees' (flat g0 p) <= look degrees (flat g0 p)).
    { intros p Hp. rewrite (Hlook p Hp). destruct (coord_eqb n p) eqn:E; [|lia].
      apply coord_eqb_eq in E. subst p. lia. }
    destruct ((look degrees (flat g0 n) - 1 =? 1) && negb (coord_eqb n start)
              && negb (coord_eqb n end_)) eqn:Hleaf.
    + apply andb_true_iff in Hleaf. destruct Hleaf as [Hleaf He].
      apply andb_true_iff in Hleaf. destruct Hleaf as [H1 Hs].
      apply Z.eqb_eq in H1. apply negb_true_iff, coord_eqb_neq in Hs, He.
      eexists. split; [reflexivity|]. split; [reflexivity|].
      cbn [Solver.fl_grid Solver.fl_degrees Solver.fl_leaves].
      constructor.
      * exact Hsame.
      * unfold degrees'. rewrite length_insert. exact Hlen.
      * exact Hdeg'.
      * rewrite app_assoc. apply NoDup_ListNoDup, NoDup_app.
        split; [apply NoDup_ListNoDup, (fi_nodup _ _ _ _ _ _ _ Hinv)|].
        split; [|apply NoDup_singleton].
        intros x Hx Hx'. apply list_elem_of_In in Hx.
        apply list_elem_of_In in Hx'. destruct Hx' as [<- | []].
        destruct (fi_pending _ _ _ _ _ _ _ Hinv n Hx) as (_ & _ & _ & _ & Hc). lia.
      * intros p Hp. rewrite app_assoc in Hp. apply in_app_iff in Hp.
        destruct Hp as [Hp | [<- | []]].
        -- destruct (fi_pending _ _ _ _ _ _ _ Hinv p Hp) as (A & B & C & D & E).
           repeat split; try assumption. specialize (Hle p A). lia.
        -- repeat split; try assumption.
           rewrite (Hlook n Hn), coord_eqb_refl. lia.
      * intros p Hp Hf Hps Hpe Hone. rewrite app_assoc. apply in_app_iff.
        rewrite (Hlook p Hp) in Hone. destruct (coord_eqb n p) eqn:E.
        -- apply coord_eqb_eq in E. right. left. exact E.
        -- left. apply (fi_complete _ _ _ _ _ _ _ Hinv); assumption.
      * apply (fi_start _ _ _ _ _ _ _ Hinv).
      * apply (fi_end _ _ _ _ _ _ _ Hinv).
      * apply (fi_safe _ _ _ _ _ _ _ Hinv).
    + eexists. split; [reflexivity|]. split; [reflexivity|].
      cbn [Solver.fl_grid Solver.fl_degrees Solver.fl_leaves].
      constructor.
      * exact Hsame.
      * unfold degrees'. rewrite length_insert. exact Hlen.
      * exact Hdeg'.
      * apply (fi_nodup _ _ _ _ _ _ _ Hinv).
      * intros p Hp.
        destruct (fi_pending _ _ _ _ _ _ _ Hinv p Hp) as (A & B & C & D & E).
        repeat split; try assumption. specialize (Hle p A). lia.
      * intros p Hp Hf Hps Hpe Hone.
        rewrite (Hlook p Hp) in Hone. destruct (coord_eqb n p) eqn:E.
        -- apply coord_eqb_eq in E. subst p.
           apply Z.eqb_eq in Hone. rewrite Hone in Hleaf.
           apply coord_eqb_neq in Hps, Hpe. rewrite Hps, Hpe in Hleaf. discriminate.
        -- apply (fi_complete _ _ _ _ _ _ _ Hinv); assumption.
      * apply (fi_start _ _ _ _ _ _ _ Hinv).
      * apply (fi_end _ _ _ _ _ _ _ Hinv).
      * apply (fi_safe _ _ _ _ _ _ _ Hinv).
Qed.

Lemma filled_after_fill (g0 g : Grid.t) (c q : Z * Z) :
  same_walls g0 g -> Grid.in_bounds g0 (fst c) (snd c) = true ->
  Grid.in_bounds g0 (fst q) (snd q) = true ->
  filled (write_cell g (fst c) (snd c)
            (Z.lor (cell_at g (fst c) (snd c)) Grid.SOLVER_AUX)) q =
  if coord_eqb c q then true else filled g q.
Proof.
  intros (Hwf & Ew & Eh & _) Hc Hq.
  rewrite filled_mark; try assumption;
    try (rewrite (in_bounds_dims g0 g) by assumption; assumption).
  destruct c; reflexivity.
Qed.

Lemma unfilled_count_fill (g0 g : Grid.t) (c : Z * Z) :
  same_walls g0 g -> Grid.in_bounds g0 (fst c) (snd c) = true ->
  filled g c = false ->
  S (unfilled_count g0 (write_cell g (fst c) (snd c)
                          (Z.lor (cell_at g (fst c) (snd c)) Grid.SOLVER_AUX))) =
  unfilled_count g0 g.
Proof.
  intros Hsame Hc Hf. unfold unfilled_count. symmetry.
  apply (count_where_update _ _ _ c).
  - apply NoDup_scanline.
  - apply in_scanline_cell. exact Hc.
  - rewrite (filled_after_fill g0 g c c Hsame Hc Hc), coord_eqb_refl. reflexivity.
  - rewrite Hf. reflexivity.
  - intros p Hp Hne. apply in_scanline_cell in Hp.
    rewrite (filled_after_fill g0 g c p Hsame Hc Hp).
    destruct (coord_eqb c p) eqn:E; [|reflexivity].
    apply coord_eqb_eq in E. congruence.
Qed.

(** Filling one leaf: the cell is marked and the degrees of its open
    neighbours follow. *)
Lemma filler_fill_step (g0 : Grid.t) (start end_ c : Z * Z)
    (rest : list (Z * Z)) (st : Solver.filler_state) :
  symmetric_cells g0 ->
  Grid.in_bounds g0 (fst start) (snd start) = true ->
  Grid.in_bounds g0 (fst end_) (snd end_) = true ->
  filler_inv g0 start end_ [] ((c :: rest) ++ Solver.fl_leaves st)
    (Solver.fl_grid st) (Solver.fl_degrees st) ->
  exists st', Solver.filler_fill start end_ st c = Ok st' /\
    filler_inv g0 start end_ [] (rest ++ Solver.fl_leaves st')
      (Solver.fl_grid st') (Solver.fl_degrees st') /\
    S (unfilled_count g0 (Solver.fl_grid st')) = unfilled_count g0 (Solver.fl_grid st).
Proof.
  intros Hsym Hs He Hinv. destruct st as [g degrees leaves v].
  cbn [Solver.fl_grid Solver.fl_degrees Solver.fl_leaves] in *.
  pose proof (fi_walls _ _ _ _ _ _ _ Hinv) as Hsame.
  pose proof Hsame as (Hwf & Ew & Eh & _).
  destruct (fi_pending _ _ _ _ _ _ _ Hinv c (or_introl eq_refl))
    as (Hc & Hfc & Hcs & Hce & Hc1).
  assert (Hc' : Grid.in_bounds g (fst c) (snd c) = true)
    by (rewrite (in_bounds_dims g0 g) by assumption; exact Hc).
  set (g' := write_cell g (fst c) (snd c)
               (Z.lor (cell_at g (fst c) (snd c)) Grid.SOLVER_AUX)).
  assert (Hsame' : same_walls g0 g').
  { apply same_walls_mark; [exact Hsame | exact Hc | apply aux_mask_walls..]. }
  pose proof Hsame' as (Hwf' & Ew' & Eh' & _).
  assert (Hfill : forall q, Grid.in_bounds g0 (fst q) (snd q) = true ->
            filled g' q = if coord_eqb c q then true else filled g q).
  { intros q Hq. apply (filled_after_fill g0); assumption. }
  assert (Hnodup : ~ In c (rest ++ leaves) /\ List.NoDup (rest ++ leaves)).
  { pose proof (fi_nodup _ _ _ _ _ _ _ Hinv) as H. cbn [app] in H.
    apply List.NoDup_cons_iff in H. exact H. }
  destruct Hnodup as [Hcn Hnd].
  unfold Solver.filler_fill.
  cbn [Solver.fl_grid Solver.fl_degrees Solver.fl_leaves Solver.fl_visited].
  rewrite (get_index_flat g0 g c Hsame Hc), bind_Ok.
  unfold flat. rewrite <- Ew.
  rewrite (or_cell_mark g (fst c) (snd c) Grid.SOLVER_AUX Hwf Hc' (proj1 aux_mask_walls)),
    bind_Ok.
  fold g'.
  rewrite (open_list_neighbors g' (fst c) (snd c) Hwf'),
    bind_Ok by (rewrite (in_bounds_dims g0 g') by assumption; exact Hc).
  replace (open_list g' (fst c, snd c)) with (open_list g0 c)
    by (destruct c; symmetry; apply open_list_same_walls; assumption).
  pose proof (open_list_NoDup g0 c) as Hons.
  assert (Hostep : forall q, In q (open_list g0 c) -> step g0 c q).
  { intros q Hq. apply (open_list_step g0 c q Hc). exact Hq. }
  destruct (foldM_steps
    (fun pre s => Solver.fl_grid s = g' /\
       forall suf, open_list g0 c = pre ++ suf ->
         filler_inv g0 start end_ suf (rest ++ Solver.fl_leaves s)
           g' (Solver.fl_degrees s))
    (Solver.filler_neighbor start end_) (open_list g0 c)) with
    (s := Solver.mk_filler g' degrees leaves (v + 1)) as (st' & Erun & Eg & Hfin).
  - intros pre a suf s E [Egs Hs']. specialize (Hs' (a :: suf) E).
    rewrite <- Egs in Hs'.
    assert (Ha : In a (open_list g0 c)) by (rewrite E; apply in_elt).
    assert (Has : ~ In a suf).
    { rewrite E in Hons. apply List.NoDup_remove_2 in Hons.
      intros Hin. apply Hons. apply in_or_app. right. exact Hin. }
    destruct (filler_neighbor_step g0 start end_ a rest suf s Hs' Has)
      as (s' & Es' & Eg' & Hinv').
    { apply (Hostep a Ha). }
    exists s'. split; [exact Es'|]. split; [congruence|].
    intros suf' E'. rewrite E, <- app_assoc in E'. apply app_inv_head in E'.
    cbn [app] in E'. injection E' as <-. rewrite Eg', Egs in Hinv'. exact Hinv'.
  - split; [reflexivity|]. intros suf Esuf. cbn [app] in Esuf. subst suf.
    cbn [Solver.fl_leaves Solver.fl_degrees].
    constructor.
    + exact Hsame'.
    + apply (fi_len _ _ _ _ _ _ _ Hinv).
    + intros p Hp Hf. rewrite (Hfill p Hp) in Hf.
      destruct (coord_eqb c p) eqn:Ecp; [discriminate|].
      destruct (fi_deg _ _ _ _ _ _ _ Hinv p Hp Hf) as [_ Hd].
      specialize (Hd (fun H => H)).
      destruct (free_degree_fill g0 g g' c p Hp Hfc Hfill) as [Hin Hout].
      split.
      * intros Hpn. rewrite Hd. apply Hin.
        apply (open_list_sym g0 c p Hsym Hc Hpn).
      * intros Hpn. rewrite Hd. symmetry. apply Hout.
        intros Hcp. apply Hpn. apply (open_list_sym g0 p c Hsym Hp Hcp).
    + exact Hnd.
    + intros p Hp.
      destruct (fi_pending _ _ _ _ _ _ _ Hinv p (or_intror Hp)) as (A & B & C & D & E).
      split; [exact A|]. split; [|auto].
      rewrite (Hfill p A).
      destruct (coord_eqb c p) eqn:Ecp; [|exact B].
      apply coord_eqb_eq in Ecp. subst p. contradiction.
    + intros p Hp Hf Hps Hpe Hone. rewrite (Hfill p Hp) in Hf.
      destruct (coord_eqb c p) eqn:Ecp; [discriminate|].
      apply coord_eqb_neq in Ecp.
      destruct (fi_complete _ _ _ _ _ _ _ Hinv p Hp Hf Hps Hpe Hone) as [E | Hin];
        [congruence | exact Hin].
    + rewrite (Hfill start Hs).
      destruct (coord_eqb c start) eqn:Ecp; [|apply (fi_start _ _ _ _ _ _ _ Hinv)].
      apply coord_eqb_eq in Ecp. congruence.
    + rewrite (Hfill end_ He).
      destruct (coord_eqb c end_) eqn:Ecp; [|apply (fi_end _ _ _ _ _ _ _ Hinv)].
      apply coord_eqb_eq in Ecp. congruence.
    + intros l Hw Hndl p Hp.
      pose proof (walk_cells_in_bounds g0 start end_ l Hw p Hp) as Hpb.
      rewrite (Hfill p Hpb).
      destruct (coord_eqb c p) eqn:Ecp;
        [|apply (fi_safe _ _ _ _ _ _ _ Hinv l Hw Hndl p Hp)].
      apply coord_eqb_eq in Ecp. subst p. exfalso.
      destruct (walk_inner_neighbors g0 start end_ c l Hw Hndl Hp Hcs Hce)
        as (a & b & Ha & Hb & Hab & Hac & Hcb).
      apply (step_sym g0 a c Hsym) in Hac.
      apply (open_list_step g0 c a Hc) in Hac.
      apply (open_list_step g0 c b Hc) in Hcb.
      pose proof (count_where_two (fun q => negb (filled g q)) (open_list g0 c) a b
                    Hac Hcb Hab) as H2.
      cbn beta in H2.
      rewrite (fi_safe _ _ _ _ _ _ _ Hinv l Hw Hndl a Ha) in H2.
      rewrite (fi_safe _ _ _ _ _ _ _ Hinv l Hw Hndl b Hb) in H2.
      specialize (H2 eq_refl eq_refl).
      destruct (fi_deg _ _ _ _ _ _ _ Hinv c Hc Hfc) as [_ Hd].
      specialize (Hd (fun H => H)). unfold free_degree in Hd. lia.
  - exists st'. split; [exact Erun|]. split.
    + specialize (Hfin [] (eq_sym (app_nil_r _))). rewrite Eg. exact Hfin.
    + rewrite Eg. apply unfilled_count_fill; assumption.
Qed.

(** One generation of leaves. *)
Lemma filler_generation (g0 : Grid.t) (start end_ : Z * Z)
    (active : list (Z * Z)) (g : Grid.t) (degrees : list Z) (v : Z) :
  symmetric_cells g0 ->
  Grid.in_bounds g0 (fst start) (snd start) = true ->
  Grid.in_bounds g0 (fst end_) (snd end_) = true ->
  filler_inv g0 start end_ [] active g degrees ->
  exists st', foldM (Solver.filler_fill start end_) active
                (Solver.mk_filler g degrees [] v) = Ok st' /\
    filler_inv g0 start end_ [] (Solver.fl_leaves st')
      (Solver.fl_grid st') (Solver.fl_degrees st') /\
    (unfilled_count g0 (Solver.fl_grid st') + length active = unfilled_count g0 g)%nat.
Proof.
  intros Hsym Hs He Hinv.
  destruct (foldM_steps
    (fun pre s =>
       (unfilled_count g0 (Solver.fl_grid s) + length pre = unfilled_count g0 g)%nat /\
       forall suf, active = pre ++ suf ->
         filler_inv g0 start end_ [] (suf ++ Solver.fl_leaves s)
           (Solver.fl_grid s) (Solver.fl_degrees s))
    (Solver.filler_fill start end_) active) with
    (s := Solver.mk_filler g degrees [] v) as (st' & Erun & Hcount & Hfin).
  - intros pre a suf s E [Hcnt Hs'].
    destruct (filler_fill_step g0 start end_ a suf s Hsym Hs He (Hs' (a :: suf) E))
      as (s' & Es' & Hinv' & Hm).
    exists s'. split; [exact Es'|]. split.
    + rewrite length_app. cbn [length]. lia.
    + intros suf' E'. rewrite E, <- app_assoc in E'. apply app_inv_head in E'.
      cbn [app] in E'. injection E' as <-. exact Hinv'.
  - split; [cbn; lia|]. intros suf Esuf. cbn [app] in Esuf. subst suf.
    cbn [Solver.fl_leaves Solver.fl_grid Solver.fl_degrees]. rewrite app_nil_r.
    exact Hinv.
  - exists st'. split; [exact Erun|]. split; [|exact Hcount].
    apply (Hfin [] (eq_sym (app_nil_r _))).
Qed.

(** The filling loop ends, with no leaf left. *)
Lemma filler_loop_finishes (g0 : Grid.t) (start end_ : Z * Z) :
  symmetric_cells g0 ->
  Grid.in_bounds g0 (fst start) (snd start) = true ->
  Grid.in_bounds g0 (fst end_) (snd end_) = true ->
  forall (fuel : nat) (st : Solver.filler_state),
    filler_inv g0 start end_ [] (Solver.fl_leaves st)
      (Solver.fl_grid st) (Solver.fl_degrees st) ->
    (unfilled_count g0 (Solver.fl_grid st) < fuel)%nat ->
    exists st', Solver.filler_loop fuel start end_ st = Ok st' /\
      filler_inv g0 start end_ [] [] (Solver.fl_grid st') (Solver.fl_degrees st').
Proof.
  intros Hsym Hs He. induction fuel as [|k IH]; intros st Hinv Hfuel; [lia|].
  cbn [Solver.filler_loop].
  destruct (Solver.fl_leaves st) as [|a l] eqn:El.
  - exists st. split; [reflexivity | exact Hinv].
  - destruct (filler_generation g0 start end_ (a :: l) (Solver.fl_grid st)
                (Solver.fl_degrees st) (Solver.fl_visited st) Hsym Hs He Hinv)
      as (st1 & E1 & Hinv1 & Hm).
    rewrite E1, bind_Ok. apply IH; [exact Hinv1|]. cbn [length] in Hm. lia.
Qed.

(** The first scan: every degree is the number of open neighbours, and the
    leaves are the cells of degree one other than the two ends. *)
Lemma filler_scan (g : Grid.t) (start end_ : Z * Z) :
  wf g ->
  (forall p, Grid.in_bounds g (fst p) (snd p) = true -> filled g p = false) ->
  Grid.in_bounds g (fst start) (snd start) = true ->
  Grid.in_bounds g (fst end_) (snd end_) = true ->
  exists degrees leaves,
    foldM (Solver.filler_degree g start end_) (scanline g) (Solver.zeros g, [])
      = Ok (degrees, leaves) /\
    filler_inv g start end_ [] leaves g degrees.
Proof.
  intros Hwf Hclear Hs He.
  set (deg := fun p => Z.of_nat (length (open_list g p))).
  destruct (foldM_steps
    (fun pre (acc : list Z * list (Z * Z)) =>
       length (fst acc) = Z.to_nat (Grid.width g * Grid.height g) /\
       (forall p, In p pre -> look (fst acc) (flat g p) = deg p) /\
       List.NoDup (snd acc) /\
       (forall p, In p (snd acc) <->
                  In p pre /\ deg p = 1 /\ p <> start /\ p <> end_))
    (Solver.filler_degree g start end_) (scanline g)) with
    (s := (Solver.zeros g, @nil (Z * Z))) as ([degrees leaves] & Erun & Hfin).
  - intros pre a suf [ds ls] E (Hlen & Hdeg & Hnd & Hls). cbn [fst snd] in *.
    assert (Ha : Grid.in_bounds g (fst a) (snd a) = true).
    { apply in_scanline_cell. rewrite E. apply in_elt. }
    assert (Hpre : forall p, In p pre -> Grid.in_bounds g (fst p) (snd p) = true).
    { intros p Hp. apply in_scanline_cell. rewrite E. apply in_or_app. left. exact Hp. }
    assert (Hapre : ~ In a pre).
    { pose proof (NoDup_scanline g) as H. rewrite E in H.
      apply List.NoDup_remove_2 in H. intros Hin. apply H, in_or_app. left. exact Hin. }
    pose proof (flat_in_range g a Ha) as Ra.
    pose proof (open_list_length g a) as Hl4.
    destruct a as [x y]. unfold Solver.filler_degree. cbn [fst snd] in *.
    rewrite (open_list_neighbors g x y Hwf Ha), bind_Ok. cbn [fst snd].
    fold (deg (x, y)). change (y * Grid.width g + x) with (flat g (x, y)).
    rewrite setitem_inrange, bind_Ok;
      [| rewrite Hlen; lia
       | unfold deg, is_byte; apply andb_true_iff;
         split; [apply Z.leb_le | apply Z.ltb_lt]; lia].
    assert (Hlook : forall q, Grid.in_bounds g (fst q) (snd q) = true ->
              look (<[Z.to_nat (flat g (x, y)) := deg (x, y)]> ds) (flat g q) =
              if coord_eqb (x, y) q then deg (x, y) else look ds (flat g q)).
    { intros q Hq. apply look_insert_flat; assumption. }
    assert (Hdeg' : forall p, In p (pre ++ [(x, y)]) ->
              look (<[Z.to_nat (flat g (x, y)) := deg (x, y)]> ds) (flat g p) = deg p).
    { intros p Hp. apply in_app_iff in Hp. destruct Hp as [Hp | [<- | []]].
      - rewrite (Hlook p (Hpre p Hp)).
        destruct (coord_eqb (x, y) p) eqn:Exy; [|apply Hdeg, Hp].
        apply coord_eqb_eq in Exy. subst p. reflexivity.
      - rewrite (Hlook (x, y) Ha), coord_eqb_refl. reflexivity. }
    destruct ((deg (x, y) =? 1) && negb (coord_eqb (x, y) start)
              && negb (coord_eqb (x, y) end_)) eqn:Hleaf.
    + apply andb_true_iff in Hleaf. destruct Hleaf as [Hleaf Hne].
      apply andb_true_iff in Hleaf. destruct Hleaf as [H1 Hns].
      apply Z.eqb_eq in H1. apply negb_true_iff, coord_eqb_neq in Hns, Hne.
      eexists. split; [reflexivity|]. cbn [fst snd].
      split; [rewrite length_insert; exact Hlen|]. split; [exact Hdeg'|]. split.
      * apply NoDup_ListNoDup, NoDup_app.
        split; [apply NoDup_ListNoDup, Hnd|]. split; [|apply NoDup_singleton].
        intros p Hp Hp'. apply list_elem_of_In in Hp.
        apply list_elem_of_In in Hp'. destruct Hp' as [<- | []].
        apply Hls in Hp. apply Hapre, Hp.
      * intros p. rewrite !in_app_iff, Hls. cbn [In]. split.
        -- intros [(A & B & C & D) | [<- | []]]; auto 6.
        -- intros ([A | [<- | []]] & B & C & D); auto 6.
    + eexists. split; [reflexivity|]. cbn [fst snd].
      split; [rewrite length_insert; exact Hlen|]. split; [exact Hdeg'|].
      split; [exact Hnd|].
      intros p. rewrite in_app_iff, Hls. cbn [In]. split.
      * intros (A & B & C & D); auto 6.
      * intros ([A | [<- | []]] & B & C & D); [auto|].
        apply Z.eqb_eq in B. apply coord_eqb_neq in C, D.
        rewrite B, C, D in Hleaf. discriminate.
  - cbn [fst snd]. split; [apply zeros_length|]. split; [intros p []|].
    split; [constructor|]. intros p. split; [intros [] | intros ([] & _)].
  - cbn [fst snd] in Hfin. destruct Hfin as (Hlen & Hdeg & Hnd & Hls).
    exists degrees, leaves. split; [exact Erun|].
    assert (Hfree : forall p, Grid.in_bounds g (fst p) (snd p) = true ->
              look degrees (flat g p) = free_degree g g p).
    { intros p Hp. rewrite Hdeg by (apply in_scanline_cell; exact Hp).
      unfold deg, free_degree. rewrite count_where_all; [reflexivity|].
      intros q Hq. apply (open_list_step g p q Hp) in Hq.
      rewrite Hclear by apply Hq. reflexivity. }
    constructor.
    + apply same_walls_refl, Hwf.
    + exact Hlen.
    + intros p Hp _. split; [intros [] | intros _; apply Hfree, Hp].
    + exact Hnd.
    + intros p Hp. apply Hls in Hp. destruct Hp as (A & B & C & D).
      apply in_scanline_cell in A.
      split; [exact A|]. split; [apply Hclear, A|]. split; [exact C|].
      split; [exact D|]. rewrite Hdeg by (apply in_scanline_cell; exact A). lia.
    + intros p Hp _ Hps Hpe Hone. apply Hls.
      split; [apply in_scanline_cell; exact Hp|].
      rewrite Hdeg in Hone by (apply in_scanline_cell; exact Hp). auto.
    + apply Hclear, Hs.
    + apply Hclear, He.
    + intros l Hw _ p Hp. apply Hclear.
      apply (walk_cells_in_bounds g start end_ l Hw p Hp).
Qed.

(** The last scan collects the cells that are neither filled nor solid. *)
Lemma filler_collect_all (g0 gf : Grid.t) :
  same_walls g0 gf ->
  exists g' path,
    foldM Solver.filler_collect (seqZ 0 (Grid.width g0 * Grid.height g0)) (gf, [])
      = Ok (g', path) /\
    same_walls g0 g' /\
    forall p, In p path <->
      Grid.in_bounds g0 (fst p) (snd p) = true /\ filled gf p = false /\
      Z.land (cell_at gf (fst p) (snd p)) 15 <> 15.
Proof.
  intros Hsame.
  destruct (foldM_steps
    (fun pre (acc : Grid.t * list (Z * Z)) =>
       same_walls g0 (fst acc) /\
       (forall p, Grid.in_bounds g0 (fst p) (snd p) = true -> ~ In (flat g0 p) pre ->
                  cell_at (fst acc) (fst p) (snd p) = cell_at gf (fst p) (snd p)) /\
       (forall p, In p (snd acc) <->
          Grid.in_bounds g0 (fst p) (snd p) = true /\ In (flat g0 p) pre /\
          filled gf p = false /\ Z.land (cell_at gf (fst p) (snd p)) 15 <> 15))
    Solver.filler_collect (seqZ 0 (Grid.width g0 * Grid.height g0))) with
    (s := (gf, @nil (Z * Z))) as ([g' path] & Erun & Hfin).
  - intros pre i suf [g path] E (Hsw & Hcells & Hpath). cbn [fst snd] in *.
    pose proof Hsw as (Hwf & Ew & Eh & _).
    pose proof Hsame as (Hwf0' & _).
    assert (Hi : 0 <= i < Grid.width g0 * Grid.height g0).
    { assert (H : In i (seqZ 0 (Grid.width g0 * Grid.height g0)))
        by (rewrite E; apply in_elt).
      apply list_elem_of_In, elem_of_seqZ in H. lia. }
    assert (Hipre : ~ In i pre).
    { pose proof (NoDup_seqZ 0 (Grid.width g0 * Grid.height g0)) as H.
      apply NoDup_ListNoDup in H. rewrite E in H.
      apply List.NoDup_remove_2 in H. intros Hin. apply H, in_or_app. left. exact Hin. }
    assert (Hig : 0 <= i < Grid.width g * Grid.height g) by (rewrite Ew, Eh; exact Hi).
    destruct (index_coords g i Hwf Hig) as [Hb Eidx].
    set (x := i mod Grid.width g) in *. set (y := i / Grid.width g) in *.
    assert (Hb0 : Grid.in_bounds g0 x y = true)
      by (rewrite <- (in_bounds_dims g0 g) by assumption; exact Hb).
    assert (Eflat : flat g0 (x, y) = i) by (unfold flat; cbn [fst snd]; rewrite <- Ew; exact Eidx).
    unfold Solver.filler_collect. cbn beta iota.
    rewrite (getitem_index g i Hwf Hig), bind_Ok. fold x y.
    pose proof (Hcells (x, y) Hb0) as Hc. cbn [fst snd] in Hc.
    rewrite Eflat in Hc. specialize (Hc Hipre).
    assert (Hz : (Z.land (cell_at g x y) Grid.SOLVER_AUX =? 0) = negb (filled gf (x, y))).
    { unfold filled, has_bit. cbn [fst snd]. rewrite negb_involutive, Hc. reflexivity. }
    rewrite Hz.
    assert (Hmem : forall p, Grid.in_bounds g0 (fst p) (snd p) = true ->
              (In (flat g0 p) (pre ++ [i]) <-> In (flat g0 p) pre \/ p = (x, y))).
    { intros p Hp. rewrite in_app_iff. cbn [In]. split.
      - intros [H | [H | []]]; [left; exact H|]. right.
        apply (flat_inj g0); [exact Hp | exact Hb0 | congruence].
      - intros [H | ->]; [left; exact H|]. right. left. symmetry. exact Eflat. }
    destruct (filled gf (x, y)) eqn:Hf; cbn [negb].
    + eexists. split; [reflexivity|]. cbn [fst snd].
      split; [exact Hsw|]. split.
      * intros p Hp Hnin. apply Hcells; [exact Hp|].
        intros Hin. apply Hnin, in_or_app. left. exact Hin.
      * intros p. rewrite Hpath. split.
        -- intros (A & B & C & D). split; [exact A|]. split; [|auto].
           apply (Hmem p A). left. exact B.
        -- intros (A & B & C & D). split; [exact A|]. split; [|auto].
           apply (Hmem p A) in B. destruct B as [B | ->]; [exact B | congruence].
    + rewrite Hc. destruct (Z.land (cell_at gf x y) 15 =? 15) eqn:Hsolid; cbn [negb].
      * apply Z.eqb_eq in Hsolid.
        eexists. split; [reflexivity|]. cbn [fst snd].
        split; [exact Hsw|]. split.
        -- intros p Hp Hnin. apply Hcells; [exact Hp|].
           intros Hin. apply Hnin, in_or_app. left. exact Hin.
        -- intros p. rewrite Hpath. split.
           ++ intros (A & B & C & D). split; [exact A|]. split; [|auto].
              apply (Hmem p A). left. exact B.
           ++ intros (A & B & C & D). split; [exact A|]. split; [|auto].
              apply (Hmem p A) in B. destruct B as [B | ->]; [exact B|].
              cbn [fst snd] in D. congruence.
      * apply Z.eqb_neq in Hsolid.
        replace (Solver.or_cell g i Grid.PATH)
          with (Solver.or_cell g (y * Grid.width g + x) Grid.PATH)
          by (rewrite Eidx; reflexivity).
        rewrite (or_cell_mark g x y Grid.PATH Hwf Hb eq_refl), bind_Ok.
        eexists. split; [reflexivity|]. cbn [fst snd].
        split; [|split].
        -- apply same_walls_mark; [exact Hsw | exact Hb0 | reflexivity|].
           apply (mask_keeps_walls Grid.PATH). right. left. reflexivity.
        -- intros p Hp Hnin.
           assert (Hp' : Grid.in_bounds g (fst p) (snd p) = true)
             by (rewrite (in_bounds_dims g0 g) by assumption; exact Hp).
           rewrite (cell_at_write g x y _ (fst p) (snd p) Hwf Hb Hp').
           destruct ((x =? fst p) && (y =? snd p)) eqn:Exy.
           ++ exfalso. apply Hnin. apply (Hmem p Hp). right.
              apply andb_true_iff in Exy. destruct Exy as [A B].
              apply Z.eqb_eq in A, B. destruct p; cbn [fst snd] in *. congruence.
           ++ apply Hcells; [exact Hp|].
              intros Hin. apply Hnin, in_or_app. left. exact Hin.
        -- intros p. rewrite in_app_iff, Hpath. cbn [In]. split.
           ++ intros [(A & B & C & D) | [<- | []]].
              ** split; [exact A|]. split; [|auto]. apply (Hmem p A). left. exact B.
              ** cbn [fst snd]. split; [exact Hb0|]. split; [|auto].
                 apply (Hmem (x, y) Hb0). right. reflexivity.
           ++ intros (A & B & C & D). apply (Hmem p A) in B.
              destruct B as [B | ->]; [left; auto | right; left; reflexivity].
  - cbn [fst snd]. split; [exact Hsame|]. split; [reflexivity|].
    intros p. split; [intros [] | intros (_ & [] & _)].
  - cbn [fst snd] in Hfin. destruct Hfin as (Hsw & _ & Hpath).
    exists g', path. split; [exact Erun|]. split; [exact Hsw|].
    intros p. rewrite Hpath. split.
    + intros (A & B & C & D). auto.
    + intros (A & C & D). split; [exact A|]. split; [|auto].
      apply list_elem_of_In, elem_of_seqZ. pose proof (flat_in_range g0 p A). lia.
Qed.

Lemma kept_In (path : list (Z * Z)) (q : Z * Z) : kept path q = true <-> In q path.
Proof.
  unfold kept. rewrite existsb_exists. split.
  - intros (x & Hx & E). apply coord_eqb_eq in E. subst x. exact Hx.
  - intros H. exists q. split; [exact H | apply coord_eqb_refl].
Qed.

(** X23. On a well-formed grid with paired walls and no filler marks, with
    [start] and [end_] two different cells of the lattice and more fuel than
    cells, the dead-end filler returns with status Reduced and leaves the
    walls as they were; every walk from [start] to [end_] that visits no
    cell twice lies within the returned path, and no cell of the path other
    than [start] and [end_] has exactly one open neighbour in the path. *)
Theorem dead_end_filler_keeps_routes (g : Grid.t) (start end_ : Z * Z) (fuel : nat) :
  wf g -> symmetric_cells g ->
  (forall p, Grid.in_bounds g (fst p) (snd p) = true -> filled g p = false) ->
  Grid.in_bounds g (fst start) (snd start) = true ->
  Grid.in_bounds g (fst end_) (snd end_) = true ->
  start <> end_ ->
  (Z.to_nat (Grid.width g * Grid.height g) < fuel)%nat ->
  exists o, Solver.DeadEndFiller_run fuel g start end_ = Ok o /\
            filler_answer g start end_ o.
Proof.
  intros Hwf Hsym Hclear Hs He Hne Hfuel.
  destruct (filler_scan g start end_ Hwf Hclear Hs He) as (degrees & leaves & Escan & Hinv0).
  destruct (filler_loop_finishes g start end_ Hsym Hs He fuel
              (Solver.mk_filler g degrees leaves 0) Hinv0) as (st & Eloop & Hinv).
  { cbn [Solver.fl_grid]. unfold unfilled_count.
    pose proof (count_where_le (fun p => negb (filled g p)) (scanline g)) as H.
    destruct Hwf as (Hw & Hh & _).
    rewrite (scanline_length g Hw Hh) in H. lia. }
  pose proof (fi_walls _ _ _ _ _ _ _ Hinv) as Hsame.
  destruct (filler_collect_all g (Solver.fl_grid st) Hsame)
    as (g' & path & Ecol & Hsame' & Hpath).
  unfold Solver.DeadEndFiller_run.
  rewrite Escan, bind_Ok. cbn beta iota. rewrite Eloop, bind_Ok, Ecol, bind_Ok.
  cbn beta iota.
  eexists. split; [reflexivity|]. unfold filler_answer.
  cbn [Solver.last_status Solver.grid Solver.path].
  assert (Hopen : forall p q, step g p q ->
            Z.land (cell_at (Solver.fl_grid st) (fst p) (snd p)) 15 <> 15).
  { intros p q (Hp & _ & d & od & Hd & _ & Hbit).
    apply (open_wall_not_solid _ d Hd).
    destruct Hsame as (_ & _ & _ & Hwalls). rewrite Hwalls by assumption. exact Hbit. }
  split; [reflexivity|]. split; [exact Hsame'|]. split; [|split].
  - intros l Hw Hnd p Hp. apply Hpath.
    split; [apply (walk_cells_in_bounds g start end_ l Hw p Hp)|].
    split; [apply (fi_safe _ _ _ _ _ _ _ Hinv l Hw Hnd p Hp)|].
    destruct (walk_cells_step g start end_ l Hw Hne p Hp) as (q & [Hst | Hst]).
    + apply (Hopen p q Hst).
    + apply (Hopen p q). apply step_sym; assumption.
  - intros p Hp. apply Hpath in Hp. apply Hp.
  - intros p Hp Hps Hpe. apply Hpath in Hp. destruct Hp as (Hb & Hf & _).
    rewrite (count_where_same (fun q => negb (filled (Solver.fl_grid st) q))).
    + destruct (fi_deg _ _ _ _ _ _ _ Hinv p Hb Hf) as [_ Hd].
      specialize (Hd (fun H => H)). intros E.
      destruct (fi_complete _ _ _ _ _ _ _ Hinv p Hb Hf Hps Hpe).
      rewrite Hd. unfold free_degree. rewrite E. reflexivity.
    + intros q Hq. apply (open_list_step g p q Hb) in Hq.
      assert (Hqb : Grid.in_bounds g (fst q) (snd q) = true) by apply Hq.
      destruct (filled (Solver.fl_grid st) q) eqn:Hfq; cbn [negb].
      * destruct (kept path q) eqn:Hk; [|reflexivity].
        apply kept_In, Hpath in Hk. destruct Hk as (_ & Hk & _). congruence.
      * apply kept_In, Hpath. split; [exact Hqb|]. split; [exact Hfq|].
        apply (Hopen q p). apply step_sym; assumption.
Qed.

Lemma dead_end_filler_keeps_routes_witness :
  exists o,
    Solver.DeadEndFiller_run 5 (Grid.mk 2 2 [29; 19; 29; 22]) (0, 0) (1, 0) = Ok o /\
    filler_answer (Grid.mk 2 2 [29; 19; 29; 22]) (0, 0) (1, 0) o.
Proof.
  apply (dead_end_filler_keeps_routes (Grid.mk 2 2 [29; 19; 29; 22]) (0, 0) (1, 0) 5).
  - unfold wf; simpl. repeat split; try lia. repeat constructor.
  - intros x y d nx ny od Hd Ht Hb Hn.
    apply in_bounds_iff in Hb, Hn. cbn in Hb, Hn.
    assert (Hx : x = 0 \/ x = 1) by lia. assert (Hy : y = 0 \/ y = 1) by lia.
    apply directions_cases in Hd.
    destruct Hx as [-> | ->], Hy as [-> | ->], Hd as [ -> | [ -> | [ -> | -> ] ] ];
      cbn in Ht; injection Ht as <- <- <-; first [reflexivity | lia].
  - intros [x y] Hp. apply in_bounds_iff in Hp. cbn in Hp.
    assert (Hx : x = 0 \/ x = 1) by lia. assert (Hy : y = 0 \/ y = 1) by lia.
    destruct Hx as [-> | ->], Hy as [-> | ->]; reflexivity.
  - reflexivity.
  - reflexivity.
  - discriminate.
  - cbn. lia.
Defined.
